(** * Petri-Net: a shallow embedding of the 1-safe Petri net analyser

    The development follows the Python sources:
    - [utils/marking.py]                      ([Marking])
    - [utils/petri_net.py]                    ([PetriNet])
    - [bdd_reachability/symbolic_reachability.py] ([BDDReachability])
    - [explicit_reachability/reachability.py] ([ExplicitReachability])
    - [ilp_deadlock/deadlock_detector.py]     ([DeadlockDetector])
    - [optimization/optimizer.py]             ([MarkingOptimizer])
    - [pnml_parser/parser.py]                 ([PNMLParser])

    Python dictionaries are finite maps ([gmap]); Python sets are finite
    sets ([gset]); exceptions are the [Raise] results of a small error
    monad; objects that are mutated in place live in an explicit store. *)

From stdpp Require Import base option list sets gmap strings sorting.
From Stdlib Require Import ZArith Lia.

Local Open Scope Z_scope.
#[local] Set Warnings "-clear-no-such-hyp".

(** ** Exceptions *)

Inductive exn :=
| ValueError
| KeyError
| RuntimeError
| AttributeError
| StopIteration
| OutOfFuel.

Inductive result (A : Type) :=
| Ok (a : A)
| Raise (e : exn).
Arguments Ok {A} a.
Arguments Raise {A} e.

Definition bind {A B : Type} (r : result A) (k : A → result B) : result B :=
  match r with
  | Ok a => k a
  | Raise e => Raise e
  end.

Notation "x ←! r ; k" := (bind r (fun x => k))
  (at level 100, r at next level, right associativity).

(** [d[k]] on a dictionary: [KeyError] when the key is absent. *)
Definition getitem {V} (d : gmap string V) (k : string) : result V :=
  match d !! k with
  | Some v => Ok v
  | None => Raise KeyError
  end.

(** [for x in l: body(x)], threading the state and stopping at the first
    exception. *)
Fixpoint for_each {A S : Type} (l : list A) (body : A → S → result S) (s : S)
  : result S :=
  match l with
  | [] => Ok s
  | x :: l' => s' ←! body x s; for_each l' body s'
  end.

(** ** utils/marking.py

    A [Marking] object holds one dictionary [self.marking] from place ids to
    booleans; it is modelled by that dictionary. *)

Module Marking.

(** [bool(token)] for an integer token count. *)
Definition bool_of_token (z : Z) : bool := negb (z =? 0).

(** [Marking(marking_dict)] *)
Definition __init__ (marking_dict : gmap string Z) : gmap string bool :=
  bool_of_token <$> marking_dict.

(** [has_token]: [self.marking.get(place, False)] *)
Definition has_token (m : gmap string bool) (place : string) : bool :=
  default false (m !! place).

(** [set_token]: [self.marking[place] = bool(has_token)] *)
Definition set_token (m : gmap string bool) (place : string) (b : bool)
  : gmap string bool :=
  <[place := b]> m.

(** [get_tokens] *)
Definition get_tokens (m : gmap string bool) (place : string) : Z :=
  if has_token m place then 1 else 0.

(** [to_vector]: [[1 if self.has_token(place) else 0 for place in places]] *)
Definition to_vector (m : gmap string bool) (places : list string) : list Z :=
  (λ place, if has_token m place then 1 else 0) <$> places.

(** [from_vector]: a length check, then the dictionary comprehension over
    [zip(places, vector)] (a later pair overrides an earlier one with the
    same place). *)
Definition from_vector (vector : list Z) (places : list string)
  : result (gmap string bool) :=
  if decide (length vector = length places) then
    Ok (foldl (λ d pv, <[pv.1 := bool_of_token pv.2]> d) ∅ (zip places vector))
  else Raise ValueError.

(** [__eq__] between two [Marking] objects: equality of the dictionaries. *)
Definition __eq__ (m1 m2 : gmap string bool) : bool := bool_decide (m1 = m2).

(** [to_dict] *)
Definition to_dict (m : gmap string bool) : gmap string Z :=
  (λ b : bool, if b then 1 else 0) <$> m.

(** [total_tokens] *)
Definition total_tokens (m : gmap string bool) : nat :=
  length (filter (λ kv, kv.2 = true) (map_to_list m)).

(** [set_tokens]: [self.set_token(place, bool(tokens))] *)
Definition set_tokens (m : gmap string bool) (place : string) (tokens : Z)
  : gmap string bool :=
  set_token m place (bool_of_token tokens).

(** [copy]: [Marking(deepcopy(self.marking))]. The constructor applies [bool]
    to each stored value; a Python boolean is the integer 1 or 0. *)
Definition copy (m : gmap string bool) : gmap string bool :=
  __init__ ((λ b : bool, if b then 1 else 0) <$> m).

(** [x < y] on two items [(place, has_token)]: by the place id, and by the
    boolean ([False < True]) when the ids are equal. *)
Definition item_lt (x y : string * bool) : bool :=
  if decide (x.1 = y.1) then negb x.2 && y.2 else String.ltb x.1 y.1.

Definition item_le (x y : string * bool) : Prop :=
  item_lt x y = true ∨ x = y.

(** [to_tuple]: [tuple(sorted(self.marking.items()))] *)
Definition to_tuple (m : gmap string bool) : list (string * bool) :=
  merge_sort item_le (map_to_list m).

(** [to_binary_vector] *)
Definition to_binary_vector (m : gmap string bool) (places : list string)
  : list Z :=
  to_vector m places.

(** [get_places] *)
Definition get_places (m : gmap string bool) : gset string := dom m.

(** [t1 < t2] on two tuples of items: the first position where they differ
    decides; a proper prefix is smaller. *)
Fixpoint tuple_lt (t1 t2 : list (string * bool)) : bool :=
  match t1, t2 with
  | [], [] => false
  | [], _ :: _ => true
  | _ :: _, [] => false
  | x :: t1', y :: t2' =>
      if decide (x = y) then tuple_lt t1' t2' else item_lt x y
  end.

(** [__lt__] between two [Marking] objects. *)
Definition __lt__ (m1 m2 : gmap string bool) : bool :=
  tuple_lt (to_tuple m1) (to_tuple m2).

End Marking.

(** ** utils/petri_net.py *)

Module PetriNet.

(** One entry of [self.arcs]: [{'input': [...], 'output': [...]}]. *)
Record arc_info := ArcInfo {
  input : list string;
  output : list string;
}.

(** The attributes of a [PetriNet] object. [initial_marking] is optional
    because the engine reads it with [getattr(net, "initial_marking", None)];
    a [PetriNet] built by [__init__] always has it. [incidence] is the cache
    filled by [get_incidence]. *)
Record t := Net {
  places : gset string;
  transitions : gset string;
  arcs : gmap string arc_info;
  initial_marking : option (gmap string bool);
  incidence : option (gmap string (gmap string Z));
}.

(** [__init__] *)
Definition __init__ : t :=
  {| places := ∅; transitions := ∅; arcs := ∅;
     initial_marking := Some ∅; incidence := None |}.

(** [add_place] (the human-readable names play no role and are left out). *)
Definition add_place (net : t) (place_id : string) (has_token : bool) : result t :=
  if decide (place_id ∈ places net) then Raise ValueError
  else
    match initial_marking net with
    | None => Raise AttributeError
    | Some m0 =>
        Ok {| places := {[place_id]} ∪ places net;
              transitions := transitions net;
              arcs := arcs net;
              initial_marking := Some (Marking.set_token m0 place_id has_token);
              incidence := incidence net |}
    end.

(** [add_transition] *)
Definition add_transition (net : t) (transition_id : string) : result t :=
  if decide (transition_id ∈ transitions net) then Raise ValueError
  else
    Ok {| places := places net;
          transitions := {[transition_id]} ∪ transitions net;
          arcs := <[transition_id := ArcInfo [] []]> (arcs net);
          initial_marking := initial_marking net;
          incidence := incidence net |}.

Definition with_arcs (net : t) (a : gmap string arc_info) : t :=
  {| places := places net; transitions := transitions net; arcs := a;
     initial_marking := initial_marking net; incidence := incidence net |}.

(** [add_arc] *)
Definition add_arc (net : t) (source target : string) : result t :=
  if decide (source ∈ places net ∧ target ∈ transitions net) then
    let a := default (ArcInfo [] []) (arcs net !! target) in
    Ok (with_arcs net
          (<[target := ArcInfo (input a ++ [source]) (output a)]> (arcs net)))
  else if decide (source ∈ transitions net ∧ target ∈ places net) then
    let a := default (ArcInfo [] []) (arcs net !! source) in
    Ok (with_arcs net
          (<[source := ArcInfo (input a) (output a ++ [target])]> (arcs net)))
  else Raise ValueError.

(** [is_enabled], called with a [Marking] object. *)
Definition is_enabled (net : t) (transition : string) (marking : gmap string bool)
  : result bool :=
  if decide (transition ∈ transitions net) then
    a ←! getitem (arcs net) transition;
    Ok (forallb (Marking.has_token marking) (input a))
  else Raise ValueError.

(** [fire_transition] on marking values: the copy, the loop over the input
    places and the loop over the output places. *)
Definition fire_transition (net : t) (transition : string)
    (marking : gmap string bool) : result (gmap string bool) :=
  if decide (transition ∈ transitions net) then
    en ←! is_enabled net transition marking;
    if en then
      a ←! getitem (arcs net) transition;
      let new_marking := marking in
      let cleared :=
        foldl (λ m place, Marking.set_token m place false) new_marking (input a) in
      Ok (foldl (λ m place, Marking.set_token m place true) cleared (output a))
    else Raise ValueError
  else Raise ValueError.

(** [get_enabled_transitions]: the comprehension over the set
    [self.transitions] (iteration order of a set: [elements]). *)
Definition get_enabled_transitions (net : t) (marking : gmap string bool)
  : result (list string) :=
  for_each (elements (transitions net))
    (λ tr acc, en ←! is_enabled net tr marking;
               Ok (if en then acc ++ [tr] else acc)) [].

(** [get_incidence]: builds the matrix when the cache is empty. The source
    stores the zero matrix in [self.incidence] before the two loops fill it,
    so a call that raises [KeyError] in a loop leaves the partly filled
    matrix cached. A raising call has no net in this model: the model covers
    the calls that return, which are all the calls on a net whose arcs are
    over its own places. *)
Definition build_incidence (net : t) : result (gmap string (gmap string Z)) :=
  let zero_row : gmap string Z := gset_to_gmap 0 (transitions net) in
  let bump (d : Z) (tr p : string) (c : gmap string (gmap string Z)) :=
    row ←! getitem c p;
    v ←! getitem row tr;
    Ok (<[p := <[tr := v + d]> row]> c) in
  for_each (elements (transitions net))
    (λ tr c,
       a ←! getitem (arcs net) tr;
       c1 ←! for_each (input a) (bump (-1) tr) c;
       for_each (output a) (bump 1 tr) c1)
    (gset_to_gmap zero_row (places net)).

Definition get_incidence (net : t)
  : result (gmap string (gmap string Z) * t) :=
  match incidence net with
  | Some c => Ok (c, net)
  | None =>
      c ←! build_incidence net;
      Ok (c, {| places := places net; transitions := transitions net;
                arcs := arcs net; initial_marking := initial_marking net;
                incidence := Some c |})
  end.

(** [validate_consistency]: the list [errors] built by the first two loops,
    the third loop that completes the initial marking, and the returned pair
    together with the updated net. *)
Definition validate_consistency (net : t)
  : result (bool * list string * t) :=
  let errors :=
    foldl (λ errors trans,
             if decide (trans ∈ dom (arcs net)) then errors
             else errors ++ ["Transition " +:+ trans
                             +:+ " has no arc information"])
          [] (elements (transitions net)) in
  let errors :=
    foldl (λ errors (item : string * arc_info),
             let errors :=
               if decide (item.1 ∈ transitions net) then errors
               else errors ++ ["Arc references non-existent transition "
                               +:+ item.1] in
             let errors :=
               foldl (λ errors place,
                        if decide (place ∈ places net) then errors
                        else errors
                             ++ ["Input arc references non-existent place "
                                 +:+ place])
                     errors (input item.2) in
             foldl (λ errors place,
                      if decide (place ∈ places net) then errors
                      else errors
                           ++ ["Output arc references non-existent place "
                               +:+ place])
                   errors (output item.2))
          errors (map_to_list (arcs net)) in
  im ←! for_each (elements (places net))
          (λ place im,
             match im with
             | None => Raise AttributeError
             | Some m0 =>
                 if decide (place ∈ dom m0) then Ok (Some m0)
                 else Ok (Some (Marking.set_tokens m0 place 0))
             end)
          (initial_marking net);
  Ok (bool_decide (length errors = 0%nat), errors,
      {| places := places net; transitions := transitions net;
         arcs := arcs net; initial_marking := im;
         incidence := incidence net |}).

End PetriNet.

(** ** Marking objects in a store

    [fire_transition] copies its argument and mutates the copy with
    [set_token]. To speak about freshness and about the argument being left
    alone, [Marking] objects are also modelled by identity: a store maps
    object identities to the dictionary each object holds. *)

Module Store.

(** [Marking(deepcopy(d))]: a new object, holding the dictionary [d]. *)
Definition alloc (h : gmap positive (gmap string bool)) (d : gmap string bool)
  : positive * gmap positive (gmap string bool) :=
  let l := fresh (dom h) in (l, <[l := d]> h).

(** [Marking.set_token] on the object [l]. *)
Definition set_token (l : positive) (place : string) (b : bool)
    (h : gmap positive (gmap string bool)) : gmap positive (gmap string bool) :=
  alter (λ m, Marking.set_token m place b) l h.

(** [PetriNet.fire_transition] on the object [l]: the outcome (the new object
    or an exception) and the store afterwards. *)
Definition fire_transition (net : PetriNet.t) (transition : string)
    (l : positive) (h : gmap positive (gmap string bool))
  : result positive * gmap positive (gmap string bool) :=
  if decide (transition ∈ PetriNet.transitions net) then
    match h !! l with
    | None => (Raise AttributeError, h)
    | Some marking =>
        match PetriNet.is_enabled net transition marking with
        | Raise e => (Raise e, h)
        | Ok false => (Raise ValueError, h)
        | Ok true =>
            let (new_marking, h1) := alloc h marking in
            match getitem (PetriNet.arcs net) transition with
            | Raise e => (Raise e, h1)
            | Ok a =>
                let h2 := foldl (λ h place, set_token new_marking place false h)
                                h1 (PetriNet.input a) in
                let h3 := foldl (λ h place, set_token new_marking place true h)
                                h2 (PetriNet.output a) in
                (Ok new_marking, h3)
            end
        end
    end
  else (Raise ValueError, h).

(** [Marking.copy] on the object [l]: the new object and the store
    afterwards. *)
Definition copy (l : positive) (h : gmap positive (gmap string bool))
  : result positive * gmap positive (gmap string bool) :=
  match h !! l with
  | None => (Raise AttributeError, h)
  | Some m => let (l', h') := alloc h (Marking.copy m) in (Ok l', h')
  end.

End Store.

(** ** The BDD manager ([dd.autoref.BDD], an external library)

    A reduced ordered BDD is a canonical form of a Boolean function of the
    declared variables, so a [Function] node is modelled by the function it
    denotes and node equality by equality of the two functions on every
    valuation of the declared variables. A valuation is the set of variable
    names that are true. *)

Module BDD.

Record manager := Manager { vars : list string }.

(** [BDD()] *)
Definition new : manager := Manager [].

(** [bdd.declare(name)]: declaring a known name changes nothing. *)
Definition declare (b : manager) (name : string) : manager :=
  if decide (name ∈ vars b) then b else Manager (vars b ++ [name]).

(** [bdd.var(name)]: the name must have been declared. *)
Definition var (b : manager) (name : string) : result (gset string → bool) :=
  if decide (name ∈ vars b) then Ok (λ a, bool_decide (name ∈ a))
  else Raise ValueError.

(** [bdd.true], [bdd.false], [u & v], [u | v], [~u] *)
Definition true_ : gset string → bool := λ _, true.
Definition false_ : gset string → bool := λ _, false.
Definition __and__ (u v : gset string → bool) : gset string → bool :=
  λ a, u a && v a.
Definition __or__ (u v : gset string → bool) : gset string → bool :=
  λ a, u a || v a.
Definition __invert__ (u : gset string → bool) : gset string → bool :=
  λ a, negb (u a).

(** Every valuation of the given names. *)
Fixpoint assignments (names : list string) : list (gset string) :=
  match names with
  | [] => [∅]
  | x :: names' =>
      let rest := assignments names' in
      rest ++ ((λ a, {[x]} ∪ a) <$> rest)
  end.

(** [u == v] and [u != v] on nodes of the manager [b]. *)
Definition __eq__ (b : manager) (u v : gset string → bool) : bool :=
  forallb (λ a, Bool.eqb (u a) (v a)) (assignments (vars b)).
Definition __ne__ (b : manager) (u v : gset string → bool) : bool :=
  negb (__eq__ b u v).

(** [bdd.exist(names, u)] *)
Definition exist1 (x : string) (u : gset string → bool) : gset string → bool :=
  λ a, u ({[x]} ∪ a) || u (a ∖ {[x]}).
Definition exist (b : manager) (names : list string) (u : gset string → bool)
  : result (gset string → bool) :=
  if decide (Forall (λ x, x ∈ vars b) names) then Ok (foldr exist1 u names)
  else Raise KeyError.

(** [bdd.let(definitions, u)]: simultaneous substitution of nodes for
    variables. *)
Definition let_ (b : manager) (definitions : gmap string (gset string → bool))
    (u : gset string → bool) : result (gset string → bool) :=
  if decide (Forall (λ x, x ∈ vars b) (elements (dom definitions))) then
    Ok (λ a, u ((a ∖ dom definitions)
                ∪ dom (filter (λ kv, kv.2 a = true) definitions)))
  else Raise KeyError.

(** [bdd.support(u)]: the declared variables the function depends on. *)
Definition support (b : manager) (u : gset string → bool) : list string :=
  filter (λ x, __ne__ b (λ a, u ({[x]} ∪ a)) (λ a, u (a ∖ {[x]})) = true) (vars b).

(** [bdd.pick_iter(u)] without [care_vars]: the satisfying assignments over
    the support of [u], each a dictionary from the support to booleans.
    Variables outside the support do not occur in the dictionaries. The order
    of the enumeration is not part of the model. *)
Definition pick_iter (b : manager) (u : gset string → bool)
  : list (gmap string bool) :=
  let s := support b u in
  (λ a : gset string,
     list_to_map ((λ x, (x, bool_decide (x ∈ a))) <$> s) : gmap string bool)
  <$> filter (λ a, u a = true) (assignments s).

End BDD.

(** ** bdd_reachability/symbolic_reachability.py *)

Module BDDReachability.

(** The attributes of a [BDDReachability] object. *)
Record t := Engine {
  petri_net : PetriNet.t;
  bdd_manager : option BDD.manager;
  place_var : gmap string (gset string → bool);
  next_var : gmap string (gset string → bool);
  trans_in : gmap string (list string);
  trans_out : gmap string (list string);
  transition_relation : option (gset string → bool);
  reachable_bdd : option (gset string → bool);
}.

(** [__init__] *)
Definition __init__ (petri_net : PetriNet.t) : t :=
  Engine petri_net None ∅ ∅ ∅ ∅ None None.

(** [sorted(...)] on a set of strings. *)
Definition sorted (s : gset string) : list string :=
  merge_sort String.le (elements s).

(** The name of the next-state variable of a place: [p + "'"]. *)
Definition primed (p : string) : string := p +:+ "'".

(** [d.setdefault(k, [])] *)
Definition setdefault (d : gmap string (list string)) (k : string)
  : gmap string (list string) :=
  match d !! k with
  | Some _ => d
  | None => <[k := []]> d
  end.

(** [_build_transition_maps] for a net whose [arcs] attribute is the
    dictionary of [utils.PetriNet]: the first branch of the method, which
    returns. The result is the pair ([trans_in], [trans_out]). *)
Definition _build_transition_maps (e : t)
  : gmap string (list string) * gmap string (list string) :=
  let net := petri_net e in
  let ts := elements (PetriNet.transitions net) in
  let ti0 := foldl setdefault (trans_in e) ts in
  let to0 := foldl setdefault (trans_out e) ts in
  foldl (λ (acc : gmap string (list string) * gmap string (list string))
           (item : string * PetriNet.arc_info),
           if decide (item.1 ∈ PetriNet.transitions net) then
             (<[item.1 := PetriNet.input item.2]> acc.1,
              <[item.1 := PetriNet.output item.2]> acc.2)
           else acc)
        (ti0, to0) (map_to_list (PetriNet.arcs net)).

(** The constraint on one place in [update_t]. *)
Definition next_cons_step (e : t) (pre post : list string) (p : string)
    (next_cons : gset string → bool) : result (gset string → bool) :=
  x ←! getitem (place_var e) p;
  xp ←! getitem (next_var e) p;
  if decide (p ∈ post) then Ok (BDD.__and__ next_cons xp)
  else if decide (p ∈ pre) then Ok (BDD.__and__ next_cons (BDD.__invert__ xp))
  else Ok (BDD.__and__ next_cons
             (BDD.__or__ (BDD.__and__ (BDD.__invert__ x) (BDD.__invert__ xp))
                         (BDD.__and__ x xp))).

(** [_build_transition_relation]: returns the relation [T]. *)
Definition _build_transition_relation (e : t) : result (gset string → bool) :=
  match bdd_manager e with
  | None => Raise RuntimeError
  | Some bdd =>
      let places := sorted (PetriNet.places (petri_net e)) in
      for_each (elements (PetriNet.transitions (petri_net e)))
        (λ tr T,
           let pre := default [] (trans_in e !! tr) in
           let post := default [] (trans_out e !! tr) in
           enabled ←! for_each pre
                        (λ p enabled, x ←! getitem (place_var e) p;
                                      Ok (BDD.__and__ enabled x))
                        BDD.true_;
           next_cons ←! for_each places (next_cons_step e pre post) BDD.true_;
           Ok (BDD.__or__ T (BDD.__and__ enabled next_cons)))
        BDD.false_
  end.

(** The loop of [initialize_bdd] that declares [p] and [p'] and stores the
    two variable nodes, for one place. *)
Definition declare_place (p : string)
    (s : BDD.manager * gmap string (gset string → bool)
         * gmap string (gset string → bool))
  : result (BDD.manager * gmap string (gset string → bool)
            * gmap string (gset string → bool)) :=
  let b := BDD.declare (BDD.declare s.1.1 p) (primed p) in
  x ←! BDD.var b p;
  xp ←! BDD.var b (primed p);
  Ok (b, <[p := x]> s.1.2, <[p := xp]> s.2).

(** [initialize_bdd] *)
Definition initialize_bdd (e : t) : result t :=
  let places := sorted (PetriNet.places (petri_net e)) in
  s ←! for_each places declare_place (BDD.new, ∅, ∅);
  let e1 := Engine (petri_net e) (Some s.1.1) s.1.2 s.2
                   (trans_in e) (trans_out e)
                   (transition_relation e) (reachable_bdd e) in
  let maps := _build_transition_maps e1 in
  let e2 := Engine (petri_net e) (Some s.1.1) s.1.2 s.2 maps.1 maps.2
                   (transition_relation e) (reachable_bdd e) in
  T ←! _build_transition_relation e2;
  Ok (Engine (petri_net e) (Some s.1.1) s.1.2 s.2 maps.1 maps.2
             (Some T) (Some BDD.false_)).

(** [encode_marking], called with a [Marking] object. *)
Definition encode_marking (e : t) (marking : gmap string bool)
  : result (gset string → bool) :=
  match bdd_manager e with
  | None => Raise RuntimeError
  | Some bdd =>
      for_each (sorted (PetriNet.places (petri_net e)))
        (λ p node,
           v ←! getitem (place_var e) p;
           if Marking.has_token marking p then Ok (BDD.__and__ node v)
           else Ok (BDD.__and__ node (BDD.__invert__ v)))
        BDD.true_
  end.

(** [post] *)
Definition post (e : t) (R : gset string → bool) : result (gset string → bool) :=
  match bdd_manager e with
  | None => Raise RuntimeError
  | Some bdd =>
      match transition_relation e with
      | None => Ok BDD.false_
      | Some T =>
          let prod := BDD.__and__ R T in
          let places := sorted (PetriNet.places (petri_net e)) in
          prod1 ←! match places with
                   | [] => Ok prod
                   | _ => BDD.exist bdd places prod
                   end;
          rename_map ←! for_each places
                          (λ p d, x ←! getitem (place_var e) p;
                                  Ok (<[primed p := x]> d)) ∅;
          if decide (dom rename_map = ∅) then Ok prod1
          else BDD.let_ bdd rename_map prod1
      end
  end.

(** The [while True] loop of [compute_symbolic_reachability]; [fuel] bounds
    the number of iterations. *)
Fixpoint fixpoint_loop (fuel : nat) (e : t) (bdd : BDD.manager)
    (R : gset string → bool) : result (gset string → bool) :=
  match fuel with
  | O => Raise OutOfFuel
  | S fuel' =>
      postR ←! post e R;
      let Rnext := BDD.__or__ R postR in
      if BDD.__eq__ bdd Rnext R then Ok R
      else fixpoint_loop fuel' e bdd Rnext
  end.

Definition with_reachable (e : t) (R : gset string → bool) : t :=
  Engine (petri_net e) (bdd_manager e) (place_var e) (next_var e)
         (trans_in e) (trans_out e) (transition_relation e) (Some R).

(** [compute_symbolic_reachability], called with a [Marking] object: the
    reachable set and the updated engine. *)
Definition compute_symbolic_reachability (fuel : nat)
    (initial_marking : gmap string bool) (e : t)
  : result ((gset string → bool) * t) :=
  e1 ←! match bdd_manager e with
        | None => initialize_bdd e
        | Some _ => Ok e
        end;
  R0 ←! encode_marking e1 initial_marking;
  match bdd_manager e1 with
  | None => Raise RuntimeError
  | Some bdd =>
      R ←! fixpoint_loop fuel e1 bdd R0;
      Ok (R, with_reachable e1 R)
  end.

(** [_extract_markings_from_bdd] *)
Definition _extract_markings_from_bdd (e : t)
    (reachable_bdd : gset string → bool) (places : list string)
  : result (gset (gmap string bool)) :=
  match bdd_manager e with
  | None => Raise AttributeError
  | Some bdd =>
      match places with
      | [] =>
          if BDD.__ne__ bdd reachable_bdd BDD.false_
          then Ok {[ Marking.__init__ ∅ ]} else Ok ∅
      | _ =>
          Ok (foldl
                (λ (results : gset (gmap string bool)) (assign : gmap string bool),
                   let m := foldl
                     (λ (m : gmap string Z) p,
                        let val := default false (assign !! p) in
                        <[p := if val then 1 else 0]> m) ∅ places in
                   {[ Marking.__init__ m ]} ∪ results)
                ∅ (BDD.pick_iter bdd reachable_bdd))
      end
  end.

(** [extract_markings] *)
Definition extract_markings (e : t)
    (reachable_bdd : option (gset string → bool))
  : result (gset (gmap string bool)) :=
  match bdd_manager e with
  | None => Raise RuntimeError
  | Some _ =>
      let reachable_bdd :=
        match reachable_bdd with
        | None => BDDReachability.reachable_bdd e
        | Some r => Some r
        end in
      match reachable_bdd with
      | None => Ok ∅
      | Some r =>
          _extract_markings_from_bdd e r (sorted (PetriNet.places (petri_net e)))
      end
  end.

(** [is_reachable], called with a [Marking] object: the answer and the
    updated engine. *)
Definition is_reachable (fuel : nat) (marking : gmap string bool) (e : t)
  : result (bool * t) :=
  let answer (e' : t) : result (bool * t) :=
    enc ←! encode_marking e' marking;
    match reachable_bdd e', bdd_manager e' with
    | Some R, Some bdd => Ok (BDD.__ne__ bdd (BDD.__and__ enc R) BDD.false_, e')
    | _, _ => Raise AttributeError
    end in
  match reachable_bdd e with
  | None =>
      match PetriNet.initial_marking (petri_net e) with
      | None => Ok (false, e)
      | Some init =>
          bind (compute_symbolic_reachability fuel init e) (λ r, answer r.2)
      end
  | Some _ => answer e
  end.

(** The dictionary [{"name": ..., "pre": ..., "post": ...}] returned by
    [encode_transition]. *)
Record transition_encoding := TransitionEncoding {
  enc_name : string;
  enc_pre : list string;
  enc_post : list string;
}.

(** [encode_transition] *)
Definition encode_transition (e : t) (tr : string) : transition_encoding :=
  TransitionEncoding tr (default [] (trans_in e !! tr))
                        (default [] (trans_out e !! tr)).

(** [encode_all_transitions] *)
Definition encode_all_transitions (e : t) : list transition_encoding :=
  encode_transition e <$> elements (PetriNet.transitions (petri_net e)).

(** [satisfies]: [marking_bdd == self.encode_marking(marking)] *)
Definition satisfies (e : t) (marking_bdd : gset string → bool)
    (marking : gmap string bool) : result bool :=
  enc ←! encode_marking e marking;
  match bdd_manager e with
  | Some bdd => Ok (BDD.__eq__ bdd marking_bdd enc)
  | None => Raise AttributeError
  end.

End BDDReachability.

(** ** explicit_reachability/reachability.py *)

Module ExplicitReachability.

(** The attributes of an [ExplicitReachability] object. *)
Record t := Explorer {
  petri_net : PetriNet.t;
  reachable_markings : gset (gmap string bool);
  transition_graph : gmap (gmap string bool) (gmap string (gmap string bool));
}.

(** [__init__] *)
Definition __init__ (petri_net : PetriNet.t) : t := Explorer petri_net ∅ ∅.

(** The state of the search: the queue, the set of reached markings and the
    transition graph. *)
Record search := Search {
  queue : list (gmap string bool);
  reached : gset (gmap string bool);
  graph : gmap (gmap string bool) (gmap string (gmap string bool));
}.

(** [graph.setdefault(m, {})] *)
Definition graph_setdefault
    (g : gmap (gmap string bool) (gmap string (gmap string bool)))
    (m : gmap string bool)
  : gmap (gmap string bool) (gmap string (gmap string bool)) :=
  match g !! m with
  | Some _ => g
  | None => <[m := ∅]> g
  end.

(** The body of [for t in enabled]. *)
Definition explore (net : PetriNet.t) (current : gmap string bool)
    (tr : string) (s : search) : result search :=
  new_marking ←! PetriNet.fire_transition net tr current;
  let g1 := graph_setdefault (graph s) current in
  let g2 := <[current := <[tr := new_marking]> (default ∅ (g1 !! current))]> g1 in
  if decide (new_marking ∈ reached s) then Ok (Search (queue s) (reached s) g2)
  else Ok (Search (queue s ++ [new_marking]) ({[new_marking]} ∪ reached s)
                  (graph_setdefault g2 new_marking)).

(** The [while queue] loop; [fuel] bounds the number of dequeued markings. *)
Fixpoint bfs_loop (fuel : nat) (net : PetriNet.t) (s : search) : result search :=
  match queue s with
  | [] => Ok s
  | current :: rest =>
      match fuel with
      | O => Raise OutOfFuel
      | S fuel' =>
          enabled ←! PetriNet.get_enabled_transitions net current;
          s' ←! for_each enabled (explore net current)
                  (Search rest (reached s) (graph s));
          bfs_loop fuel' net s'
      end
  end.

(** [compute_reachability], called with [None] or with a [Marking] object:
    the returned set and the updated explorer. *)
Definition compute_reachability (fuel : nat)
    (initial_marking : option (gmap string bool)) (x : t)
  : result (gset (gmap string bool) * t) :=
  initial ←! match initial_marking with
             | None =>
                 match PetriNet.initial_marking (petri_net x) with
                 | Some m => Ok m
                 | None => Raise AttributeError
                 end
             | Some m => Ok m
             end;
  s ←! bfs_loop fuel (petri_net x)
         (Search [initial] {[initial]} {[initial := ∅]});
  Ok (reached s, Explorer (petri_net x) (reached s) (graph s)).

(** [is_reachable] *)
Definition is_reachable (x : t) (target : gmap string bool) : bool :=
  bool_decide (target ∈ reachable_markings x).

End ExplicitReachability.

(** ** The integer linear programs handed to the solver ([pulp], an external
    library) *)

Module ILP.

(** The decision variables: [x[p]] for a place and [n[t]] for a transition. *)
Inductive lpvar :=
| X (p : string)
| N (tr : string).

(** An affine expression: a list of (coefficient, variable) and a constant. *)
Record affine := Affine {
  terms : list (Z * lpvar);
  constant : Z;
}.

Inductive sense := LpEQ | LpLE | LpGE.

(** [lhs sense rhs] *)
Record constraint := Constraint {
  lhs : affine;
  rel : sense;
  rhs : affine;
}.

(** An [LpProblem]: the binary variables, the non-negative integer
    variables, the objective (to minimize) and the constraints. *)
Record problem := Problem {
  binaries : list string;
  integers : list string;
  objective : affine;
  constraints : list constraint;
}.

(** [v.varValue if v.varValue is not None else 0] *)
Definition value (sol : lpvar → option Z) (v : lpvar) : Z := default 0 (sol v).

Definition eval (sol : lpvar → option Z) (a : affine) : Z :=
  foldr (λ cv acc, cv.1 * value sol cv.2 + acc) (constant a) (terms a).

Definition holds (sol : lpvar → option Z) (c : constraint) : Prop :=
  match rel c with
  | LpEQ => eval sol (lhs c) = eval sol (rhs c)
  | LpLE => eval sol (lhs c) ≤ eval sol (rhs c)
  | LpGE => eval sol (rhs c) ≤ eval sol (lhs c)
  end.

#[global] Instance holds_dec (sol : lpvar → option Z) (c : constraint) :
  Decision (holds sol c).
Proof. unfold holds. destruct (rel c); apply _. Defined.

(** A solution of a problem: the binary variables have the value 0 or 1, the
    integer variables are not negative, and every constraint holds. *)
Definition feasible (prob : problem) (sol : lpvar → option Z) : Prop :=
  Forall (λ p, value sol (X p) = 0 ∨ value sol (X p) = 1) (binaries prob)
  ∧ Forall (λ tr, 0 ≤ value sol (N tr)) (integers prob)
  ∧ Forall (holds sol) (constraints prob).

#[global] Instance feasible_dec (prob : problem) (sol : lpvar → option Z) :
  Decision (feasible prob sol).
Proof. unfold feasible. apply _. Defined.

(** [prob += c] *)
Definition add_constraint (prob : problem) (c : constraint) : problem :=
  Problem (binaries prob) (integers prob) (objective prob)
          (constraints prob ++ [c]).

(** [pulp.lpSum] of variables. *)
Definition lpSum (vs : list lpvar) : affine :=
  Affine ((λ v, (1, v)) <$> vs) 0.

End ILP.

(** ** ilp_deadlock/deadlock_detector.py *)

Module DeadlockDetector.

(** The attributes of a [DeadlockDetector] object. *)
Record t := Detector {
  net : PetriNet.t;
  reachable_bdd : gset string → bool;
  manager : BDD.manager;
  deadlocks : list (gmap string bool);
  initial_marking : gmap string Z;
}.

(** [__init__] *)
Definition __init__ (petri_net : PetriNet.t)
    (reachable_bdd : option (gset string → bool))
    (bdd_manager : option BDD.manager) : result t :=
  match reachable_bdd, bdd_manager with
  | Some R, Some b =>
      match PetriNet.initial_marking petri_net with
      | Some m0 => Ok (Detector petri_net R b [] (Marking.to_dict m0))
      | None => Raise AttributeError
      end
  | _, _ => Raise ValueError
  end.

(** [_is_reachable] *)
Definition _is_reachable (d : t) (marking : gmap string Z) : result bool :=
  let bdd_marking : gmap string (gset string → bool) :=
    (λ v, if Marking.bool_of_token v then BDD.true_ else BDD.false_)
      <$> marking in
  u ←! BDD.let_ (manager d) bdd_marking (reachable_bdd d);
  Ok (BDD.__eq__ (manager d) u BDD.true_).

(** The first loop of [detect_deadlock]: is there a transition without input
    places? *)
Fixpoint has_source_transition (arcs : gmap string PetriNet.arc_info)
    (ts : list string) : result bool :=
  match ts with
  | [] => Ok false
  | tr :: ts' =>
      a ←! getitem arcs tr;
      match PetriNet.input a with
      | [] => Ok true
      | _ => has_source_transition arcs ts'
      end
  end.

(** [x[p]] in the dictionary of binary variables. *)
Definition x_var (places : gset string) (p : string) : result ILP.lpvar :=
  if decide (p ∈ places) then Ok (ILP.X p) else Raise KeyError.

(** The state equation of one place:
    [x[p] == M0[p] + lpSum(C[p][t] * n[t] for t in transitions)]. *)
Definition state_equation (d : t) (c : gmap string (gmap string Z))
    (p : string) (prob : ILP.problem) : result ILP.problem :=
  m0p ←! getitem (initial_marking d) p;
  row ←! getitem c p;
  ts ←! for_each (elements (PetriNet.transitions (net d)))
          (λ tr acc, v ←! getitem row tr; Ok (acc ++ [(v, ILP.N tr)])) [];
  Ok (ILP.add_constraint prob
        (ILP.Constraint (ILP.lpSum [ILP.X p]) ILP.LpEQ (ILP.Affine ts m0p))).

(** The deadlock constraint of one transition:
    [lpSum(x[p] for p in preset) <= len(preset) - 1] when the preset is not
    empty. *)
Definition dead_constraint (d : t) (tr : string) (prob : ILP.problem)
  : result ILP.problem :=
  a ←! getitem (PetriNet.arcs (net d)) tr;
  let preset := PetriNet.input a in
  match preset with
  | [] => Ok prob
  | _ =>
      xs ←! for_each preset
              (λ p acc, v ←! x_var (PetriNet.places (net d)) p; Ok (acc ++ [v]))
              [];
      Ok (ILP.add_constraint prob
            (ILP.Constraint (ILP.lpSum xs) ILP.LpLE
               (ILP.Affine [] (Z.of_nat (length preset) - 1))))
  end.

(** The canonical cut that removes one candidate:
    [lpSum(1 - x[p] if val == 1 else x[p]) >= 1]. *)
Definition cut (candidate_marking : gmap string Z) : ILP.constraint :=
  ILP.Constraint
    (foldr (λ (pv : string * Z) (acc : ILP.affine),
              if decide (pv.2 = 1)
              then ILP.Affine ((-1, ILP.X pv.1) :: ILP.terms acc)
                              (1 + ILP.constant acc)
              else ILP.Affine ((1, ILP.X pv.1) :: ILP.terms acc)
                              (ILP.constant acc))
           (ILP.Affine [] 0) (map_to_list candidate_marking))
    ILP.LpGE (ILP.Affine [] 1).

Section Solver.

(** [prob.solve(...)]: the values of the variables when the status is
    optimal, [None] for any other status. *)
Variable solve : ILP.problem → option (ILP.lpvar → option Z).

(** The candidate read off a solution:
    [{p: int(x[p].varValue ...) for p in places}]. *)
Definition candidate (places : gset string) (sol : ILP.lpvar → option Z)
  : gmap string Z :=
  foldl (λ m p, <[p := ILP.value sol (ILP.X p)]> m) ∅ (elements places).

(** The iterative cutting loop; [fuel] bounds the number of solver calls. *)
Fixpoint cutting_loop (fuel : nat) (d : t) (prob : ILP.problem)
  : result (option (gmap string bool) * t) :=
  match fuel with
  | O => Raise OutOfFuel
  | S fuel' =>
      match solve prob with
      | None => Ok (None, d)
      | Some sol =>
          let candidate_marking := candidate (PetriNet.places (net d)) sol in
          reachable ←! _is_reachable d candidate_marking;
          if reachable then
            let deadlock := Marking.__init__ candidate_marking in
            Ok (Some deadlock,
                Detector (net d) (reachable_bdd d) (manager d)
                         (deadlocks d ++ [deadlock]) (initial_marking d))
          else
            cutting_loop fuel' d (ILP.add_constraint prob (cut candidate_marking))
      end
  end.

(** [detect_deadlock]: the returned marking (or [None]) and the updated
    detector. *)
Definition detect_deadlock (fuel : nat) (d : t)
  : result (option (gmap string bool) * t) :=
  let ts := elements (PetriNet.transitions (net d)) in
  let ps := elements (PetriNet.places (net d)) in
  src ←! has_source_transition (PetriNet.arcs (net d)) ts;
  if src then Ok (None, d)
  else
    ci ←! PetriNet.get_incidence (net d);
    let d1 := Detector ci.2 (reachable_bdd d) (manager d) (deadlocks d)
                       (initial_marking d) in
    let prob0 := ILP.Problem ps ts (ILP.Affine [] 0) [] in
    prob1 ←! for_each ps (state_equation d1 ci.1) prob0;
    let prob2 := ILP.Problem (ILP.binaries prob1) (ILP.integers prob1)
                   (ILP.lpSum (ILP.N <$> ts)) (ILP.constraints prob1) in
    prob3 ←! for_each ts (dead_constraint d1) prob2;
    cutting_loop fuel d1 prob3.

(** [is_deadlock_free] *)
Definition is_deadlock_free (fuel : nat) (d : t) : result bool :=
  r ←! detect_deadlock fuel d;
  Ok (match r.1 with None => true | Some _ => false end).

End Solver.

End DeadlockDetector.

(** ** optimization/optimizer.py *)

Module MarkingOptimizer.

(** [{p: (1 if bool(assign.get(p, False)) else 0) for p in places}] *)
Definition marking_of_assign (places : list string) (assign : gmap string bool)
  : gmap string Z :=
  list_to_map
    ((λ p, (p, if default false (assign !! p) then 1 else 0)) <$> places).

(** [sum(int(place_weights.get(p, 0)) for p, v in marking.items() if v)] *)
Definition score_of (place_weights : gmap string Z) (marking : gmap string Z) : Z :=
  foldr (λ (pv : string * Z) acc,
           if Marking.bool_of_token pv.2
           then default 0 (place_weights !! pv.1) + acc else acc)
        0 (map_to_list marking).

(** [sorted(places, key=lambda x: (-key(x), x))] *)
Definition key_le (key : string → Z) (p q : string) : Prop :=
  - key p < - key q ∨ (- key p = - key q ∧ String.le p q).

Definition sorted_by (key : string → Z) (places : list string) : list string :=
  merge_sort (key_le key) places.

(** The loop that fills [suffix_pos]:
    [suffix_pos[i] = suffix_pos[i + 1] + pos_weights[i]], [suffix_pos[n] = 0]. *)
Fixpoint suffix_sums (pos_weights : list Z) : list Z :=
  match pos_weights with
  | [] => [0]
  | w :: ws =>
      let r := suffix_sums ws in
      (default 0 (head r) + w) :: r
  end.

(** The variables captured and mutated by [dfs]: [best_score] ([None] is
    [float('-inf')]), [best_mark] and the dictionary [assignment], which is
    shared by all the calls. *)
Record dfs_state := DfsState {
  best_score : option Z;
  best_mark : option (gmap string Z);
  assignment : gmap string Z;
}.

Definition set_assignment (st : dfs_state) (a : gmap string Z) : dfs_state :=
  DfsState (best_score st) (best_mark st) a.

(** [optimistic <= best_score] *)
Definition le_best (optimistic : Z) (best : option Z) : bool :=
  match best with
  | None => false
  | Some b => bool_decide (optimistic ≤ b)
  end.

(** [cur_score > best_score] *)
Definition gt_best (cur_score : Z) (best : option Z) : bool :=
  match best with
  | None => true
  | Some b => bool_decide (b < cur_score)
  end.

Section Dfs.

Variable bdd : BDD.manager.
Variable weights : gmap string Z.
Variable suffix_pos : list Z.

(** [dfs(idx, node, assignment, cur_score)]; [rest] is [order[idx:]], so that
    [idx == n] is [rest = []] and [order[idx]] is the head of [rest]. *)
Fixpoint dfs (rest : list string) (idx : nat) (node : gset string → bool)
    (cur_score : Z) (st : dfs_state) : result dfs_state :=
  let optimistic := cur_score + default 0 (suffix_pos !! idx) in
  if le_best optimistic (best_score st) then Ok st
  else
    match rest with
    | [] =>
        if gt_best cur_score (best_score st)
        then Ok (DfsState (Some cur_score) (Some (assignment st)) (assignment st))
        else Ok st
    | p :: rest' =>
        vp ←! BDD.var bdd p;
        let node1 := BDD.__and__ node vp in
        st1 ←! (if BDD.__ne__ bdd node1 BDD.false_ then
                  st' ←! dfs rest' (S idx) node1
                           (cur_score + default 0 (weights !! p))
                           (set_assignment st (<[p := 1]> (assignment st)));
                  Ok (set_assignment st' (<[p := 0]> (assignment st')))
                else Ok st);
        let node0 := BDD.__and__ node (BDD.__invert__ vp) in
        if BDD.__ne__ bdd node0 BDD.false_ then
          st' ←! dfs rest' (S idx) node0 cur_score
                   (set_assignment st1 (<[p := 0]> (assignment st1)));
          Ok (set_assignment st' (delete p (assignment st')))
        else Ok st1
    end.

End Dfs.

(** The loop over [chosen_positives] that rebuilds [test_bdd], with its
    [break]. *)
Fixpoint conjoin_chosen (bdd : BDD.manager) (chosen : list string)
    (test_bdd : gset string → bool) : result (gset string → bool) :=
  match chosen with
  | [] => Ok test_bdd
  | q :: chosen' =>
      vq ←! BDD.var bdd q;
      let test_bdd := BDD.__and__ test_bdd vq in
      if BDD.__eq__ bdd test_bdd BDD.false_ then Ok test_bdd
      else conjoin_chosen bdd chosen' test_bdd
  end.

(** The body of the greedy loop for one place; the state is
    ([current_bdd], [chosen_positives]). *)
Definition greedy_step (bdd : BDD.manager) (weights : gmap string Z)
    (p : string) (s : (gset string → bool) * list string)
  : result ((gset string → bool) * list string) :=
  let w := default 0 (weights !! p) in
  if bool_decide (w ≤ 0) then Ok s
  else
    test_bdd ←! conjoin_chosen bdd s.2 s.1;
    if BDD.__eq__ bdd test_bdd BDD.false_ then Ok s
    else
      vp ←! BDD.var bdd p;
      let test_bdd_p := BDD.__and__ test_bdd vp in
      if BDD.__ne__ bdd test_bdd_p BDD.false_ then Ok (test_bdd_p, s.2 ++ [p])
      else Ok s.

Section Optimizer.

(** [next(bdd.pick_iter(u))]: the first assignment of the enumeration, [None]
    when the enumeration is empty ([StopIteration]). *)
Variable pick_first : BDD.manager → (gset string → bool) → option (gmap string bool).

(** The [try] block of [find_max_score_marking]: [Ok None] is a
    ([None], [None]) outcome, [Ok (Some (marking, score))] a found marking,
    [Raise] an exception that reaches the [except] clause. *)
Definition optimize (net : PetriNet.t) (task3_solver : BDDReachability.t)
    (place_weights : gmap string Z) (mode : string)
  : result (option (gmap string Z * Z)) :=
  match BDDReachability.bdd_manager task3_solver,
        BDDReachability.reachable_bdd task3_solver with
  | Some bdd, Some reachable =>
      if BDD.__eq__ bdd reachable BDD.false_ then Ok None
      else
        let places := BDDReachability.sorted (PetriNet.places net) in
        let weights : gmap string Z :=
          list_to_map ((λ p, (p, default 0 (place_weights !! p))) <$> places) in
        if decide (place_weights = ∅) then
          match pick_first bdd reachable with
          | None => Ok None
          | Some assign => Ok (Some (marking_of_assign places assign, 0))
          end
        else if decide (mode = "greedy") then
          let sorted_places :=
            sorted_by (λ x, default 0 (weights !! x)) places in
          s ←! for_each sorted_places (greedy_step bdd weights) (reachable, []);
          final_bdd ←! for_each s.2
                         (λ q f, vq ←! BDD.var bdd q; Ok (BDD.__and__ f vq))
                         reachable;
          let final_bdd :=
            if BDD.__eq__ bdd final_bdd BDD.false_ then reachable else final_bdd in
          match pick_first bdd final_bdd with
          | None => Ok None
          | Some assign =>
              let marking := marking_of_assign places assign in
              Ok (Some (marking, score_of place_weights marking))
          end
        else
          let order :=
            sorted_by (λ x, Z.max (default 0 (weights !! x)) 0) places in
          let st0 :=
            match pick_first bdd reachable with
            | Some ga =>
                let greedy_assign := marking_of_assign places ga in
                DfsState (Some (score_of place_weights greedy_assign))
                         (Some greedy_assign) ∅
            | None => DfsState None None ∅
            end in
          let pos_weights :=
            (λ p, Z.max (default 0 (weights !! p)) 0) <$> order in
          let suffix_pos := suffix_sums pos_weights in
          st ←! dfs bdd weights suffix_pos order 0 reachable 0 st0;
          match best_mark st with
          | None => Ok None
          | Some bm =>
              let marking : gmap string Z :=
                list_to_map ((λ p, (p, default 0 (bm !! p))) <$> places) in
              match best_score st with
              | Some bs => Ok (Some (marking, bs))
              | None => Raise ValueError
              end
          end
  | _, _ => Ok None
  end.

(** [find_max_score_marking]: [start_time] is the clock reading taken on
    entry and [end_time] the reading taken for the returned run time. *)
Definition find_max_score_marking (net : PetriNet.t)
    (task3_solver : BDDReachability.t) (place_weights : gmap string Z)
    (mode : string) (start_time end_time : Z)
  : option (gmap string Z) * option Z * Z :=
  match optimize net task3_solver place_weights mode with
  | Ok (Some (marking, score)) =>
      (Some marking, Some score, end_time - start_time)
  | Ok None => (None, None, end_time - start_time)
  | Raise _ => (None, None, end_time - start_time)
  end.

End Optimizer.

End MarkingOptimizer.

(** ** pnml_parser/parser.py

    The document is read by [xml.etree.ElementTree], an external library.
    The parser is modelled on what the library hands to it: the elements
    that [findall] returns, for each element the attributes that [get]
    reads, and for each [text] sub-element that [find] looks up whether it
    exists, whether it has a text, and the outcome of [int(text.strip())].
    Elements are taken to have their [id], [source] and [target]
    attributes; the human-readable names play no role and are left out. *)

Module PNMLParser.

(** The outcome of [int(...)]: the integer, or [ValueError] with its
    message. *)
Inductive int_outcome :=
| IntValue (z : Z)
| IntError (message : string).

(** What the parser reads of a [text] sub-element: [find] returns [None];
    or the element has no text ([.text] is [None]); or it has a text, of
    which the outcome of [int(text.strip())] is what matters. *)
Inductive text_elem :=
| NoElement
| NoText
| Text (outcome : int_outcome).

Record place_elem := PlaceElem {
  place_id : string;
  place_marking : text_elem;
}.

Record transition_elem := TransitionElem {
  transition_id : string;
}.

Record arc_elem := ArcElem {
  arc_source : string;
  arc_target : string;
  arc_inscription : text_elem;
}.

(** The three lists of elements that [findall] returns on the root. *)
Record document := Document {
  doc_places : list place_elem;
  doc_transitions : list transition_elem;
  doc_arcs : list arc_elem;
}.

(** The file behind a path: missing, not well-formed XML, or a document. *)
Inductive file :=
| Missing
| Malformed
| Wellformed (root : document).

(** The exceptions of [parse_file]. *)
Inductive error :=
| FileNotFoundError
| XMLParseError
| Exception (e : exn).

(** The attributes of a [PNMLParser] object (the namespace apart). *)
Record t := Parser {
  places : list string;
  transitions : list string;
  arcs : list (string * string);
  initial_marking : gmap string Z;
}.

(** [__init__] *)
Definition __init__ : t := Parser [] [] [] ∅.

(** [needle in haystack] on strings. *)
Definition contains (needle haystack : string) : bool :=
  match String.index 0 needle haystack with
  | Some _ => true
  | None => false
  end.

(** A loop of the parser over the elements: the exception that ended it, if
    any, and the state it leaves. The body either raises before it changes
    anything or completes. *)
Fixpoint loop {A S : Type} (l : list A) (body : A → S → result S) (s : S)
  : option exn * S :=
  match l with
  | [] => (None, s)
  | x :: l' =>
      match body x s with
      | Ok s' => loop l' body s'
      | Raise e => (Some e, s)
      end
  end.

(** The value of [has_token] for one place in [_parse_places]: the [try]
    block with its [except ValueError] clause, which raises again when the
    message mentions that the net is not 1-safe. *)
Definition has_token_of (marking : text_elem) : result bool :=
  match marking with
  | NoElement => Ok false
  | NoText => Raise AttributeError
  | Text (IntValue token_count) =>
      if decide (1 < token_count) then Raise ValueError
      else Ok (bool_decide (token_count = 1))
  | Text (IntError message) =>
      if contains "not 1-safe" message then Raise ValueError else Ok false
  end.

(** The body of the loop of [_parse_places]. *)
Definition parse_place (place : place_elem) (s : t * PetriNet.t)
  : result (t * PetriNet.t) :=
  has_token ←! has_token_of (place_marking place);
  petri_net ←! PetriNet.add_place s.2 (place_id place) has_token;
  Ok (Parser (places s.1 ++ [place_id place]) (transitions s.1) (arcs s.1)
        (<[place_id place := if has_token then 1 else 0]>
           (initial_marking s.1)),
      petri_net).

(** The body of the loop of [_parse_transitions]. *)
Definition parse_transition (transition : transition_elem) (s : t * PetriNet.t)
  : result (t * PetriNet.t) :=
  petri_net ←! PetriNet.add_transition s.2 (transition_id transition);
  Ok (Parser (places s.1) (transitions s.1 ++ [transition_id transition])
        (arcs s.1) (initial_marking s.1),
      petri_net).

(** The value of [weight] for one arc in [_parse_arcs]. *)
Definition weight_of (inscription : text_elem) : result Z :=
  match inscription with
  | NoElement => Ok 1
  | NoText => Raise AttributeError
  | Text (IntValue weight) => Ok weight
  | Text (IntError _) => Ok 1
  end.

(** The body of the loop of [_parse_arcs]. *)
Definition parse_arc (arc : arc_elem) (s : t * PetriNet.t)
  : result (t * PetriNet.t) :=
  weight ←! weight_of (arc_inscription arc);
  if decide (weight ≠ 1) then Raise ValueError
  else
    petri_net ←! PetriNet.add_arc s.2 (arc_source arc) (arc_target arc);
    Ok (Parser (places s.1) (transitions s.1)
          (arcs s.1 ++ [(arc_source arc, arc_target arc)])
          (initial_marking s.1),
        petri_net).

(** [parse_file]: the returned net or the exception, and the parser
    afterwards. *)
Definition parse_file (filepath : file) (self : t) : (error + PetriNet.t) * t :=
  match filepath with
  | Missing => (inl FileNotFoundError, self)
  | Malformed => (inl XMLParseError, self)
  | Wellformed root =>
      let petri_net := PetriNet.__init__ in
      match loop (doc_places root) parse_place (self, petri_net) with
      | (Some e, s) => (inl (Exception e), s.1)
      | (None, s) =>
          match loop (doc_transitions root) parse_transition s with
          | (Some e, s) => (inl (Exception e), s.1)
          | (None, s) =>
              match loop (doc_arcs root) parse_arc s with
              | (Some e, s) => (inl (Exception e), s.1)
              | (None, s) =>
                  match PetriNet.validate_consistency s.2 with
                  | Raise e => (inl (Exception e), s.1)
                  | Ok (is_valid, errors, petri_net) =>
                      if is_valid then (inr petri_net, s.1)
                      else (inl (Exception ValueError), s.1)
                  end
              end
          end
      end
  end.

(** [validate_1safe]: the loop over [self.initial_marking.items()] with its
    early [return False]. *)
Fixpoint validate_1safe_loop (items : list (string * Z)) : bool :=
  match items with
  | [] => true
  | (place_id, tokens) :: items' =>
      if decide (1 < tokens) then false else validate_1safe_loop items'
  end.

Definition validate_1safe (self : t) : bool :=
  validate_1safe_loop (map_to_list (initial_marking self)).

(** [get_parsed_data] *)
Definition get_parsed_data (self : t)
  : list string * list string * list (string * string) * gmap string Z :=
  (places self, transitions self, arcs self, initial_marking self).

End PNMLParser.

(** * Definitions used by the statements *)

(** A net with one transition [t1] from [p1] to [p2], and a store that holds
    the marking with a token in [p1]. *)
Definition net_p1_t1_p2 : PetriNet.t :=
  PetriNet.Net {["p1"; "p2"]} {["t1"]}
    {["t1" := PetriNet.ArcInfo ["p1"] ["p2"]]}
    (Some {["p1" := true; "p2" := false]}) None.


(** What [validate_consistency] asks of the transitions: every transition has
    its entry in [arcs], and the places of its arcs are places of the net. *)
Definition well_formed (net : PetriNet.t) : Prop :=
  ∀ tr, tr ∈ PetriNet.transitions net →
    ∃ a, PetriNet.arcs net !! tr = Some a
         ∧ ∀ p, p ∈ PetriNet.input a ++ PetriNet.output a →
                p ∈ PetriNet.places net.

(** The current-state and next-state variables are distinct names: no place
    id is another place id followed by the prime. *)
Definition prime_free (places : gset string) : Prop :=
  ∀ p, p ∈ places → BDDReachability.primed p ∉ places.

(** The node of a variable. *)
Definition var_fn (x : string) : gset string → bool :=
  λ a, bool_decide (x ∈ a).

(** The places of a set that hold a token in a marking. *)
Definition marked (places : gset string) (m : gmap string bool) : gset string :=
  filter (λ p, Marking.has_token m p = true) places.

(** The valuation that encodes a pair of markings: the current variables as
    the first marking has them, the next variables as the second has them. *)
Definition encode_pair (places : gset string) (m m' : gmap string bool)
  : gset string :=
  marked places m ∪ set_map BDDReachability.primed (marked places m').

(** [u] is contained in [v]: every valuation of the declared variables that
    satisfies [u] satisfies [v]. *)
Definition bdd_subseteq (b : BDD.manager) (u v : gset string → bool) : Prop :=
  ∀ a, a ⊆ list_to_set (BDD.vars b) → u a = true → v a = true.

(** The encoding of a marking is contained in [R]. *)
Definition encoding_in (e : BDDReachability.t) (m : gmap string bool)
    (R : gset string → bool) : Prop :=
  ∃ b enc, BDDReachability.bdd_manager e = Some b
           ∧ BDDReachability.encode_marking e m = Ok enc
           ∧ bdd_subseteq b enc R.

(** The input and output places of a transition, as [arcs] has them. *)
Definition pre_of (net : PetriNet.t) (tr : string) : list string :=
  match PetriNet.arcs net !! tr with
  | Some a => PetriNet.input a
  | None => []
  end.

Definition post_of (net : PetriNet.t) (tr : string) : list string :=
  match PetriNet.arcs net !! tr with
  | Some a => PetriNet.output a
  | None => []
  end.

(** The value of [update_t] on one place, under the valuation [c]. *)
Definition delta_sem (pre post : list string) (c : gset string) (p : string)
  : bool :=
  if decide (p ∈ post) then bool_decide (BDDReachability.primed p ∈ c)
  else if decide (p ∈ pre)
       then negb (bool_decide (BDDReachability.primed p ∈ c))
       else Bool.eqb (bool_decide (p ∈ c))
                     (bool_decide (BDDReachability.primed p ∈ c)).

(** The value of [enabled_t & update_t] under the valuation [c]. *)
Definition step_sem (net : PetriNet.t) (c : gset string) (tr : string) : bool :=
  forallb (λ p, bool_decide (p ∈ c)) (pre_of net tr)
  && forallb (delta_sem (pre_of net tr) (post_of net tr) c)
       (BDDReachability.sorted (PetriNet.places net)).

(** The value of the transition relation under the valuation [c]. *)
Definition T_sem (net : PetriNet.t) (c : gset string) : bool :=
  existsb (step_sem net c) (elements (PetriNet.transitions net)).

(** The state of an engine after [initialize_bdd] on the net [net]: the
    manager [b] with the variables of the places, and the relation [T]. *)
Record initialized (net : PetriNet.t) (e : BDDReachability.t)
    (b : BDD.manager) (T : gset string → bool) : Prop := Initialized {
  init_net : BDDReachability.petri_net e = net;
  init_bdd : BDDReachability.bdd_manager e = Some b;
  init_vars : ∀ x, x ∈ BDD.vars b
                   ↔ ∃ p, p ∈ PetriNet.places net
                          ∧ (x = p ∨ x = BDDReachability.primed p);
  init_place_var : ∀ p, p ∈ PetriNet.places net →
                        BDDReachability.place_var e !! p = Some (var_fn p);
  init_next_var : ∀ p, p ∈ PetriNet.places net →
                       BDDReachability.next_var e !! p
                       = Some (var_fn (BDDReachability.primed p));
  init_T : BDDReachability.transition_relation e = Some T;
  init_T_sem : ∀ c, T c = T_sem net c;
}.

(** The marking obtained by clearing the places of [pre] and then setting the
    places of [post]. *)
Definition fired (m : gmap string bool) (pre post : list string)
  : gmap string bool :=
  foldl (λ m place, Marking.set_token m place true)
    (foldl (λ m place, Marking.set_token m place false) m pre) post.

(** The valuation [c] gives the current variables of the places the values
    of [m] and their next variables the values of [m']. *)
Definition encodes_pair (places : gset string) (c : gset string)
    (m m' : gmap string bool) : Prop :=
  ∀ p, p ∈ places →
    bool_decide (p ∈ c) = Marking.has_token m p
    ∧ bool_decide (BDDReachability.primed p ∈ c) = Marking.has_token m' p.

(** The dictionary [rename_map] of [post]: [{p + "'": place_var[p]}]. *)
Definition rename_map_of (l : list string) : gmap string (gset string → bool) :=
  foldl (λ d p, <[BDDReachability.primed p := var_fn p]> d) ∅ l.

(** The number of valuations of the declared variables that satisfy [R]. *)
Definition sat_count (b : BDD.manager) (R : gset string → bool) : nat :=
  length (filter (λ a, R a = true) (BDD.assignments (BDD.vars b))).

(** A net with one marked place [b] and one transition [t] that consumes the
    token of [b] and produces nothing. *)
Definition net_sink : PetriNet.t :=
  PetriNet.Net {["b"]} {["t"]} {["t" := PetriNet.ArcInfo ["b"] []]}
    (Some {["b" := true]}) None.

(** The nets of the repository's tests: two places on a cycle, and a
    transition that forks the token of [p1] into [p2] and [p3]. *)
Definition net_cycle : PetriNet.t :=
  PetriNet.Net {["p1"; "p2"]} {["t1"; "t2"]}
    {["t1" := PetriNet.ArcInfo ["p1"] ["p2"];
      "t2" := PetriNet.ArcInfo ["p2"] ["p1"]]}
    (Some {["p1" := true; "p2" := false]}) None.

Definition net_fork : PetriNet.t :=
  PetriNet.Net {["p1"; "p2"; "p3"]} {["t1"]}
    {["t1" := PetriNet.ArcInfo ["p1"] ["p2"; "p3"]]}
    (Some {["p1" := true; "p2" := false; "p3" := false]}) None.

(** A net in which the id of one place is the id of another place followed
    by the prime: the places [p], [p'] and [q], and one transition [t] from
    [p] to [q]. [initialize_bdd] names the next-state variable of [p] as the
    current-state variable of [p']. *)
Definition net_primed : PetriNet.t :=
  PetriNet.Net {["p"; "p'"; "q"]} {["t"]}
    {["t" := PetriNet.ArcInfo ["p"] ["q"]]}
    (Some {["p" := true; "p'" := true; "q" := false]}) None.

(** The markings extracted from the symbolic reachable set of a new engine:
    [compute_symbolic_reachability(m0)] and then [extract_markings()]. *)
Definition symbolic_markings (fuel : nat) (net : PetriNet.t)
    (m0 : gmap string bool) : result (gset (gmap string bool)) :=
  r ←! BDDReachability.compute_symbolic_reachability fuel m0
         (BDDReachability.__init__ net);
  BDDReachability.extract_markings r.2 None.

(** The markings returned by [compute_reachability(m0)] on a new explorer. *)
Definition explicit_markings (fuel : nat) (net : PetriNet.t)
    (m0 : gmap string bool) : result (gset (gmap string bool)) :=
  r ←! ExplicitReachability.compute_reachability fuel (Some m0)
         (ExplicitReachability.__init__ net);
  Ok r.1.

(** The answer of [is_reachable], without the engine. *)
Definition is_reachable_answer (fuel : nat) (m : gmap string bool)
    (e : BDDReachability.t) : result bool :=
  r ←! BDDReachability.is_reachable fuel m e;
  Ok r.1.

(** [next(bdd.pick_iter(u))] for the enumeration order of the model. *)
Definition pick_first_head (b : BDD.manager) (u : gset string → bool)
  : option (gmap string bool) :=
  head (BDD.pick_iter b u).

(** The value, 1 or 0, of a place under a valuation. *)
Definition bit (c : gset string) (p : string) : Z :=
  if bool_decide (p ∈ c) then 1 else 0.

(** The weight collected under the valuation [c] on the places of [rest]. *)
Definition gain (w : string → Z) (rest : list string) (c : gset string) : Z :=
  foldr (λ p acc, (if bool_decide (p ∈ c) then w p else 0) + acc) 0 rest.

(** The sum of the positive weights of the places of [rest]. *)
Definition positive_sum (w : string → Z) (rest : list string) : Z :=
  foldr (λ p acc, Z.max (w p) 0 + acc) 0 rest.

(** The objective: the sum of [w_p * M[p]] over the places, an absent weight
    being 0. *)
Definition weighted_sum (place_weights : gmap string Z) (places : list string)
    (m : gmap string bool) : Z :=
  foldr (λ p acc, (if Marking.has_token m p
                   then default 0 (place_weights !! p) else 0) + acc) 0 places.

(** Membership in the reachable set of an engine, as [is_reachable] decides
    it: the conjunction of the encoding with the reachable set is not the
    constant false. *)
Definition reachable_in (e : BDDReachability.t) (m : gmap string bool) : Prop :=
  ∃ b R enc, BDDReachability.bdd_manager e = Some b
             ∧ BDDReachability.reachable_bdd e = Some R
             ∧ BDDReachability.encode_marking e m = Ok enc
             ∧ BDD.__ne__ b (BDD.__and__ enc R) BDD.false_ = true.

(** [next(bdd.pick_iter(u))] returns an element of the enumeration, and
    raises [StopIteration] only when the enumeration is empty. *)
Definition picks_from_enumeration
    (pick_first : BDD.manager → (gset string → bool) → option (gmap string bool))
  : Prop :=
  ∀ b u, match pick_first b u with
         | Some a => a ∈ BDD.pick_iter b u
         | None => BDD.pick_iter b u = []
         end.

(** [x <= y] when [None] stands for [float('-inf')]. *)
Definition le_opt (x y : option Z) : Prop :=
  match x, y with
  | None, _ => True
  | Some _, None => False
  | Some a, Some b => a ≤ b
  end.

(** The weight of a place in the dictionary [weights]. *)
Definition weight_of (weights : gmap string Z) (p : string) : Z :=
  default 0 (weights !! p).

(** What one call of [dfs] on the places [rest], from the state [st] to the
    state [st'], achieves: the best score does not decrease; it dominates
    every valuation of [node]; it is the old one, or the score of a valuation
    of [node] recorded in [best_mark]; the entries of [assignment] for the
    places of [D], decided before the call, are untouched. *)
Definition dfs_post (b : BDD.manager) (weights : gmap string Z)
    (D : gset string) (rest : list string) (node : gset string → bool)
    (cur_score : Z) (st st' : MarkingOptimizer.dfs_state) : Prop :=
  le_opt (MarkingOptimizer.best_score st) (MarkingOptimizer.best_score st')
  ∧ (∀ c, c ⊆ list_to_set (BDD.vars b) → node c = true →
          le_opt (Some (cur_score + gain (weight_of weights) rest c))
                 (MarkingOptimizer.best_score st'))
  ∧ ((MarkingOptimizer.best_score st' = MarkingOptimizer.best_score st
      ∧ MarkingOptimizer.best_mark st' = MarkingOptimizer.best_mark st)
     ∨ ∃ c mk, c ⊆ list_to_set (BDD.vars b) ∧ node c = true
               ∧ MarkingOptimizer.best_score st'
                 = Some (cur_score + gain (weight_of weights) rest c)
               ∧ MarkingOptimizer.best_mark st' = Some mk
               ∧ ∀ p, p ∈ D ∨ p ∈ rest → mk !! p = Some (bit c p))
  ∧ (∀ p, p ∈ D → MarkingOptimizer.assignment st' !! p
                  = MarkingOptimizer.assignment st !! p).

(** The engine of [net_sink] after [compute_symbolic_reachability]. *)
Definition engine_sink : BDDReachability.t :=
  match BDDReachability.compute_symbolic_reachability 10 {["b" := true]}
          (BDDReachability.__init__ net_sink) with
  | Ok r => r.2
  | Raise _ => BDDReachability.__init__ net_sink
  end.

(** The solver returns solutions of the problem it is given. *)
Definition solver_sound (solve : ILP.problem → option (ILP.lpvar → option Z))
  : Prop :=
  ∀ prob sol, solve prob = Some sol → ILP.feasible prob sol.

(** The deadlock constraint of a non-empty preset. *)
Definition dead_constraint_of (preset : list string) : ILP.constraint :=
  ILP.Constraint (ILP.lpSum (ILP.X <$> preset)) ILP.LpLE
    (ILP.Affine [] (Z.of_nat (length preset) - 1)).

(** A solver that knows one assignment and returns it when it is a solution
    of the problem. *)
Definition solve_with (sol : ILP.lpvar → option Z) (prob : ILP.problem)
  : option (ILP.lpvar → option Z) :=
  if decide (ILP.feasible prob sol) then Some sol else None.

(** The assignment [x[p1] = 0], [x[p2] = 1], [n[t1] = 1]. *)
Definition solution_p2 (v : ILP.lpvar) : option Z :=
  match v with
  | ILP.X p => if decide (p = "p2") then Some 1 else Some 0
  | ILP.N tr => Some 1
  end.

(** The detector of [net_p1_t1_p2] on the reachable set computed by the
    engine. *)
Definition detector_p1_t1_p2 : result DeadlockDetector.t :=
  r ←! BDDReachability.compute_symbolic_reachability 10
         {["p1" := true; "p2" := false]} (BDDReachability.__init__ net_p1_t1_p2);
  DeadlockDetector.__init__ net_p1_t1_p2
    (BDDReachability.reachable_bdd r.2) (BDDReachability.bdd_manager r.2).

(** * Definitions used by the further properties *)

(** What [validate_consistency] checks: every transition has its entry in
    [arcs], every entry of [arcs] is the entry of a transition, and the
    places of every entry are places of the net. *)
Definition consistent (net : PetriNet.t) : Prop :=
  (∀ tr, tr ∈ PetriNet.transitions net → tr ∈ dom (PetriNet.arcs net))
  ∧ ∀ tr a, PetriNet.arcs net !! tr = Some a →
            tr ∈ PetriNet.transitions net
            ∧ ∀ p, p ∈ PetriNet.input a ++ PetriNet.output a →
                   p ∈ PetriNet.places net.

(** The nets that calls of [add_place], [add_transition] and [add_arc] build
    from [PetriNet()]. *)
Inductive built : PetriNet.t → Prop :=
| built_init : built PetriNet.__init__
| built_add_place net net' place_id has_token :
    built net → PetriNet.add_place net place_id has_token = Ok net' →
    built net'
| built_add_transition net net' transition_id :
    built net → PetriNet.add_transition net transition_id = Ok net' →
    built net'
| built_add_arc net net' source target :
    built net → PetriNet.add_arc net source target = Ok net' →
    built net'.

(** A net built by one call of each kind. *)
Definition net_built_example : result PetriNet.t :=
  net ←! PetriNet.add_place PetriNet.__init__ "p1" true;
  net ←! PetriNet.add_transition net "t1";
  PetriNet.add_arc net "p1" "t1".

(** The number of occurrences of a place in a list of places. *)
Definition occurrences (p : string) (l : list string) : Z :=
  Z.of_nat (length (filter (λ q, q = p) l)).

(** The entry [c[p][tr]] of an incidence matrix. *)
Definition entry (c : gmap string (gmap string Z)) (p tr : string) : option Z :=
  row ← c !! p; row !! tr.

(** Equality of outcomes is decidable. *)
#[global] Instance exn_eq_dec : EqDecision exn.
Proof. solve_decision. Defined.

#[global] Instance result_eq_dec {A} `{EqDecision A} : EqDecision (result A).
Proof. solve_decision. Defined.

(** One firing: some transition of the net, fired in [m], returns [m']. *)
Definition fires (net : PetriNet.t) (m m' : gmap string bool) : Prop :=
  ∃ tr, tr ∈ PetriNet.transitions net
        ∧ PetriNet.fire_transition net tr m = Ok m'.

(** [m] is reached from [m0] by a finite sequence of firings. *)
Definition reachable_from (net : PetriNet.t) (m0 m : gmap string bool) : Prop :=
  rtc (fires net) m0 m.

(** The entry [graph[m][tr]] of a transition graph. *)
Definition graph_edge
    (g : gmap (gmap string bool) (gmap string (gmap string bool)))
    (m : gmap string bool) (tr : string) : option (gmap string bool) :=
  edges ← g !! m; edges !! tr.

(** The marking that [fire_transition] returns, if it returns one. *)
Definition fired_by (net : PetriNet.t) (tr : string) (m : gmap string bool)
  : option (gmap string bool) :=
  match PetriNet.fire_transition net tr m with
  | Ok m' => Some m'
  | Raise _ => None
  end.

(** The invariant of the [while queue] loop of [compute_reachability]: the
    reached markings are reachable from [m0] and contain it; the queue holds
    reached markings, each once; the successors of the reached markings that
    have left the queue are reached; the keys of the graph are the reached
    markings, and its edges are the firings of the markings that have left
    the queue. *)
Record bfs_inv (net : PetriNet.t) (m0 : gmap string bool)
    (s : ExplicitReachability.search) : Prop := BfsInv {
  bfs_sound : ∀ m, m ∈ ExplicitReachability.reached s →
                   reachable_from net m0 m;
  bfs_initial : m0 ∈ ExplicitReachability.reached s;
  bfs_queue : ∀ m, m ∈ ExplicitReachability.queue s →
                   m ∈ ExplicitReachability.reached s;
  bfs_nodup : NoDup (ExplicitReachability.queue s);
  bfs_closed : ∀ m m', m ∈ ExplicitReachability.reached s →
                       m ∉ ExplicitReachability.queue s →
                       fires net m m' →
                       m' ∈ ExplicitReachability.reached s;
  bfs_keys : dom (ExplicitReachability.graph s)
             = ExplicitReachability.reached s;
  bfs_edges : ∀ m t, graph_edge (ExplicitReachability.graph s) m t
                     = if decide (m ∈ ExplicitReachability.reached s
                                  ∧ m ∉ ExplicitReachability.queue s)
                       then fired_by net t m else None;
}.

(** The marking that stores the places of [D], with a token in the places
    of [a]. *)
Definition marking_of_set (D a : gset string) : gmap string bool :=
  list_to_map ((λ p, (p, bool_decide (p ∈ a))) <$> elements D).

(** Every marking that stores exactly the places of [D]. *)
Definition all_markings (D : gset string) : gset (gmap string bool) :=
  list_to_set (marking_of_set D <$> BDD.assignments (elements D)).

(** Two markings hold the same tokens on the given places. *)
Definition agree_on (places : gset string) (m1 m2 : gmap string bool) : Prop :=
  ∀ p, p ∈ places → Marking.has_token m1 p = Marking.has_token m2 p.

(** Every valuation that satisfies [R] gives the places of the net the
    tokens of a marking reachable from [m0]. *)
Definition sound_set (net : PetriNet.t) (m0 : gmap string bool)
    (R : gset string → bool) : Prop :=
  ∀ c, R c = true →
       ∃ m, reachable_from net m0 m
            ∧ ∀ p, p ∈ PetriNet.places net →
                   bool_decide (p ∈ c) = Marking.has_token m p.

(** The parsers that calls of [parse_file] leave behind, starting from
    [PNMLParser()]. *)
Inductive parser_used : PNMLParser.t → Prop :=
| parser_new : parser_used PNMLParser.__init__
| parser_parse filepath self :
    parser_used self → parser_used (PNMLParser.parse_file filepath self).2.

(** The ids of the places and of the transitions of a document. *)
Definition place_ids (root : PNMLParser.document) : list string :=
  PNMLParser.place_id <$> PNMLParser.doc_places root.

Definition transition_ids (root : PNMLParser.document) : list string :=
  PNMLParser.transition_id <$> PNMLParser.doc_transitions root.

(** The initial markings that [_parse_places] reads without an exception:
    none, an integer that is at most 1, or a text that is not an integer
    and whose error message does not mention that the net is not 1-safe. *)
Definition readable_marking (marking : PNMLParser.text_elem) : Prop :=
  match marking with
  | PNMLParser.NoElement => True
  | PNMLParser.NoText => False
  | PNMLParser.Text (PNMLParser.IntValue token_count) => token_count ≤ 1
  | PNMLParser.Text (PNMLParser.IntError message) =>
      PNMLParser.contains "not 1-safe" message = false
  end.

(** The inscriptions that [_parse_arcs] accepts: none, the integer 1, or a
    text that is not an integer. *)
Definition unit_weight (inscription : PNMLParser.text_elem) : Prop :=
  match inscription with
  | PNMLParser.NoElement => True
  | PNMLParser.NoText => False
  | PNMLParser.Text (PNMLParser.IntValue weight) => weight = 1
  | PNMLParser.Text (PNMLParser.IntError _) => True
  end.

(** The documents of 1-safe nets: the place ids are distinct and every
    initial marking is readable; the transition ids are distinct; every arc
    has the weight 1 and joins a place and a transition. *)
Definition valid_document (root : PNMLParser.document) : Prop :=
  NoDup (place_ids root)
  ∧ (∀ place, place ∈ PNMLParser.doc_places root →
              readable_marking (PNMLParser.place_marking place))
  ∧ NoDup (transition_ids root)
  ∧ ∀ arc, arc ∈ PNMLParser.doc_arcs root →
           unit_weight (PNMLParser.arc_inscription arc)
           ∧ ((PNMLParser.arc_source arc ∈ place_ids root
               ∧ PNMLParser.arc_target arc ∈ transition_ids root)
              ∨ (PNMLParser.arc_source arc ∈ transition_ids root
                 ∧ PNMLParser.arc_target arc ∈ place_ids root)).

(** A document with one marked place, one transition and one arc. *)
Definition document_p1_t1 : PNMLParser.document :=
  PNMLParser.Document
    [PNMLParser.PlaceElem "p1" (PNMLParser.Text (PNMLParser.IntValue 1))]
    [PNMLParser.TransitionElem "t1"]
    [PNMLParser.ArcElem "p1" "t1" PNMLParser.NoElement].

(** The input places and the output places that the arcs of a document give
    a transition, in the order of the document. [add_arc] takes an arc from
    a place to a transition as an input arc, and otherwise an arc from a
    transition to a place as an output arc. *)
Definition is_input_arc (root : PNMLParser.document) (arc : PNMLParser.arc_elem)
  : Prop :=
  PNMLParser.arc_source arc ∈ place_ids root
  ∧ PNMLParser.arc_target arc ∈ transition_ids root.

Definition inputs_of (root : PNMLParser.document) (tr : string) : list string :=
  PNMLParser.arc_source
  <$> filter (λ arc, is_input_arc root arc ∧ PNMLParser.arc_target arc = tr)
        (PNMLParser.doc_arcs root).

Definition outputs_of (root : PNMLParser.document) (tr : string) : list string :=
  PNMLParser.arc_target
  <$> filter (λ arc, ¬ is_input_arc root arc
                     ∧ PNMLParser.arc_source arc = tr)
        (PNMLParser.doc_arcs root).

(** Every count stored in [self.initial_marking] is 0 or 1. *)
Definition binary_marking (self : PNMLParser.t) : Prop :=
  ∀ p v, PNMLParser.initial_marking self !! p = Some v → v = 0 ∨ v = 1.

(** A net whose only transition has no input place, and a detector on it. *)
Definition net_source : PetriNet.t :=
  PetriNet.Net {["p"]} {["t"]} {["t" := PetriNet.ArcInfo [] ["p"]]}
    (Some {["p" := false]}) None.

Definition detector_source : DeadlockDetector.t :=
  DeadlockDetector.Detector net_source BDD.true_ (BDD.Manager ["p"]) []
    {["p" := 0]}.

(** A dictionary of counts that stores exactly the given places, each with
    the count 0 or 1. *)
Definition binary_over (places : gset string) (c : gmap string Z) : Prop :=
  dom c = places ∧ ∀ p v, c !! p = Some v → v = 0 ∨ v = 1.

(** Every transition lists an input place once and an output place once:
    the arcs of the net have the weight 1. *)
Definition ordinary (net : PetriNet.t) : Prop :=
  ∀ tr a, PetriNet.arcs net !! tr = Some a →
          NoDup (PetriNet.input a) ∧ NoDup (PetriNet.output a).

(** The net is 1-safe from [m0]: a transition that is enabled in a reachable
    marking finds no token in its output places, the ones that are also its
    input places apart. *)
Definition one_safe (net : PetriNet.t) (m0 : gmap string bool) : Prop :=
  ∀ m tr a, reachable_from net m0 m →
    tr ∈ PetriNet.transitions net → PetriNet.arcs net !! tr = Some a →
    PetriNet.is_enabled net tr m = Ok true →
    ∀ q, q ∈ PetriNet.output a → q ∉ PetriNet.input a →
         Marking.has_token m q = false.

(** A solver that reports no solution only for a problem that has none. *)
Definition solver_complete (solve : ILP.problem → option (ILP.lpvar → option Z))
  : Prop :=
  ∀ prob, solve prob = None → ∀ sol, ¬ ILP.feasible prob sol.

(** A solver whose answers give the binary variables the value 0 or 1. *)
Definition solver_binary (solve : ILP.problem → option (ILP.lpvar → option Z))
  : Prop :=
  ∀ prob sol, solve prob = Some sol →
    Forall (λ p, ILP.value sol (ILP.X p) = 0 ∨ ILP.value sol (ILP.X p) = 1)
           (ILP.binaries prob).

(** The values that a marking and the number of firings of every transition
    give the variables [x[p]] and [n[t]]. *)
Definition solution_of (m : gmap string bool) (count : string → Z)
    (v : ILP.lpvar) : option Z :=
  match v with
  | ILP.X p => Some (Marking.get_tokens m p)
  | ILP.N tr => Some (count tr)
  end.

(** [sum(C[p][t] * n[t] for t in ts)] for the numbers of firings [count]. *)
Definition firing_sum (c : gmap string (gmap string Z)) (count : string → Z)
    (p : string) (ts : list string) : Z :=
  foldr (λ tr acc, default 0 (entry c p tr) * count tr + acc) 0 ts.

(** Equality of constraints is decidable. *)
#[global] Instance lpvar_eq_dec : EqDecision ILP.lpvar.
Proof. solve_decision. Defined.

#[global] Instance affine_eq_dec : EqDecision ILP.affine.
Proof. solve_decision. Defined.

#[global] Instance sense_eq_dec : EqDecision ILP.sense.
Proof. solve_decision. Defined.

#[global] Instance constraint_eq_dec : EqDecision ILP.constraint.
Proof. solve_decision. Defined.

(** A solver that knows constraints without a common solution: it reports
    no solution for the problems that contain them, and answers 0 for every
    variable otherwise. *)
Definition solve_refuting (cs : list ILP.constraint) (prob : ILP.problem)
  : option (ILP.lpvar → option Z) :=
  if decide (Forall (λ c, c ∈ ILP.constraints prob) cs) then None
  else Some (λ _, Some 0).

(** The state equations and the deadlock constraints of the cycle
    [net_cycle]. The equations give [x[p1] + x[p2] = 1], and the deadlock
    constraints ask for [x[p1] <= 0] and [x[p2] <= 0]. *)
Definition cycle_constraints : list ILP.constraint :=
  [ILP.Constraint (ILP.lpSum [ILP.X "p1"]) ILP.LpEQ
     (ILP.Affine [(-1, ILP.N "t1"); (1, ILP.N "t2")] 1);
   ILP.Constraint (ILP.lpSum [ILP.X "p2"]) ILP.LpEQ
     (ILP.Affine [(1, ILP.N "t1"); (-1, ILP.N "t2")] 0);
   dead_constraint_of ["p1"];
   dead_constraint_of ["p2"]].
(** * Properties *)

(** ** Dictionaries built by loops *)

Lemma bind_Ok {A B} (r : result A) (k : A → result B) (b : B) :
  bind r k = Ok b ↔ ∃ a, r = Ok a ∧ k a = Ok b.
Proof.
  destruct r as [a|e]; simpl; split.
  - intros H. exists a. auto.
  - intros (a' & Ha & Hk). congruence.
  - discriminate.
  - intros (a' & Ha & _). discriminate.
Qed.

Lemma foldl_insert_lookup {B} (f : string → B) (l : list string)
    (m0 : gmap string B) (k : string) :
  foldl (λ d p, <[p := f p]> d) m0 l !! k
  = if decide (k ∈ l) then Some (f k) else m0 !! k.
Proof.
  revert m0. induction l as [|x l IH]; intros m0; cbn [foldl].
  - destruct (decide (k ∈ [])) as [H|_]; [by apply elem_of_nil in H | done].
  - rewrite IH, lookup_insert.
    destruct (decide (k ∈ l)), (decide (x = k)), (decide (k ∈ x :: l));
      simplify_eq; first [done | exfalso; set_solver].
Qed.

Lemma list_to_map_lookup_fmap {B} (f : string → B) (l : list string) (k : string) :
  (list_to_map ((λ p, (p, f p)) <$> l) : gmap string B) !! k
  = if decide (k ∈ l) then Some (f k) else None.
Proof.
  induction l as [|x l IH]; cbn [fmap list_fmap list_to_map foldr].
  - rewrite lookup_empty.
    destruct (decide (k ∈ [])) as [H|_]; [by apply elem_of_nil in H | done].
  - cbn. rewrite lookup_insert, IH.
    destruct (decide (k ∈ l)), (decide (x = k)), (decide (k ∈ x :: l));
      simplify_eq; first [done | exfalso; set_solver].
Qed.

(** ** Markings *)

Lemma has_token_set_token m p b q :
  Marking.has_token (Marking.set_token m p b) q
  = if decide (p = q) then b else Marking.has_token m q.
Proof.
  unfold Marking.has_token, Marking.set_token.
  rewrite lookup_insert. destruct (decide (p = q)); done.
Qed.

Lemma bool_of_token_bit (b : bool) :
  Marking.bool_of_token (if b then 1 else 0) = b.
Proof. by destruct b. Qed.

Lemma from_vector_to_vector_lookup (m : gmap string bool) (order : list string) :
  ∃ m', Marking.from_vector (Marking.to_vector m order) order = Ok m'
        ∧ ∀ p, m' !! p = if decide (p ∈ order)
                         then Some (Marking.has_token m p) else None.
Proof.
  unfold Marking.from_vector, Marking.to_vector.
  destruct (decide _) as [_|Hlen]; [|by rewrite length_fmap in Hlen].
  eexists; split; [reflexivity|]. intros p.
  rewrite zip_with_fmap_r, zip_with_diag, foldl_fmap.
  cbn [fst snd].
  rewrite (foldl_insert_lookup (λ q, Marking.bool_of_token
                                       (if Marking.has_token m q then 1 else 0))).
  rewrite lookup_empty, bool_of_token_bit. done.
Qed.

(** C6, as the code has it: two markings are equal exactly when they store
    the same places and agree on every place. *)
Theorem marking_eq_iff_same_places_and_tokens (m1 m2 : gmap string bool) :
  Marking.__eq__ m1 m2 = true
  ↔ dom m1 = dom m2 ∧ ∀ p, Marking.has_token m1 p = Marking.has_token m2 p.
Proof.
  unfold Marking.__eq__. rewrite bool_decide_eq_true. split.
  - intros ->. done.
  - intros [Hdom Htok]. apply map_eq. intros p.
    specialize (Htok p). unfold Marking.has_token in Htok.
    destruct (m1 !! p) as [b1|] eqn:H1, (m2 !! p) as [b2|] eqn:H2; simpl in *.
    + by subst.
    + assert (p ∈ dom m1) as Hin by (apply elem_of_dom; eauto).
      rewrite Hdom in Hin. apply elem_of_dom in Hin as [? ?]. congruence.
    + assert (p ∈ dom m2) as Hin by (apply elem_of_dom; eauto).
      rewrite <- Hdom in Hin. apply elem_of_dom in Hin as [? ?]. congruence.
    + done.
Qed.

(** C6, counterexample: a marking that stores a place as 0 and one that omits
    it agree on every place and are not equal. *)
Lemma marking_eq_absent_place_counterexample :
  (∀ p, Marking.has_token (Marking.__init__ {["p" := 0]}) p
        = Marking.has_token (Marking.__init__ ∅) p)
  ∧ Marking.__eq__ (Marking.__init__ {["p" := 0]}) (Marking.__init__ ∅) = false.
Proof.
  split.
  - intros p. unfold Marking.has_token, Marking.__init__.
    rewrite fmap_empty, lookup_empty, map_fmap_singleton.
    destruct (decide (p = "p")) as [->|Hne].
    + by rewrite lookup_singleton_eq.
    + by rewrite lookup_singleton_ne.
  - vm_compute. reflexivity.
Qed.

(** C7, as the code has it: the round trip through a vector gives back an
    equal marking exactly when [order] lists the places stored in the
    marking. *)
Theorem from_vector_to_vector_round_trip (m : gmap string bool)
    (order : list string) :
  ∃ m', Marking.from_vector (Marking.to_vector m order) order = Ok m'
        ∧ (Marking.__eq__ m' m = true ↔ list_to_set order = dom m).
Proof.
  destruct (from_vector_to_vector_lookup m order) as (m' & Hm' & Hlk).
  exists m'. split; [done|].
  unfold Marking.__eq__. rewrite bool_decide_eq_true. split.
  - intros <-. apply set_eq. intros p.
    rewrite elem_of_list_to_set, elem_of_dom, Hlk.
    destruct (decide (p ∈ order)) as [Hin|Hnin]; split; intros H.
    + eauto.
    + done.
    + done.
    + by destruct H.
  - intros Hdom. apply map_eq. intros p. rewrite Hlk.
    destruct (decide (p ∈ order)) as [Hin|Hnin].
    + assert (p ∈ dom m) as Hd by (rewrite <- Hdom; by apply elem_of_list_to_set).
      apply elem_of_dom in Hd as [b Hb]. unfold Marking.has_token.
      by rewrite Hb.
    + symmetry. apply not_elem_of_dom. rewrite <- Hdom.
      by rewrite elem_of_list_to_set.
Qed.

(** C7, counterexample: with an order that omits a marked place the round
    trip loses the token. *)
Lemma from_vector_to_vector_counterexample :
  Marking.from_vector (Marking.to_vector {["p1" := true]} []) [] = Ok ∅
  ∧ Marking.__eq__ ∅ ({["p1" := true]} : gmap string bool) = false.
Proof. split; vm_compute; reflexivity. Qed.

(** ** Firing *)


Lemma is_enabled_arcs net tr a m :
  tr ∈ PetriNet.transitions net → PetriNet.arcs net !! tr = Some a →
  PetriNet.is_enabled net tr m
  = Ok (forallb (Marking.has_token m) (PetriNet.input a)).
Proof.
  intros Htr Ha. unfold PetriNet.is_enabled, getitem.
  destruct (decide _); [|done]. by rewrite Ha.
Qed.

Lemma fire_transition_arcs net tr a m :
  tr ∈ PetriNet.transitions net → PetriNet.arcs net !! tr = Some a →
  PetriNet.fire_transition net tr m
  = if forallb (Marking.has_token m) (PetriNet.input a)
    then Ok (foldl (λ m place, Marking.set_token m place true)
               (foldl (λ m place, Marking.set_token m place false) m
                  (PetriNet.input a))
               (PetriNet.output a))
    else Raise ValueError.
Proof.
  intros Htr Ha. unfold PetriNet.fire_transition.
  rewrite (is_enabled_arcs net tr a m Htr Ha).
  destruct (decide _); [|done]. cbn [bind].
  destruct (forallb _ _); [|done]. unfold getitem. by rewrite Ha.
Qed.



(** ** Nets built with [add_place], [add_transition] and [add_arc] *)

Lemma well_formed_init : well_formed PetriNet.__init__.
Proof. intros tr Htr. by apply elem_of_empty in Htr. Qed.

Lemma well_formed_add_place (net net' : PetriNet.t) (place_id : string)
    (has_token : bool) :
  well_formed net →
  PetriNet.add_place net place_id has_token = Ok net' →
  well_formed net'.
Proof.
  intros Hwf Hadd. unfold PetriNet.add_place in Hadd.
  destruct (decide (place_id ∈ PetriNet.places net)); [done|].
  destruct (PetriNet.initial_marking net); [|done].
  injection Hadd as <-. intros tr Htr. cbn in *.
  destruct (Hwf tr Htr) as (a & Ha & Hp). exists a. split; [done|].
  intros p Hin. apply elem_of_union. right. by apply Hp.
Qed.

Lemma well_formed_add_transition (net net' : PetriNet.t) (transition_id : string) :
  well_formed net →
  PetriNet.add_transition net transition_id = Ok net' →
  well_formed net'.
Proof.
  intros Hwf Hadd. unfold PetriNet.add_transition in Hadd.
  destruct (decide (transition_id ∈ PetriNet.transitions net)) as [|Hnew]; [done|].
  injection Hadd as <-. intros tr Htr. cbn in *.
  destruct (decide (tr = transition_id)) as [->|Hne].
  - exists (PetriNet.ArcInfo [] []). rewrite lookup_insert_eq. split; [done|].
    intros p Hp. by apply elem_of_nil in Hp.
  - rewrite lookup_insert_ne by done. apply Hwf.
    apply elem_of_union in Htr as [Htr|Htr]; [|done].
    by apply elem_of_singleton in Htr.
Qed.

Lemma well_formed_add_arc (net net' : PetriNet.t) (source target : string) :
  well_formed net →
  PetriNet.add_arc net source target = Ok net' →
  well_formed net'.
Proof.
  intros Hwf Hadd. unfold PetriNet.add_arc in Hadd.
  destruct (decide (source ∈ PetriNet.places net
                    ∧ target ∈ PetriNet.transitions net)) as [[Hs Ht]|_].
  - injection Hadd as <-. intros tr Htr. cbn in *.
    destruct (Hwf tr Htr) as (a & Ha & Hp).
    destruct (decide (tr = target)) as [->|Hne].
    + rewrite lookup_insert_eq, Ha. cbn. eexists. split; [done|]. cbn.
      intros p Hin. rewrite <- app_assoc in Hin.
      apply elem_of_app in Hin as [Hin|Hin].
      * apply Hp, elem_of_app. by left.
      * apply elem_of_cons in Hin as [->|Hin]; [done|].
        apply Hp, elem_of_app. by right.
    + rewrite lookup_insert_ne by done. eauto.
  - destruct (decide (source ∈ PetriNet.transitions net
                      ∧ target ∈ PetriNet.places net)) as [[Hs Ht]|_]; [|done].
    injection Hadd as <-. intros tr Htr. cbn in *.
    destruct (Hwf tr Htr) as (a & Ha & Hp).
    destruct (decide (tr = source)) as [->|Hne].
    + rewrite lookup_insert_eq, Ha. cbn. eexists. split; [done|]. cbn.
      intros p Hin. rewrite app_assoc in Hin.
      apply elem_of_app in Hin as [Hin|Hin]; [by apply Hp|].
      by apply list_elem_of_singleton in Hin as ->.
    + rewrite lookup_insert_ne by done. eauto.
Qed.

(** ** Loops *)

Lemma for_each_foldl {A S} (l : list A) (body : A → S → result S)
    (g : S → A → S) (s : S) :
  (∀ x s, x ∈ l → body x s = Ok (g s x)) →
  for_each l body s = Ok (foldl g s l).
Proof.
  revert s. induction l as [|x l IH]; intros s Hbody; cbn [for_each foldl].
  - done.
  - rewrite Hbody by left. cbn [bind]. apply IH.
    intros y s' Hy. apply Hbody. by right.
Qed.

Lemma for_each_app {A S} (l1 l2 : list A) (body : A → S → result S) (s : S) :
  for_each (l1 ++ l2) body s = bind (for_each l1 body s) (for_each l2 body).
Proof.
  revert s. induction l1 as [|x l1 IH]; intros s; cbn [for_each app bind].
  - done.
  - destruct (body x s) as [s'|e]; cbn [bind]; [apply IH | done].
Qed.

(** ** Valuations and BDD operations *)

Lemma elem_of_assignments (names : list string) (a : gset string) :
  a ∈ BDD.assignments names ↔ a ⊆ list_to_set names.
Proof.
  revert a. induction names as [|x names IH]; intros a; cbn [BDD.assignments].
  - rewrite list_elem_of_singleton. cbn. set_solver.
  - rewrite elem_of_app, list_elem_of_fmap. cbn [list_to_set foldr]. split.
    + intros [Ha | (b & -> & Hb)].
      * apply IH in Ha. set_solver.
      * apply IH in Hb. set_solver.
    + intros Ha. destruct (decide (x ∈ a)) as [Hx|Hx].
      * destruct (decide (x ∈ (list_to_set names : gset string))) as [Hn|Hn].
        -- left. apply IH. set_solver.
        -- right. exists (a ∖ {[x]}). split.
           ++ apply set_eq. intros y. rewrite elem_of_union, elem_of_difference,
                elem_of_singleton. destruct (decide (y = x)); naive_solver.
           ++ apply IH. set_solver.
      * left. apply IH. set_solver.
Qed.

Lemma bdd_eq_spec (b : BDD.manager) (u v : gset string → bool) :
  BDD.__eq__ b u v = true
  ↔ ∀ a, a ⊆ list_to_set (BDD.vars b) → u a = v a.
Proof.
  unfold BDD.__eq__. rewrite forallb_forall. split.
  - intros H a Ha. apply Bool.eqb_prop, H, list_elem_of_In.
    by apply elem_of_assignments.
  - intros H a Ha. apply list_elem_of_In, elem_of_assignments in Ha.
    rewrite (H a Ha). by destruct (v a).
Qed.

Lemma forallb_false_elem {A} (f : A → bool) (l : list A) :
  forallb f l = false ↔ ∃ x, x ∈ l ∧ f x = false.
Proof.
  induction l as [|y l IH]; cbn [forallb].
  - split; [done | intros (x & Hx & _); by apply elem_of_nil in Hx].
  - rewrite andb_false_iff, IH. split.
    + intros [Hy | (x & Hx & Hf)].
      * exists y. split; [left | done].
      * exists x. split; [by right | done].
    + intros (x & Hx & Hf). apply elem_of_cons in Hx as [-> | Hx].
      * by left.
      * right. eauto.
Qed.

Lemma bdd_ne_spec (b : BDD.manager) (u v : gset string → bool) :
  BDD.__ne__ b u v = true
  ↔ ∃ a, a ⊆ list_to_set (BDD.vars b) ∧ u a ≠ v a.
Proof.
  unfold BDD.__ne__, BDD.__eq__. rewrite negb_true_iff, forallb_false_elem.
  split.
  - intros (a & Ha & Hf). exists a. split; [by apply elem_of_assignments|].
    intros Heq. rewrite Heq in Hf. by destruct (v a).
  - intros (a & Ha & Hne). exists a. split; [by apply elem_of_assignments|].
    destruct (u a), (v a); done.
Qed.

Lemma bdd_ne_false_spec (b : BDD.manager) (u : gset string → bool) :
  BDD.__ne__ b u BDD.false_ = true
  ↔ ∃ a, a ⊆ list_to_set (BDD.vars b) ∧ u a = true.
Proof.
  rewrite bdd_ne_spec. unfold BDD.false_. split.
  - intros (a & Ha & Hne). exists a. split; [done|]. by destruct (u a).
  - intros (a & Ha & Hu). exists a. split; [done|]. by rewrite Hu.
Qed.

(** ** The engine after [initialize_bdd] *)

Lemma elem_of_sorted (s : gset string) (x : string) :
  x ∈ BDDReachability.sorted s ↔ x ∈ s.
Proof.
  unfold BDDReachability.sorted. rewrite merge_sort_Permutation.
  apply elem_of_elements.
Qed.

Lemma NoDup_sorted (s : gset string) : NoDup (BDDReachability.sorted s).
Proof.
  unfold BDDReachability.sorted. rewrite merge_sort_Permutation.
  apply NoDup_elements.
Qed.

Lemma primed_inj (p q : string) :
  BDDReachability.primed p = BDDReachability.primed q → p = q.
Proof.
  unfold BDDReachability.primed. revert q.
  induction p as [|c p IH]; intros [|d q]; cbn; intros H.
  - done.
  - injection H as _ H. by destruct q.
  - injection H as _ H. by destruct p.
  - injection H as -> H. f_equal. by apply IH.
Qed.

Lemma elem_of_declare (b : BDD.manager) (n x : string) :
  x ∈ BDD.vars (BDD.declare b n) ↔ x ∈ BDD.vars b ∨ x = n.
Proof.
  unfold BDD.declare. destruct (decide (n ∈ BDD.vars b)) as [Hn|Hn]; cbn.
  - split; [by left | intros [?| ->]; done].
  - rewrite elem_of_app, list_elem_of_singleton. done.
Qed.

Lemma declare_places_spec (l : list string) (b0 : BDD.manager)
    (pv0 nv0 : gmap string (gset string → bool)) :
  ∃ b pv nv,
    for_each l BDDReachability.declare_place (b0, pv0, nv0) = Ok (b, pv, nv)
    ∧ (∀ x, x ∈ BDD.vars b
            ↔ x ∈ BDD.vars b0
              ∨ ∃ p, p ∈ l ∧ (x = p ∨ x = BDDReachability.primed p))
    ∧ (∀ p, pv !! p = if decide (p ∈ l) then Some (var_fn p) else pv0 !! p)
    ∧ (∀ p, nv !! p = if decide (p ∈ l)
                      then Some (var_fn (BDDReachability.primed p))
                      else nv0 !! p).
Proof.
  revert b0 pv0 nv0. induction l as [|q l IH]; intros b0 pv0 nv0.
  - exists b0, pv0, nv0. cbn [for_each]. split; [done|]. split; [|split].
    + intros x. split; [by left|]. intros [?|(p & Hp & _)]; [done|].
      by apply elem_of_nil in Hp.
    + intros p. destruct (decide (p ∈ [])) as [H|_]; [by apply elem_of_nil in H|done].
    + intros p. destruct (decide (p ∈ [])) as [H|_]; [by apply elem_of_nil in H|done].
  - cbn [for_each]. unfold BDDReachability.declare_place at 1. cbn [fst snd].
    set (b1 := BDD.declare (BDD.declare b0 q) (BDDReachability.primed q)).
    assert (∀ x, x ∈ BDD.vars b1
                 ↔ x ∈ BDD.vars b0 ∨ x = q ∨ x = BDDReachability.primed q) as Hb1.
    { intros x. unfold b1. rewrite !elem_of_declare. tauto. }
    unfold BDD.var. rewrite !decide_True by (apply Hb1; auto).
    cbn [bind].
    destruct (IH b1 (<[q := var_fn q]> pv0)
                (<[q := var_fn (BDDReachability.primed q)]> nv0))
      as (b & pv & nv & Hrun & Hvars & Hpv & Hnv).
    exists b, pv, nv. split; [exact Hrun|]. split; [|split].
    + intros x. rewrite Hvars, Hb1. split.
      * intros [[?|[->| ->]] | (p & Hp & Hx)]; [by left|right..].
        -- exists q. split; [left|by left].
        -- exists q. split; [left|by right].
        -- exists p. split; [by right|done].
      * intros [?|(p & Hp & Hx)]; [by left; left|].
        apply elem_of_cons in Hp as [->|Hp].
        -- left. right. done.
        -- right. eauto.
    + intros p. rewrite Hpv, lookup_insert.
      destruct (decide (p ∈ l)), (decide (q = p)), (decide (p ∈ q :: l));
        simplify_eq; first [done | exfalso; set_solver].
    + intros p. rewrite Hnv, lookup_insert.
      destruct (decide (p ∈ l)), (decide (q = p)), (decide (p ∈ q :: l));
        simplify_eq; first [done | exfalso; set_solver].
Qed.

Lemma and_loop_sem {A} (l : list A)
    (body : A → (gset string → bool) → result (gset string → bool))
    (f : A → gset string → bool) (acc : gset string → bool) :
  (∀ x acc', x ∈ l → ∃ r, body x acc' = Ok r ∧ ∀ c, r c = acc' c && f x c) →
  ∃ r, for_each l body acc = Ok r
       ∧ ∀ c, r c = acc c && forallb (λ x, f x c) l.
Proof.
  revert acc. induction l as [|x l IH]; intros acc Hbody; cbn [for_each forallb].
  - exists acc. split; [done|]. intros c. by rewrite andb_true_r.
  - destruct (Hbody x acc) as (r1 & Hr1 & Hsem1); [left|].
    rewrite Hr1. cbn [bind].
    destruct (IH r1) as (r & Hr & Hsem).
    { intros y acc' Hy. apply Hbody. by right. }
    exists r. split; [done|]. intros c. by rewrite Hsem, Hsem1, andb_assoc.
Qed.

Lemma or_loop_sem {A} (l : list A)
    (body : A → (gset string → bool) → result (gset string → bool))
    (g : A → gset string → bool) (acc : gset string → bool) :
  (∀ x acc', x ∈ l → ∃ r, body x acc' = Ok r ∧ ∀ c, r c = acc' c || g x c) →
  ∃ r, for_each l body acc = Ok r
       ∧ ∀ c, r c = acc c || existsb (λ x, g x c) l.
Proof.
  revert acc. induction l as [|x l IH]; intros acc Hbody; cbn [for_each existsb].
  - exists acc. split; [done|]. intros c. by rewrite orb_false_r.
  - destruct (Hbody x acc) as (r1 & Hr1 & Hsem1); [left|].
    rewrite Hr1. cbn [bind].
    destruct (IH r1) as (r & Hr & Hsem).
    { intros y acc' Hy. apply Hbody. by right. }
    exists r. split; [done|]. intros c. by rewrite Hsem, Hsem1, orb_assoc.
Qed.

Lemma fold_arcs_notin (ts : gset string)
    (l : list (string * PetriNet.arc_info))
    (acc : gmap string (list string) * gmap string (list string)) (tr : string) :
  tr ∉ l.*1 →
  let r := foldl (λ (acc : gmap string (list string) * gmap string (list string))
                    (item : string * PetriNet.arc_info),
                    if decide (item.1 ∈ ts) then
                      (<[item.1 := PetriNet.input item.2]> acc.1,
                       <[item.1 := PetriNet.output item.2]> acc.2)
                    else acc) acc l in
  r.1 !! tr = acc.1 !! tr ∧ r.2 !! tr = acc.2 !! tr.
Proof.
  revert acc. induction l as [|[k v] l IH]; intros acc Hnin; cbn [foldl].
  - done.
  - cbn in Hnin. apply not_elem_of_cons in Hnin as [Hne Hnin].
    destruct (IH (if decide ((k, v).1 ∈ ts)
                  then (<[(k, v).1 := PetriNet.input (k, v).2]> acc.1,
                        <[(k, v).1 := PetriNet.output (k, v).2]> acc.2)
                  else acc) Hnin) as [H1 H2].
    cbn zeta in *. rewrite H1, H2. cbn [fst snd].
    destruct (decide (k ∈ ts)); cbn [fst snd]; [|done].
    by rewrite !lookup_insert_ne.
Qed.

Lemma fold_arcs_in (ts : gset string)
    (l : list (string * PetriNet.arc_info))
    (acc : gmap string (list string) * gmap string (list string))
    (tr : string) (a : PetriNet.arc_info) :
  NoDup l.*1 → (tr, a) ∈ l → tr ∈ ts →
  let r := foldl (λ (acc : gmap string (list string) * gmap string (list string))
                    (item : string * PetriNet.arc_info),
                    if decide (item.1 ∈ ts) then
                      (<[item.1 := PetriNet.input item.2]> acc.1,
                       <[item.1 := PetriNet.output item.2]> acc.2)
                    else acc) acc l in
  r.1 !! tr = Some (PetriNet.input a) ∧ r.2 !! tr = Some (PetriNet.output a).
Proof.
  revert acc. induction l as [|[k v] l IH]; intros acc Hnd Hin Hts; cbn [foldl].
  - by apply elem_of_nil in Hin.
  - cbn in Hnd. apply NoDup_cons in Hnd as [Hk Hnd].
    apply elem_of_cons in Hin as [Heq|Hin].
    + injection Heq as <- <-.
      pose proof (fold_arcs_notin ts l
                    (if decide ((tr, a).1 ∈ ts)
                     then (<[(tr, a).1 := PetriNet.input (tr, a).2]> acc.1,
                           <[(tr, a).1 := PetriNet.output (tr, a).2]> acc.2)
                     else acc) tr Hk) as [H1 H2].
      cbn zeta in *. rewrite H1, H2. cbn [fst snd].
      rewrite decide_True by done. cbn [fst snd].
      by rewrite !lookup_insert_eq.
    + by apply IH.
Qed.

Lemma build_transition_maps_lookup (e : BDDReachability.t) (tr : string)
    (a : PetriNet.arc_info) :
  tr ∈ PetriNet.transitions (BDDReachability.petri_net e) →
  PetriNet.arcs (BDDReachability.petri_net e) !! tr = Some a →
  (BDDReachability._build_transition_maps e).1 !! tr = Some (PetriNet.input a)
  ∧ (BDDReachability._build_transition_maps e).2 !! tr
    = Some (PetriNet.output a).
Proof.
  intros Htr Ha. unfold BDDReachability._build_transition_maps.
  apply fold_arcs_in.
  - apply NoDup_fst_map_to_list.
  - by apply elem_of_map_to_list.
  - done.
Qed.

Lemma well_formed_pre_post (net : PetriNet.t) (tr : string) :
  well_formed net → tr ∈ PetriNet.transitions net →
  ∃ a, PetriNet.arcs net !! tr = Some a
       ∧ pre_of net tr = PetriNet.input a
       ∧ post_of net tr = PetriNet.output a
       ∧ (∀ p, p ∈ PetriNet.input a → p ∈ PetriNet.places net)
       ∧ (∀ p, p ∈ PetriNet.output a → p ∈ PetriNet.places net).
Proof.
  intros Hwf Htr. destruct (Hwf tr Htr) as (a & Ha & Hp).
  exists a. unfold pre_of, post_of. rewrite Ha.
  repeat split; try done; intros p Hin; apply Hp, elem_of_app; auto.
Qed.

Lemma next_cons_step_sem (e : BDDReachability.t) (pre post : list string)
    (p : string) (nc : gset string → bool) :
  BDDReachability.place_var e !! p = Some (var_fn p) →
  BDDReachability.next_var e !! p = Some (var_fn (BDDReachability.primed p)) →
  ∃ r, BDDReachability.next_cons_step e pre post p nc = Ok r
       ∧ ∀ c, r c = nc c && delta_sem pre post c p.
Proof.
  intros Hpv Hnv. unfold BDDReachability.next_cons_step, getitem.
  rewrite Hpv, Hnv. cbn [bind]. unfold delta_sem.
  destruct (decide (p ∈ post)); [eexists; split; [done|]; intros c; done|].
  destruct (decide (p ∈ pre)); [eexists; split; [done|]; intros c; done|].
  eexists; split; [done|]. intros c.
  unfold BDD.__and__, BDD.__or__, BDD.__invert__, var_fn. f_equal.
  by destruct (bool_decide (p ∈ c)),
              (bool_decide (BDDReachability.primed p ∈ c)).
Qed.

Lemma build_transition_relation_sem (e : BDDReachability.t) (b : BDD.manager) :
  well_formed (BDDReachability.petri_net e) →
  BDDReachability.bdd_manager e = Some b →
  (∀ p, p ∈ PetriNet.places (BDDReachability.petri_net e) →
        BDDReachability.place_var e !! p = Some (var_fn p)) →
  (∀ p, p ∈ PetriNet.places (BDDReachability.petri_net e) →
        BDDReachability.next_var e !! p
        = Some (var_fn (BDDReachability.primed p))) →
  (∀ tr a, tr ∈ PetriNet.transitions (BDDReachability.petri_net e) →
           PetriNet.arcs (BDDReachability.petri_net e) !! tr = Some a →
           BDDReachability.trans_in e !! tr = Some (PetriNet.input a)
           ∧ BDDReachability.trans_out e !! tr = Some (PetriNet.output a)) →
  ∃ T, BDDReachability._build_transition_relation e = Ok T
       ∧ ∀ c, T c = T_sem (BDDReachability.petri_net e) c.
Proof.
  intros Hwf Hb Hpv Hnv Hmaps.
  unfold BDDReachability._build_transition_relation. rewrite Hb.
  set (net := BDDReachability.petri_net e) in *.
  match goal with
  | |- ∃ T, for_each ?l ?body ?acc = Ok T ∧ _ =>
      destruct (or_loop_sem l body (λ tr c, step_sem net c tr) acc)
        as (T & HT & Hsem); [|exists T; split; [exact HT|]]
  end.
  2: { intros c. rewrite Hsem. unfold T_sem. cbn. reflexivity. }
  intros tr acc Htr. apply elem_of_elements in Htr.
  destruct (well_formed_pre_post net tr Hwf Htr)
    as (a & Ha & Hpre & Hpost & Hin & Hout).
  destruct (Hmaps tr a Htr Ha) as [Hti Hto]. cbv beta.
  rewrite Hti, Hto. cbn [default from_option]. unfold id.
  destruct (and_loop_sem (PetriNet.input a)
              (λ p enabled, x ←! getitem (BDDReachability.place_var e) p;
                            Ok (BDD.__and__ enabled x))
              (λ p c, bool_decide (p ∈ c)) BDD.true_) as (en & Hen & Hensem).
  { intros p acc' Hp. unfold getitem. rewrite (Hpv p (Hin p Hp)). cbn [bind].
    eexists. split; [done|]. done. }
  rewrite Hen. cbn [bind].
  destruct (and_loop_sem (BDDReachability.sorted (PetriNet.places net))
              (BDDReachability.next_cons_step e (PetriNet.input a) (PetriNet.output a))
              (λ p c, delta_sem (PetriNet.input a) (PetriNet.output a) c p)
              BDD.true_) as (nc & Hnc & Hncsem).
  { intros p acc' Hp. apply elem_of_sorted in Hp.
    by apply next_cons_step_sem; [apply Hpv | apply Hnv]. }
  rewrite Hnc. cbn [bind]. eexists. split; [done|].
  intros c. unfold BDD.__or__, BDD.__and__. f_equal.
  rewrite Hensem, Hncsem. unfold step_sem, BDD.true_. rewrite Hpre, Hpost.
  cbn [andb]. done.
Qed.

Lemma initialize_bdd_initialized (e : BDDReachability.t) :
  well_formed (BDDReachability.petri_net e) →
  ∃ e' b T,
    BDDReachability.initialize_bdd e = Ok e'
    ∧ initialized (BDDReachability.petri_net e) e' b T
    ∧ BDDReachability.reachable_bdd e' = Some BDD.false_.
Proof.
  intros Hwf. unfold BDDReachability.initialize_bdd.
  set (net := BDDReachability.petri_net e) in *.
  destruct (declare_places_spec (BDDReachability.sorted (PetriNet.places net))
              BDD.new ∅ ∅) as (b & pv & nv & Hrun & Hvars & Hpv & Hnv).
  rewrite Hrun. cbn [bind fst snd].
  match goal with
  | |- ∃ e' b T, (T0 ←! BDDReachability._build_transition_relation ?e2; _) = _ ∧ _ =>
      destruct (build_transition_relation_sem e2 b) as (T & HT & Hsem)
  end; cbn [BDDReachability.petri_net BDDReachability.bdd_manager
            BDDReachability.place_var BDDReachability.next_var
            BDDReachability.trans_in BDDReachability.trans_out]; try done.
  - intros p Hp. rewrite Hpv, decide_True; [done | by apply elem_of_sorted].
  - intros p Hp. rewrite Hnv, decide_True; [done | by apply elem_of_sorted].
  - intros tr a Htr Ha.
    match goal with
    | |- (BDDReachability._build_transition_maps ?e1).1 !! _ = _ ∧ _ =>
        apply (build_transition_maps_lookup e1 tr a Htr Ha)
    end.
  - rewrite HT. cbn [bind]. eexists _, b, T. split; [done|]. split; [|done].
    split; cbn [BDDReachability.petri_net BDDReachability.bdd_manager
                BDDReachability.place_var BDDReachability.next_var
                BDDReachability.transition_relation]; try done.
    + intros x. rewrite Hvars. cbn. split.
      * intros [Hx|(p & Hp & Hx)]; [by apply elem_of_nil in Hx|].
        exists p. split; [by apply elem_of_sorted | done].
      * intros (p & Hp & Hx). right. exists p.
        split; [by apply elem_of_sorted | done].
    + intros p Hp. rewrite Hpv, decide_True; [done | by apply elem_of_sorted].
    + intros p Hp. rewrite Hnv, decide_True; [done | by apply elem_of_sorted].
Qed.

(** ** Firing and the transition relation *)

Lemma has_token_foldl_set (b : bool) (l : list string) (m : gmap string bool)
    (q : string) :
  Marking.has_token (foldl (λ m place, Marking.set_token m place b) m l) q
  = if decide (q ∈ l) then b else Marking.has_token m q.
Proof.
  unfold Marking.has_token, Marking.set_token.
  rewrite (foldl_insert_lookup (λ _, b)).
  by destruct (decide (q ∈ l)).
Qed.

Lemma dom_foldl_set (b : bool) (l : list string) (m : gmap string bool) :
  dom (foldl (λ m place, Marking.set_token m place b) m l)
  = dom m ∪ list_to_set l.
Proof.
  apply set_eq. intros q. rewrite elem_of_union, elem_of_list_to_set, !elem_of_dom.
  unfold Marking.set_token. rewrite (foldl_insert_lookup (λ _, b)).
  destruct (decide (q ∈ l)) as [Hin|Hnin].
  - split; [by right | eauto].
  - split; [by left | by intros [?|?]].
Qed.

Lemma has_token_fired (m : gmap string bool) (pre post : list string) (q : string) :
  Marking.has_token (fired m pre post) q
  = if decide (q ∈ post) then true
    else if decide (q ∈ pre) then false else Marking.has_token m q.
Proof. unfold fired. by rewrite !has_token_foldl_set. Qed.

Lemma dom_fired (m : gmap string bool) (pre post : list string) :
  dom (fired m pre post) = dom m ∪ list_to_set pre ∪ list_to_set post.
Proof. unfold fired. by rewrite !dom_foldl_set. Qed.

Lemma has_token_notin_dom (m : gmap string bool) (p : string) :
  p ∉ dom m → Marking.has_token m p = false.
Proof.
  intros H. apply not_elem_of_dom in H. unfold Marking.has_token. by rewrite H.
Qed.

Lemma marking_ext (m1 m2 : gmap string bool) :
  dom m1 = dom m2 →
  (∀ p, Marking.has_token m1 p = Marking.has_token m2 p) →
  m1 = m2.
Proof.
  intros Hdom Htok. apply map_eq. intros p.
  specialize (Htok p). unfold Marking.has_token in Htok.
  destruct (m1 !! p) as [b1|] eqn:H1, (m2 !! p) as [b2|] eqn:H2; simpl in *.
  - by subst.
  - assert (p ∈ dom m1) as Hin by (apply elem_of_dom; eauto).
    rewrite Hdom in Hin. apply elem_of_dom in Hin as [? ?]. congruence.
  - assert (p ∈ dom m2) as Hin by (apply elem_of_dom; eauto).
    rewrite <- Hdom in Hin. apply elem_of_dom in Hin as [? ?]. congruence.
  - done.
Qed.

Lemma enabled_fire (net : PetriNet.t) (tr : string) (m : gmap string bool) :
  well_formed net → tr ∈ PetriNet.transitions net →
  PetriNet.is_enabled net tr m
  = Ok (forallb (Marking.has_token m) (pre_of net tr))
  ∧ PetriNet.fire_transition net tr m
    = if forallb (Marking.has_token m) (pre_of net tr)
      then Ok (fired m (pre_of net tr) (post_of net tr))
      else Raise ValueError.
Proof.
  intros Hwf Htr.
  destruct (well_formed_pre_post net tr Hwf Htr) as (a & Ha & -> & -> & _).
  split; [by apply is_enabled_arcs | by apply fire_transition_arcs].
Qed.

Lemma step_sem_pair (net : PetriNet.t) (tr : string) (c : gset string)
    (m m' : gmap string bool) :
  well_formed net → tr ∈ PetriNet.transitions net →
  encodes_pair (PetriNet.places net) c m m' →
  step_sem net c tr = true
  ↔ forallb (Marking.has_token m) (pre_of net tr) = true
    ∧ ∀ p, p ∈ PetriNet.places net →
           Marking.has_token m' p
           = Marking.has_token (fired m (pre_of net tr) (post_of net tr)) p.
Proof.
  intros Hwf Htr Henc.
  destruct (well_formed_pre_post net tr Hwf Htr)
    as (a & Ha & Hpre & Hpost & Hin & Hout).
  unfold step_sem. rewrite andb_true_iff, !forallb_forall.
  rewrite Hpre, Hpost.
  assert (∀ p, p ∈ PetriNet.places net →
            delta_sem (PetriNet.input a) (PetriNet.output a) c p = true
            ↔ Marking.has_token m' p
              = Marking.has_token (fired m (PetriNet.input a) (PetriNet.output a)) p)
    as Hdelta.
  { intros p Hp. destruct (Henc p Hp) as [Hc Hc'].
    rewrite has_token_fired. unfold delta_sem. rewrite Hc, Hc'.
    destruct (decide (p ∈ PetriNet.output a)); [done|].
    destruct (decide (p ∈ PetriNet.input a)).
    - by destruct (Marking.has_token m' p).
    - by destruct (Marking.has_token m p), (Marking.has_token m' p). }
  split.
  - intros [Hen Hupd]. split.
    + intros p Hp. apply list_elem_of_In in Hp.
      destruct (Henc p (Hin p Hp)) as [<- _]. apply Hen. by apply list_elem_of_In.
    + intros p Hp. apply Hdelta; [done|]. apply Hupd, list_elem_of_In.
      by apply elem_of_sorted.
  - intros [Hen Hupd]. split.
    + intros p Hp. apply list_elem_of_In in Hp.
      destruct (Henc p (Hin p Hp)) as [-> _]. apply Hen. by apply list_elem_of_In.
    + intros p Hp. apply list_elem_of_In, elem_of_sorted in Hp.
      apply Hdelta; [done|]. by apply Hupd.
Qed.

Lemma T_sem_pair (net : PetriNet.t) (c : gset string) (m m' : gmap string bool) :
  well_formed net →
  encodes_pair (PetriNet.places net) c m m' →
  T_sem net c = true
  ↔ ∃ tr, tr ∈ PetriNet.transitions net
          ∧ PetriNet.is_enabled net tr m = Ok true
          ∧ ∃ m1, PetriNet.fire_transition net tr m = Ok m1
                  ∧ ∀ p, p ∈ PetriNet.places net →
                         Marking.has_token m' p = Marking.has_token m1 p.
Proof.
  intros Hwf Henc. unfold T_sem. rewrite existsb_exists. split.
  - intros (tr & Htr & Hstep). apply list_elem_of_In, elem_of_elements in Htr.
    apply (step_sem_pair net tr c m m' Hwf Htr Henc) in Hstep as [Hen Hupd].
    destruct (enabled_fire net tr m Hwf Htr) as [He Hf].
    exists tr. rewrite He, Hf, Hen. eauto.
  - intros (tr & Htr & Hen & m1 & Hfire & Hupd).
    destruct (enabled_fire net tr m Hwf Htr) as [He Hf].
    rewrite He in Hen. injection Hen as Hen. rewrite Hf, Hen in Hfire.
    injection Hfire as <-.
    exists tr. split; [by apply list_elem_of_In, elem_of_elements|].
    by apply (step_sem_pair net tr c m m' Hwf Htr Henc).
Qed.

Lemma elem_of_marked (places : gset string) (m : gmap string bool) (p : string) :
  p ∈ marked places m ↔ Marking.has_token m p = true ∧ p ∈ places.
Proof. unfold marked. by rewrite elem_of_filter. Qed.

Lemma encode_pair_encodes (places : gset string) (m m' : gmap string bool) :
  prime_free places →
  encodes_pair places (encode_pair places m m') m m'.
Proof.
  intros Hpf p Hp. unfold encode_pair. split.
  - destruct (Marking.has_token m p) eqn:Hm.
    + apply bool_decide_eq_true. apply elem_of_union. left.
      by apply elem_of_marked.
    + apply bool_decide_eq_false. intros Hin.
      apply elem_of_union in Hin as [Hin|Hin].
      * apply elem_of_marked in Hin as [? _]. congruence.
      * apply elem_of_map in Hin as (q & -> & Hq).
        apply elem_of_marked in Hq as [_ Hq]. by apply (Hpf q Hq).
  - destruct (Marking.has_token m' p) eqn:Hm.
    + apply bool_decide_eq_true. apply elem_of_union. right.
      apply elem_of_map. exists p. split; [done|]. by apply elem_of_marked.
    + apply bool_decide_eq_false. intros Hin.
      apply elem_of_union in Hin as [Hin|Hin].
      * apply elem_of_marked in Hin as [_ Hin]. by apply (Hpf p Hp).
      * apply elem_of_map in Hin as (q & Heq & Hq).
        apply primed_inj in Heq as <-.
        apply elem_of_marked in Hq as [? _]. congruence.
Qed.

(** X30. On a net whose arcs are between its own places and transitions and
    in which no place id is another place id followed by the prime, for
    markings [m] and [m'] that store exactly the places of the net, the
    encoded pair satisfies the transition relation built by [initialize_bdd]
    exactly when some transition is enabled at [m] and firing it gives
    [m']. *)
Theorem transition_relation_sound (e e' : BDDReachability.t)
    (m m' : gmap string bool) :
  well_formed (BDDReachability.petri_net e) →
  prime_free (PetriNet.places (BDDReachability.petri_net e)) →
  BDDReachability.initialize_bdd e = Ok e' →
  dom m = PetriNet.places (BDDReachability.petri_net e) →
  dom m' = PetriNet.places (BDDReachability.petri_net e) →
  ∃ T, BDDReachability.transition_relation e' = Some T
       ∧ (T (encode_pair (PetriNet.places (BDDReachability.petri_net e)) m m')
          = true
          ↔ ∃ tr, tr ∈ PetriNet.transitions (BDDReachability.petri_net e)
                  ∧ PetriNet.is_enabled (BDDReachability.petri_net e) tr m
                    = Ok true
                  ∧ PetriNet.fire_transition (BDDReachability.petri_net e) tr m
                    = Ok m').
Proof.
  intros Hwf Hpf Hinit Hdom Hdom'.
  destruct (initialize_bdd_initialized e Hwf) as (e1 & b & T & He1 & Hi & _).
  rewrite Hinit in He1. injection He1 as <-.
  set (net := BDDReachability.petri_net e) in *.
  exists T. split; [apply Hi|]. rewrite (init_T_sem _ _ _ _ Hi).
  rewrite (T_sem_pair net _ m m' Hwf (encode_pair_encodes _ m m' Hpf)).
  split.
  - intros (tr & Htr & Hen & m1 & Hfire & Hupd).
    exists tr. split; [done|]. split; [done|]. rewrite Hfire. f_equal.
    destruct (enabled_fire net tr m Hwf Htr) as [He Hf].
    rewrite He in Hen. injection Hen as Hen. rewrite Hf, Hen in Hfire.
    injection Hfire as <-.
    destruct (well_formed_pre_post net tr Hwf Htr)
      as (a & Ha & Hpre & Hpost & Hin & Hout).
    assert (dom (fired m (pre_of net tr) (post_of net tr)) = PetriNet.places net)
      as Hdomf.
    { rewrite dom_fired, Hdom, Hpre, Hpost. apply set_eq. intros q.
      rewrite !elem_of_union, !elem_of_list_to_set. naive_solver. }
    apply marking_ext; [by rewrite Hdomf|]. intros p.
    destruct (decide (p ∈ PetriNet.places net)) as [Hp|Hp].
    + symmetry. by apply Hupd.
    + rewrite !has_token_notin_dom; [done | by rewrite Hdom' | by rewrite Hdomf].
  - intros (tr & Htr & Hen & Hfire). exists tr. split; [done|]. split; [done|].
    exists m'. split; [done|]. done.
Qed.

Lemma transition_relation_sound_witness :
  ∃ T, BDDReachability.transition_relation
         (match BDDReachability.initialize_bdd
                  (BDDReachability.__init__ net_p1_t1_p2) with
          | Ok e' => e'
          | Raise _ => BDDReachability.__init__ net_p1_t1_p2
          end) = Some T
       ∧ T (encode_pair {["p1"; "p2"]}
              {["p1" := true; "p2" := false]}
              {["p1" := false; "p2" := true]}) = true.
Proof.
  assert (well_formed net_p1_t1_p2) as Hwf.
  { intros tr Htr. unfold net_p1_t1_p2 in *. cbn in Htr.
    apply elem_of_singleton in Htr as ->.
    exists (PetriNet.ArcInfo ["p1"] ["p2"]). split; [done|].
    intros p Hp. cbn in Hp. cbn.
    apply elem_of_cons in Hp as [->|Hp]; [set_solver|].
    apply elem_of_cons in Hp as [->|Hp]; [set_solver|].
    by apply elem_of_nil in Hp. }
  destruct (initialize_bdd_initialized (BDDReachability.__init__ net_p1_t1_p2) Hwf)
    as (e1 & b & T0 & He1 & _).
  rewrite He1.
  destruct (transition_relation_sound (BDDReachability.__init__ net_p1_t1_p2) e1
              {["p1" := true; "p2" := false]} {["p1" := false; "p2" := true]})
    as (T & HT & Hiff).
  - exact Hwf.
  - intros p Hp. cbn in Hp. cbn.
    apply elem_of_union in Hp. rewrite !elem_of_singleton in Hp.
    intros Hin. apply elem_of_union in Hin. rewrite !elem_of_singleton in Hin.
    destruct Hp as [-> | ->], Hin as [Hin|Hin]; discriminate Hin.
  - exact He1.
  - vm_compute. reflexivity.
  - vm_compute. reflexivity.
  - exists T. split; [exact HT|]. apply Hiff.
    exists "t1". split; [vm_compute; reflexivity|].
    split; vm_compute; reflexivity.
Defined.

(** ** Encoding, post-image and the fixpoint *)

Lemma encode_marking_sem (net : PetriNet.t) (e : BDDReachability.t)
    (b : BDD.manager) (T : gset string → bool) (m : gmap string bool) :
  initialized net e b T →
  ∃ enc, BDDReachability.encode_marking e m = Ok enc
         ∧ ∀ c, enc c = true
                ↔ ∀ p, p ∈ PetriNet.places net →
                       bool_decide (p ∈ c) = Marking.has_token m p.
Proof.
  intros Hi. unfold BDDReachability.encode_marking.
  rewrite (init_bdd _ _ _ _ Hi), (init_net _ _ _ _ Hi).
  match goal with
  | |- ∃ enc, for_each ?l ?body ?acc = Ok enc ∧ _ =>
      destruct (and_loop_sem l body
                  (λ p c, Bool.eqb (bool_decide (p ∈ c)) (Marking.has_token m p))
                  acc) as (enc & Henc & Hsem)
  end.
  - intros p acc' Hp. apply elem_of_sorted in Hp. cbv beta.
    unfold getitem. rewrite (init_place_var _ _ _ _ Hi p Hp). cbn [bind].
    destruct (Marking.has_token m p); eexists; (split; [done|]); intros c;
      unfold BDD.__and__, BDD.__invert__, var_fn; f_equal;
      by destruct (bool_decide (p ∈ c)).
  - exists enc. split; [done|]. intros c. rewrite Hsem. unfold BDD.true_.
    cbn [andb]. rewrite forallb_forall. split.
    + intros H p Hp. apply Bool.eqb_prop, H, list_elem_of_In.
      by apply elem_of_sorted.
    + intros H p Hp. apply list_elem_of_In, elem_of_sorted in Hp.
      rewrite (H p Hp). by destruct (Marking.has_token m p).
Qed.

Lemma exist_intro (names : list string) (u : gset string → bool)
    (a b : gset string) :
  b ⊆ list_to_set names →
  u ((a ∖ list_to_set names) ∪ b) = true →
  foldr BDD.exist1 u names a = true.
Proof.
  revert a b. induction names as [|x names IH]; intros a b Hb Hu; cbn [foldr].
  - cbn in Hb, Hu. replace a with (a ∖ ∅ ∪ b); [done|]. set_solver.
  - cbn [list_to_set foldr] in Hb, Hu. unfold BDD.exist1 at 1.
    apply orb_true_iff.
    destruct (decide (x ∈ b)) as [Hx|Hx].
    + left. apply (IH _ (b ∩ list_to_set names)); [set_solver|].
      replace ((({[x]} ∪ a) ∖ list_to_set names) ∪ b ∩ list_to_set names)
        with ((a ∖ ({[x]} ∪ list_to_set names)) ∪ b); [done|].
      apply set_eq. intros y.
      rewrite !elem_of_union, !elem_of_difference, elem_of_intersection,
        elem_of_union, elem_of_singleton.
      destruct (decide (y = x)) as [->|Hne].
      * split; intros _; [|by right].
        destruct (decide (x ∈ (list_to_set names : gset string))).
        -- by right.
        -- left. split; [|done]. apply elem_of_union. left.
           by apply elem_of_singleton.
      * rewrite elem_of_union, elem_of_singleton.
        assert (y ∈ b → y ∈ (list_to_set names : gset string)) as Hyb.
        { intros Hy. apply Hb in Hy. apply elem_of_union in Hy as [Hy|Hy]; [|done].
          by apply elem_of_singleton in Hy. }
        tauto.
    + right. apply (IH _ b); [set_solver|].
      replace (((a ∖ {[x]}) ∖ list_to_set names) ∪ b)
        with ((a ∖ ({[x]} ∪ list_to_set names)) ∪ b); [done|].
      set_solver.
Qed.

Lemma rename_map_lookup_in (l : list string)
    (m0 : gmap string (gset string → bool)) (q : string) :
  q ∈ l →
  foldl (λ d p, <[BDDReachability.primed p := var_fn p]> d) m0 l
    !! BDDReachability.primed q = Some (var_fn q).
Proof.
  revert m0. induction l as [|x l IH] using rev_ind; intros m0 Hq.
  - by apply elem_of_nil in Hq.
  - rewrite foldl_app. cbn [foldl].
    destruct (decide (x = q)) as [->|Hne].
    + by rewrite lookup_insert_eq.
    + rewrite lookup_insert_ne.
      * apply IH. apply elem_of_app in Hq as [Hq|Hq]; [done|].
        apply list_elem_of_singleton in Hq. congruence.
      * intros Heq. by apply primed_inj in Heq.
Qed.

Lemma rename_map_lookup_notin (l : list string)
    (m0 : gmap string (gset string → bool)) (k : string) :
  (∀ p, p ∈ l → k ≠ BDDReachability.primed p) →
  foldl (λ d p, <[BDDReachability.primed p := var_fn p]> d) m0 l !! k = m0 !! k.
Proof.
  revert m0. induction l as [|x l IH]; intros m0 Hk; cbn [foldl].
  - done.
  - rewrite IH.
    + rewrite lookup_insert_ne; [done|]. intros Heq. apply (Hk x); [left|done].
    + intros p Hp. apply Hk. by right.
Qed.

Lemma rename_map_spec (l : list string) (k : string) :
  (∃ p, p ∈ l ∧ k = BDDReachability.primed p
        ∧ rename_map_of l !! k = Some (var_fn p))
  ∨ ((∀ p, p ∈ l → k ≠ BDDReachability.primed p)
     ∧ rename_map_of l !! k = None).
Proof.
  unfold rename_map_of.
  destruct (decide (Exists (λ p, k = BDDReachability.primed p) l)) as [Hex|Hnex].
  - left. apply Exists_exists in Hex as (p & Hp & ->).
    exists p. split; [done|]. split; [done|]. by apply rename_map_lookup_in.
  - right. assert (∀ p, p ∈ l → k ≠ BDDReachability.primed p) as Hk.
    { intros p Hp Heq. apply Hnex, Exists_exists. eauto. }
    split; [done|]. by rewrite rename_map_lookup_notin.
Qed.

Lemma rename_map_filter_dom (l : list string) (a : gset string) (k : string) :
  k ∈ dom (filter (λ kv : string * (gset string → bool), kv.2 a = true)
             (rename_map_of l))
  ↔ ∃ p, p ∈ l ∧ k = BDDReachability.primed p ∧ p ∈ a.
Proof.
  rewrite elem_of_dom. split.
  - intros [v Hv]. apply map_lookup_filter_Some in Hv as [Hlk Hv]. cbn in Hv.
    destruct (rename_map_spec l k) as [(p & Hp & -> & Hlk')|[_ Hnone]].
    + exists p. split; [done|]. split; [done|].
      rewrite Hlk' in Hlk. injection Hlk as <-.
      unfold var_fn in Hv. by apply bool_decide_eq_true in Hv.
    + congruence.
  - intros (p & Hp & -> & Ha). exists (var_fn p).
    apply map_lookup_filter_Some. split.
    + by apply rename_map_lookup_in.
    + cbn. unfold var_fn. by apply bool_decide_eq_true.
Qed.

Lemma rename_map_dom (l : list string) (k : string) :
  k ∈ dom (rename_map_of l) ↔ ∃ p, p ∈ l ∧ k = BDDReachability.primed p.
Proof.
  rewrite elem_of_dom.
  destruct (rename_map_spec l k) as [(p & Hp & -> & Hlk)|[Hk Hnone]].
  - rewrite Hlk. split; [eauto|]. intros _. eauto.
  - rewrite Hnone. split; [by intros [? ?]|].
    intros (p & Hp & ->). by destruct (Hk p Hp).
Qed.

Lemma post_sem_intro (net : PetriNet.t) (e : BDDReachability.t)
    (b : BDD.manager) (T R : gset string → bool) :
  initialized net e b T →
  ∃ P, BDDReachability.post e R = Ok P
       ∧ ∀ a c, prime_free (PetriNet.places net) →
                a ⊆ list_to_set (BDD.vars b) →
                c ⊆ list_to_set (BDD.vars b) →
                (∀ p, p ∈ PetriNet.places net →
                      bool_decide (BDDReachability.primed p ∈ c)
                      = bool_decide (p ∈ a)) →
                R c = true → T c = true → P a = true.
Proof.
  intros Hi. unfold BDDReachability.post.
  rewrite (init_bdd _ _ _ _ Hi), (init_T _ _ _ _ Hi), (init_net _ _ _ _ Hi).
  pose proof (elem_of_sorted (PetriNet.places net)) as Hsorted.
  assert (∀ x, x ∈ (list_to_set (BDD.vars b) : gset string)
               ↔ ∃ p, p ∈ BDDReachability.sorted (PetriNet.places net)
                      ∧ (x = p ∨ x = BDDReachability.primed p)) as Hvars.
  { intros x. rewrite elem_of_list_to_set, (init_vars _ _ _ _ Hi).
    split; intros (p & Hp & Hx); exists p; (split; [by apply Hsorted|done]). }
  assert (prime_free (PetriNet.places net) →
          ∀ p, p ∈ BDDReachability.sorted (PetriNet.places net) →
               ∀ q, q ∈ BDDReachability.sorted (PetriNet.places net) →
                    p ≠ BDDReachability.primed q) as Hpf.
  { intros Hpf p Hp q Hq ->. apply Hsorted in Hp, Hq. by apply (Hpf q). }
  assert (∀ p, p ∈ BDDReachability.sorted (PetriNet.places net) →
               BDDReachability.place_var e !! p = Some (var_fn p)) as Hpv.
  { intros p Hp. apply (init_place_var _ _ _ _ Hi). by apply Hsorted. }
  assert (∀ a c : gset string,
            (∀ p, p ∈ PetriNet.places net →
                  bool_decide (BDDReachability.primed p ∈ c)
                  = bool_decide (p ∈ a)) →
            ∀ p, p ∈ BDDReachability.sorted (PetriNet.places net) →
                 BDDReachability.primed p ∈ c ↔ p ∈ a) as Hnext.
  { intros a c H p Hp. apply Hsorted in Hp. specialize (H p Hp).
    by rewrite <- (bool_decide_eq_true (_ ∈ c)), H, bool_decide_eq_true. }
  clear Hsorted Hi.
  generalize dependent (BDDReachability.sorted (PetriNet.places net)).
  intros l Hvars Hpf Hpv Hnext.
  rewrite (for_each_foldl l _
             (λ d p, <[BDDReachability.primed p := var_fn p]> d)).
  2: { intros p d Hp. unfold getitem. by rewrite (Hpv p Hp). }
  cbn [bind]. fold (rename_map_of l).
  destruct l as [|x l'].
  - cbn [bind]. rewrite decide_True by apply dom_empty_L.
    eexists. split; [done|]. intros a c _ Ha Hc _ HR HT.
    assert (∀ s : gset string, s ⊆ list_to_set (BDD.vars b) → s = ∅) as Hempty.
    { intros s Hs. apply set_eq. intros y. split; [|set_solver].
      intros Hy. apply Hs, Hvars in Hy as (p & Hp & _). by apply elem_of_nil in Hp. }
    rewrite (Hempty a Ha), <- (Hempty c Hc). unfold BDD.__and__.
    by rewrite HR, HT.
  - set (l := x :: l') in *.
    unfold BDD.exist. rewrite decide_True.
    2: { apply Forall_forall. intros p Hp.
         apply (elem_of_list_to_set (C:=gset string)), Hvars. exists p. auto. }
    cbn [bind].
    assert (BDDReachability.primed x ∈ dom (rename_map_of l)) as Hx.
    { apply rename_map_dom. exists x. split; [left|done]. }
    rewrite decide_False by (intros Heq; rewrite Heq in Hx; set_solver).
    unfold BDD.let_. rewrite decide_True.
    2: { apply Forall_forall. intros k Hk.
         apply elem_of_elements, rename_map_dom in Hk as (p & Hp & ->).
         apply (elem_of_list_to_set (C:=gset string)), Hvars. exists p. auto. }
    eexists. split; [done|]. intros a c Hpf0 Ha Hc Hac HR HT.
    specialize (Hpf Hpf0).
    apply (exist_intro l _ _ (c ∩ list_to_set l)); [set_solver|].
    match goal with
    | |- BDD.__and__ R T ?s = true => replace s with c
    end.
    { unfold BDD.__and__. by rewrite HR, HT. }
    apply set_eq. intros y.
    rewrite elem_of_union, elem_of_difference, elem_of_intersection,
      elem_of_union, elem_of_difference, elem_of_list_to_set,
      rename_map_filter_dom, rename_map_dom.
    split.
    + intros Hy. destruct (decide (y ∈ l)) as [Hyl|Hyl]; [by right|].
      left. split; [|done]. right.
      pose proof (Hc _ Hy) as Hy'.
      apply Hvars in Hy' as (p & Hp & [->| ->]); [done|].
      exists p. split; [done|]. split; [done|]. by apply (Hnext a c Hac p Hp).
    + intros [[[[Hya Hnd]|(p & Hp & -> & Hpa)] Hyl]|[Hyc _]]; [| |done].
      * pose proof (Ha _ Hya) as Hya'.
        apply Hvars in Hya' as (p & Hp & [->| ->]); [done|].
        exfalso. apply Hnd. eauto.
      * by apply (Hnext a c Hac p Hp).
Qed.

Lemma filter_length_lt {A} (P Q : A → Prop) `{∀ x, Decision (P x)}
    `{∀ x, Decision (Q x)} (l : list A) (x : A) :
  (∀ y, P y → Q y) → x ∈ l → Q x → ¬ P x →
  (length (filter P l) < length (filter Q l))%nat.
Proof.
  intros HPQ Hx HQ HnP.
  assert (∀ l', length (filter P l') ≤ length (filter Q l'))%nat as Hle.
  { induction l' as [|y l' IH]; [done|]. rewrite !filter_cons.
    destruct (decide (P y)) as [Hy|Hy].
    - rewrite decide_True by auto. cbn. lia.
    - destruct (decide (Q y)); cbn; lia. }
  induction l as [|y l IH]; [by apply elem_of_nil in Hx|].
  rewrite !filter_cons. apply elem_of_cons in Hx as [<-|Hx].
  - rewrite decide_False, decide_True by done. cbn. specialize (Hle l). lia.
  - specialize (IH Hx). destruct (decide (P y)) as [Hy|Hy].
    + rewrite decide_True by auto. cbn. lia.
    + destruct (decide (Q y)); cbn; lia.
Qed.

Lemma sat_count_le (b : BDD.manager) (R : gset string → bool) :
  (sat_count b R ≤ length (BDD.assignments (BDD.vars b)))%nat.
Proof. unfold sat_count. apply length_filter. Qed.

Lemma sat_count_lt (b : BDD.manager) (R R' : gset string → bool) :
  (∀ a, R a = true → R' a = true) →
  BDD.__eq__ b R' R = false →
  (sat_count b R < sat_count b R')%nat.
Proof.
  intros Hmono Hne. unfold BDD.__eq__ in Hne.
  apply forallb_false_elem in Hne as (a & Ha & Hneq).
  unfold sat_count. apply (filter_length_lt _ _ _ a); [done|done|..].
  - destruct (R' a) eqn:HR'; [done|]. destruct (R a) eqn:HR; [|done].
    by rewrite (Hmono a HR) in HR'.
  - intros HR. rewrite HR, (Hmono a HR) in Hneq. done.
Qed.

Lemma fixpoint_loop_terminates (net : PetriNet.t) (e : BDDReachability.t)
    (b : BDD.manager) (T : gset string → bool) :
  initialized net e b T →
  ∀ fuel R,
    (length (BDD.assignments (BDD.vars b)) - sat_count b R < fuel)%nat →
    ∃ Rf P, BDDReachability.fixpoint_loop fuel e b R = Ok Rf
            ∧ (∀ a, R a = true → Rf a = true)
            ∧ BDDReachability.post e Rf = Ok P
            ∧ BDD.__eq__ b (BDD.__or__ Rf P) Rf = true.
Proof.
  intros Hi fuel. induction fuel as [|fuel IH]; intros R Hfuel; [lia|].
  cbn [BDDReachability.fixpoint_loop].
  destruct (post_sem_intro net e b T R Hi) as (P & HP & _).
  rewrite HP. cbn [bind].
  destruct (BDD.__eq__ b (BDD.__or__ R P) R) eqn:Heq.
  - exists R, P. done.
  - assert (∀ a, R a = true → BDD.__or__ R P a = true) as Hmono.
    { intros a Ha. unfold BDD.__or__. by rewrite Ha. }
    pose proof (sat_count_lt b R _ Hmono Heq) as Hlt.
    pose proof (sat_count_le b (BDD.__or__ R P)) as Hle.
    destruct (IH (BDD.__or__ R P)) as (Rf & Pf & Hrun & Hsub & Hpost & Hfix); [lia|].
    exists Rf, Pf. split; [done|]. split; [|done].
    intros a Ha. by apply Hsub, Hmono.
Qed.

Lemma initialized_with_reachable (net : PetriNet.t) (e : BDDReachability.t)
    (b : BDD.manager) (T R : gset string → bool) :
  initialized net e b T →
  initialized net (BDDReachability.with_reachable e R) b T.
Proof. intros [? ? ? ? ? ? ?]. by split. Qed.

Lemma encode_pair_subseteq_vars (net : PetriNet.t) (e : BDDReachability.t)
    (b : BDD.manager) (T : gset string → bool) (m m' : gmap string bool) :
  initialized net e b T →
  encode_pair (PetriNet.places net) m m' ⊆ list_to_set (BDD.vars b).
Proof.
  intros Hi x Hx. apply elem_of_list_to_set, (init_vars _ _ _ _ Hi).
  unfold encode_pair in Hx. apply elem_of_union in Hx as [Hx|Hx].
  - apply elem_of_marked in Hx as [_ Hx]. eauto.
  - apply elem_of_map in Hx as (q & -> & Hq).
    apply elem_of_marked in Hq as [_ Hq]. eauto.
Qed.

(** The reachable set of an initialized engine, once the loop has stopped,
    contains the initial marking and is closed under firing. *)
Lemma fixpoint_closed (net : PetriNet.t) (e : BDDReachability.t)
    (b : BDD.manager) (T R P : gset string → bool) (m : gmap string bool)
    (tr : string) :
  well_formed net → prime_free (PetriNet.places net) →
  initialized net e b T →
  BDDReachability.post e R = Ok P →
  BDD.__eq__ b (BDD.__or__ R P) R = true →
  encoding_in e m R →
  tr ∈ PetriNet.transitions net →
  PetriNet.is_enabled net tr m = Ok true →
  ∃ m', PetriNet.fire_transition net tr m = Ok m' ∧ encoding_in e m' R.
Proof.
  intros Hwf Hpf Hi HP Hfix (b' & enc & Hb' & Henc & Hsub) Htr Hen.
  rewrite (init_bdd _ _ _ _ Hi) in Hb'. injection Hb' as <-.
  destruct (enabled_fire net tr m Hwf Htr) as [He Hf].
  rewrite He in Hen. injection Hen as Hen. rewrite Hen in Hf.
  set (m' := fired m (pre_of net tr) (post_of net tr)) in *.
  exists m'. split; [done|].
  destruct (encode_marking_sem net e b T m' Hi) as (enc' & Henc' & Hsem').
  exists b, enc'. split; [apply Hi|]. split; [done|].
  intros a Ha Ha0. pose proof (proj1 (Hsem' a) Ha0) as Ha'.
  rewrite bdd_eq_spec in Hfix. rewrite <- (Hfix a Ha).
  unfold BDD.__or__. apply orb_true_iff. right.
  destruct (post_sem_intro net e b T R Hi) as (P' & HP' & Hintro).
  rewrite HP in HP'. injection HP' as <-.
  pose proof (encode_pair_encodes (PetriNet.places net) m m' Hpf) as Hpair.
  apply (Hintro a (encode_pair (PetriNet.places net) m m') Hpf Ha).
  - by apply (encode_pair_subseteq_vars net e b T).
  - intros p Hp. destruct (Hpair p Hp) as [_ ->]. symmetry. by apply Ha'.
  - apply Hsub; [by apply (encode_pair_subseteq_vars net e b T)|].
    destruct (encode_marking_sem net e b T m Hi) as (enc0 & Henc0 & Hsem0).
    rewrite Henc in Henc0. injection Henc0 as <-.
    apply Hsem0. intros p Hp. by destruct (Hpair p Hp) as [-> _].
  - rewrite (init_T_sem _ _ _ _ Hi).
    apply (T_sem_pair net _ m m' Hwf Hpair).
    exists tr. split; [done|]. split; [by rewrite He, Hen|].
    exists m'. done.
Qed.

(** On a net whose arcs are between its own places and transitions and in
    which no place id is another place id followed by the prime, the
    computation of the reachable set stops, the set it returns contains the
    encoding of the initial marking, and with the encoding of a marking it
    contains the encoding of the marking reached by firing any enabled
    transition. *)
Theorem reachable_set_initial_and_closed (net : PetriNet.t)
    (m0 : gmap string bool) (e : BDDReachability.t) :
  well_formed net →
  prime_free (PetriNet.places net) →
  e = BDDReachability.__init__ net
  ∨ BDDReachability.initialize_bdd (BDDReachability.__init__ net) = Ok e →
  ∃ fuel R e',
    BDDReachability.compute_symbolic_reachability fuel m0 e = Ok (R, e')
    ∧ BDDReachability.reachable_bdd e' = Some R
    ∧ encoding_in e' m0 R
    ∧ ∀ m tr, encoding_in e' m R →
              tr ∈ PetriNet.transitions net →
              PetriNet.is_enabled net tr m = Ok true →
              ∃ m', PetriNet.fire_transition net tr m = Ok m'
                    ∧ encoding_in e' m' R.
Proof.
  intros Hwf Hpf He.
  assert (∃ e1 b T,
            match BDDReachability.bdd_manager e with
            | None => BDDReachability.initialize_bdd e
            | Some _ => Ok e
            end = Ok e1 ∧ initialized net e1 b T) as (e1 & b & T & He1 & Hi).
  { destruct (initialize_bdd_initialized (BDDReachability.__init__ net) Hwf)
      as (e1 & b & T & Hinit & Hi & _).
    exists e1, b, T. split; [|done]. destruct He as [->|He].
    - done.
    - rewrite Hinit in He. injection He as <-. by rewrite (init_bdd _ _ _ _ Hi). }
  destruct (encode_marking_sem net e1 b T m0 Hi) as (enc0 & Henc0 & Hsem0).
  destruct (fixpoint_loop_terminates net e1 b T Hi
              (S (length (BDD.assignments (BDD.vars b)))) enc0)
    as (R & P & Hrun & Hsub & HP & Hfix); [lia|].
  exists (S (length (BDD.assignments (BDD.vars b)))), R,
         (BDDReachability.with_reachable e1 R).
  pose proof (initialized_with_reachable net e1 b T R Hi) as Hi'.
  split; [|split; [done|split]].
  - unfold BDDReachability.compute_symbolic_reachability.
    rewrite He1. cbn [bind]. rewrite Henc0. cbn [bind].
    rewrite (init_bdd _ _ _ _ Hi), Hrun. done.
  - exists b, enc0. split; [apply Hi'|]. split; [done|].
    intros a _ Ha. by apply Hsub.
  - intros m tr Hm Htr Hen.
    by apply (fixpoint_closed net _ b T R P m tr Hwf Hpf Hi' HP Hfix).
Qed.

Lemma well_formed_net_p1_t1_p2 : well_formed net_p1_t1_p2.
Proof.
  intros tr Htr. unfold net_p1_t1_p2 in *. cbn in Htr.
  apply elem_of_singleton in Htr as ->.
  exists (PetriNet.ArcInfo ["p1"] ["p2"]). split; [done|].
  intros p Hp. cbn in Hp. cbn.
  apply elem_of_cons in Hp as [->|Hp]; [set_solver|].
  apply elem_of_cons in Hp as [->|Hp]; [set_solver|].
  by apply elem_of_nil in Hp.
Qed.

Lemma prime_free_net_p1_t1_p2 : prime_free (PetriNet.places net_p1_t1_p2).
Proof.
  intros p Hp. cbn in Hp. cbn.
  apply elem_of_union in Hp. rewrite !elem_of_singleton in Hp.
  intros Hin. apply elem_of_union in Hin. rewrite !elem_of_singleton in Hin.
  destruct Hp as [-> | ->], Hin as [Hin|Hin]; discriminate Hin.
Qed.

Lemma reachable_set_initial_and_closed_witness :
  ∃ fuel R e',
    BDDReachability.compute_symbolic_reachability fuel
      {["p1" := true; "p2" := false]} (BDDReachability.__init__ net_p1_t1_p2)
    = Ok (R, e')
    ∧ BDDReachability.reachable_bdd e' = Some R
    ∧ encoding_in e' {["p1" := true; "p2" := false]} R.
Proof.
  destruct (reachable_set_initial_and_closed net_p1_t1_p2
              {["p1" := true; "p2" := false]}
              (BDDReachability.__init__ net_p1_t1_p2))
    as (fuel & R & e' & Hrun & HR & Hin & _).
  - exact well_formed_net_p1_t1_p2.
  - exact prime_free_net_p1_t1_p2.
  - left. reflexivity.
  - exists fuel, R, e'. auto.
Defined.

Lemma result_eq_by_decide {A} `{EqDecision A} (r : result A) (x : A) :
  match r with
  | Ok y => bool_decide (y = x)
  | Raise _ => false
  end = true →
  r = Ok x.
Proof.
  destruct r as [y|]; [|done]. intros H. apply bool_decide_eq_true in H.
  by subst.
Qed.

(** On the cycle of the tests both engines return the two markings. *)
Example cycle_markings_agree :
  symbolic_markings 10 net_cycle {["p1" := true; "p2" := false]}
  = Ok {[ {["p1" := true; "p2" := false]}; {["p1" := false; "p2" := true]} ]}
  ∧ explicit_markings 10 net_cycle {["p1" := true; "p2" := false]}
    = Ok {[ {["p1" := true; "p2" := false]};
            {["p1" := false; "p2" := true]} ]}.
Proof.
  split; apply result_eq_by_decide; vm_compute; reflexivity.
Qed.

(** On the fork both engines return the initial marking and the marking
    with [p2] and [p3] marked. *)
Example fork_markings_agree :
  symbolic_markings 10 net_fork
    {["p1" := true; "p2" := false; "p3" := false]}
  = Ok {[ {["p1" := true; "p2" := false; "p3" := false]};
          {["p1" := false; "p2" := true; "p3" := true]} ]}
  ∧ explicit_markings 10 net_fork
      {["p1" := true; "p2" := false; "p3" := false]}
    = Ok {[ {["p1" := true; "p2" := false; "p3" := false]};
            {["p1" := false; "p2" := true; "p3" := true]} ]}.
Proof.
  split; apply result_eq_by_decide; vm_compute; reflexivity.
Qed.

Lemma well_formed_net_primed : well_formed net_primed.
Proof.
  intros tr Htr. cbn in Htr. apply elem_of_singleton in Htr as ->.
  exists (PetriNet.ArcInfo ["p"] ["q"]). split; [done|].
  intros x Hx. cbn in Hx. cbn.
  apply elem_of_cons in Hx as [->|Hx]; [set_solver|].
  apply elem_of_cons in Hx as [->|Hx]; [set_solver|].
  by apply elem_of_nil in Hx.
Qed.

(** C2, at the net [net_primed]: the transition [t] is enabled at the marking
    with tokens in [p] and [p'], and firing it moves the token of [p] to
    [q]; but the encoded pair of the two markings does not satisfy the
    transition relation, and no valuation of the declared variables that
    encodes the first marking satisfies it. The variable [p'] stands for the
    token of [p'] now and for the token of [p] after the step. *)
Lemma transition_relation_rejects_firing :
  PetriNet.is_enabled net_primed "t"
    {["p" := true; "p'" := true; "q" := false]} = Ok true
  ∧ PetriNet.fire_transition net_primed "t"
      {["p" := true; "p'" := true; "q" := false]}
    = Ok {["p" := false; "p'" := true; "q" := true]}
  ∧ ∃ e' b T enc,
      BDDReachability.initialize_bdd (BDDReachability.__init__ net_primed)
      = Ok e'
      ∧ BDDReachability.bdd_manager e' = Some b
      ∧ BDDReachability.transition_relation e' = Some T
      ∧ BDDReachability.encode_marking e'
          {["p" := true; "p'" := true; "q" := false]} = Ok enc
      ∧ T (encode_pair (PetriNet.places net_primed)
             {["p" := true; "p'" := true; "q" := false]}
             {["p" := false; "p'" := true; "q" := true]}) = false
      ∧ BDD.__eq__ b (BDD.__and__ enc T) BDD.false_ = true.
Proof.
  split; [vm_compute; reflexivity|]. split; [vm_compute; reflexivity|].
  assert (match BDDReachability.initialize_bdd
                  (BDDReachability.__init__ net_primed) with
          | Ok e' =>
              match BDDReachability.bdd_manager e' with
              | Some b =>
                  match BDDReachability.transition_relation e' with
                  | Some T =>
                      match BDDReachability.encode_marking e'
                              {["p" := true; "p'" := true; "q" := false]} with
                      | Ok enc =>
                          negb (T (encode_pair (PetriNet.places net_primed)
                                     {["p" := true; "p'" := true; "q" := false]}
                                     {["p" := false; "p'" := true; "q" := true]}))
                          && BDD.__eq__ b (BDD.__and__ enc T) BDD.false_
                      | Raise _ => false
                      end
                  | None => false
                  end
              | None => false
              end
          | Raise _ => false
          end = true) as H by (vm_compute; reflexivity).
  destruct (BDDReachability.initialize_bdd _) as [e'|]; [|discriminate H].
  destruct (BDDReachability.bdd_manager e') as [b|] eqn:Hb; [|discriminate H].
  destruct (BDDReachability.transition_relation e') as [T|] eqn:HT;
    [|discriminate H].
  destruct (BDDReachability.encode_marking e' _) as [enc|] eqn:Henc;
    [|discriminate H].
  apply andb_true_iff in H as [H1 H2]. apply negb_true_iff in H1.
  exists e', b, T, enc. done.
Qed.

(** C5, at the net [net_primed]: the reachable set computed from the marking
    with tokens in [p] and [p'] contains the encoding of that marking, and
    [t] is enabled there; but the set does not contain the encoding of the
    marking that firing [t] gives, and [is_reachable] answers [False] for
    it. *)
Lemma reachable_set_not_closed_under_firing :
  PetriNet.is_enabled net_primed "t"
    {["p" := true; "p'" := true; "q" := false]} = Ok true
  ∧ PetriNet.fire_transition net_primed "t"
      {["p" := true; "p'" := true; "q" := false]}
    = Ok {["p" := false; "p'" := true; "q" := true]}
  ∧ ∃ R e',
      BDDReachability.compute_symbolic_reachability 10
        {["p" := true; "p'" := true; "q" := false]}
        (BDDReachability.__init__ net_primed) = Ok (R, e')
      ∧ encoding_in e' {["p" := true; "p'" := true; "q" := false]} R
      ∧ ¬ encoding_in e' {["p" := false; "p'" := true; "q" := true]} R
      ∧ is_reachable_answer 0 {["p" := false; "p'" := true; "q" := true]} e'
        = Ok false.
Proof.
  split; [vm_compute; reflexivity|]. split; [vm_compute; reflexivity|].
  assert (match BDDReachability.compute_symbolic_reachability 10
                  {["p" := true; "p'" := true; "q" := false]}
                  (BDDReachability.__init__ net_primed) with
          | Ok (R, e') =>
              match BDDReachability.bdd_manager e' with
              | Some b =>
                  match BDDReachability.encode_marking e'
                          {["p" := true; "p'" := true; "q" := false]} with
                  | Ok enc0 =>
                      match BDDReachability.encode_marking e'
                              {["p" := false; "p'" := true; "q" := true]} with
                      | Ok enc1 =>
                          forallb (λ a, implb (enc0 a) (R a))
                            (BDD.assignments (BDD.vars b))
                          && (bool_decide
                                (marked (PetriNet.places net_primed)
                                   {["p" := false; "p'" := true; "q" := true]}
                                 ∈ BDD.assignments (BDD.vars b))
                              && (enc1 (marked (PetriNet.places net_primed)
                                          {["p" := false; "p'" := true;
                                            "q" := true]})
                                  && (negb
                                        (R (marked (PetriNet.places net_primed)
                                              {["p" := false; "p'" := true;
                                                "q" := true]}))
                                      && match is_reachable_answer 0
                                                 {["p" := false; "p'" := true;
                                                   "q" := true]} e' with
                                         | Ok answer => negb answer
                                         | Raise _ => false
                                         end)))
                      | Raise _ => false
                      end
                  | Raise _ => false
                  end
              | None => false
              end
          | Raise _ => false
          end = true) as H by (vm_compute; reflexivity).
  destruct (BDDReachability.compute_symbolic_reachability _ _ _)
    as [[R e']|]; [|discriminate H].
  destruct (BDDReachability.bdd_manager e') as [b|] eqn:Hb; [|discriminate H].
  destruct (BDDReachability.encode_marking e'
              {["p" := true; "p'" := true; "q" := false]})
    as [enc0|] eqn:Henc0; [|discriminate H].
  destruct (BDDReachability.encode_marking e'
              {["p" := false; "p'" := true; "q" := true]})
    as [enc1|] eqn:Henc1; [|discriminate H].
  apply andb_true_iff in H as [Hsub H]. apply andb_true_iff in H as [Hin H].
  apply andb_true_iff in H as [H1 H]. apply andb_true_iff in H as [HR Hans].
  apply bool_decide_eq_true in Hin. apply negb_true_iff in HR.
  exists R, e'. split; [done|]. split; [|split].
  - exists b, enc0. split; [done|]. split; [done|].
    intros a Ha Henc. rewrite forallb_forall in Hsub.
    specialize (Hsub a). rewrite Henc in Hsub. apply Hsub.
    by apply list_elem_of_In, elem_of_assignments.
  - intros (b' & enc' & Hb' & Henc' & Hsub').
    rewrite Hb in Hb'. injection Hb' as <-.
    rewrite Henc1 in Henc'. injection Henc' as <-.
    rewrite (Hsub' _ (proj1 (elem_of_assignments _ _) Hin) H1) in HR.
    discriminate HR.
  - destruct (is_reachable_answer _ _ _) as [[|]|]; done.
Qed.

(** C1, at the net [net_sink]: the explicit search returns the two markings
    of [b], and the markings extracted from the symbolic reachable set are
    only the marking without token. The reachable set is the constant true,
    its support is empty, the enumeration yields one empty assignment, and
    the extraction reads the absent variable as [False]. *)
Lemma extract_markings_misses_marking :
  explicit_markings 10 net_sink {["b" := true]}
  = Ok {[ {["b" := true]}; {["b" := false]} ]}
  ∧ symbolic_markings 10 net_sink {["b" := true]}
    = Ok {[ {["b" := false]} ]}
  ∧ ({["b" := true]} : gmap string bool)
    ∉ ({[ {["b" := false]} ]} : gset (gmap string bool)).
Proof.
  split; [|split].
  - apply result_eq_by_decide. vm_compute. reflexivity.
  - apply result_eq_by_decide. vm_compute. reflexivity.
  - intros H. apply elem_of_singleton in H.
    assert (({["b" := true]} : gmap string bool) !! "b" = Some true) as H1
      by apply lookup_singleton_eq.
    rewrite H in H1. rewrite lookup_singleton_eq in H1. discriminate.
Qed.

(** ** [is_reachable] before the reachable set has been computed *)

(** C10, as the code has it: on an engine on which neither [initialize_bdd]
    nor [compute_symbolic_reachability] has run, [is_reachable] raises
    nothing. When the net has no [initial_marking] it answers [False] and
    leaves the engine as it is; otherwise it computes the reachable set from
    the initial marking, keeps the computed engine, and answers whether the
    conjunction of the encoding of the marking with the reachable set is
    satisfiable. *)
Theorem is_reachable_before_compute (e : BDDReachability.t)
    (m : gmap string bool) :
  well_formed (BDDReachability.petri_net e) →
  BDDReachability.bdd_manager e = None →
  BDDReachability.reachable_bdd e = None →
  match PetriNet.initial_marking (BDDReachability.petri_net e) with
  | None => ∀ fuel, BDDReachability.is_reachable fuel m e = Ok (false, e)
  | Some init =>
      ∃ fuel R e' b enc,
        BDDReachability.compute_symbolic_reachability fuel init e = Ok (R, e')
        ∧ BDDReachability.bdd_manager e' = Some b
        ∧ BDDReachability.reachable_bdd e' = Some R
        ∧ BDDReachability.encode_marking e' m = Ok enc
        ∧ BDDReachability.is_reachable fuel m e
          = Ok (BDD.__ne__ b (BDD.__and__ enc R) BDD.false_, e')
  end.
Proof.
  intros Hwf Hb HR.
  destruct (PetriNet.initial_marking (BDDReachability.petri_net e))
    as [init|] eqn:Hinit.
  - destruct (initialize_bdd_initialized e Hwf) as (e1 & b & T & He1 & Hi & _).
    destruct (encode_marking_sem _ e1 b T init Hi) as (enc0 & Henc0 & _).
    destruct (fixpoint_loop_terminates _ e1 b T Hi
                (S (length (BDD.assignments (BDD.vars b)))) enc0)
      as (R & P & Hrun & _); [lia|].
    pose proof (initialized_with_reachable _ e1 b T R Hi) as Hi'.
    destruct (encode_marking_sem _ _ b T m Hi') as (enc & Henc & _).
    assert (BDDReachability.compute_symbolic_reachability
              (S (length (BDD.assignments (BDD.vars b)))) init e
            = Ok (R, BDDReachability.with_reachable e1 R)) as Hcompute.
    { unfold BDDReachability.compute_symbolic_reachability.
      rewrite Hb, He1. cbn [bind]. rewrite Henc0. cbn [bind].
      by rewrite (init_bdd _ _ _ _ Hi), Hrun. }
    exists (S (length (BDD.assignments (BDD.vars b)))), R,
           (BDDReachability.with_reachable e1 R), b, enc.
    split; [done|]. split; [apply Hi'|]. split; [done|]. split; [done|].
    unfold BDDReachability.is_reachable. rewrite HR, Hinit, Hcompute.
    cbn [bind snd]. rewrite Henc. cbn [bind].
    by rewrite (init_bdd _ _ _ _ Hi').
  - intros fuel. unfold BDDReachability.is_reachable. by rewrite HR, Hinit.
Qed.

Lemma is_reachable_before_compute_witness :
  ∃ fuel R e' b enc,
    BDDReachability.compute_symbolic_reachability fuel
      {["p1" := true; "p2" := false]} (BDDReachability.__init__ net_p1_t1_p2)
    = Ok (R, e')
    ∧ BDDReachability.bdd_manager e' = Some b
    ∧ BDDReachability.reachable_bdd e' = Some R
    ∧ BDDReachability.encode_marking e' {["p2" := true]} = Ok enc
    ∧ BDDReachability.is_reachable fuel {["p2" := true]}
        (BDDReachability.__init__ net_p1_t1_p2)
      = Ok (BDD.__ne__ b (BDD.__and__ enc R) BDD.false_, e').
Proof.
  apply (is_reachable_before_compute (BDDReachability.__init__ net_p1_t1_p2)
           {["p2" := true]}).
  - exact well_formed_net_p1_t1_p2.
  - reflexivity.
  - reflexivity.
Defined.

(** C10, counterexample: after [initialize_bdd] and before any computation
    the reachable set is the constant false and not [None]; [is_reachable]
    then computes nothing and answers [False] for the initial marking of the
    net, which a new engine finds reachable. *)
Lemma is_reachable_after_initialize_counterexample :
  (e ←! BDDReachability.initialize_bdd (BDDReachability.__init__ net_sink);
   is_reachable_answer 10 {["b" := true]} e) = Ok false
  ∧ is_reachable_answer 10 {["b" := true]} (BDDReachability.__init__ net_sink)
    = Ok true
  ∧ PetriNet.initial_marking net_sink = Some {["b" := true]}.
Proof. repeat split; vm_compute; reflexivity. Qed.

(** ** The optimizer *)

(** C9, as the code has it: [find_max_score_marking] always returns a triple
    whose third component is the difference of the two clock readings, which
    is not negative exactly when the second reading is not before the first;
    the marking and the score are both present or both [None]; and when the
    manager or the reachable set is missing, when the reachable set is the
    constant false, or when an exception is raised inside the [try] block,
    the triple is ([None], [None], difference). *)
Theorem find_max_score_marking_never_raises
    (pick_first : BDD.manager → (gset string → bool) → option (gmap string bool))
    (net : PetriNet.t) (task3_solver : BDDReachability.t)
    (place_weights : gmap string Z) (mode : string) (start_time end_time : Z) :
  ∃ marking score,
    MarkingOptimizer.find_max_score_marking pick_first net task3_solver
      place_weights mode start_time end_time
    = (marking, score, end_time - start_time)
    ∧ (0 ≤ end_time - start_time ↔ start_time ≤ end_time)
    ∧ (marking = None ↔ score = None)
    ∧ (BDDReachability.bdd_manager task3_solver = None
       ∨ BDDReachability.reachable_bdd task3_solver = None
       ∨ (∃ b R, BDDReachability.bdd_manager task3_solver = Some b
                 ∧ BDDReachability.reachable_bdd task3_solver = Some R
                 ∧ BDD.__eq__ b R BDD.false_ = true)
       ∨ (∃ ex, MarkingOptimizer.optimize pick_first net task3_solver
                  place_weights mode = Raise ex)
       → marking = None ∧ score = None).
Proof.
  unfold MarkingOptimizer.find_max_score_marking.
  destruct (MarkingOptimizer.optimize pick_first net task3_solver
              place_weights mode) as [[[marking score]|]|ex] eqn:Hopt.
  - exists (Some marking), (Some score). split; [done|]. split; [lia|].
    split; [done|].
    unfold MarkingOptimizer.optimize in Hopt.
    intros [Hb|[HR|[(b & R & Hb & HR & Hempty)|(ex & Hex)]]].
    + rewrite Hb in Hopt. discriminate.
    + rewrite HR in Hopt.
      destruct (BDDReachability.bdd_manager task3_solver); discriminate.
    + rewrite Hb, HR, Hempty in Hopt. discriminate.
    + discriminate.
  - exists None, None. split; [done|]. split; [lia|]. done.
  - exists None, None. split; [done|]. split; [lia|]. done.
Qed.

(** C9, counterexample: on an engine without manager the call returns
    ([None], [None], t), and when the clock is set back between the two
    readings, here from 10 to 3, the returned time [t] is negative. *)
Lemma find_max_score_marking_negative_time_counterexample :
  BDDReachability.bdd_manager (BDDReachability.__init__ net_sink) = None
  ∧ MarkingOptimizer.find_max_score_marking pick_first_head net_sink
      (BDDReachability.__init__ net_sink) {["b" := 4]} "exact" 10 3
    = (None, None, -7)
  ∧ ¬ (0 ≤ -7).
Proof. split; [reflexivity|]. split; [vm_compute; reflexivity|lia]. Qed.

(** The [except] clause at work: on a manager that has not declared the
    place of the net, [bdd.var] raises [ValueError] inside the [try] block
    and the call returns ([None], [None], t). *)
Example find_max_score_marking_internal_error :
  MarkingOptimizer.optimize pick_first_head net_sink
    (BDDReachability.Engine net_sink (Some (BDD.Manager [])) ∅ ∅ ∅ ∅ None
       (Some BDD.true_)) {["b" := 4]} "greedy" = Raise ValueError
  ∧ MarkingOptimizer.find_max_score_marking pick_first_head net_sink
      (BDDReachability.Engine net_sink (Some (BDD.Manager [])) ∅ ∅ ∅ ∅ None
         (Some BDD.true_)) {["b" := 4]} "greedy" 3 10
    = (None, None, 7).
Proof. split; vm_compute; reflexivity. Qed.

Lemma gain_le_positive_sum (w : string → Z) (rest : list string) (c : gset string) :
  gain w rest c ≤ positive_sum w rest.
Proof.
  induction rest as [|p rest IH]; cbn [gain positive_sum foldr]; [done|].
  fold (gain w rest c). fold (positive_sum w rest).
  destruct (bool_decide (p ∈ c)); lia.
Qed.

Lemma suffix_sums_lookup (ws : list Z) (k : nat) :
  (k ≤ length ws)%nat →
  MarkingOptimizer.suffix_sums ws !! k = Some (foldr Z.add 0 (drop k ws)).
Proof.
  revert k. induction ws as [|w ws IH]; intros k Hk.
  - cbn in Hk. assert (k = 0%nat) as -> by lia. done.
  - destruct k as [|k].
    + cbn [MarkingOptimizer.suffix_sums drop foldr lookup list_lookup].
      specialize (IH 0%nat ltac:(lia)).
      rewrite <- head_lookup in IH. rewrite IH. rewrite drop_0.
      cbn [default from_option]. unfold id. f_equal. lia.
    + cbn [MarkingOptimizer.suffix_sums drop]. cbn. apply IH. cbn in Hk. lia.
Qed.

Lemma positive_sum_fmap (w : string → Z) (rest : list string) :
  foldr Z.add 0 ((λ p, Z.max (w p) 0) <$> rest) = positive_sum w rest.
Proof.
  induction rest as [|p rest IH]; [done|]. cbn. rewrite IH. done.
Qed.

Lemma le_best_spec (x : Z) (best : option Z) :
  MarkingOptimizer.le_best x best = true ↔ le_opt (Some x) best.
Proof.
  destruct best as [b|]; cbn; [|done]. by rewrite bool_decide_eq_true.
Qed.

Lemma gt_best_spec (x : Z) (best : option Z) :
  MarkingOptimizer.gt_best x best = false ↔ le_opt (Some x) best.
Proof.
  destruct best as [b|]; cbn; [|done]. rewrite bool_decide_eq_false. lia.
Qed.

Lemma le_opt_refl (x : option Z) : le_opt x x.
Proof. destruct x; cbn; [lia|done]. Qed.

Lemma le_opt_trans (x y z : option Z) : le_opt x y → le_opt y z → le_opt x z.
Proof. destruct x, y, z; cbn; try done; lia. Qed.

Lemma dfs_post_unchanged (b : BDD.manager) (weights : gmap string Z)
    (D : gset string) (rest : list string) (node : gset string → bool)
    (cur_score : Z) (st : MarkingOptimizer.dfs_state) :
  (∀ c, c ⊆ list_to_set (BDD.vars b) → node c = true →
        le_opt (Some (cur_score + gain (weight_of weights) rest c))
               (MarkingOptimizer.best_score st)) →
  dfs_post b weights D rest node cur_score st st.
Proof.
  intros H. split; [apply le_opt_refl|]. split; [done|]. split; [by left|done].
Qed.

Lemma dfs_spec (b : BDD.manager) (weights : gmap string Z)
    (suffix_pos : list Z) (rest : list string) :
  ∀ (idx : nat) (node : gset string → bool) (cur_score : Z)
    (st : MarkingOptimizer.dfs_state) (D : gset string),
    NoDup rest →
    (∀ p, p ∈ rest → p ∉ D) →
    (∀ p, p ∈ rest → p ∈ BDD.vars b) →
    (∀ k, (k ≤ length rest)%nat →
          suffix_pos !! (idx + k)%nat
          = Some (positive_sum (weight_of weights) (drop k rest))) →
    (∃ c, c ⊆ list_to_set (BDD.vars b) ∧ node c = true) →
    (∀ c, c ⊆ list_to_set (BDD.vars b) → node c = true →
          ∀ p, p ∈ D → MarkingOptimizer.assignment st !! p = Some (bit c p)) →
    ∃ st', MarkingOptimizer.dfs b weights suffix_pos rest idx node cur_score st
           = Ok st'
           ∧ dfs_post b weights D rest node cur_score st st'.
Proof.
  induction rest as [|p rest IH];
    intros idx node cur st D Hnd HD Hvars Hsuf Hsat Hasg;
    cbn [MarkingOptimizer.dfs];
    pose proof (Hsuf 0%nat ltac:(lia)) as Hsuf0;
    rewrite Nat.add_0_r, drop_0 in Hsuf0; rewrite Hsuf0;
    match goal with
    | |- context [default 0 (Some ?v)] => change (default 0 (Some v)) with v
    end.
  - (* a leaf *)
    cbn [positive_sum foldr].
    destruct (MarkingOptimizer.le_best (cur + 0) (MarkingOptimizer.best_score st))
      eqn:Hle.
    + exists st. split; [done|]. apply dfs_post_unchanged.
      intros c _ _. cbn [gain foldr]. by apply le_best_spec.
    + destruct (MarkingOptimizer.gt_best cur (MarkingOptimizer.best_score st))
        eqn:Hgt.
      * eexists. split; [done|].
        destruct Hsat as (c & Hc & Hnode).
        split; [|split; [|split]]; cbn [MarkingOptimizer.best_score
          MarkingOptimizer.best_mark MarkingOptimizer.assignment].
        -- destruct (MarkingOptimizer.best_score st) as [bs|]; [|done].
           cbn in Hgt. apply bool_decide_eq_true in Hgt. cbn. lia.
        -- intros c' _ _. cbn. lia.
        -- right. exists c, (MarkingOptimizer.assignment st).
           split; [done|]. split; [done|]. split; [cbn; f_equal; lia|].
           split; [done|]. intros q [Hq|Hq]; [by apply (Hasg c)|].
           by apply elem_of_nil in Hq.
        -- done.
      * exists st. split; [done|]. apply dfs_post_unchanged.
        intros c _ _. cbn [gain foldr]. apply gt_best_spec in Hgt.
        replace (cur + 0) with cur by lia. done.
  - (* a place to decide *)
    destruct (MarkingOptimizer.le_best
                (cur + positive_sum (weight_of weights) (p :: rest))
                (MarkingOptimizer.best_score st)) eqn:Hle.
    + exists st. split; [done|]. apply dfs_post_unchanged.
      intros c _ _. apply le_best_spec in Hle.
      apply (le_opt_trans _ (Some (cur + positive_sum (weight_of weights) (p :: rest))));
        [|done].
      pose proof (gain_le_positive_sum (weight_of weights) (p :: rest) c).
      unfold le_opt. lia.
    + clear Hle Hsuf0.
      apply NoDup_cons in Hnd as [Hp Hnd].
      assert (p ∉ D) as HpD by (apply HD; left).
      unfold BDD.var. rewrite decide_True by (apply Hvars; left). cbn [bind].
      fold (var_fn p).
      assert (∀ k, (k ≤ length rest)%nat →
                suffix_pos !! (S idx + k)%nat
                = Some (positive_sum (weight_of weights) (drop k rest))) as Hsuf'.
      { intros k Hk. specialize (Hsuf (S k) ltac:(cbn; lia)).
        rewrite Nat.add_succ_r in Hsuf. exact Hsuf. }
      assert (∀ q, q ∈ rest → q ∉ D ∪ {[p]}) as HD'.
      { intros q Hq Hin. apply elem_of_union in Hin as [Hin|Hin].
        - apply (HD q); [by right|done].
        - apply elem_of_singleton in Hin as ->. done. }
      assert (∀ q, q ∈ rest → q ∈ BDD.vars b) as Hvars'.
      { intros q Hq. apply Hvars. by right. }
      assert (∀ c, gain (weight_of weights) (p :: rest) c
                   = (if bool_decide (p ∈ c) then weight_of weights p else 0)
                     + gain (weight_of weights) rest c) as Hgain by done.
      (* the branch p = 1 *)
      assert (∃ st1,
                (if BDD.__ne__ b (BDD.__and__ node (var_fn p)) BDD.false_
                 then
                   st' ←! MarkingOptimizer.dfs b weights suffix_pos rest (S idx)
                            (BDD.__and__ node (var_fn p))
                            (cur + default 0 (weights !! p))
                            (MarkingOptimizer.set_assignment st
                               (<[p := 1]> (MarkingOptimizer.assignment st)));
                   Ok (MarkingOptimizer.set_assignment st'
                         (<[p := 0]> (MarkingOptimizer.assignment st')))
                 else Ok st) = Ok st1
                ∧ le_opt (MarkingOptimizer.best_score st)
                         (MarkingOptimizer.best_score st1)
                ∧ (∀ c, c ⊆ list_to_set (BDD.vars b) → node c = true → p ∈ c →
                        le_opt (Some (cur + gain (weight_of weights) (p :: rest) c))
                               (MarkingOptimizer.best_score st1))
                ∧ ((MarkingOptimizer.best_score st1 = MarkingOptimizer.best_score st
                    ∧ MarkingOptimizer.best_mark st1 = MarkingOptimizer.best_mark st)
                   ∨ ∃ c mk, c ⊆ list_to_set (BDD.vars b) ∧ node c = true
                       ∧ MarkingOptimizer.best_score st1
                         = Some (cur + gain (weight_of weights) (p :: rest) c)
                       ∧ MarkingOptimizer.best_mark st1 = Some mk
                       ∧ ∀ q, q ∈ D ∨ q ∈ p :: rest → mk !! q = Some (bit c q))
                ∧ (∀ q, q ∈ D → MarkingOptimizer.assignment st1 !! q
                                = MarkingOptimizer.assignment st !! q))
        as (st1 & Hrun1 & Hmono1 & Hdom1 & Hbest1 & Hframe1).
      { destruct (BDD.__ne__ b (BDD.__and__ node (var_fn p)) BDD.false_) eqn:Hne.
        - apply bdd_ne_false_spec in Hne.
          destruct (IH (S idx) (BDD.__and__ node (var_fn p))
                      (cur + default 0 (weights !! p))
                      (MarkingOptimizer.set_assignment st
                         (<[p := 1]> (MarkingOptimizer.assignment st)))
                      (D ∪ {[p]}) Hnd HD' Hvars' Hsuf' Hne)
            as (st' & Hrun & Hmono & Hdom & Hbest & Hframe).
          { intros c Hc Hnode q Hq. cbn.
            unfold BDD.__and__, var_fn in Hnode.
            apply andb_true_iff in Hnode as [Hnode Hpc].
            apply elem_of_union in Hq as [Hq|Hq].
            - rewrite lookup_insert_ne by (intros ->; done). by apply (Hasg c).
            - apply elem_of_singleton in Hq as ->. rewrite lookup_insert_eq.
              unfold bit. by rewrite Hpc. }
          rewrite Hrun. cbn [bind]. eexists. split; [done|].
          unfold MarkingOptimizer.set_assignment in *.
          cbn [MarkingOptimizer.best_score
               MarkingOptimizer.best_mark MarkingOptimizer.assignment] in *.
          split; [done|]. split; [|split].
          + intros c Hc Hnode Hpc. rewrite Hgain.
            rewrite (bool_decide_eq_true_2 _ Hpc).
            replace (cur + (weight_of weights p + gain (weight_of weights) rest c))
              with (cur + default 0 (weights !! p) + gain (weight_of weights) rest c)
              by (unfold weight_of; lia).
            apply Hdom; [done|]. unfold BDD.__and__, var_fn.
            by rewrite Hnode, (bool_decide_eq_true_2 _ Hpc).
          + destruct Hbest as [?|(c & mk & Hc & Hnode & Hbs & Hbm & Hmk)]; [by left|].
            right. unfold BDD.__and__, var_fn in Hnode.
            apply andb_true_iff in Hnode as [Hnode Hpc].
            exists c, mk. split; [done|]. split; [done|]. split.
            { rewrite Hbs, Hgain, Hpc. f_equal. unfold weight_of. lia. }
            split; [done|]. intros q Hq. apply Hmk.
            rewrite elem_of_union, elem_of_singleton.
            rewrite elem_of_cons in Hq. tauto.
          + intros q Hq. rewrite lookup_insert_ne by (intros ->; done).
            rewrite Hframe by (apply elem_of_union; by left). cbn.
            by rewrite lookup_insert_ne by (intros ->; done).
        - exists st. split; [done|]. split; [apply le_opt_refl|].
          split; [|split; [by left|done]].
          intros c Hc Hnode Hpc. exfalso.
          apply Bool.not_true_iff_false in Hne. apply Hne.
          apply bdd_ne_false_spec. exists c. split; [done|].
          unfold BDD.__and__, var_fn.
          by rewrite Hnode, (bool_decide_eq_true_2 _ Hpc). }
      rewrite Hrun1. cbn [bind].
      (* the branch p = 0 *)
      destruct (BDD.__ne__ b (BDD.__and__ node (BDD.__invert__ (var_fn p)))
                  BDD.false_) eqn:Hne.
      * apply bdd_ne_false_spec in Hne.
        destruct (IH (S idx) (BDD.__and__ node (BDD.__invert__ (var_fn p))) cur
                    (MarkingOptimizer.set_assignment st1
                       (<[p := 0]> (MarkingOptimizer.assignment st1)))
                    (D ∪ {[p]}) Hnd HD' Hvars' Hsuf' Hne)
          as (st' & Hrun & Hmono & Hdom & Hbest & Hframe).
        { intros c Hc Hnode q Hq. cbn.
          unfold BDD.__and__, BDD.__invert__, var_fn in Hnode.
          apply andb_true_iff in Hnode as [Hnode Hpc].
          apply negb_true_iff in Hpc.
          apply elem_of_union in Hq as [Hq|Hq].
          - rewrite lookup_insert_ne by (intros ->; done).
            rewrite Hframe1 by done. by apply (Hasg c).
          - apply elem_of_singleton in Hq as ->. rewrite lookup_insert_eq.
            unfold bit. by rewrite Hpc. }
        rewrite Hrun. cbn [bind]. eexists. split; [done|].
        unfold dfs_post, MarkingOptimizer.set_assignment in *.
        cbn [MarkingOptimizer.best_score
             MarkingOptimizer.best_mark MarkingOptimizer.assignment] in *.
        split; [by apply (le_opt_trans _ _ _ Hmono1)|]. split; [|split].
        -- intros c Hc Hnode.
           destruct (bool_decide (p ∈ c)) eqn:Hpc.
           ++ apply bool_decide_eq_true in Hpc.
              by apply (le_opt_trans _ _ _ (Hdom1 c Hc Hnode Hpc)).
           ++ rewrite Hgain, Hpc.
              replace (cur + (0 + gain (weight_of weights) rest c))
                with (cur + gain (weight_of weights) rest c) by lia.
              apply Hdom; [done|]. unfold BDD.__and__, BDD.__invert__, var_fn.
              by rewrite Hnode, Hpc.
        -- destruct Hbest as [[Hbs Hbm]|(c & mk & Hc & Hnode & Hbs & Hbm & Hmk)].
           ++ rewrite Hbs, Hbm. exact Hbest1.
           ++ right. unfold BDD.__and__, BDD.__invert__, var_fn in Hnode.
              apply andb_true_iff in Hnode as [Hnode Hpc].
              apply negb_true_iff in Hpc.
              exists c, mk. split; [done|]. split; [done|]. split.
              { rewrite Hbs, Hgain, Hpc. f_equal; lia. }
              split; [done|]. intros q Hq. apply Hmk.
              rewrite elem_of_union, elem_of_singleton.
              rewrite elem_of_cons in Hq. tauto.
        -- intros q Hq. rewrite lookup_delete_ne by (intros ->; done).
           rewrite Hframe by (apply elem_of_union; by left). cbn.
           rewrite lookup_insert_ne by (intros ->; done). by apply Hframe1.
      * exists st1. split; [done|]. split; [done|]. split; [|split; [done|done]].
        intros c Hc Hnode.
        destruct (bool_decide (p ∈ c)) eqn:Hpc.
        -- apply bool_decide_eq_true in Hpc. by apply Hdom1.
        -- exfalso. apply Bool.not_true_iff_false in Hne. apply Hne.
           apply bdd_ne_false_spec. exists c. split; [done|].
           unfold BDD.__and__, BDD.__invert__, var_fn. by rewrite Hnode, Hpc.
Qed.

Lemma pick_iter_sound (b : BDD.manager) (u : gset string → bool)
    (a : gmap string bool) :
  a ∈ BDD.pick_iter b u →
  ∃ c, c ⊆ list_to_set (BDD.vars b) ∧ u c = true
       ∧ ∀ p, default false (a !! p) = bool_decide (p ∈ c).
Proof.
  unfold BDD.pick_iter. intros Ha.
  apply list_elem_of_fmap in Ha as (c & -> & Hc).
  apply list_elem_of_filter in Hc as [Hu Hc].
  apply elem_of_assignments in Hc.
  exists c. split; [|split; [done|]].
  - intros x Hx. apply Hc in Hx. apply elem_of_list_to_set in Hx.
    unfold BDD.support in Hx. apply list_elem_of_filter in Hx as [_ Hx].
    by apply elem_of_list_to_set.
  - intros p. rewrite list_to_map_lookup_fmap.
    destruct (decide (p ∈ BDD.support b u)) as [Hp|Hp]; [done|].
    cbn. symmetry. apply bool_decide_eq_false. intros Hpc.
    apply Hp. apply Hc in Hpc. by apply elem_of_list_to_set in Hpc.
Qed.

Lemma support_irrelevant (b : BDD.manager) (u : gset string → bool)
    (l : list string) :
  (∀ x, x ∈ l → x ∈ BDD.vars b ∧ x ∉ BDD.support b u) →
  ∀ c, c ⊆ list_to_set (BDD.vars b) → u (c ∖ list_to_set l) = u c.
Proof.
  induction l as [|x l IH]; intros Hl c Hc.
  - cbn. f_equal. set_solver.
  - destruct (Hl x) as [Hx Hns]; [left|].
    assert (BDD.__ne__ b (λ a, u ({[x]} ∪ a)) (λ a, u (a ∖ {[x]})) ≠ true) as Hne.
    { intros Hne. apply Hns. unfold BDD.support.
      apply list_elem_of_filter. done. }
    apply Bool.not_true_iff_false in Hne. unfold BDD.__ne__ in Hne.
    apply negb_false_iff in Hne.
    pose proof (proj1 (bdd_eq_spec b (λ a, u ({[x]} ∪ a))
                         (λ a, u (a ∖ {[x]}))) Hne) as Heq.
    clear Hne.
    assert (∀ y, y ∈ l → y ∈ BDD.vars b ∧ y ∉ BDD.support b u) as Hl'.
    { intros y Hy. apply Hl. by right. }
    rewrite <- (IH Hl' c Hc).
    assert (c ∖ list_to_set l ⊆ list_to_set (BDD.vars b)) as Hsub by set_solver.
    specialize (Heq _ Hsub). cbn beta in Heq.
    replace (c ∖ list_to_set (x :: l)) with ((c ∖ list_to_set l) ∖ {[x]})
      by (cbn; set_solver).
    destruct (decide (x ∈ c ∖ list_to_set l)) as [Hin|Hnin].
    + rewrite <- Heq. f_equal. set_solver.
    + f_equal. set_solver.
Qed.

Lemma pick_iter_nonempty (b : BDD.manager) (u : gset string → bool) :
  BDD.__eq__ b u BDD.false_ = false → BDD.pick_iter b u ≠ [].
Proof.
  intros Hne. unfold BDD.__eq__ in Hne.
  apply forallb_false_elem in Hne as (c & Hc & Hu).
  apply elem_of_assignments in Hc.
  assert (u c = true) as Huc by (unfold BDD.false_ in Hu; by destruct (u c)).
  set (l := filter (λ x, x ∉ BDD.support b u) (BDD.vars b)).
  assert (u (c ∖ list_to_set l) = true) as Hu'.
  { rewrite (support_irrelevant b u l); [done| |done].
    intros x Hx. apply list_elem_of_filter in Hx as [? ?]. done. }
  assert (c ∖ list_to_set l ∈ BDD.assignments (BDD.support b u)) as Hin.
  { apply elem_of_assignments. intros x Hx.
    apply elem_of_difference in Hx as [Hxc Hxl].
    apply elem_of_list_to_set.
    destruct (decide (x ∈ BDD.support b u)) as [|Hns]; [done|].
    exfalso. apply Hxl, elem_of_list_to_set, list_elem_of_filter.
    split; [done|]. apply Hc in Hxc. by apply elem_of_list_to_set in Hxc. }
  unfold BDD.pick_iter. intros Hnil. apply fmap_nil_inv in Hnil.
  assert (c ∖ list_to_set l
          ∈ filter (λ a, u a = true) (BDD.assignments (BDD.support b u))) as Hf.
  { apply list_elem_of_filter. done. }
  rewrite Hnil in Hf. by apply elem_of_nil in Hf.
Qed.

Lemma gain_perm (w : string → Z) (l1 l2 : list string) (c : gset string) :
  l1 ≡ₚ l2 → gain w l1 c = gain w l2 c.
Proof.
  unfold gain. induction 1 as [|x l1 l2 _ IH|x y l|l1 l2 l3 _ IH1 _ IH2]; cbn.
  - done.
  - by rewrite IH.
  - lia.
  - by rewrite IH1.
Qed.

Lemma weighted_sum_gain (pw : gmap string Z) (w : string → Z)
    (places : list string) (m : gmap string bool) (c : gset string) :
  (∀ p, p ∈ places → Marking.has_token m p = bool_decide (p ∈ c)) →
  (∀ p, p ∈ places → w p = default 0 (pw !! p)) →
  weighted_sum pw places m = gain w places c.
Proof.
  unfold weighted_sum, gain.
  induction places as [|p places IH]; intros Hm Hw; cbn [foldr]; [done|].
  rewrite IH.
  - rewrite (Hm p), (Hw p) by left. done.
  - intros q Hq. apply Hm. by right.
  - intros q Hq. apply Hw. by right.
Qed.

Lemma score_of_perm (pw : gmap string Z) (l1 l2 : list (string * Z)) :
  l1 ≡ₚ l2 →
  foldr (λ (pv : string * Z) acc,
           if Marking.bool_of_token pv.2
           then default 0 (pw !! pv.1) + acc else acc) 0 l1
  = foldr (λ (pv : string * Z) acc,
             if Marking.bool_of_token pv.2
             then default 0 (pw !! pv.1) + acc else acc) 0 l2.
Proof.
  induction 1 as [|x l1 l2 _ IH|x y l|l1 l2 l3 _ IH1 _ IH2]; cbn [foldr].
  - done.
  - by rewrite IH.
  - destruct (Marking.bool_of_token x.2), (Marking.bool_of_token y.2); lia.
  - by rewrite IH1.
Qed.

Lemma score_of_dict (pw : gmap string Z) (f : string → Z) (places : list string) :
  NoDup places →
  MarkingOptimizer.score_of pw (list_to_map ((λ p, (p, f p)) <$> places))
  = foldr (λ p acc, (if Marking.bool_of_token (f p)
                     then default 0 (pw !! p) else 0) + acc) 0 places.
Proof.
  intros Hnd. unfold MarkingOptimizer.score_of.
  rewrite (score_of_perm pw _ ((λ p, (p, f p)) <$> places)).
  - induction places as [|p places IH]; cbn [fmap list_fmap foldr]; [done|].
    cbn. apply NoDup_cons in Hnd as [_ Hnd]. rewrite (IH Hnd).
    by destruct (Marking.bool_of_token (f p)).
  - apply map_to_list_to_map.
    assert (((λ p, (p, f p)) <$> places).*1 = places) as ->; [|done].
    clear. induction places as [|p places IH]; [done|]. cbn. by f_equal.
Qed.

Lemma reachable_in_intro (net : PetriNet.t) (e : BDDReachability.t)
    (b : BDD.manager) (T R : gset string → bool) (m : gmap string bool)
    (c : gset string) :
  initialized net e b T →
  BDDReachability.reachable_bdd e = Some R →
  c ⊆ list_to_set (BDD.vars b) → R c = true →
  (∀ p, p ∈ PetriNet.places net → bool_decide (p ∈ c) = Marking.has_token m p) →
  reachable_in e m.
Proof.
  intros Hi HR Hc HRc Hm.
  destruct (encode_marking_sem net e b T m Hi) as (enc & Henc & Hsem).
  exists b, R, enc. split; [apply Hi|]. split; [done|]. split; [done|].
  apply bdd_ne_false_spec. exists c. split; [done|].
  unfold BDD.__and__. rewrite HRc, andb_true_r. by apply Hsem.
Qed.

Lemma reachable_in_elim (net : PetriNet.t) (e : BDDReachability.t)
    (b : BDD.manager) (T R : gset string → bool) (m : gmap string bool) :
  initialized net e b T →
  BDDReachability.reachable_bdd e = Some R →
  reachable_in e m →
  ∃ c, c ⊆ list_to_set (BDD.vars b) ∧ R c = true
       ∧ ∀ p, p ∈ PetriNet.places net →
              bool_decide (p ∈ c) = Marking.has_token m p.
Proof.
  intros Hi HR (b' & R' & enc & Hb & HR' & Henc & Hne).
  rewrite (init_bdd _ _ _ _ Hi) in Hb. injection Hb as <-.
  rewrite HR in HR'. injection HR' as <-.
  destruct (encode_marking_sem net e b T m Hi) as (enc' & Henc' & Hsem).
  rewrite Henc in Henc'. injection Henc' as <-.
  apply bdd_ne_false_spec in Hne as (c & Hc & Hand).
  unfold BDD.__and__ in Hand. apply andb_true_iff in Hand as [Hence HRc].
  exists c. split; [done|]. split; [done|]. by apply Hsem.
Qed.

Lemma has_token_init_dict (f : string → Z) (places : list string) (p : string) :
  p ∈ places →
  Marking.has_token
    (Marking.__init__ (list_to_map ((λ p, (p, f p)) <$> places))) p
  = Marking.bool_of_token (f p).
Proof.
  intros Hp. unfold Marking.has_token, Marking.__init__.
  rewrite lookup_fmap, list_to_map_lookup_fmap, decide_True by done. done.
Qed.

Lemma bool_of_token_bit_iff (c : gset string) (p : string) :
  Marking.bool_of_token (bit c p) = bool_decide (p ∈ c).
Proof. unfold bit. by destruct (bool_decide (p ∈ c)). Qed.

Lemma sorted_by_perm (key : string → Z) (l : list string) :
  MarkingOptimizer.sorted_by key l ≡ₚ l.
Proof. unfold MarkingOptimizer.sorted_by. apply merge_sort_Permutation. Qed.

(** The first assignment picked from a satisfiable node gives a marking of
    the node. *)
Lemma pick_first_marking
    (pick_first : BDD.manager → (gset string → bool) → option (gmap string bool))
    (b : BDD.manager) (R : gset string → bool) (places : list string) :
  picks_from_enumeration pick_first →
  BDD.__eq__ b R BDD.false_ = false →
  ∃ ga c, pick_first b R = Some ga
          ∧ c ⊆ list_to_set (BDD.vars b) ∧ R c = true
          ∧ ∀ p, p ∈ places →
                 MarkingOptimizer.marking_of_assign places ga !! p
                 = Some (bit c p).
Proof.
  intros Hpick Hne. specialize (Hpick b R).
  destruct (pick_first b R) as [ga|].
  - destruct (pick_iter_sound b R ga Hpick) as (c & Hc & HRc & Hga).
    exists ga, c. split; [done|]. split; [done|]. split; [done|].
    intros p Hp. unfold MarkingOptimizer.marking_of_assign.
    rewrite list_to_map_lookup_fmap, decide_True by done.
    rewrite Hga. unfold bit. done.
  - by apply pick_iter_nonempty in Hne.
Qed.

Lemma has_token_init_lookup (d : gmap string Z) (p : string) (v : Z) :
  d !! p = Some v →
  Marking.has_token (Marking.__init__ d) p = Marking.bool_of_token v.
Proof.
  intros H. unfold Marking.has_token, Marking.__init__.
  by rewrite lookup_fmap, H.
Qed.

Lemma gain_ext (w w' : string → Z) (l : list string) (c : gset string) :
  (∀ p, p ∈ l → w p = w' p) → gain w l c = gain w' l c.
Proof.
  unfold gain. induction l as [|p l IH]; intros H; cbn [foldr]; [done|].
  rewrite IH.
  - rewrite (H p) by left. done.
  - intros q Hq. apply H. by right.
Qed.

Lemma gain_zero (w : string → Z) (l : list string) (c : gset string) :
  (∀ p, w p = 0) → gain w l c = 0.
Proof.
  unfold gain. intros H. induction l as [|p l IH]; cbn [foldr]; [done|].
  rewrite IH, H. by destruct (bool_decide (p ∈ c)).
Qed.

Lemma score_of_bits (pw : gmap string Z) (places : list string)
    (d : gmap string Z) (c : gset string) :
  NoDup places →
  dom d = list_to_set places →
  (∀ p, p ∈ places → d !! p = Some (bit c p)) →
  MarkingOptimizer.score_of pw d
  = gain (λ p, default 0 (pw !! p)) places c.
Proof.
  intros Hnd Hdom Hd.
  assert (d = list_to_map ((λ p, (p, bit c p)) <$> places)) as ->.
  { apply map_eq. intros p. rewrite list_to_map_lookup_fmap.
    destruct (decide (p ∈ places)) as [Hp|Hp]; [by apply Hd|].
    apply not_elem_of_dom. rewrite Hdom. by rewrite elem_of_list_to_set. }
  rewrite score_of_dict by done. unfold gain. clear.
  induction places as [|p places IH]; cbn [foldr]; [done|].
  by rewrite IH, bool_of_token_bit_iff.
Qed.

Lemma dom_marking_of_assign (places : list string) (ga : gmap string bool) :
  dom (MarkingOptimizer.marking_of_assign places ga) = list_to_set places.
Proof.
  apply set_eq. intros p. rewrite elem_of_dom, elem_of_list_to_set.
  unfold MarkingOptimizer.marking_of_assign. rewrite list_to_map_lookup_fmap.
  destruct (decide (p ∈ places)) as [Hp|Hp]; split; intros H.
  - done.
  - eauto.
  - by destruct H.
  - done.
Qed.

Lemma optimize_exact
    (pick_first : BDD.manager → (gset string → bool) → option (gmap string bool))
    (net : PetriNet.t) (task3_solver : BDDReachability.t) (b : BDD.manager)
    (T R : gset string → bool) (place_weights : gmap string Z) (mode : string) :
  picks_from_enumeration pick_first →
  initialized net task3_solver b T →
  BDDReachability.reachable_bdd task3_solver = Some R →
  BDD.__eq__ b R BDD.false_ = false →
  mode ≠ "greedy" →
  ∃ marking v c,
    MarkingOptimizer.optimize pick_first net task3_solver place_weights mode
    = Ok (Some (marking, v))
    ∧ c ⊆ list_to_set (BDD.vars b) ∧ R c = true
    ∧ (∀ p, p ∈ PetriNet.places net →
            Marking.has_token (Marking.__init__ marking) p
            = bool_decide (p ∈ c))
    ∧ v = gain (λ p, default 0 (place_weights !! p))
               (BDDReachability.sorted (PetriNet.places net)) c
    ∧ (∀ c', c' ⊆ list_to_set (BDD.vars b) → R c' = true →
             gain (λ p, default 0 (place_weights !! p))
                  (BDDReachability.sorted (PetriNet.places net)) c' ≤ v).
Proof.
  intros Hpick Hi HR Hne Hmode. unfold MarkingOptimizer.optimize.
  rewrite (init_bdd _ _ _ _ Hi), HR, Hne.
  pose proof (elem_of_sorted (PetriNet.places net)) as Hsorted.
  pose proof (NoDup_sorted (PetriNet.places net)) as Hnd.
  set (places := BDDReachability.sorted (PetriNet.places net)) in *.
  destruct (pick_first_marking pick_first b R places Hpick Hne)
    as (ga & c0 & Hga & Hc0 & HRc0 & Hbits0).
  rewrite Hga.
  destruct (decide (place_weights = ∅)) as [->|Hnonempty].
  - (* no weights *)
    exists (MarkingOptimizer.marking_of_assign places ga), 0, c0.
    split; [done|]. split; [done|]. split; [done|]. split; [|split].
    + intros p Hp. apply Hsorted in Hp.
      by rewrite (has_token_init_lookup _ p _ (Hbits0 p Hp)), bool_of_token_bit_iff.
    + symmetry. apply gain_zero. intros p. by rewrite lookup_empty.
    + intros c' _ _. rewrite gain_zero; [done|]. intros p. by rewrite lookup_empty.
  - destruct (decide (mode = "greedy")) as [|_]; [done|].
    set (weights := (list_to_map ((λ p, (p, default 0 (place_weights !! p)))
                                    <$> places) : gmap string Z)).
    set (order := MarkingOptimizer.sorted_by
                    (λ x, Z.max (default 0 (weights !! x)) 0) places).
    assert (order ≡ₚ places) as Hperm by apply sorted_by_perm.
    assert (∀ p, p ∈ places →
               weight_of weights p = default 0 (place_weights !! p)) as Hw.
    { intros p Hp. unfold weight_of, weights.
      by rewrite list_to_map_lookup_fmap, decide_True. }
    assert (∀ c, gain (weight_of weights) order c
                 = gain (λ p, default 0 (place_weights !! p)) places c) as Hgain.
    { intros c. rewrite (gain_perm _ _ _ c Hperm). by apply gain_ext. }
    set (st0 := MarkingOptimizer.DfsState
                  (Some (MarkingOptimizer.score_of place_weights
                           (MarkingOptimizer.marking_of_assign places ga)))
                  (Some (MarkingOptimizer.marking_of_assign places ga)) ∅).
    destruct (dfs_spec b weights
                (MarkingOptimizer.suffix_sums
                   ((λ p, Z.max (default 0 (weights !! p)) 0) <$> order))
                order 0 R 0 st0 ∅)
      as (st' & Hrun & Hmono & Hdom & Hbest & _).
    { by rewrite Hperm. }
    { intros p _. apply not_elem_of_empty. }
    { intros p Hp. rewrite Hperm in Hp. apply Hsorted in Hp.
      apply (init_vars _ _ _ _ Hi). eauto. }
    { intros k Hk. rewrite Nat.add_0_l.
      rewrite suffix_sums_lookup by (by rewrite length_fmap).
      rewrite <- fmap_drop. f_equal. apply positive_sum_fmap. }
    { apply (bdd_ne_false_spec b R). unfold BDD.__ne__. by rewrite Hne. }
    { intros c _ _ p Hp. by apply elem_of_empty in Hp. }
    rewrite Hrun. cbn [bind].
    assert (∃ bm bs c,
              MarkingOptimizer.best_mark st' = Some bm
              ∧ MarkingOptimizer.best_score st' = Some bs
              ∧ c ⊆ list_to_set (BDD.vars b) ∧ R c = true
              ∧ bs = gain (λ p, default 0 (place_weights !! p)) places c
              ∧ ∀ p, p ∈ places → bm !! p = Some (bit c p))
      as (bm & bs & c & Hbm & Hbs & Hc & HRc & Hval & Hbits).
    { destruct Hbest as [[Hbs Hbm]|(c & mk & Hc & HRc & Hbs & Hbm & Hmk)].
      - exists (MarkingOptimizer.marking_of_assign places ga),
               (MarkingOptimizer.score_of place_weights
                  (MarkingOptimizer.marking_of_assign places ga)), c0.
        split; [done|]. split; [done|]. split; [done|]. split; [done|].
        split; [|done].
        apply score_of_bits; [done|apply dom_marking_of_assign|done].
      - exists mk, (0 + gain (weight_of weights) order c), c.
        split; [done|]. split; [done|]. split; [done|]. split; [done|].
        split; [rewrite Hgain; lia|].
        intros p Hp. apply Hmk. right. by rewrite Hperm. }
    rewrite Hbm, Hbs.
    eexists _, bs, c. split; [done|]. split; [done|]. split; [done|].
    split; [|split; [done|]].
    + intros p Hp. apply Hsorted in Hp.
      rewrite (has_token_init_lookup _ p (bit c p)).
      * apply bool_of_token_bit_iff.
      * rewrite list_to_map_lookup_fmap, decide_True by done.
        by rewrite (Hbits p Hp).
    + intros c' Hc' HRc'. specialize (Hdom c' Hc' HRc').
      rewrite Hbs, Hgain in Hdom. cbn in Hdom. lia.
Qed.

Lemma fixpoint_loop_mono (fuel : nat) (e : BDDReachability.t) (b : BDD.manager)
    (R0 R : gset string → bool) :
  BDDReachability.fixpoint_loop fuel e b R0 = Ok R →
  ∀ a, R0 a = true → R a = true.
Proof.
  revert R0. induction fuel as [|fuel IH]; intros R0 Hrun; [done|].
  cbn [BDDReachability.fixpoint_loop] in Hrun.
  apply bind_Ok in Hrun as (P & HP & Hrun).
  destruct (BDD.__eq__ b (BDD.__or__ R0 P) R0).
  - injection Hrun as <-. done.
  - intros a Ha. apply (IH _ Hrun). unfold BDD.__or__. by rewrite Ha.
Qed.

(** An engine returned by [compute_symbolic_reachability] on a new engine is
    initialized, holds the returned set, and the set is not empty. *)
Lemma compute_completed (net : PetriNet.t) (fuel : nat) (m0 : gmap string bool)
    (R : gset string → bool) (e' : BDDReachability.t) :
  well_formed net →
  BDDReachability.compute_symbolic_reachability fuel m0
    (BDDReachability.__init__ net) = Ok (R, e') →
  ∃ b T, initialized net e' b T
         ∧ BDDReachability.reachable_bdd e' = Some R
         ∧ BDD.__eq__ b R BDD.false_ = false.
Proof.
  intros Hwf Hrun. unfold BDDReachability.compute_symbolic_reachability in Hrun.
  cbn [BDDReachability.bdd_manager BDDReachability.__init__] in Hrun.
  destruct (initialize_bdd_initialized (BDDReachability.__init__ net) Hwf)
    as (e1 & b & T & He1 & Hi & _).
  cbn [BDDReachability.petri_net BDDReachability.__init__] in Hi.
  rewrite He1 in Hrun. cbn [bind] in Hrun.
  destruct (encode_marking_sem net e1 b T m0 Hi) as (enc0 & Henc0 & Hsem0).
  rewrite Henc0 in Hrun. cbn [bind] in Hrun.
  rewrite (init_bdd _ _ _ _ Hi) in Hrun.
  apply bind_Ok in Hrun as (R' & Hloop & Hret). injection Hret as <- <-.
  exists b, T. split; [by apply initialized_with_reachable|]. split; [done|].
  apply Bool.not_true_iff_false. intros Heq.
  pose proof (proj1 (bdd_eq_spec b R' BDD.false_) Heq) as Hfalse.
  assert (marked (PetriNet.places net) m0 ⊆ list_to_set (BDD.vars b)) as Hsub.
  { intros x Hx. apply elem_of_marked in Hx as [_ Hx].
    apply elem_of_list_to_set, (init_vars _ _ _ _ Hi). eauto. }
  specialize (Hfalse _ Hsub). unfold BDD.false_ in Hfalse.
  rewrite (fixpoint_loop_mono _ _ _ _ _ Hloop) in Hfalse; [done|].
  apply Hsem0. intros p Hp.
  destruct (Marking.has_token m0 p) eqn:Hm.
  - apply bool_decide_eq_true. by apply elem_of_marked.
  - apply bool_decide_eq_false. intros Hin.
    apply elem_of_marked in Hin as [? _]. congruence.
Qed.

(** C4: on the engine returned by [compute_symbolic_reachability] for a net
    whose arcs are between its own places and transitions, the exact mode of
    [find_max_score_marking] returns a marking and a value; the marking is in
    the reachable set, the value is the weighted sum of the marking, and no
    marking of the reachable set has a larger weighted sum. *)
Theorem find_max_score_marking_exact_optimal
    (pick_first : BDD.manager → (gset string → bool) → option (gmap string bool))
    (net : PetriNet.t) (fuel : nat) (m0 : gmap string bool)
    (R : gset string → bool) (task3_solver : BDDReachability.t)
    (place_weights : gmap string Z) (mode : string) (start_time end_time : Z) :
  picks_from_enumeration pick_first →
  well_formed net →
  BDDReachability.compute_symbolic_reachability fuel m0
    (BDDReachability.__init__ net) = Ok (R, task3_solver) →
  mode ≠ "greedy" →
  ∃ marking v,
    MarkingOptimizer.find_max_score_marking pick_first net task3_solver
      place_weights mode start_time end_time
    = (Some marking, Some v, end_time - start_time)
    ∧ reachable_in task3_solver (Marking.__init__ marking)
    ∧ v = weighted_sum place_weights
            (BDDReachability.sorted (PetriNet.places net))
            (Marking.__init__ marking)
    ∧ ∀ m', reachable_in task3_solver m' →
            weighted_sum place_weights
              (BDDReachability.sorted (PetriNet.places net)) m' ≤ v.
Proof.
  intros Hpick Hwf Hrun Hmode.
  destruct (compute_completed net fuel m0 R task3_solver Hwf Hrun)
    as (b & T & Hi & HR & Hne).
  destruct (optimize_exact pick_first net task3_solver b T R place_weights mode
              Hpick Hi HR Hne Hmode)
    as (marking & v & c & Hopt & Hc & HRc & Hm & Hv & Hmax).
  exists marking, v. unfold MarkingOptimizer.find_max_score_marking.
  rewrite Hopt. split; [done|].
  pose proof (elem_of_sorted (PetriNet.places net)) as Hsorted.
  split; [|split].
  - apply (reachable_in_intro net task3_solver b T R _ c Hi HR Hc HRc).
    intros p Hp. symmetry. by apply Hm.
  - rewrite Hv. symmetry. apply weighted_sum_gain; [|done].
    intros p Hp. apply Hm. by apply Hsorted.
  - intros m' Hm'.
    destruct (reachable_in_elim net task3_solver b T R m' Hi HR Hm')
      as (c' & Hc' & HRc' & Hbits).
    rewrite (weighted_sum_gain place_weights (λ p, default 0 (place_weights !! p))
               _ m' c').
    + by apply Hmax.
    + intros p Hp. symmetry. apply Hbits. by apply Hsorted.
    + done.
Qed.

Lemma pick_first_head_picks : picks_from_enumeration pick_first_head.
Proof.
  intros b u. unfold pick_first_head.
  destruct (BDD.pick_iter b u) as [|a l]; cbn; [done|left].
Qed.

Lemma well_formed_net_sink : well_formed net_sink.
Proof.
  intros tr Htr. unfold net_sink in *. cbn in Htr.
  apply elem_of_singleton in Htr as ->.
  exists (PetriNet.ArcInfo ["b"] []). split; [done|].
  intros p Hp. cbn in Hp. cbn.
  apply elem_of_cons in Hp as [->|Hp]; [set_solver|].
  by apply elem_of_nil in Hp.
Qed.

Lemma find_max_score_marking_exact_optimal_witness :
  ∃ marking v,
    MarkingOptimizer.find_max_score_marking pick_first_head net_sink engine_sink
      {["b" := 4]} "exact" 3 10
    = (Some marking, Some v, 10 - 3)
    ∧ reachable_in engine_sink (Marking.__init__ marking)
    ∧ v = weighted_sum {["b" := 4]}
            (BDDReachability.sorted (PetriNet.places net_sink))
            (Marking.__init__ marking).
Proof.
  assert (match BDDReachability.compute_symbolic_reachability 10 {["b" := true]}
                  (BDDReachability.__init__ net_sink) with
          | Ok _ => true
          | Raise _ => false
          end = true) as Hok by (vm_compute; reflexivity).
  unfold engine_sink.
  destruct (BDDReachability.compute_symbolic_reachability 10 {["b" := true]}
              (BDDReachability.__init__ net_sink)) as [[R e']|] eqn:Hrun;
    [|discriminate Hok].
  destruct (find_max_score_marking_exact_optimal pick_first_head net_sink 10
              {["b" := true]} R e' {["b" := 4]} "exact" 3 10)
    as (marking & v & Hres & Hin & Hv & _).
  - exact pick_first_head_picks.
  - exact well_formed_net_sink.
  - exact Hrun.
  - discriminate.
  - exists marking, v. auto.
Defined.

(** ** The deadlock detector *)

Lemma has_source_transition_false (arcs : gmap string PetriNet.arc_info)
    (ts : list string) :
  DeadlockDetector.has_source_transition arcs ts = Ok false →
  ∀ tr, tr ∈ ts → ∃ a, arcs !! tr = Some a ∧ PetriNet.input a ≠ [].
Proof.
  induction ts as [|t ts IH]; intros Hrun tr Htr; [by apply elem_of_nil in Htr|].
  cbn [DeadlockDetector.has_source_transition] in Hrun.
  apply bind_Ok in Hrun as (a & Ha & Hrun).
  unfold getitem in Ha. destruct (arcs !! t) as [a'|] eqn:Harc; [|done].
  injection Ha as ->.
  destruct (PetriNet.input a) as [|p ps] eqn:Hin; [done|].
  apply elem_of_cons in Htr as [->|Htr].
  - exists a. rewrite Hin. done.
  - by apply IH.
Qed.

Lemma x_vars_loop (places : gset string) (preset : list string)
    (acc xs : list ILP.lpvar) :
  for_each preset
    (λ p acc, v ←! DeadlockDetector.x_var places p; Ok (acc ++ [v])) acc
  = Ok xs →
  xs = acc ++ (ILP.X <$> preset) ∧ ∀ p, p ∈ preset → p ∈ places.
Proof.
  revert acc. induction preset as [|p preset IH]; intros acc Hrun;
    cbn [for_each] in Hrun.
  - injection Hrun as <-. split; [by rewrite app_nil_r|].
    intros p Hp. by apply elem_of_nil in Hp.
  - apply bind_Ok in Hrun as (acc' & Hstep & Hrun).
    unfold DeadlockDetector.x_var in Hstep.
    destruct (decide (p ∈ places)) as [Hp|]; [|done].
    cbn [bind] in Hstep. injection Hstep as <-.
    apply IH in Hrun as [-> Hall]. split.
    + by rewrite <- app_assoc.
    + intros q Hq. apply elem_of_cons in Hq as [->|Hq]; [done|by apply Hall].
Qed.

Lemma dead_constraint_spec (d : DeadlockDetector.t) (tr : string)
    (prob prob' : ILP.problem) :
  DeadlockDetector.dead_constraint d tr prob = Ok prob' →
  ILP.binaries prob' = ILP.binaries prob
  ∧ (∀ c, c ∈ ILP.constraints prob → c ∈ ILP.constraints prob')
  ∧ ∃ a, PetriNet.arcs (DeadlockDetector.net d) !! tr = Some a
         ∧ (PetriNet.input a ≠ [] →
            dead_constraint_of (PetriNet.input a) ∈ ILP.constraints prob'
            ∧ ∀ p, p ∈ PetriNet.input a →
                   p ∈ PetriNet.places (DeadlockDetector.net d)).
Proof.
  unfold DeadlockDetector.dead_constraint. intros Hrun.
  apply bind_Ok in Hrun as (a & Ha & Hrun).
  unfold getitem in Ha.
  destruct (PetriNet.arcs (DeadlockDetector.net d) !! tr) as [a'|] eqn:Harc;
    [|done].
  injection Ha as ->.
  destruct (PetriNet.input a) as [|p ps] eqn:Hin.
  - injection Hrun as <-. split; [done|]. split; [done|].
    exists a. split; [done|]. done.
  - apply bind_Ok in Hrun as (xs & Hxs & Hrun). injection Hrun as <-.
    apply x_vars_loop in Hxs as [-> Hall]. cbn [app].
    split; [done|]. split.
    + intros c Hc. cbn. apply elem_of_app. by left.
    + exists a. split; [done|]. intros _. rewrite Hin. split; [|done].
      cbn. apply elem_of_app. right. apply list_elem_of_singleton. done.
Qed.

Lemma dead_constraints_loop (d : DeadlockDetector.t) (ts : list string)
    (prob prob' : ILP.problem) :
  for_each ts (DeadlockDetector.dead_constraint d) prob = Ok prob' →
  ILP.binaries prob' = ILP.binaries prob
  ∧ (∀ c, c ∈ ILP.constraints prob → c ∈ ILP.constraints prob')
  ∧ ∀ tr, tr ∈ ts →
      ∃ a, PetriNet.arcs (DeadlockDetector.net d) !! tr = Some a
           ∧ (PetriNet.input a ≠ [] →
              dead_constraint_of (PetriNet.input a) ∈ ILP.constraints prob'
              ∧ ∀ p, p ∈ PetriNet.input a →
                     p ∈ PetriNet.places (DeadlockDetector.net d)).
Proof.
  revert prob. induction ts as [|t ts IH]; intros prob Hrun; cbn [for_each] in Hrun.
  - injection Hrun as <-. split; [done|]. split; [done|].
    intros tr Htr. by apply elem_of_nil in Htr.
  - apply bind_Ok in Hrun as (prob1 & Hstep & Hrun).
    apply dead_constraint_spec in Hstep as (Hbin1 & Hmono1 & a & Ha & Hdc).
    apply IH in Hrun as (Hbin & Hmono & Hall).
    split; [congruence|]. split; [auto|].
    intros tr Htr. apply elem_of_cons in Htr as [->|Htr]; [|by apply Hall].
    exists a. split; [done|]. intros Hne. destruct (Hdc Hne) as [Hin Hpl].
    split; [by apply Hmono|done].
Qed.

Lemma eval_lpSum_X (sol : ILP.lpvar → option Z) (l : list string) :
  ILP.eval sol (ILP.lpSum (ILP.X <$> l))
  = foldr (λ p acc, ILP.value sol (ILP.X p) + acc) 0 l.
Proof.
  unfold ILP.eval, ILP.lpSum. cbn [ILP.terms ILP.constant].
  induction l as [|p l IH]; [done|]. cbn. rewrite IH.
  destruct (ILP.value sol (ILP.X p)); done.
Qed.

Lemma binary_sum_lt_length (v : string → Z) (l : list string) :
  (∀ p, p ∈ l → v p = 0 ∨ v p = 1) →
  foldr (λ p acc, v p + acc) 0 l < Z.of_nat (length l) →
  ∃ p, p ∈ l ∧ v p = 0.
Proof.
  induction l as [|p l IH]; intros Hbin Hsum; cbn [foldr length] in Hsum; [lia|].
  destruct (Hbin p) as [H0|H1]; [left| |].
  - exists p. split; [left|done].
  - destruct IH as (q & Hq & Hv).
    + intros q Hq. apply Hbin. by right.
    + lia.
    + exists q. split; [by right|done].
Qed.

Lemma state_equations_loop (d : DeadlockDetector.t)
    (c : gmap string (gmap string Z)) (ps : list string)
    (prob prob' : ILP.problem) :
  for_each ps (DeadlockDetector.state_equation d c) prob = Ok prob' →
  ILP.binaries prob' = ILP.binaries prob.
Proof.
  revert prob. induction ps as [|p ps IH]; intros prob Hrun; cbn [for_each] in Hrun.
  - by injection Hrun as <-.
  - apply bind_Ok in Hrun as (prob1 & Hstep & Hrun).
    rewrite (IH _ Hrun). unfold DeadlockDetector.state_equation in Hstep.
    apply bind_Ok in Hstep as (m0p & _ & Hstep).
    apply bind_Ok in Hstep as (row & _ & Hstep).
    apply bind_Ok in Hstep as (ts & _ & Hstep).
    by injection Hstep as <-.
Qed.

Lemma candidate_lookup (places : gset string) (sol : ILP.lpvar → option Z)
    (p : string) :
  DeadlockDetector.candidate places sol !! p
  = if decide (p ∈ places) then Some (ILP.value sol (ILP.X p)) else None.
Proof.
  unfold DeadlockDetector.candidate.
  rewrite (foldl_insert_lookup (λ p, ILP.value sol (ILP.X p))), lookup_empty.
  destruct (decide (p ∈ elements places)) as [Hp|Hp];
    destruct (decide (p ∈ places)) as [Hp'|Hp']; try done;
    exfalso; apply elem_of_elements in Hp || apply Hp, elem_of_elements; done.
Qed.

Lemma has_token_candidate (places : gset string) (sol : ILP.lpvar → option Z)
    (p : string) :
  Marking.has_token
    (Marking.__init__ (DeadlockDetector.candidate places sol)) p
  = if decide (p ∈ places)
    then Marking.bool_of_token (ILP.value sol (ILP.X p)) else false.
Proof.
  unfold Marking.has_token, Marking.__init__.
  rewrite lookup_fmap, candidate_lookup. by destruct (decide (p ∈ places)).
Qed.

(** A positive answer of [_is_reachable]: every valuation of the declared
    variables that gives the places the values of the candidate satisfies
    the reachable set. *)
Lemma is_reachable_true (d : DeadlockDetector.t) (places : gset string)
    (sol : ILP.lpvar → option Z) (a : gset string) :
  DeadlockDetector._is_reachable d (DeadlockDetector.candidate places sol)
  = Ok true →
  a ⊆ list_to_set (BDD.vars (DeadlockDetector.manager d)) →
  (∀ p, p ∈ places →
        bool_decide (p ∈ a)
        = Marking.has_token
            (Marking.__init__ (DeadlockDetector.candidate places sol)) p) →
  DeadlockDetector.reachable_bdd d a = true.
Proof.
  unfold DeadlockDetector._is_reachable. intros Hrun Ha Hbits.
  apply bind_Ok in Hrun as (u & Hlet & Heq). injection Heq as Heq.
  unfold BDD.let_ in Hlet.
  destruct (decide (Forall _ _)) as [_|]; [|done]. injection Hlet as <-.
  pose proof (proj1 (bdd_eq_spec _ _ _) Heq a Ha) as Hu. cbn beta in Hu.
  unfold BDD.true_ in Hu. rewrite <- Hu. f_equal.
  apply set_eq. intros p.
  rewrite elem_of_union, elem_of_difference, !elem_of_dom.
  rewrite map_lookup_filter, !lookup_fmap, candidate_lookup.
  destruct (decide (p ∈ places)) as [Hp|Hp]; cbn.
  - specialize (Hbits p Hp). rewrite has_token_candidate, decide_True in Hbits by done.
    destruct (Marking.bool_of_token (ILP.value sol (ILP.X p))) eqn:Hv.
    + apply bool_decide_eq_true in Hbits. split; [intros _|done].
      right. rewrite option_guard_True by done. eauto.
    + apply bool_decide_eq_false in Hbits. split; [done|].
      intros [[_ Hn]|[x Hx]].
      * exfalso. apply Hn. eauto.
      * rewrite option_guard_False in Hx by done. done.
  - split; [intros Hin; left; split; [done|by intros [? ?]]|].
    intros [[? _]|[? ?]]; done.
Qed.

Lemma is_reachable_places_declared (d : DeadlockDetector.t)
    (places : gset string) (sol : ILP.lpvar → option Z) (r : bool) :
  DeadlockDetector._is_reachable d (DeadlockDetector.candidate places sol)
  = Ok r →
  ∀ p, p ∈ places → p ∈ BDD.vars (DeadlockDetector.manager d).
Proof.
  unfold DeadlockDetector._is_reachable. intros Hrun p Hp.
  apply bind_Ok in Hrun as (u & Hlet & _). unfold BDD.let_ in Hlet.
  destruct (decide (Forall _ _)) as [Hall|]; [|done].
  rewrite Forall_forall in Hall. apply Hall.
  apply elem_of_elements, elem_of_dom. rewrite lookup_fmap, candidate_lookup.
  rewrite decide_True by done. cbn. eauto.
Qed.

Lemma cutting_loop_sound
    (solve : ILP.problem → option (ILP.lpvar → option Z)) (fuel : nat)
    (d : DeadlockDetector.t) (prob : ILP.problem)
    (deadlock : gmap string bool) (d' : DeadlockDetector.t) :
  solver_sound solve →
  DeadlockDetector.cutting_loop solve fuel d prob = Ok (Some deadlock, d') →
  ∃ prob' sol,
    ILP.binaries prob' = ILP.binaries prob
    ∧ (∀ c, c ∈ ILP.constraints prob → c ∈ ILP.constraints prob')
    ∧ ILP.feasible prob' sol
    ∧ deadlock
      = Marking.__init__
          (DeadlockDetector.candidate
             (PetriNet.places (DeadlockDetector.net d)) sol)
    ∧ DeadlockDetector._is_reachable d
        (DeadlockDetector.candidate
           (PetriNet.places (DeadlockDetector.net d)) sol) = Ok true.
Proof.
  intros Hsound. revert prob.
  induction fuel as [|fuel IH]; intros prob Hrun; [done|].
  cbn [DeadlockDetector.cutting_loop] in Hrun.
  destruct (solve prob) as [sol|] eqn:Hsolve; [|done].
  apply bind_Ok in Hrun as (reachable & Hreach & Hrun).
  destruct reachable.
  - injection Hrun as <- <-. exists prob, sol.
    split; [done|]. split; [done|]. split; [by apply Hsound|]. done.
  - apply IH in Hrun as (prob' & sol' & Hbin & Hmono & Hfeas & Hdl & Hr).
    exists prob', sol'. split; [done|]. split; [|done].
    intros c Hc. apply Hmono. cbn. apply elem_of_app. by left.
Qed.

Lemma get_incidence_net (net net' : PetriNet.t)
    (c : gmap string (gmap string Z)) :
  PetriNet.get_incidence net = Ok (c, net') →
  PetriNet.places net' = PetriNet.places net
  ∧ PetriNet.transitions net' = PetriNet.transitions net
  ∧ PetriNet.arcs net' = PetriNet.arcs net.
Proof.
  unfold PetriNet.get_incidence. destruct (PetriNet.incidence net).
  - intros [= <- <-]. done.
  - intros Hrun. apply bind_Ok in Hrun as (c' & _ & Hrun).
    injection Hrun as <- <-. done.
Qed.

(** C3: when the solver returns solutions of the problems it is given and
    [detect_deadlock] returns a marking, every valuation of the declared
    variables that gives the places the values of the marking satisfies the
    reachable set handed to the detector, the valuation of the marked places
    among them, and no transition of the net is enabled at the marking. *)
Theorem detect_deadlock_sound
    (solve : ILP.problem → option (ILP.lpvar → option Z)) (fuel : nat)
    (d d' : DeadlockDetector.t) (deadlock : gmap string bool) :
  solver_sound solve →
  DeadlockDetector.detect_deadlock solve fuel d = Ok (Some deadlock, d') →
  DeadlockDetector.reachable_bdd d
    (marked (PetriNet.places (DeadlockDetector.net d)) deadlock) = true
  ∧ (∀ a, a ⊆ list_to_set (BDD.vars (DeadlockDetector.manager d)) →
          (∀ p, p ∈ PetriNet.places (DeadlockDetector.net d) →
                bool_decide (p ∈ a) = Marking.has_token deadlock p) →
          DeadlockDetector.reachable_bdd d a = true)
  ∧ ∀ tr, tr ∈ PetriNet.transitions (DeadlockDetector.net d) →
          PetriNet.is_enabled (DeadlockDetector.net d) tr deadlock = Ok false.
Proof.
  intros Hsound Hrun. unfold DeadlockDetector.detect_deadlock in Hrun.
  apply bind_Ok in Hrun as (src & Hsrc & Hrun).
  destruct src; [done|].
  apply bind_Ok in Hrun as ([c net'] & Hinc & Hrun). cbn [fst snd] in Hrun.
  apply get_incidence_net in Hinc as (Hplaces & Htrans & Harcs).
  apply bind_Ok in Hrun as (prob1 & Hprob1 & Hrun).
  apply bind_Ok in Hrun as (prob3 & Hprob3 & Hrun).
  apply state_equations_loop in Hprob1. cbn [ILP.binaries] in Hprob1.
  apply dead_constraints_loop in Hprob3 as (Hbin3 & _ & Hdead).
  cbn [ILP.binaries DeadlockDetector.net] in Hbin3, Hdead.
  apply (cutting_loop_sound solve _ _ _ _ _ Hsound) in Hrun
    as (prob' & sol & Hbin & Hmono & (Hbinary & _ & Hholds) & -> & Hreach).
  cbn [DeadlockDetector.net DeadlockDetector.manager
       DeadlockDetector.reachable_bdd] in *.
  rewrite Hplaces in *.
  set (places := PetriNet.places (DeadlockDetector.net d)) in *.
  set (d1 := DeadlockDetector.Detector net' _ _ _ _) in Hreach.
  assert (∀ a, a ⊆ list_to_set (BDD.vars (DeadlockDetector.manager d)) →
            (∀ p, p ∈ places →
                  bool_decide (p ∈ a)
                  = Marking.has_token
                      (Marking.__init__ (DeadlockDetector.candidate places sol)) p) →
            DeadlockDetector.reachable_bdd d a = true) as Hmember.
  { intros a Ha Hbits. by apply (is_reachable_true d1 places sol a Hreach). }
  split; [|split; [done|]].
  - apply Hmember.
    + intros p Hp. apply elem_of_marked in Hp as [_ Hp].
      apply elem_of_list_to_set.
      by apply (is_reachable_places_declared d1 places sol true Hreach).
    + intros p Hp.
      destruct (Marking.has_token _ p) eqn:Hm.
      * apply bool_decide_eq_true. by apply elem_of_marked.
      * apply bool_decide_eq_false. intros Hin.
        apply elem_of_marked in Hin as [? _]. congruence.
  - intros tr Htr.
    assert (tr ∈ elements (PetriNet.transitions (DeadlockDetector.net d)))
      as Htr' by (by apply elem_of_elements).
    destruct (has_source_transition_false _ _ Hsrc tr Htr') as (a & Ha & Hne).
    destruct (Hdead tr Htr') as (a' & Ha' & Hdc).
    rewrite Harcs, Ha in Ha'. injection Ha' as <-.
    destruct (Hdc Hne) as [Hin Hpl].
    rewrite (is_enabled_arcs _ tr a _ Htr Ha). f_equal.
    apply Bool.not_true_iff_false. intros Hall.
    rewrite forallb_forall in Hall.
    rewrite Forall_forall in Hholds.
    pose proof (Hholds _ (Hmono _ Hin)) as Hc.
    unfold ILP.holds, dead_constraint_of in Hc. cbn [ILP.rel ILP.lhs ILP.rhs] in Hc.
    rewrite eval_lpSum_X in Hc. unfold ILP.eval in Hc at 1. cbn in Hc.
    destruct (binary_sum_lt_length (λ p, ILP.value sol (ILP.X p)) (PetriNet.input a))
      as (p & Hp & Hzero).
    + intros p Hp. rewrite Forall_forall in Hbinary. apply Hbinary.
      rewrite Hbin, Hbin3, Hprob1. apply elem_of_elements. by apply Hpl.
    + lia.
    + specialize (Hall p (proj1 (list_elem_of_In _ _) Hp)).
      rewrite has_token_candidate, decide_True, Hzero in Hall by (by apply Hpl).
      done.
Qed.

Lemma solve_with_sound (sol : ILP.lpvar → option Z) :
  solver_sound (solve_with sol).
Proof.
  intros prob sol' Hsolve. unfold solve_with in Hsolve.
  destruct (decide (ILP.feasible prob sol)) as [Hf|]; [|done].
  by injection Hsolve as <-.
Qed.

Lemma detect_deadlock_sound_witness :
  match detector_p1_t1_p2 with
  | Ok d =>
      match DeadlockDetector.detect_deadlock (solve_with solution_p2) 5 d with
      | Ok (Some deadlock, _) =>
          DeadlockDetector.reachable_bdd d
            (marked (PetriNet.places (DeadlockDetector.net d)) deadlock) = true
          ∧ ∀ tr, tr ∈ PetriNet.transitions (DeadlockDetector.net d) →
                  PetriNet.is_enabled (DeadlockDetector.net d) tr deadlock
                  = Ok false
      | _ => False
      end
  | Raise _ => False
  end.
Proof.
  assert (match detector_p1_t1_p2 with
          | Ok d =>
              match DeadlockDetector.detect_deadlock (solve_with solution_p2) 5 d
              with
              | Ok (Some _, _) => true
              | _ => false
              end
          | Raise _ => false
          end = true) as Hok by (vm_compute; reflexivity).
  destruct detector_p1_t1_p2 as [d|]; [|discriminate Hok].
  destruct (DeadlockDetector.detect_deadlock (solve_with solution_p2) 5 d)
    as [[[deadlock|] d']|] eqn:Hrun; try discriminate Hok.
  destruct (detect_deadlock_sound (solve_with solution_p2) 5 d d' deadlock)
    as (Hin & _ & Hdead).
  - exact (solve_with_sound solution_p2).
  - exact Hrun.
  - split; [exact Hin | exact Hdead].
Defined.

(** * Further properties of the code *)

(** ** [Marking]: copies, conversions and the order *)

Lemma copy_id (m : gmap string bool) : Marking.copy m = m.
Proof.
  unfold Marking.copy, Marking.__init__. rewrite <- map_fmap_compose.
  rewrite <- (map_fmap_id m) at 2. apply map_fmap_ext.
  intros p b _. cbn. apply bool_of_token_bit.
Qed.

(** X1. [copy] returns a new object that holds the same dictionary, and the
    copy and the original are independent: [set_token] on one of them leaves
    the other as it was. *)
Theorem copy_fresh_and_independent (l : positive)
    (h : gmap positive (gmap string bool)) (m : gmap string bool) :
  h !! l = Some m →
  ∃ l', (Store.copy l h).1 = Ok l'
        ∧ (l' ∉ dom h)
        ∧ (Store.copy l h).2 !! l' = Some m
        ∧ (∀ l0, l0 ∈ dom h → (Store.copy l h).2 !! l0 = h !! l0)
        ∧ ∀ p b,
            (Store.set_token l' p b (Store.copy l h).2) !! l = Some m
            ∧ (Store.set_token l p b (Store.copy l h).2) !! l' = Some m.
Proof.
  intros Hl. unfold Store.copy, Store.alloc. rewrite Hl, copy_id. cbn.
  set (l' := fresh (dom h)).
  assert (l' ∉ dom h) as Hfresh by apply is_fresh.
  assert (l ≠ l') as Hne.
  { intros ->. apply Hfresh. by apply elem_of_dom_2 in Hl. }
  exists l'. split; [done|]. split; [done|].
  split; [apply lookup_insert_eq|]. split.
  - intros l0 Hl0. apply lookup_insert_ne. intros <-. done.
  - intros p b. unfold Store.set_token. split.
    + rewrite lookup_alter_ne by done. rewrite lookup_insert_ne by done. done.
    + rewrite lookup_alter_ne by done. apply lookup_insert_eq.
Qed.

Lemma copy_fresh_and_independent_witness :
  ∃ l', (Store.copy 1%positive {[1%positive := {["p1" := true]}]}).1 = Ok l'
        ∧ l' ∉ dom ({[1%positive := {["p1" := true]}]}
                    : gmap positive (gmap string bool)).
Proof.
  destruct (copy_fresh_and_independent 1%positive
              {[1%positive := {["p1" := true]}]} {["p1" := true]})
    as (l' & H1 & H2 & _).
  - apply lookup_singleton_eq.
  - exists l'. split; [exact H1 | exact H2].
Defined.

Lemma string_ltb_spec (s1 s2 : string) :
  String.ltb s1 s2 = true ↔ String.le s1 s2 ∧ s1 ≠ s2.
Proof.
  unfold String.le, String.ltb, String.leb.
  destruct (String.compare s1 s2) eqn:Hc; cbn.
  - apply String.compare_eq_iff in Hc. split; [done|]. intros [_ ?]. done.
  - split; [|done]. intros _. split; [done|]. intros ->.
    pose proof (String.compare_antisym s2 s2) as Ha. rewrite Hc in Ha.
    discriminate.
  - split; [done|]. intros [[] _].
Qed.

Lemma string_ltb_irrefl (s : string) : String.ltb s s = false.
Proof.
  destruct (String.ltb s s) eqn:H; [|done].
  apply string_ltb_spec in H as [_ ?]. done.
Qed.

Lemma string_ltb_trans (s1 s2 s3 : string) :
  String.ltb s1 s2 = true → String.ltb s2 s3 = true → String.ltb s1 s3 = true.
Proof.
  rewrite !string_ltb_spec. intros [H12 Hn12] [H23 Hn23]. split.
  - by etrans.
  - intros ->. apply Hn12. by apply (anti_symm String.le).
Qed.

Lemma string_ltb_total (s1 s2 : string) :
  s1 = s2 ∨ String.ltb s1 s2 = true ∨ String.ltb s2 s1 = true.
Proof.
  destruct (decide (s1 = s2)) as [|Hne]; [by left|right].
  rewrite !string_ltb_spec.
  destruct (total String.le s1 s2); [left|right]; split; done.
Qed.

Lemma item_lt_irrefl (x : string * bool) : Marking.item_lt x x = false.
Proof.
  unfold Marking.item_lt. rewrite decide_True by done. by destruct (x.2).
Qed.

Lemma item_lt_trans (x y z : string * bool) :
  Marking.item_lt x y = true → Marking.item_lt y z = true →
  Marking.item_lt x z = true.
Proof.
  destruct x as [k1 b1], y as [k2 b2], z as [k3 b3].
  unfold Marking.item_lt. cbn.
  destruct (decide (k1 = k2)) as [H12|H12], (decide (k2 = k3)) as [H23|H23],
    (decide (k1 = k3)) as [H13|H13]; subst; try done.
  - destruct b1, b2, b3; done.
  - intros Ha Hb. pose proof (string_ltb_trans _ _ _ Ha Hb) as Hc.
    by rewrite string_ltb_irrefl in Hc.
  - apply string_ltb_trans.
Qed.

Lemma item_lt_total (x y : string * bool) :
  x = y ∨ Marking.item_lt x y = true ∨ Marking.item_lt y x = true.
Proof.
  destruct x as [k1 b1], y as [k2 b2]. unfold Marking.item_lt. cbn.
  destruct (string_ltb_total k1 k2) as [->|[H|H]].
  - rewrite !decide_True by done. destruct b1, b2; auto.
  - assert (k1 ≠ k2) by (intros ->; by rewrite string_ltb_irrefl in H).
    rewrite decide_False by done. auto.
  - assert (k1 ≠ k2) by (intros ->; by rewrite string_ltb_irrefl in H).
    rewrite (decide_False (P := k2 = k1)) by done. auto.
Qed.

#[local] Instance item_le_trans : Transitive Marking.item_le.
Proof.
  intros x y z [Hxy| ->] [Hyz| ->]; unfold Marking.item_le; auto.
  left. by eapply item_lt_trans.
Qed.

#[local] Instance item_le_total : Total Marking.item_le.
Proof.
  intros x y. unfold Marking.item_le.
  destruct (item_lt_total x y) as [->|[?|?]]; auto.
Qed.

Lemma to_tuple_perm (m : gmap string bool) :
  Marking.to_tuple m ≡ₚ map_to_list m.
Proof. apply merge_sort_Permutation. Qed.

Lemma to_tuple_inj (m1 m2 : gmap string bool) :
  Marking.to_tuple m1 = Marking.to_tuple m2 → m1 = m2.
Proof.
  intros H. apply map_to_list_inj.
  rewrite <- (to_tuple_perm m1), <- (to_tuple_perm m2), H. done.
Qed.

(** X2. [to_tuple], the value that [__hash__] hashes, lists every stored
    item once, in strictly increasing order of the place ids, and two
    markings have the same tuple exactly when [__eq__] holds: equal markings
    have equal hashes. *)
Theorem to_tuple_sorted_and_faithful (m1 m2 : gmap string bool) :
  (∀ p b, (p, b) ∈ Marking.to_tuple m1 ↔ m1 !! p = Some b)
  ∧ StronglySorted (λ x y, String.ltb x.1 y.1 = true) (Marking.to_tuple m1)
  ∧ (Marking.to_tuple m1 = Marking.to_tuple m2 ↔ Marking.__eq__ m1 m2 = true).
Proof.
  split; [|split].
  - intros p b. rewrite (to_tuple_perm m1). apply elem_of_map_to_list.
  - assert (StronglySorted Marking.item_le (Marking.to_tuple m1)) as Hs
      by apply (StronglySorted_merge_sort _).
    assert (NoDup (Marking.to_tuple m1).*1) as Hnd.
    { rewrite (to_tuple_perm m1). apply NoDup_fst_map_to_list. }
    induction Hs as [|x l Hs IH Hall]; [constructor|].
    cbn in Hnd. apply NoDup_cons in Hnd as [Hx Hnd].
    constructor; [by apply IH|].
    apply Forall_forall. intros y Hy.
    rewrite Forall_forall in Hall. destruct (Hall y Hy) as [Hlt| ->].
    + unfold Marking.item_lt in Hlt.
      destruct (decide (x.1 = y.1)) as [Heq|]; [|done].
      exfalso. apply Hx. rewrite Heq. apply list_elem_of_fmap. eauto.
    + exfalso. apply Hx. apply list_elem_of_fmap. eauto.
  - unfold Marking.__eq__. rewrite bool_decide_eq_true. split.
    + apply to_tuple_inj.
    + by intros ->.
Qed.

Lemma tuple_lt_irrefl (t : list (string * bool)) : Marking.tuple_lt t t = false.
Proof.
  induction t as [|x t IH]; [done|]. cbn. by rewrite decide_True.
Qed.

Lemma tuple_lt_trans (t1 t2 t3 : list (string * bool)) :
  Marking.tuple_lt t1 t2 = true → Marking.tuple_lt t2 t3 = true →
  Marking.tuple_lt t1 t3 = true.
Proof.
  revert t2 t3. induction t1 as [|x t1 IH]; intros [|y t2] [|z t3]; cbn;
    try done.
  destruct (decide (x = y)) as [Hxy|Hxy], (decide (y = z)) as [Hyz|Hyz],
    (decide (x = z)) as [Hxz|Hxz]; subst; try done.
  - apply IH.
  - intros Ha Hb. pose proof (item_lt_trans _ _ _ Ha Hb) as Hc.
    by rewrite item_lt_irrefl in Hc.
  - apply item_lt_trans.
Qed.

Lemma tuple_lt_total (t1 t2 : list (string * bool)) :
  t1 = t2 ∨ Marking.tuple_lt t1 t2 = true ∨ Marking.tuple_lt t2 t1 = true.
Proof.
  revert t2. induction t1 as [|x t1 IH]; intros [|y t2]; cbn; auto.
  destruct (decide (x = y)) as [->|Hxy].
  - rewrite decide_True by done.
    destruct (IH t2) as [->|[?|?]]; auto.
  - rewrite (decide_False (P := y = x)) by done.
    destruct (item_lt_total x y) as [?|[?|?]]; [done|auto..].
Qed.

(** X3. [__lt__] is a strict total order on markings that agrees with
    [__eq__]: no marking is below itself, the order is transitive, and two
    markings are equal or one is below the other. *)
Theorem marking_lt_strict_total_order (m1 m2 m3 : gmap string bool) :
  Marking.__lt__ m1 m1 = false
  ∧ (Marking.__lt__ m1 m2 = true → Marking.__lt__ m2 m3 = true →
     Marking.__lt__ m1 m3 = true)
  ∧ (Marking.__eq__ m1 m2 = true
     ∨ Marking.__lt__ m1 m2 = true ∨ Marking.__lt__ m2 m1 = true).
Proof.
  unfold Marking.__lt__. split; [apply tuple_lt_irrefl|]. split.
  - apply tuple_lt_trans.
  - destruct (tuple_lt_total (Marking.to_tuple m1) (Marking.to_tuple m2))
      as [Heq|[?|?]]; auto.
    left. apply to_tuple_inj in Heq. unfold Marking.__eq__.
    by apply bool_decide_eq_true.
Qed.

(** X4. [Marking(m.to_dict())] is [m] again; in the other direction
    [Marking(d).to_dict()] is [d] exactly when every count of [d] is 0 or 1,
    and in general every count other than 0 becomes 1. *)
Theorem to_dict_round_trip (m : gmap string bool) (d : gmap string Z) :
  Marking.__init__ (Marking.to_dict m) = m
  ∧ (∀ p, Marking.to_dict (Marking.__init__ d) !! p
          = (λ v, if decide (v = 0) then 0 else 1) <$> d !! p)
  ∧ (Marking.to_dict (Marking.__init__ d) = d
     ↔ ∀ p v, d !! p = Some v → v = 0 ∨ v = 1).
Proof.
  assert (∀ p, Marking.to_dict (Marking.__init__ d) !! p
               = (λ v, if decide (v = 0) then 0 else 1) <$> d !! p) as Hlook.
  { intros p. unfold Marking.to_dict, Marking.__init__.
    rewrite !lookup_fmap. destruct (d !! p) as [v|]; [|done]. cbn.
    unfold Marking.bool_of_token. f_equal.
    destruct (decide (v = 0)) as [->|Hv]; [done|].
    apply Z.eqb_neq in Hv. by rewrite Hv. }
  split; [apply copy_id|]. split; [exact Hlook|]. split.
  - intros Heq p v Hp. specialize (Hlook p). rewrite Heq, Hp in Hlook.
    cbn in Hlook. destruct (decide (v = 0)); [by left|right]. congruence.
  - intros Hbin. apply map_eq. intros p. rewrite Hlook.
    destruct (d !! p) as [v|] eqn:Hp; [|done]. cbn. f_equal.
    destruct (Hbin p v Hp) as [->| ->]; done.
Qed.

Lemma foldl_items_notin (l : list (string * Z)) (d0 : gmap string bool)
    (p : string) :
  p ∉ l.*1 →
  foldl (λ d pv, <[pv.1 := Marking.bool_of_token pv.2]> d) d0 l !! p = d0 !! p.
Proof.
  revert d0. induction l as [|[q w] l IH]; intros d0 Hq; cbn; [done|].
  cbn in Hq. apply not_elem_of_cons in Hq as [Hpq Hq].
  rewrite IH by done. by rewrite lookup_insert_ne.
Qed.

Lemma foldl_items_in (l : list (string * Z)) (d0 : gmap string bool)
    (p : string) (z : Z) :
  NoDup l.*1 → (p, z) ∈ l →
  foldl (λ d pv, <[pv.1 := Marking.bool_of_token pv.2]> d) d0 l !! p
  = Some (Marking.bool_of_token z).
Proof.
  revert d0. induction l as [|[q w] l IH]; intros d0 Hnd Hin; cbn.
  - by apply elem_of_nil in Hin.
  - cbn in Hnd. apply NoDup_cons in Hnd as [Hq Hnd].
    apply elem_of_cons in Hin as [[= -> ->]|Hin].
    + rewrite foldl_items_notin by done. apply lookup_insert_eq.
    + by apply IH.
Qed.

Lemma from_vector_lookup (v : list Z) (places : list string) (m : gmap string bool) :
  NoDup places →
  Marking.from_vector v places = Ok m →
  ∀ i p z, places !! i = Some p → v !! i = Some z →
           m !! p = Some (Marking.bool_of_token z).
Proof.
  intros Hnd. unfold Marking.from_vector.
  destruct (decide (length v = length places)) as [Hlen|]; [|done].
  intros [= <-] i p z Hp Hz. apply foldl_items_in.
  - rewrite fst_zip by lia. done.
  - apply list_elem_of_lookup. exists i.
    apply lookup_zip_with_Some. eauto.
Qed.

(** X5. For distinct places and a vector of the same length,
    [from_vector(vector, places)] stores exactly the given places and
    [to_vector] reads the vector back, each count other than 0 having become
    1; with another length [from_vector] raises [ValueError]. *)
Theorem to_vector_from_vector (v : list Z) (places : list string) :
  NoDup places →
  if decide (length v = length places) then
    ∃ m, Marking.from_vector v places = Ok m
         ∧ dom m = list_to_set places
         ∧ Marking.to_vector m places
           = (λ z, if decide (z = 0) then 0 else 1) <$> v
  else Marking.from_vector v places = Raise ValueError.
Proof.
  intros Hnd. destruct (decide (length v = length places)) as [Hlen|Hlen].
  2:{ unfold Marking.from_vector. by rewrite decide_False. }
  destruct (Marking.from_vector v places) as [m|] eqn:Hm.
  2:{ unfold Marking.from_vector in Hm. by rewrite decide_True in Hm. }
  exists m. split; [done|].
  pose proof (from_vector_lookup v places m Hnd Hm) as Hlook. split.
  - apply set_eq. intros p. rewrite elem_of_dom, elem_of_list_to_set. split.
    + intros [b Hb]. unfold Marking.from_vector in Hm.
      rewrite decide_True in Hm by done. injection Hm as <-.
      destruct (decide (p ∈ places)) as [|Hn]; [done|].
      exfalso. revert Hb.
      rewrite foldl_items_notin; [done|]. by rewrite fst_zip by lia.
    + intros Hp. apply list_elem_of_lookup in Hp as [i Hi].
      destruct (lookup_lt_is_Some_2 v i) as [z Hz].
      { rewrite Hlen. by eapply lookup_lt_Some. }
      rewrite (Hlook i p z Hi Hz). eauto.
  - unfold Marking.to_vector. apply list_eq. intros i.
    rewrite !list_lookup_fmap.
    destruct (places !! i) as [p|] eqn:Hi; cbn.
    + destruct (lookup_lt_is_Some_2 v i) as [z Hz].
      { rewrite Hlen. by eapply lookup_lt_Some. }
      rewrite Hz. cbn. f_equal. unfold Marking.has_token.
      rewrite (Hlook i p z Hi Hz). cbn. unfold Marking.bool_of_token.
      destruct (decide (z = 0)) as [->|Hz0]; [done|].
      apply Z.eqb_neq in Hz0. by rewrite Hz0.
    + apply lookup_ge_None in Hi. rewrite lookup_ge_None_2; [done|lia].
Qed.

Lemma to_vector_from_vector_witness :
  ∃ m, Marking.from_vector [5; 0] ["p1"; "p2"] = Ok m
       ∧ dom m = list_to_set ["p1"; "p2"]
       ∧ Marking.to_vector m ["p1"; "p2"] = [1; 0].
Proof.
  assert (NoDup ["p1"; "p2"]) as Hnd.
  { apply NoDup_cons. split; [|apply NoDup_singleton].
    intros H. apply list_elem_of_singleton in H. discriminate. }
  exact (to_vector_from_vector [5; 0] ["p1"; "p2"] Hnd).
Defined.

Lemma total_tokens_perm (m : gmap string bool) (l : list (string * bool)) :
  map_to_list m ≡ₚ l →
  Marking.total_tokens m = length (filter (λ kv, kv.2 = true) l).
Proof. intros H. unfold Marking.total_tokens. by rewrite H. Qed.

Lemma total_tokens_delete (m : gmap string bool) (p : string) :
  Marking.total_tokens m
  = ((if Marking.has_token m p then 1 else 0)
     + Marking.total_tokens (delete p m))%nat.
Proof.
  unfold Marking.has_token. destruct (m !! p) as [b|] eqn:Hp; cbn.
  - rewrite (total_tokens_perm m ((p, b) :: map_to_list (delete p m))).
    + rewrite filter_cons. cbn. by destruct b.
    + rewrite <- map_to_list_insert by apply lookup_delete_eq.
      by rewrite insert_delete_id.
  - by rewrite delete_id.
Qed.

(** X6. [set_tokens] followed by [get_tokens] reads 1 for every count other
    than 0 (also for a negative count or a count above 1) and 0 for the count
    0; the other places are untouched, and [total_tokens] changes by the
    difference on that one place. *)
Theorem total_tokens_set_tokens (m : gmap string bool) (p : string) (n : Z) :
  Marking.get_tokens (Marking.set_tokens m p n) p
  = (if decide (n = 0) then 0 else 1)
  ∧ (∀ q, q ≠ p →
          Marking.get_tokens (Marking.set_tokens m p n) q
          = Marking.get_tokens m q)
  ∧ Z.of_nat (Marking.total_tokens (Marking.set_tokens m p n))
    = Z.of_nat (Marking.total_tokens m) - Marking.get_tokens m p
      + (if decide (n = 0) then 0 else 1).
Proof.
  assert (Marking.bool_of_token n = if decide (n = 0) then false else true)
    as Hn.
  { unfold Marking.bool_of_token. destruct (decide (n = 0)) as [->|Hn];
      [done|]. apply Z.eqb_neq in Hn. by rewrite Hn. }
  unfold Marking.get_tokens, Marking.set_tokens. split; [|split].
  - rewrite has_token_set_token, decide_True, Hn by done.
    by destruct (decide (n = 0)).
  - intros q Hq. rewrite has_token_set_token, decide_False by done. done.
  - rewrite (total_tokens_delete (Marking.set_token m p _) p).
    rewrite (total_tokens_delete m p).
    rewrite has_token_set_token, decide_True by done.
    unfold Marking.set_token. rewrite delete_insert_eq, Hn.
    destruct (decide (n = 0)), (Marking.has_token m p); lia.
Qed.

Lemma sum_indicator (l : list (string * bool)) :
  Z.of_nat (length (filter (λ kv, kv.2 = true) l))
  = foldr Z.add 0 ((λ kv : string * bool, if kv.2 then 1 else 0) <$> l).
Proof.
  induction l as [|[q b] l IH]; [done|]. rewrite filter_cons. cbn.
  destruct b; cbn.
  - destruct (decide (true = true)); [|done]. cbn [length]. lia.
  - destruct (decide (false = true)); [done|]. lia.
Qed.

Lemma foldr_add_perm (l1 l2 : list Z) :
  l1 ≡ₚ l2 → foldr Z.add 0 l1 = foldr Z.add 0 l2.
Proof. induction 1; cbn; lia. Qed.

(** X7. [total_tokens] is the sum of the vector [to_vector(places)] for any
    listing [places] of the stored places without repetition. *)
Theorem total_tokens_to_vector (m : gmap string bool) (places : list string) :
  NoDup places → list_to_set places = dom m →
  Z.of_nat (Marking.total_tokens m)
  = foldr Z.add 0 (Marking.to_vector m places).
Proof.
  intros Hnd Hdom. unfold Marking.total_tokens, Marking.to_vector.
  rewrite sum_indicator.
  assert (places ≡ₚ (map_to_list m).*1) as Hperm.
  { apply NoDup_Permutation; [done|apply NoDup_fst_map_to_list|].
    intros p. rewrite <- (elem_of_list_to_set (C := gset string)), Hdom.
    rewrite elem_of_dom. rewrite list_elem_of_fmap. split.
    - intros [b Hb]. exists (p, b). split; [done|].
      by apply elem_of_map_to_list.
    - intros [[q b] [-> Hb]]. apply elem_of_map_to_list in Hb. eauto. }
  trans (foldr Z.add 0 ((λ place, if Marking.has_token m place then 1 else 0)
                        <$> (map_to_list m).*1)).
  - rewrite <- list_fmap_compose. f_equal. apply list_fmap_ext.
    intros i [q b] Hi. cbn. unfold Marking.has_token.
    apply list_elem_of_lookup_2 in Hi. apply elem_of_map_to_list in Hi.
    by rewrite Hi.
  - apply foldr_add_perm. by rewrite Hperm.
Qed.

Lemma total_tokens_to_vector_witness :
  Z.of_nat (Marking.total_tokens {["p1" := true]})
  = foldr Z.add 0 (Marking.to_vector {["p1" := true]} ["p1"]).
Proof.
  apply (total_tokens_to_vector {["p1" := true]} ["p1"]).
  - apply NoDup_singleton.
  - vm_compute. reflexivity.
Defined.

(** ** [PetriNet]: validation *)

Lemma foldl_errors_nil {A} (body : list string → A → list string)
    (Q : A → Prop) (l : list A) (errors : list string) :
  (∀ e x, x ∈ l → body e x = [] ↔ e = [] ∧ Q x) →
  foldl body errors l = [] ↔ errors = [] ∧ ∀ x, x ∈ l → Q x.
Proof.
  revert errors. induction l as [|x l IH]; intros errors Hbody; cbn.
  - split; [|tauto]. intros ->. split; [done|]. intros x Hx.
    by apply elem_of_nil in Hx.
  - rewrite IH.
    2:{ intros e y Hy. apply Hbody. by right. }
    rewrite Hbody by left. split.
    + intros [[-> HQ] Hall]. split; [done|]. intros y Hy.
      apply elem_of_cons in Hy as [->|Hy]; auto.
    + intros [-> Hall]. split; [split; [done|]|].
      * apply Hall. left.
      * intros y Hy. apply Hall. by right.
Qed.

Lemma append_if_nil (P : Prop) `{Decision P} (errors : list string)
    (msg : string) :
  (if decide P then errors else errors ++ [msg]) = [] ↔ errors = [] ∧ P.
Proof.
  destruct (decide P) as [HP|HP]; [tauto|]. split.
  - intros Happ. by apply app_nil in Happ as [_ ?].
  - tauto.
Qed.

Lemma validate_errors_nil (net : PetriNet.t) :
  foldl (λ errors (item : string * PetriNet.arc_info),
           let errors :=
             if decide (item.1 ∈ PetriNet.transitions net) then errors
             else errors ++ ["Arc references non-existent transition "
                             +:+ item.1] in
           let errors :=
             foldl (λ errors place,
                      if decide (place ∈ PetriNet.places net) then errors
                      else errors
                           ++ ["Input arc references non-existent place "
                               +:+ place])
                   errors (PetriNet.input item.2) in
           foldl (λ errors place,
                    if decide (place ∈ PetriNet.places net) then errors
                    else errors
                         ++ ["Output arc references non-existent place "
                             +:+ place])
                 errors (PetriNet.output item.2))
    (foldl (λ errors trans,
              if decide (trans ∈ dom (PetriNet.arcs net)) then errors
              else errors ++ ["Transition " +:+ trans
                              +:+ " has no arc information"])
           [] (elements (PetriNet.transitions net)))
    (map_to_list (PetriNet.arcs net)) = []
  ↔ consistent net.
Proof.
  rewrite (foldl_errors_nil _
             (λ item : string * PetriNet.arc_info,
                item.1 ∈ PetriNet.transitions net
                ∧ (∀ p, p ∈ PetriNet.input item.2 → p ∈ PetriNet.places net)
                ∧ (∀ p, p ∈ PetriNet.output item.2 →
                        p ∈ PetriNet.places net))).
  2:{ intros e item _. cbn zeta.
      rewrite (foldl_errors_nil _ (λ p, p ∈ PetriNet.places net)).
      2:{ intros e' p _. apply append_if_nil. }
      rewrite (foldl_errors_nil _ (λ p, p ∈ PetriNet.places net)).
      2:{ intros e' p _. apply append_if_nil. }
      rewrite append_if_nil. tauto. }
  rewrite (foldl_errors_nil _ (λ tr, tr ∈ dom (PetriNet.arcs net))).
  2:{ intros e' tr _. apply append_if_nil. }
  unfold consistent. split.
  - intros [[_ Hts] Hitems]. split.
    + intros tr Htr. apply Hts. by apply elem_of_elements.
    + intros tr a Ha.
      destruct (Hitems (tr, a)) as (Htr & Hin & Hout).
      { by apply elem_of_map_to_list. }
      split; [done|]. intros p Hp. apply elem_of_app in Hp as [?|?]; auto.
  - intros [Hts Harcs]. split; [split; [done|]|].
    + intros tr Htr. apply Hts. by apply elem_of_elements.
    + intros [tr a] Hin. apply elem_of_map_to_list in Hin.
      destruct (Harcs tr a Hin) as [Htr Hp]. cbn. split; [done|].
      split; intros p Hp'; apply Hp; apply elem_of_app; auto.
Qed.

Lemma validate_marking_loop (l : list string) (m0 : gmap string bool) :
  ∃ m', for_each l
          (λ place im,
             match im with
             | None => Raise AttributeError
             | Some m0 =>
                 if decide (place ∈ dom m0) then Ok (Some m0)
                 else Ok (Some (Marking.set_tokens m0 place 0))
             end) (Some m0) = Ok (Some m')
        ∧ dom m' = dom m0 ∪ list_to_set l
        ∧ (∀ p, p ∈ dom m0 → m' !! p = m0 !! p)
        ∧ ∀ p, Marking.has_token m' p = Marking.has_token m0 p.
Proof.
  revert m0. induction l as [|q l IH]; intros m0; cbn [for_each bind].
  - exists m0. split; [done|]. split; [set_solver|]. done.
  - destruct (decide (q ∈ dom m0)) as [Hq|Hq]; cbn [bind].
    + destruct (IH m0) as (m' & -> & Hdom & Hsame & Htok).
      exists m'. split; [done|]. split; [set_solver|]. done.
    + destruct (IH (Marking.set_tokens m0 q 0)) as (m' & -> & Hdom & Hsame & Htok).
      exists m'. split; [done|].
      unfold Marking.set_tokens, Marking.set_token in *.
      rewrite dom_insert_L in Hdom. split; [set_solver|]. split.
      * intros p Hp. rewrite Hsame by set_solver.
        apply lookup_insert_ne. intros ->. done.
      * intros p. rewrite Htok. unfold Marking.has_token.
        destruct (decide (q = p)) as [->|Hne].
        -- rewrite lookup_insert_eq. apply not_elem_of_dom in Hq.
           by rewrite Hq.
        -- by rewrite lookup_insert_ne.
Qed.

Lemma consistent_well_formed (net : PetriNet.t) : consistent net → well_formed net.
Proof.
  intros [Hts Harcs] tr Htr.
  apply Hts in Htr as Hdom. apply elem_of_dom in Hdom as [a Ha].
  exists a. split; [done|]. by apply (Harcs tr a).
Qed.

(** X8. [validate_consistency] never raises on a net that has its initial
    marking. It returns [True] with no error message exactly when the net is
    consistent (every transition has its arcs entry, every arcs entry belongs
    to a transition and mentions places of the net only), and the initial
    marking it leaves covers every place: the entries it had are kept and
    the places it lacked are stored without a token. *)
Theorem validate_consistency_spec (net : PetriNet.t) (m0 : gmap string bool) :
  PetriNet.initial_marking net = Some m0 →
  ∃ errors m',
    PetriNet.validate_consistency net
    = Ok (bool_decide (length errors = 0%nat), errors,
          PetriNet.Net (PetriNet.places net) (PetriNet.transitions net)
            (PetriNet.arcs net) (Some m') (PetriNet.incidence net))
    ∧ (errors = [] ↔ consistent net)
    ∧ dom m' = dom m0 ∪ PetriNet.places net
    ∧ (∀ p, p ∈ dom m0 → m' !! p = m0 !! p)
    ∧ ∀ p, Marking.has_token m' p = Marking.has_token m0 p.
Proof.
  intros Hm0. unfold PetriNet.validate_consistency. rewrite Hm0.
  destruct (validate_marking_loop (elements (PetriNet.places net)) m0)
    as (m' & -> & Hdom & Hsame & Htok).
  cbn [bind]. eexists _, m'. split; [reflexivity|].
  split; [apply validate_errors_nil|].
  split; [|done]. rewrite Hdom. by rewrite list_to_set_elements_L.
Qed.

Lemma validate_consistency_spec_witness :
  ∃ errors m',
    PetriNet.validate_consistency net_p1_t1_p2
    = Ok (bool_decide (length errors = 0%nat), errors,
          PetriNet.Net (PetriNet.places net_p1_t1_p2)
            (PetriNet.transitions net_p1_t1_p2)
            (PetriNet.arcs net_p1_t1_p2) (Some m')
            (PetriNet.incidence net_p1_t1_p2))
    ∧ (errors = [] ↔ consistent net_p1_t1_p2).
Proof.
  destruct (validate_consistency_spec net_p1_t1_p2
              {["p1" := true; "p2" := false]} eq_refl)
    as (errors & m' & H1 & H2 & _).
  exists errors, m'. split; [exact H1 | exact H2].
Defined.

Lemma built_invariant (net : PetriNet.t) :
  built net →
  consistent net
  ∧ ∃ m0, PetriNet.initial_marking net = Some m0
          ∧ dom m0 = PetriNet.places net.
Proof.
  induction 1 as [|net net' p b _ [[Hts Harcs] (m0 & Hm0 & Hdom)] Hadd
                  |net net' tr _ [[Hts Harcs] (m0 & Hm0 & Hdom)] Hadd
                  |net net' src tgt _ [[Hts Harcs] (m0 & Hm0 & Hdom)] Hadd].
  - split.
    + split; [intros tr Htr; by apply elem_of_empty in Htr|].
      intros tr a Ha. cbn in Ha. by rewrite lookup_empty in Ha.
    + exists ∅. split; [done|]. cbn. by rewrite dom_empty_L.
  - unfold PetriNet.add_place in Hadd.
    destruct (decide (p ∈ PetriNet.places net)); [done|].
    rewrite Hm0 in Hadd. injection Hadd as <-. unfold consistent. cbn. split.
    + split; [exact Hts|]. intros tr a Ha.
      destruct (Harcs tr a Ha) as [Htr Hp]. split; [done|].
      intros q Hq. apply elem_of_union_r. by apply Hp.
    + eexists. split; [reflexivity|]. unfold Marking.set_token.
      rewrite dom_insert_L, Hdom. done.
  - unfold PetriNet.add_transition in Hadd.
    destruct (decide (tr ∈ PetriNet.transitions net)); [done|].
    injection Hadd as <-. unfold consistent. cbn. split.
    + split.
      * intros tr' Htr'. rewrite dom_insert_L.
        apply elem_of_union in Htr' as [Htr'|Htr']; [set_solver|].
        apply elem_of_union_r. by apply Hts.
      * intros tr' a Ha. destruct (decide (tr = tr')) as [->|Hne].
        -- rewrite lookup_insert_eq in Ha. injection Ha as <-. cbn.
           split; [set_solver|]. intros q Hq. by apply elem_of_nil in Hq.
        -- rewrite lookup_insert_ne in Ha by done.
           destruct (Harcs tr' a Ha) as [Htr' Hp]. split; [set_solver|done].
    + exists m0. done.
  - assert (∀ (t0 : string) (a' : PetriNet.arc_info),
              t0 ∈ PetriNet.transitions net →
              (∀ q, q ∈ PetriNet.input a' ++ PetriNet.output a' →
                    q ∈ PetriNet.places net) →
              consistent (PetriNet.with_arcs net
                            (<[t0 := a']> (PetriNet.arcs net)))) as Hupd.
    { intros t0 a' Ht0 Ha'. unfold consistent. cbn. split.
      - intros tr' Htr'. rewrite dom_insert_L. apply elem_of_union_r.
        by apply Hts.
      - intros tr' a Ha. destruct (decide (t0 = tr')) as [->|Hne].
        + rewrite lookup_insert_eq in Ha. injection Ha as <-. done.
        + rewrite lookup_insert_ne in Ha by done. by apply Harcs. }
    assert (∀ t0, ∀ q, q ∈ PetriNet.input
                            (default (PetriNet.ArcInfo [] [])
                               (PetriNet.arcs net !! t0))
                         ++ PetriNet.output
                              (default (PetriNet.ArcInfo [] [])
                                 (PetriNet.arcs net !! t0)) →
                       q ∈ PetriNet.places net) as Hold.
    { intros t0 q Hq. destruct (PetriNet.arcs net !! t0) as [a|] eqn:Ha; cbn in Hq.
      - by apply (Harcs t0 a Ha).
      - by apply elem_of_nil in Hq. }
    unfold PetriNet.add_arc in Hadd.
    destruct (decide (src ∈ PetriNet.places net
                      ∧ tgt ∈ PetriNet.transitions net)) as [[Hs Ht]|_].
    + injection Hadd as <-. split; [|exists m0; done].
      apply Hupd; [done|]. cbn. intros q Hq.
      rewrite <- app_assoc in Hq. apply elem_of_app in Hq as [Hq|Hq].
      * apply (Hold tgt). apply elem_of_app. by left.
      * apply elem_of_cons in Hq as [->|Hq]; [done|].
        apply (Hold tgt). apply elem_of_app. by right.
    + destruct (decide (src ∈ PetriNet.transitions net
                        ∧ tgt ∈ PetriNet.places net)) as [[Hs Ht]|_]; [|done].
      injection Hadd as <-. split; [|exists m0; done].
      apply Hupd; [done|]. cbn. intros q Hq.
      rewrite app_assoc in Hq. apply elem_of_app in Hq as [Hq|Hq].
      * by apply (Hold src).
      * apply list_elem_of_singleton in Hq as ->. done.
Qed.

Lemma consistent_validates (net : PetriNet.t) (m0 : gmap string bool) :
  consistent net →
  PetriNet.initial_marking net = Some m0 →
  dom m0 = PetriNet.places net →
  PetriNet.validate_consistency net = Ok (true, [], net).
Proof.
  intros Hc Hm0 Hdom.
  unfold PetriNet.validate_consistency.
  destruct (validate_marking_loop (elements (PetriNet.places net)) m0)
    as (m' & Hloop & Hdom' & Hsame & _).
  rewrite Hm0, Hloop. cbn [bind].
  apply validate_errors_nil in Hc. cbv zeta in Hc |- *. rewrite Hc.
  assert (m' = m0) as ->.
  { apply map_eq. intros p. destruct (decide (p ∈ dom m0)) as [Hp|Hp].
    - by apply Hsame.
    - rewrite (not_elem_of_dom_1 m0 p Hp). apply not_elem_of_dom.
      rewrite Hdom', <- Hdom. set_solver. }
  destruct net. cbn in *. by rewrite Hm0.
Qed.

(** X9. A net built from [PetriNet()] by calls of [add_place],
    [add_transition] and [add_arc] that did not raise is consistent, its
    initial marking stores exactly its places, and it passes
    [validate_consistency]: the call returns [True] with an empty list of
    errors and leaves the net as it is. *)
Theorem built_net_validates (net : PetriNet.t) :
  built net →
  consistent net
  ∧ (∃ m0, PetriNet.initial_marking net = Some m0
           ∧ dom m0 = PetriNet.places net)
  ∧ PetriNet.validate_consistency net = Ok (true, [], net).
Proof.
  intros Hb. destruct (built_invariant net Hb) as [Hc (m0 & Hm0 & Hdom)].
  split; [done|]. split; [by exists m0|].
  by apply (consistent_validates net m0).
Qed.

Lemma built_net_validates_witness :
  match net_built_example with
  | Ok net => PetriNet.validate_consistency net = Ok (true, [], net)
  | Raise _ => False
  end.
Proof.
  assert (match net_built_example with
          | Ok net => built net
          | Raise _ => False
          end) as Hb.
  { unfold net_built_example.
    destruct (PetriNet.add_place PetriNet.__init__ "p1" true)
      as [n1|] eqn:H1; [|vm_compute in H1; discriminate H1].
    cbn [bind].
    destruct (PetriNet.add_transition n1 "t1")
      as [n2|] eqn:H2.
    2:{ vm_compute in H1. injection H1 as <-. vm_compute in H2.
        discriminate H2. }
    cbn [bind].
    destruct (PetriNet.add_arc n2 "p1" "t1") as [n3|] eqn:H3.
    2:{ vm_compute in H1. injection H1 as <-. vm_compute in H2.
        injection H2 as <-. vm_compute in H3. discriminate H3. }
    eapply built_add_arc; [|exact H3].
    eapply built_add_transition; [|exact H2].
    eapply built_add_place; [|exact H1]. apply built_init. }
  destruct net_built_example as [net|]; [|done].
  exact (proj2 (proj2 (built_net_validates net Hb))).
Defined.

(** ** [PetriNet]: enabled transitions, firing and the incidence matrix *)

Lemma get_enabled_loop (net : PetriNet.t) (m : gmap string bool)
    (l acc : list string) :
  (∀ tr, tr ∈ l → ∃ b, PetriNet.is_enabled net tr m = Ok b) →
  ∃ r, for_each l
         (λ tr acc, en ←! PetriNet.is_enabled net tr m;
                    Ok (if en then acc ++ [tr] else acc)) acc
       = Ok (acc ++ r)
       ∧ r = filter (λ tr, PetriNet.is_enabled net tr m = Ok true) l.
Proof.
  revert acc. induction l as [|tr l IH]; intros acc Hok; cbn [for_each].
  - exists []. by rewrite app_nil_r.
  - destruct (Hok tr) as [b Hb]; [left|]. rewrite Hb. cbn [bind].
    destruct (IH (if b then acc ++ [tr] else acc)) as (r & -> & ->).
    { intros tr' Htr'. apply Hok. by right. }
    rewrite filter_cons. destruct b.
    + rewrite decide_True by done. eexists. split; [|done].
      by rewrite <- app_assoc.
    + rewrite decide_False by (rewrite Hb; discriminate). eauto.
Qed.

(** X10. On a net whose transitions all have their arcs entry,
    [get_enabled_transitions] returns, without repetition, exactly the
    transitions of the net that [is_enabled] accepts in the marking. *)
Theorem get_enabled_transitions_spec (net : PetriNet.t) (m : gmap string bool) :
  well_formed net →
  ∃ l, PetriNet.get_enabled_transitions net m = Ok l
       ∧ NoDup l
       ∧ ∀ tr, tr ∈ l ↔ tr ∈ PetriNet.transitions net
                        ∧ PetriNet.is_enabled net tr m = Ok true.
Proof.
  intros Hwf. unfold PetriNet.get_enabled_transitions.
  destruct (get_enabled_loop net m (elements (PetriNet.transitions net)) [])
    as (r & Hr & ->).
  { intros tr Htr. apply elem_of_elements in Htr.
    destruct (enabled_fire net tr m Hwf Htr) as [-> _]. eauto. }
  cbn [app] in Hr. rewrite Hr. eexists. split; [reflexivity|]. split.
  - apply NoDup_filter, NoDup_elements.
  - intros tr. rewrite list_elem_of_filter, elem_of_elements. tauto.
Qed.

Lemma get_enabled_transitions_spec_witness :
  ∃ l, PetriNet.get_enabled_transitions net_p1_t1_p2
         {["p1" := true; "p2" := false]} = Ok l
       ∧ NoDup l.
Proof.
  destruct (get_enabled_transitions_spec net_p1_t1_p2
              {["p1" := true; "p2" := false]} well_formed_net_p1_t1_p2)
    as (l & H1 & H2 & _).
  exists l. split; [exact H1 | exact H2].
Defined.

(** X11. Firing an enabled transition returns the marking in which the
    output places hold a token, the input places that are not output places
    hold none, and every other place is as before; the places of the arcs
    are stored in the result. A place that is both an input and an output
    keeps its token. *)
Theorem fire_transition_effect (net : PetriNet.t) (tr : string)
    (a : PetriNet.arc_info) (m : gmap string bool) :
  tr ∈ PetriNet.transitions net →
  PetriNet.arcs net !! tr = Some a →
  PetriNet.is_enabled net tr m = Ok true →
  ∃ m', PetriNet.fire_transition net tr m = Ok m'
        ∧ dom m' = dom m ∪ list_to_set (PetriNet.input a)
                         ∪ list_to_set (PetriNet.output a)
        ∧ ∀ q, Marking.has_token m' q
               = if decide (q ∈ PetriNet.output a) then true
                 else if decide (q ∈ PetriNet.input a) then false
                      else Marking.has_token m q.
Proof.
  intros Htr Ha Hen.
  rewrite (is_enabled_arcs net tr a m Htr Ha) in Hen. injection Hen as Hen.
  rewrite (fire_transition_arcs net tr a m Htr Ha), Hen.
  eexists. split; [reflexivity|]. split.
  - apply dom_fired.
  - intros q. apply has_token_fired.
Qed.

Lemma fire_transition_effect_witness :
  ∃ m', PetriNet.fire_transition net_p1_t1_p2 "t1"
          {["p1" := true; "p2" := false]} = Ok m'
        ∧ Marking.has_token m' "p2" = true.
Proof.
  destruct (fire_transition_effect net_p1_t1_p2 "t1"
              (PetriNet.ArcInfo ["p1"] ["p2"]) {["p1" := true; "p2" := false]})
    as (m' & H1 & _ & H2).
  - vm_compute. reflexivity.
  - vm_compute. reflexivity.
  - vm_compute. reflexivity.
  - exists m'. split; [exact H1|]. rewrite H2. vm_compute. reflexivity.
Defined.

Lemma occurrences_cons (p q : string) (l : list string) :
  occurrences p (q :: l) = (if decide (q = p) then 1 else 0) + occurrences p l.
Proof.
  unfold occurrences. rewrite filter_cons.
  destruct (decide (q = p)); cbn [length]; lia.
Qed.

Lemma entry_insert (c : gmap string (gmap string Z)) (row : gmap string Z)
    (p0 tr : string) (v : Z) (p t : string) :
  c !! p0 = Some row →
  entry (<[p0 := <[tr := v]> row]> c) p t
  = if decide (p = p0 ∧ t = tr) then Some v else entry c p t.
Proof.
  intros Hrow. unfold entry. destruct (decide (p = p0)) as [->|Hp].
  - rewrite lookup_insert_eq, Hrow. cbn. destruct (decide (t = tr)) as [->|Ht].
    + rewrite decide_True by done. apply lookup_insert_eq.
    + rewrite decide_False by tauto. by apply lookup_insert_ne.
  - rewrite lookup_insert_ne by done. rewrite decide_False by tauto. done.
Qed.

Lemma bump_loop (d : Z) (tr : string) (l : list string)
    (c : gmap string (gmap string Z)) :
  (∀ p, p ∈ l → is_Some (entry c p tr)) →
  ∃ c', for_each l
          (λ p c, row ←! getitem c p;
                  v ←! getitem row tr;
                  Ok (<[p := <[tr := v + d]> row]> c)) c = Ok c'
        ∧ ∀ p t, entry c' p t
                 = if decide (t = tr)
                   then (λ v, v + d * occurrences p l) <$> entry c p t
                   else entry c p t.
Proof.
  revert c. induction l as [|p0 l IH]; intros c Hsome; cbn [for_each].
  - exists c. split; [done|]. intros p t. destruct (decide (t = tr)); [|done].
    destruct (entry c p t) as [v|]; cbn; [|done]. f_equal.
    unfold occurrences. cbn. lia.
  - destruct (Hsome p0) as [v Hv]; [left|].
    unfold entry in Hv. destruct (c !! p0) as [row|] eqn:Hrow; [|done].
    cbn in Hv. unfold getitem at 1. rewrite Hrow. cbn [bind].
    unfold getitem at 1. rewrite Hv. cbn [bind].
    destruct (IH (<[p0 := <[tr := v + d]> row]> c)) as (c' & -> & Hc').
    { intros p Hp. rewrite (entry_insert c row p0 tr _ p tr Hrow).
      destruct (decide _); [eauto|]. apply Hsome. by right. }
    exists c'. split; [done|]. intros p t. rewrite Hc'.
    rewrite (entry_insert c row p0 tr _ p t Hrow), occurrences_cons.
    destruct (decide (t = tr)) as [->|Ht].
    + destruct (decide (p = p0 ∧ tr = tr)) as [[-> _]|Hn].
      * rewrite decide_True by done. unfold entry. rewrite Hrow. cbn.
        rewrite Hv. cbn. f_equal; lia.
      * rewrite decide_False by (intros ->; tauto).
        destruct (entry c p tr); cbn; [|done]. f_equal; lia.
    + rewrite decide_False by tauto. done.
Qed.

Lemma incidence_loop (net : PetriNet.t) (ts : list string)
    (c : gmap string (gmap string Z)) :
  NoDup ts →
  (∀ tr, tr ∈ ts →
         ∃ a, PetriNet.arcs net !! tr = Some a
              ∧ ∀ p, p ∈ PetriNet.input a ++ PetriNet.output a →
                     is_Some (entry c p tr)) →
  ∃ c', for_each ts
          (λ tr c,
             a ←! getitem (PetriNet.arcs net) tr;
             c1 ←! for_each (PetriNet.input a)
                     (λ p c, row ←! getitem c p;
                             v ←! getitem row tr;
                             Ok (<[p := <[tr := v + -1]> row]> c)) c;
             for_each (PetriNet.output a)
               (λ p c, row ←! getitem c p;
                       v ←! getitem row tr;
                       Ok (<[p := <[tr := v + 1]> row]> c)) c1) c = Ok c'
        ∧ ∀ p t, entry c' p t
                 = if decide (t ∈ ts)
                   then (λ v, v + occurrences p (post_of net t)
                              - occurrences p (pre_of net t))
                        <$> entry c p t
                   else entry c p t.
Proof.
  revert c. induction ts as [|tr ts IH]; intros c Hnd Hok; cbn [for_each].
  - exists c. split; [done|]. intros p t. rewrite decide_False; [done|].
    apply not_elem_of_nil.
  - apply NoDup_cons in Hnd as [Htr Hnd].
    destruct (Hok tr) as (a & Ha & Hp); [left|].
    unfold getitem at 1. rewrite Ha. cbn [bind].
    destruct (bump_loop (-1) tr (PetriNet.input a) c) as (c1 & -> & Hc1).
    { intros p Hin. apply Hp. apply elem_of_app. by left. }
    cbn [bind].
    destruct (bump_loop 1 tr (PetriNet.output a) c1) as (c2 & -> & Hc2).
    { intros p Hin. rewrite Hc1, decide_True by done.
      apply fmap_is_Some. apply Hp. apply elem_of_app. by right. }
    cbn [bind].
    destruct (IH c2 Hnd) as (c' & -> & Hc').
    { intros tr' Htr'. destruct (Hok tr') as (a' & Ha' & Hp'); [by right|].
      exists a'. split; [done|]. intros p Hin.
      assert (tr' ≠ tr) as Hne by (intros ->; done).
      rewrite Hc2, decide_False by done. rewrite Hc1, decide_False by done.
      by apply Hp'. }
    exists c'. split; [done|]. intros p t. rewrite Hc'.
    destruct (decide (t = tr)) as [->|Hne].
    + rewrite (decide_False (P := tr ∈ ts)) by done.
      rewrite decide_True by left.
      rewrite Hc2, decide_True by done. rewrite Hc1, decide_True by done.
      unfold pre_of, post_of. rewrite Ha.
      destruct (entry c p tr); cbn; [|done]. f_equal; lia.
    + destruct (decide (t ∈ ts)) as [Hin|Hnin].
      * rewrite decide_True by by right.
        rewrite Hc2, decide_False by done. rewrite Hc1, decide_False by done.
        done.
      * rewrite decide_False.
        2:{ intros [->|?]%elem_of_cons; done. }
        rewrite Hc2, decide_False by done. rewrite Hc1, decide_False by done.
        done.
Qed.

Lemma build_incidence_entries (net : PetriNet.t) :
  well_formed net →
  ∃ c, PetriNet.build_incidence net = Ok c
       ∧ ∀ p tr, entry c p tr
                 = if decide (p ∈ PetriNet.places net
                              ∧ tr ∈ PetriNet.transitions net)
                   then Some (occurrences p (post_of net tr)
                              - occurrences p (pre_of net tr))
                   else None.
Proof.
  intros Hwf. unfold PetriNet.build_incidence. cbv zeta.
  set (c0 := gset_to_gmap (gset_to_gmap 0 (PetriNet.transitions net))
               (PetriNet.places net)).
  assert (∀ p tr, entry c0 p tr
                  = if decide (p ∈ PetriNet.places net
                               ∧ tr ∈ PetriNet.transitions net)
                    then Some 0 else None) as Hc0.
  { intros p tr. unfold entry, c0. rewrite lookup_gset_to_gmap.
    destruct (decide (p ∈ PetriNet.places net)) as [Hp|Hp].
    - rewrite option_guard_True by done. cbn. rewrite lookup_gset_to_gmap.
      destruct (decide (tr ∈ PetriNet.transitions net)) as [Ht|Ht].
      + rewrite option_guard_True by done. by rewrite decide_True.
      + rewrite option_guard_False by done. rewrite decide_False by tauto.
        done.
    - rewrite option_guard_False by done. rewrite decide_False by tauto. done. }
  destruct (incidence_loop net (elements (PetriNet.transitions net)) c0)
    as (c & Hc & Hentries).
  { apply NoDup_elements. }
  { intros tr Htr. apply elem_of_elements in Htr.
    destruct (Hwf tr Htr) as (a & Ha & Hp). exists a. split; [done|].
    intros p Hin. rewrite Hc0, decide_True; [eauto|]. split; [|done].
    by apply Hp. }
  exists c. split; [exact Hc|]. intros p tr. rewrite Hentries, Hc0.
  destruct (decide (p ∈ PetriNet.places net ∧ tr ∈ PetriNet.transitions net))
    as [[Hp Ht]|Hn].
  - rewrite decide_True by by apply elem_of_elements. cbn. f_equal; lia.
  - destruct (decide _); done.
Qed.

(** X12. On a net whose transitions all have their arcs entry, over places of
    the net, [get_incidence] builds the matrix whose entry [C[p][t]] is the
    number of times [p] is listed as an output of [t] minus the number of
    times it is listed as an input, for the places and transitions of the
    net and for no other key; the matrix is cached, and a second call
    returns the cached matrix. *)
Theorem get_incidence_entries (net : PetriNet.t) :
  well_formed net →
  PetriNet.incidence net = None →
  ∃ c net',
    PetriNet.get_incidence net = Ok (c, net')
    ∧ PetriNet.get_incidence net' = Ok (c, net')
    ∧ ∀ p tr, entry c p tr
              = if decide (p ∈ PetriNet.places net
                           ∧ tr ∈ PetriNet.transitions net)
                then Some (occurrences p (post_of net tr)
                           - occurrences p (pre_of net tr))
                else None.
Proof.
  intros Hwf Hnone. destruct (build_incidence_entries net Hwf) as (c & Hc & He).
  unfold PetriNet.get_incidence at 1. rewrite Hnone, Hc. cbn [bind].
  eexists _, _. split; [reflexivity|]. split; [|exact He].
  unfold PetriNet.get_incidence. cbn. done.
Qed.

Lemma get_incidence_entries_witness :
  ∃ c net',
    PetriNet.get_incidence net_p1_t1_p2 = Ok (c, net')
    ∧ entry c "p1" "t1" = Some (-1) ∧ entry c "p2" "t1" = Some 1.
Proof.
  destruct (get_incidence_entries net_p1_t1_p2 well_formed_net_p1_t1_p2 eq_refl)
    as (c & net' & H1 & _ & H2).
  exists c, net'. split; [exact H1|]. rewrite !H2. split; vm_compute; reflexivity.
Defined.

Lemma occurrences_NoDup (p : string) (l : list string) :
  NoDup l → occurrences p l = if decide (p ∈ l) then 1 else 0.
Proof.
  induction 1 as [|q l Hq Hnd IH]; [done|]. rewrite occurrences_cons, IH.
  destruct (decide (q = p)) as [->|Hne].
  - rewrite decide_False by done. rewrite decide_True by left. done.
  - destruct (decide (p ∈ l)).
    + rewrite decide_True by by right. done.
    + rewrite decide_False; [done|]. intros [->|?]%elem_of_cons; done.
Qed.

(** X13. The state equation of one firing. When an enabled transition whose
    input list and output list have no repetition fires in a marking where
    its output places that are not input places are empty, the token count of
    every place of the net changes by the entry of the incidence matrix:
    [M'[p] = M[p] + C[p][t]]. *)
Theorem fire_transition_state_equation (net net' : PetriNet.t) (tr : string)
    (a : PetriNet.arc_info) (m : gmap string bool)
    (c : gmap string (gmap string Z)) :
  well_formed net →
  PetriNet.incidence net = None →
  PetriNet.get_incidence net = Ok (c, net') →
  tr ∈ PetriNet.transitions net →
  PetriNet.arcs net !! tr = Some a →
  NoDup (PetriNet.input a) → NoDup (PetriNet.output a) →
  PetriNet.is_enabled net tr m = Ok true →
  (∀ q, q ∈ PetriNet.output a → q ∉ PetriNet.input a →
        Marking.has_token m q = false) →
  ∃ m', PetriNet.fire_transition net tr m = Ok m'
        ∧ ∀ p, p ∈ PetriNet.places net →
               ∃ v, entry c p tr = Some v
                    ∧ Marking.get_tokens m' p = Marking.get_tokens m p + v.
Proof.
  intros Hwf Hnone Hinc Htr Ha Hndi Hndo Hen Hfree.
  destruct (build_incidence_entries net Hwf) as (c' & Hc' & He).
  unfold PetriNet.get_incidence in Hinc. rewrite Hnone, Hc' in Hinc.
  cbn [bind] in Hinc. injection Hinc as <- _.
  rewrite (is_enabled_arcs net tr a m Htr Ha) in Hen. injection Hen as Hen.
  rewrite (fire_transition_arcs net tr a m Htr Ha), Hen.
  eexists. split; [reflexivity|]. intros p Hp.
  rewrite He, decide_True by done. eexists. split; [reflexivity|].
  unfold pre_of, post_of. rewrite Ha.
  rewrite !occurrences_NoDup by done.
  unfold Marking.get_tokens.
  change (foldl _ (foldl _ m (PetriNet.input a)) (PetriNet.output a))
    with (fired m (PetriNet.input a) (PetriNet.output a)).
  rewrite has_token_fired.
  rewrite forallb_forall in Hen.
  destruct (decide (p ∈ PetriNet.output a)) as [Ho|Ho],
           (decide (p ∈ PetriNet.input a)) as [Hi|Hi].
  - rewrite Hen by by apply list_elem_of_In. done.
  - rewrite (Hfree p Ho Hi). done.
  - rewrite Hen by by apply list_elem_of_In. done.
  - destruct (Marking.has_token m p); done.
Qed.

Lemma fire_transition_state_equation_witness :
  ∃ m', PetriNet.fire_transition net_p1_t1_p2 "t1"
          {["p1" := true; "p2" := false]} = Ok m'
        ∧ ∀ p, p ∈ PetriNet.places net_p1_t1_p2 →
               ∃ v, entry
                      (default ∅ (PetriNet.incidence
                         (match PetriNet.get_incidence net_p1_t1_p2 with
                          | Ok r => r.2
                          | Raise _ => net_p1_t1_p2
                          end))) p "t1" = Some v
                    ∧ Marking.get_tokens m' p
                      = Marking.get_tokens {["p1" := true; "p2" := false]} p + v.
Proof.
  destruct (PetriNet.get_incidence net_p1_t1_p2) as [[c net']|] eqn:Hinc.
  2:{ vm_compute in Hinc. discriminate Hinc. }
  assert (PetriNet.incidence net' = Some c) as Hcache.
  { unfold PetriNet.get_incidence in Hinc. cbn [net_p1_t1_p2 PetriNet.incidence] in Hinc.
    destruct (PetriNet.build_incidence net_p1_t1_p2); [|discriminate Hinc].
    cbn [bind] in Hinc. by injection Hinc as <- <-. }
  cbn [snd]. rewrite Hcache. cbn [default from_option]. unfold id.
  apply (fire_transition_state_equation net_p1_t1_p2 net' "t1"
           (PetriNet.ArcInfo ["p1"] ["p2"])).
  - exact well_formed_net_p1_t1_p2.
  - reflexivity.
  - exact Hinc.
  - vm_compute. reflexivity.
  - vm_compute. reflexivity.
  - apply NoDup_singleton.
  - apply NoDup_singleton.
  - vm_compute. reflexivity.
  - intros q Hq _. apply list_elem_of_singleton in Hq as ->.
    vm_compute. reflexivity.
Defined.

(** ** Explicit reachability *)

Lemma get_enabled_filter (net : PetriNet.t) (m : gmap string bool) :
  well_formed net →
  PetriNet.get_enabled_transitions net m
  = Ok (filter (λ tr, PetriNet.is_enabled net tr m = Ok true)
          (elements (PetriNet.transitions net))).
Proof.
  intros Hwf. unfold PetriNet.get_enabled_transitions.
  destruct (get_enabled_loop net m (elements (PetriNet.transitions net)) [])
    as (r & Hr & ->); [|exact Hr].
  intros tr Htr. apply elem_of_elements in Htr.
  destruct (enabled_fire net tr m Hwf Htr) as [-> _]. eauto.
Qed.

Lemma fires_iff_enabled (net : PetriNet.t) (m m' : gmap string bool) :
  well_formed net →
  fires net m m'
  ↔ ∃ tr, tr ∈ filter (λ tr, PetriNet.is_enabled net tr m = Ok true)
                 (elements (PetriNet.transitions net))
          ∧ PetriNet.fire_transition net tr m = Ok m'.
Proof.
  intros Hwf. unfold fires. split.
  - intros (tr & Htr & Hfire). exists tr. split; [|done].
    apply list_elem_of_filter. split; [|by apply elem_of_elements].
    destruct (enabled_fire net tr m Hwf Htr) as [Hen Hf].
    rewrite Hen. rewrite Hf in Hfire.
    by destruct (forallb _ _).
  - intros (tr & Hin & Hfire). apply list_elem_of_filter in Hin as [_ Hin].
    apply elem_of_elements in Hin. eauto.
Qed.

Lemma enabled_fires (net : PetriNet.t) (m : gmap string bool) (tr : string) :
  well_formed net →
  tr ∈ filter (λ tr, PetriNet.is_enabled net tr m = Ok true)
         (elements (PetriNet.transitions net)) →
  ∃ m', PetriNet.fire_transition net tr m = Ok m'.
Proof.
  intros Hwf Hin. apply list_elem_of_filter in Hin as [Hen Hin].
  apply elem_of_elements in Hin.
  destruct (enabled_fire net tr m Hwf Hin) as [Hen' Hf].
  rewrite Hen' in Hen. injection Hen as Hen. rewrite Hf, Hen. eauto.
Qed.

Lemma graph_edge_setdefault
    (g : gmap (gmap string bool) (gmap string (gmap string bool)))
    (k m : gmap string bool) (t : string) :
  graph_edge (ExplicitReachability.graph_setdefault g k) m t = graph_edge g m t.
Proof.
  unfold ExplicitReachability.graph_setdefault, graph_edge.
  destruct (g !! k) as [edges|] eqn:Hk; [done|].
  destruct (decide (k = m)) as [->|Hne].
  - rewrite lookup_insert_eq, Hk. done.
  - by rewrite lookup_insert_ne.
Qed.

Lemma dom_graph_setdefault
    (g : gmap (gmap string bool) (gmap string (gmap string bool)))
    (k : gmap string bool) :
  dom (ExplicitReachability.graph_setdefault g k) = dom g ∪ {[k]}.
Proof.
  unfold ExplicitReachability.graph_setdefault.
  destruct (g !! k) as [edges|] eqn:Hk.
  - apply elem_of_dom_2 in Hk. set_solver.
  - rewrite dom_insert_L. set_solver.
Qed.

Lemma explore_loop (net : PetriNet.t) (current : gmap string bool)
    (l : list string) (s : ExplicitReachability.search) :
  (∀ tr, tr ∈ l → ∃ m', PetriNet.fire_transition net tr current = Ok m') →
  current ∈ dom (ExplicitReachability.graph s) →
  ∃ s' new,
    for_each l (ExplicitReachability.explore net current) s = Ok s'
    ∧ ExplicitReachability.queue s' = ExplicitReachability.queue s ++ new
    ∧ ExplicitReachability.reached s'
      = ExplicitReachability.reached s ∪ list_to_set new
    ∧ NoDup new
    ∧ (∀ m, m ∈ new →
            (m ∉ ExplicitReachability.reached s)
            ∧ ∃ tr, tr ∈ l ∧ PetriNet.fire_transition net tr current = Ok m)
    ∧ (∀ tr m, tr ∈ l → PetriNet.fire_transition net tr current = Ok m →
               m ∈ ExplicitReachability.reached s')
    ∧ dom (ExplicitReachability.graph s')
      = dom (ExplicitReachability.graph s) ∪ list_to_set new
    ∧ ∀ m t, graph_edge (ExplicitReachability.graph s') m t
             = if decide (m = current ∧ t ∈ l) then fired_by net t current
               else graph_edge (ExplicitReachability.graph s) m t.
Proof.
  revert s. induction l as [|tr0 l IH]; intros s Hfire Hcur; cbn [for_each].
  - exists s, []. split; [done|]. split; [by rewrite app_nil_r|].
    split; [set_solver|]. split; [constructor|].
    split; [intros m Hm; by apply elem_of_nil in Hm|].
    split; [intros tr m Htr; by apply elem_of_nil in Htr|].
    split; [set_solver|]. intros m t. rewrite decide_False; [done|].
    intros [_ Ht]. by apply elem_of_nil in Ht.
  - destruct (Hfire tr0) as [m0 Hm0]; [left|].
    unfold ExplicitReachability.explore at 1. rewrite Hm0. cbn [bind].
    set (g1 := ExplicitReachability.graph_setdefault
                 (ExplicitReachability.graph s) current).
    set (g2 := <[current := <[tr0 := m0]> (default ∅ (g1 !! current))]> g1).
    assert (dom g2 = dom (ExplicitReachability.graph s)) as Hdom2.
    { unfold g2. rewrite dom_insert_L. unfold g1.
      rewrite dom_graph_setdefault. set_solver. }
    assert (∀ m t, graph_edge g2 m t
                   = if decide (m = current ∧ t = tr0) then Some m0
                     else graph_edge (ExplicitReachability.graph s) m t)
      as Hedge2.
    { intros m t. unfold g2, graph_edge at 1.
      destruct (decide (m = current)) as [->|Hm].
      - rewrite lookup_insert_eq. cbn.
        destruct (decide (t = tr0)) as [->|Ht].
        + rewrite decide_True by done. apply lookup_insert_eq.
        + rewrite decide_False by tauto. rewrite lookup_insert_ne by done.
          rewrite <- (graph_edge_setdefault _ current current t).
          fold g1. unfold graph_edge. by destruct (g1 !! current).
      - rewrite lookup_insert_ne by done. rewrite decide_False by tauto.
        apply (graph_edge_setdefault _ current m t). }
    destruct (decide (m0 ∈ ExplicitReachability.reached s)) as [Hin|Hnin];
      cbn [bind].
    + destruct (IH (ExplicitReachability.Search
                      (ExplicitReachability.queue s)
                      (ExplicitReachability.reached s) g2))
        as (s' & new & -> & Hq & Hr & Hnd & Hnew & Hall & Hdom & Hedge).
      { intros tr Htr. apply Hfire. by right. }
      { cbn. by rewrite Hdom2. }
      cbn in *. exists s', new. split; [done|]. split; [done|].
      split; [done|]. split; [done|]. split.
      { intros m Hm. destruct (Hnew m Hm) as [Hn (tr & Htr & Hf)].
        split; [done|]. exists tr. split; [by right|done]. }
      split.
      { intros tr m [->|Htr]%elem_of_cons Hf.
        - rewrite Hm0 in Hf. injection Hf as <-. rewrite Hr. set_solver.
        - by eapply Hall. }
      split; [by rewrite Hdom, Hdom2|].
      intros m t. rewrite Hedge, Hedge2.
      destruct (decide (m = current ∧ t ∈ l)) as [[-> Ht]|Hn].
      * rewrite decide_True; [done|]. split; [done|by right].
      * destruct (decide (m = current ∧ t = tr0)) as [[-> ->]|Hn'].
        -- rewrite decide_True by (split; [done|left]).
           unfold fired_by. by rewrite Hm0.
        -- rewrite decide_False; [done|].
           intros [-> [->|?]%elem_of_cons]; tauto.
    + destruct (IH (ExplicitReachability.Search
                      (ExplicitReachability.queue s ++ [m0])
                      ({[m0]} ∪ ExplicitReachability.reached s)
                      (ExplicitReachability.graph_setdefault g2 m0)))
        as (s' & new & -> & Hq & Hr & Hnd & Hnew & Hall & Hdom & Hedge).
      { intros tr Htr. apply Hfire. by right. }
      { cbn. rewrite dom_graph_setdefault, Hdom2. set_solver. }
      cbn in *. exists s', (m0 :: new). split; [done|].
      split; [by rewrite Hq, <- app_assoc|].
      split; [rewrite Hr; set_solver|]. split.
      { apply NoDup_cons. split; [|done]. intros Hm.
        destruct (Hnew m0 Hm) as [Hn _]. set_solver. }
      split.
      { intros m [->|Hm]%elem_of_cons.
        - split; [done|]. exists tr0. split; [left|done].
        - destruct (Hnew m Hm) as [Hn (tr & Htr & Hf)].
          split; [set_solver|]. exists tr. split; [by right|done]. }
      split.
      { intros tr m [->|Htr]%elem_of_cons Hf.
        - rewrite Hm0 in Hf. injection Hf as <-. rewrite Hr. set_solver.
        - by eapply Hall. }
      split.
      { rewrite Hdom, dom_graph_setdefault, Hdom2. set_solver. }
      intros m t. rewrite Hedge, graph_edge_setdefault, Hedge2.
      destruct (decide (m = current ∧ t ∈ l)) as [[-> Ht]|Hn].
      * rewrite decide_True; [done|]. split; [done|by right].
      * destruct (decide (m = current ∧ t = tr0)) as [[-> ->]|Hn'].
        -- rewrite decide_True by (split; [done|left]).
           unfold fired_by. by rewrite Hm0.
        -- rewrite decide_False; [done|].
           intros [-> [->|?]%elem_of_cons]; tauto.
Qed.

Lemma fired_by_not_enabled (net : PetriNet.t) (m : gmap string bool) (t : string) :
  well_formed net →
  t ∉ filter (λ tr, PetriNet.is_enabled net tr m = Ok true)
        (elements (PetriNet.transitions net)) →
  fired_by net t m = None.
Proof.
  intros Hwf Hnin. unfold fired_by.
  destruct (PetriNet.fire_transition net t m) as [m'|] eqn:Hf; [|done].
  exfalso. apply Hnin.
  assert (fires net m m') as Hfires.
  { exists t. split; [|done]. unfold PetriNet.fire_transition in Hf.
    by destruct (decide (t ∈ PetriNet.transitions net)). }
  apply list_elem_of_filter.
  assert (t ∈ PetriNet.transitions net) as Ht.
  { unfold PetriNet.fire_transition in Hf.
    by destruct (decide (t ∈ PetriNet.transitions net)). }
  split; [|by apply elem_of_elements].
  destruct (enabled_fire net t m Hwf Ht) as [Hen Hf'].
  rewrite Hen. rewrite Hf' in Hf. by destruct (forallb _ _).
Qed.

Lemma bfs_step_inv (net : PetriNet.t) (m0 current : gmap string bool)
    (rest : list (gmap string bool))
    (s s' : ExplicitReachability.search) (new : list (gmap string bool)) :
  well_formed net →
  bfs_inv net m0 s →
  ExplicitReachability.queue s = current :: rest →
  let l := filter (λ tr, PetriNet.is_enabled net tr current = Ok true)
             (elements (PetriNet.transitions net)) in
  ExplicitReachability.queue s' = rest ++ new →
  ExplicitReachability.reached s'
  = ExplicitReachability.reached s ∪ list_to_set new →
  NoDup new →
  (∀ m, m ∈ new →
        (m ∉ ExplicitReachability.reached s)
        ∧ ∃ tr, tr ∈ l ∧ PetriNet.fire_transition net tr current = Ok m) →
  (∀ tr m, tr ∈ l → PetriNet.fire_transition net tr current = Ok m →
           m ∈ ExplicitReachability.reached s') →
  dom (ExplicitReachability.graph s')
  = dom (ExplicitReachability.graph s) ∪ list_to_set new →
  (∀ m t, graph_edge (ExplicitReachability.graph s') m t
          = if decide (m = current ∧ t ∈ l) then fired_by net t current
            else graph_edge (ExplicitReachability.graph s) m t) →
  bfs_inv net m0 s'.
Proof.
  intros Hwf [Hsound Hinit Hqueue Hnd Hclosed Hkeys Hedges] Hq l Hq' Hr' Hndn
    Hnew Hall Hdom' Hedge'.
  rewrite Hq in *. apply NoDup_cons in Hnd as [Hcur Hndr].
  assert (current ∈ ExplicitReachability.reached s) as Hcurr
    by (apply Hqueue; left).
  assert (∀ m, m ∈ new → m ∉ current :: rest) as Hnewq.
  { intros m Hm Hin. destruct (Hnew m Hm) as [Hn _]. apply Hn.
    by apply Hqueue. }
  split.
  - intros m. rewrite Hr', elem_of_union, elem_of_list_to_set.
    intros [Hm|Hm]; [by apply Hsound|].
    destruct (Hnew m Hm) as [_ (tr & Htr & Hf)].
    eapply rtc_r; [by apply Hsound|].
    apply list_elem_of_filter in Htr as [_ Htr].
    apply elem_of_elements in Htr. by exists tr.
  - rewrite Hr'. set_solver.
  - intros m. rewrite Hq', Hr', elem_of_app, elem_of_union,
      elem_of_list_to_set.
    intros [Hm|Hm]; [left; apply Hqueue; by right|by right].
  - rewrite Hq'. apply NoDup_app. split; [done|]. split; [|done].
    intros m Hm Hm'. apply (Hnewq m Hm'). by right.
  - intros m m'. rewrite Hq', Hr', elem_of_union, elem_of_list_to_set,
      elem_of_app.
    intros [Hm|Hm] Hnq Hf; [|tauto].
    destruct (decide (m = current)) as [->|Hne].
    + apply (fires_iff_enabled net current m' Hwf) in Hf
        as (tr & Htr & Hf).
      rewrite <- Hr'. by eapply Hall.
    + apply elem_of_union_l. apply (Hclosed m m' Hm); [|done].
      intros [->|?]%elem_of_cons; tauto.
  - by rewrite Hdom', Hkeys, Hr'.
  - intros m t. rewrite Hedge', Hedges.
    destruct (decide (m = current)) as [->|Hne].
    + rewrite (decide_True (P := current ∈ ExplicitReachability.reached s'
                                 ∧ current ∉ ExplicitReachability.queue s')).
      2:{ rewrite Hr', Hq'. split; [set_solver|].
          intros [?|Hm]%elem_of_app; [done|].
          apply (Hnewq current Hm). left. }
      destruct (decide (current = current ∧ t ∈ l)) as [_|Hn]; [done|].
      rewrite decide_False.
      2:{ intros [_ Hn']. apply Hn'. left. }
      symmetry. apply fired_by_not_enabled; [done|]. tauto.
    + rewrite (decide_False (P := m = current ∧ t ∈ l)) by tauto.
      destruct (decide (m ∈ ExplicitReachability.reached s
                        ∧ m ∉ current :: rest)) as [[Hm Hnq]|Hn].
      * rewrite decide_True; [done|]. rewrite Hr', Hq'.
        split; [set_solver|].
        intros [?|Hm']%elem_of_app.
        -- apply Hnq. by right.
        -- by destruct (Hnew m Hm') as [? _].
      * rewrite decide_False; [done|]. rewrite Hr', Hq'.
        intros [Hm Hnq]. apply Hn.
        apply elem_of_union in Hm as [Hm|Hm].
        -- split; [done|]. intros [->|?]%elem_of_cons; [done|].
           apply Hnq. apply elem_of_app. by left.
        -- exfalso. apply Hnq. apply elem_of_app. right.
           by apply elem_of_list_to_set in Hm.
Qed.

Lemma bfs_loop_inv (net : PetriNet.t) (m0 : gmap string bool) (fuel : nat) :
  well_formed net →
  ∀ s s', bfs_inv net m0 s →
          ExplicitReachability.bfs_loop fuel net s = Ok s' →
          bfs_inv net m0 s' ∧ ExplicitReachability.queue s' = [].
Proof.
  intros Hwf. induction fuel as [|fuel IH]; intros s s' Hinv Hrun.
  - cbn in Hrun. destruct (ExplicitReachability.queue s) eqn:Hq; [|done].
    injection Hrun as <-. done.
  - cbn in Hrun.
    destruct (ExplicitReachability.queue s) as [|current rest] eqn:Hq.
    { injection Hrun as <-. done. }
    rewrite (get_enabled_filter net current Hwf) in Hrun. cbn [bind] in Hrun.
    destruct (explore_loop net current
                (filter (λ tr, PetriNet.is_enabled net tr current = Ok true)
                   (elements (PetriNet.transitions net)))
                (ExplicitReachability.Search rest
                   (ExplicitReachability.reached s)
                   (ExplicitReachability.graph s)))
      as (s1 & new & Hs1 & Hq1 & Hr1 & Hnd & Hnew & Hall & Hdom & Hedge).
    { intros tr Htr. by apply enabled_fires. }
    { cbn. rewrite (bfs_keys _ _ _ Hinv). apply (bfs_queue _ _ _ Hinv).
      rewrite Hq. left. }
    rewrite Hs1 in Hrun. cbn [bind] in Hrun. cbn in Hq1, Hr1, Hnew, Hdom, Hedge.
    apply (IH s1 s'); [|done].
    by apply (bfs_step_inv net m0 current rest s s1 new).
Qed.

Lemma bfs_inv_start (net : PetriNet.t) (m0 : gmap string bool) :
  bfs_inv net m0 (ExplicitReachability.Search [m0] {[m0]} {[m0 := ∅]}).
Proof.
  split; cbn.
  - intros m ->%elem_of_singleton. apply rtc_refl.
  - set_solver.
  - intros m ->%list_elem_of_singleton. set_solver.
  - apply NoDup_singleton.
  - intros m m' ->%elem_of_singleton Hn. exfalso. apply Hn. left.
  - by rewrite dom_singleton_L.
  - intros m t. rewrite decide_False.
    2:{ intros [->%elem_of_singleton Hn]. apply Hn. left. }
    unfold graph_edge. destruct (decide (m = m0)) as [->|Hne].
    + rewrite lookup_singleton_eq. done.
    + by rewrite lookup_singleton_ne.
Qed.

Lemma compute_reachability_inv (fuel : nat)
    (start : option (gmap string bool)) (m0 : gmap string bool)
    (x x' : ExplicitReachability.t) (S : gset (gmap string bool)) :
  well_formed (ExplicitReachability.petri_net x) →
  start = Some m0
  ∨ (start = None
     ∧ PetriNet.initial_marking (ExplicitReachability.petri_net x) = Some m0) →
  ExplicitReachability.compute_reachability fuel start x = Ok (S, x') →
  ∃ s', bfs_inv (ExplicitReachability.petri_net x) m0 s'
        ∧ ExplicitReachability.queue s' = []
        ∧ S = ExplicitReachability.reached s'
        ∧ x' = ExplicitReachability.Explorer (ExplicitReachability.petri_net x)
                 (ExplicitReachability.reached s')
                 (ExplicitReachability.graph s').
Proof.
  intros Hwf Hstart Hrun. unfold ExplicitReachability.compute_reachability in Hrun.
  assert (match start with
          | Some m => Ok m
          | None =>
              match PetriNet.initial_marking (ExplicitReachability.petri_net x)
              with
              | Some m => Ok m
              | None => Raise AttributeError
              end
          end = Ok m0) as Hinit.
  { destruct Hstart as [->|[-> ->]]; done. }
  rewrite Hinit in Hrun. cbn [bind] in Hrun.
  destruct (ExplicitReachability.bfs_loop fuel _ _) as [s'|] eqn:Hloop;
    [|done].
  cbn [bind] in Hrun. injection Hrun as <- <-.
  destruct (bfs_loop_inv _ m0 fuel Hwf _ s' (bfs_inv_start _ m0) Hloop)
    as [Hinv Hq].
  exists s'. done.
Qed.

(** X14. When [compute_reachability] returns, the set it returns holds
    exactly the markings that a finite sequence of firings reaches from the
    initial marking (the argument, or [net.initial_marking] when the argument
    is [None]); the set is stored in the explorer, whatever it held before,
    and [is_reachable] then decides reachability. *)
Theorem compute_reachability_exact (fuel : nat)
    (start : option (gmap string bool)) (m0 : gmap string bool)
    (x x' : ExplicitReachability.t) (S : gset (gmap string bool)) :
  well_formed (ExplicitReachability.petri_net x) →
  start = Some m0
  ∨ (start = None
     ∧ PetriNet.initial_marking (ExplicitReachability.petri_net x) = Some m0) →
  ExplicitReachability.compute_reachability fuel start x = Ok (S, x') →
  (∀ m, m ∈ S ↔ reachable_from (ExplicitReachability.petri_net x) m0 m)
  ∧ ExplicitReachability.reachable_markings x' = S
  ∧ ∀ m, ExplicitReachability.is_reachable x' m = true
         ↔ reachable_from (ExplicitReachability.petri_net x) m0 m.
Proof.
  intros Hwf Hstart Hrun.
  destruct (compute_reachability_inv fuel start m0 x x' S Hwf Hstart Hrun)
    as (s' & Hinv & Hq & -> & ->).
  assert (∀ m, m ∈ ExplicitReachability.reached s'
               ↔ reachable_from (ExplicitReachability.petri_net x) m0 m)
    as Hexact.
  { intros m. split; [apply (bfs_sound _ _ _ Hinv)|].
    revert m. apply rtc_ind_r.
    - apply (bfs_initial _ _ _ Hinv).
    - intros m2 m3 _ Hstep IH.
      apply (bfs_closed _ _ _ Hinv m2 m3); [done| |done].
      rewrite Hq. apply not_elem_of_nil. }
  split; [exact Hexact|]. split; [done|].
  intros m. unfold ExplicitReachability.is_reachable. cbn.
  rewrite bool_decide_eq_true. apply Hexact.
Qed.

(** X15. When [compute_reachability] returns, the keys of the transition
    graph are the reachable markings, and [graph[m][t]] is [m'] exactly when
    [m] is one of them and firing [t] in [m] returns [m']. *)
Theorem transition_graph_exact (fuel : nat)
    (start : option (gmap string bool)) (m0 : gmap string bool)
    (x x' : ExplicitReachability.t) (S : gset (gmap string bool)) :
  well_formed (ExplicitReachability.petri_net x) →
  start = Some m0
  ∨ (start = None
     ∧ PetriNet.initial_marking (ExplicitReachability.petri_net x) = Some m0) →
  ExplicitReachability.compute_reachability fuel start x = Ok (S, x') →
  dom (ExplicitReachability.transition_graph x') = S
  ∧ ∀ m t m',
      graph_edge (ExplicitReachability.transition_graph x') m t = Some m'
      ↔ m ∈ S
        ∧ PetriNet.fire_transition (ExplicitReachability.petri_net x) t m
          = Ok m'.
Proof.
  intros Hwf Hstart Hrun.
  destruct (compute_reachability_inv fuel start m0 x x' S Hwf Hstart Hrun)
    as (s' & Hinv & Hq & -> & ->).
  cbn. split; [apply (bfs_keys _ _ _ Hinv)|].
  intros m t m'. rewrite (bfs_edges _ _ _ Hinv), Hq. unfold fired_by.
  destruct (decide (m ∈ ExplicitReachability.reached s' ∧ m ∉ []))
    as [[Hm _]|Hn].
  - destruct (PetriNet.fire_transition _ t m) as [m1|e]; split.
    + intros [= ->]. done.
    + intros [_ [= ->]]. done.
    + done.
    + intros [_ ?]. done.
  - split; [done|]. intros [Hm _]. exfalso. apply Hn. split; [done|].
    apply not_elem_of_nil.
Qed.

Lemma explicit_run_p1_t1_p2 :
  ∃ S x',
    ExplicitReachability.compute_reachability 10
      (Some {["p1" := true; "p2" := false]})
      (ExplicitReachability.__init__ net_p1_t1_p2) = Ok (S, x').
Proof.
  assert (match ExplicitReachability.compute_reachability 10
                  (Some {["p1" := true; "p2" := false]})
                  (ExplicitReachability.__init__ net_p1_t1_p2) with
          | Ok _ => true
          | Raise _ => false
          end = true) as Hok by (vm_compute; reflexivity).
  destruct (ExplicitReachability.compute_reachability _ _ _) as [[S x']|];
    [eauto|discriminate Hok].
Qed.

Lemma compute_reachability_exact_witness :
  ∃ S x',
    ExplicitReachability.compute_reachability 10
      (Some {["p1" := true; "p2" := false]})
      (ExplicitReachability.__init__ net_p1_t1_p2) = Ok (S, x')
    ∧ ∀ m, m ∈ S
           ↔ reachable_from net_p1_t1_p2 {["p1" := true; "p2" := false]} m.
Proof.
  destruct explicit_run_p1_t1_p2 as (S & x' & Hrun).
  exists S, x'. split; [exact Hrun|].
  apply (compute_reachability_exact 10
           (Some {["p1" := true; "p2" := false]})
           {["p1" := true; "p2" := false]}
           (ExplicitReachability.__init__ net_p1_t1_p2) x' S).
  - exact well_formed_net_p1_t1_p2.
  - left. reflexivity.
  - exact Hrun.
Defined.

Lemma transition_graph_exact_witness :
  ∃ S x',
    ExplicitReachability.compute_reachability 10
      (Some {["p1" := true; "p2" := false]})
      (ExplicitReachability.__init__ net_p1_t1_p2) = Ok (S, x')
    ∧ dom (ExplicitReachability.transition_graph x') = S.
Proof.
  destruct explicit_run_p1_t1_p2 as (S & x' & Hrun).
  exists S, x'. split; [exact Hrun|].
  apply (transition_graph_exact 10
           (Some {["p1" := true; "p2" := false]})
           {["p1" := true; "p2" := false]}
           (ExplicitReachability.__init__ net_p1_t1_p2) x' S).
  - exact well_formed_net_p1_t1_p2.
  - left. reflexivity.
  - exact Hrun.
Defined.

Lemma marking_of_set_lookup (D a : gset string) (p : string) :
  marking_of_set D a !! p
  = if decide (p ∈ D) then Some (bool_decide (p ∈ a)) else None.
Proof.
  unfold marking_of_set. rewrite list_to_map_lookup_fmap.
  destruct (decide (p ∈ elements D)) as [Hp|Hp];
    rewrite elem_of_elements in Hp.
  - by rewrite decide_True.
  - by rewrite decide_False.
Qed.

Lemma elem_of_all_markings (D : gset string) (m : gmap string bool) :
  dom m = D → m ∈ all_markings D.
Proof.
  intros Hdom. unfold all_markings. apply elem_of_list_to_set.
  apply list_elem_of_fmap. exists (marked D m). split.
  - apply map_eq. intros p. rewrite marking_of_set_lookup.
    destruct (decide (p ∈ D)) as [Hp|Hp].
    + rewrite <- Hdom in Hp. apply elem_of_dom in Hp as [b Hb].
      rewrite Hb. f_equal. destruct b.
      * symmetry. apply bool_decide_eq_true. apply elem_of_marked.
        unfold Marking.has_token. rewrite Hb. split; [done|].
        rewrite <- Hdom. by apply elem_of_dom_2 in Hb.
      * symmetry. apply bool_decide_eq_false. rewrite elem_of_marked.
        unfold Marking.has_token. rewrite Hb. cbn. intros [? _]. done.
    + apply not_elem_of_dom. by rewrite Hdom.
  - apply elem_of_assignments. intros p Hp. apply elem_of_marked in Hp as [_ ?].
    by apply elem_of_list_to_set, elem_of_elements.
Qed.

Lemma length_assignments (names : list string) :
  length (BDD.assignments names) = (2 ^ length names)%nat.
Proof.
  induction names as [|x names IH]; [done|].
  cbn [BDD.assignments length]. rewrite length_app, length_fmap, IH.
  cbn. lia.
Qed.

Lemma size_list_to_set_le (l : list (gmap string bool)) :
  (size (list_to_set l : gset (gmap string bool)) ≤ length l)%nat.
Proof.
  induction l as [|x l IH]; cbn [list_to_set length].
  - by rewrite size_empty.
  - rewrite size_union_alt, size_singleton.
    assert (size ((list_to_set l : gset (gmap string bool)) ∖ {[x]})
            ≤ size (list_to_set l : gset (gmap string bool)))%nat
      by (apply subseteq_size; set_solver).
    lia.
Qed.

Lemma size_all_markings (D : gset string) :
  (size (all_markings D) ≤ 2 ^ size D)%nat.
Proof.
  unfold all_markings.
  etrans; [apply size_list_to_set_le|].
  rewrite length_fmap, length_assignments. done.
Qed.

Lemma fire_transition_dom (net : PetriNet.t) (D : gset string)
    (m m' : gmap string bool) (tr : string) :
  well_formed net → PetriNet.places net ⊆ D → dom m = D →
  PetriNet.fire_transition net tr m = Ok m' →
  dom m' = D.
Proof.
  intros Hwf HD Hdom Hf.
  assert (tr ∈ PetriNet.transitions net) as Htr.
  { unfold PetriNet.fire_transition in Hf.
    by destruct (decide (tr ∈ PetriNet.transitions net)). }
  destruct (enabled_fire net tr m Hwf Htr) as [_ Hf'].
  rewrite Hf' in Hf. destruct (forallb _ _); [|done]. injection Hf as <-.
  destruct (well_formed_pre_post net tr Hwf Htr)
    as (a & _ & -> & -> & Hin & Hout).
  rewrite dom_fired, Hdom. apply set_eq. intros p.
  rewrite !elem_of_union, !elem_of_list_to_set. split; [|tauto].
  intros [[?|?]|?]; [done|apply HD; by apply Hin|apply HD; by apply Hout].
Qed.

Lemma bfs_loop_terminates (net : PetriNet.t) (m0 : gmap string bool)
    (D : gset string) :
  well_formed net → PetriNet.places net ⊆ D →
  ∀ fuel s,
    bfs_inv net m0 s →
    (∀ m, m ∈ ExplicitReachability.reached s → dom m = D) →
    (size (all_markings D) - size (ExplicitReachability.reached s)
     + length (ExplicitReachability.queue s) ≤ fuel)%nat →
    ∃ s', ExplicitReachability.bfs_loop fuel net s = Ok s'.
Proof.
  intros Hwf HD. induction fuel as [|fuel IH]; intros s Hinv Hdom Hfuel.
  - destruct (ExplicitReachability.queue s) eqn:Hq; cbn in Hfuel; [|lia].
    exists s. cbn. by rewrite Hq.
  - cbn. destruct (ExplicitReachability.queue s) as [|current rest] eqn:Hq.
    { eauto. }
    rewrite (get_enabled_filter net current Hwf). cbn [bind].
    destruct (explore_loop net current
                (filter (λ tr, PetriNet.is_enabled net tr current = Ok true)
                   (elements (PetriNet.transitions net)))
                (ExplicitReachability.Search rest
                   (ExplicitReachability.reached s)
                   (ExplicitReachability.graph s)))
      as (s1 & new & Hs1 & Hq1 & Hr1 & Hnd & Hnew & Hall & Hdomg & Hedge).
    { intros tr Htr. by apply enabled_fires. }
    { cbn. rewrite (bfs_keys _ _ _ Hinv). apply (bfs_queue _ _ _ Hinv).
      rewrite Hq. left. }
    rewrite Hs1. cbn [bind]. cbn in Hq1, Hr1, Hnew, Hdomg, Hedge.
    assert (current ∈ ExplicitReachability.reached s) as Hcur.
    { apply (bfs_queue _ _ _ Hinv). rewrite Hq. left. }
    assert (∀ m, m ∈ ExplicitReachability.reached s1 → dom m = D) as Hdom1.
    { intros m. rewrite Hr1, elem_of_union, elem_of_list_to_set.
      intros [Hm|Hm]; [by apply Hdom|].
      destruct (Hnew m Hm) as [_ (tr & _ & Hf)].
      eapply fire_transition_dom; [done..|by apply Hdom|exact Hf]. }
    apply IH.
    + by apply (bfs_step_inv net m0 current rest s s1 new).
    + exact Hdom1.
    + assert (ExplicitReachability.reached s1 ⊆ all_markings D) as Hsub.
      { intros m Hm. apply elem_of_all_markings. by apply Hdom1. }
      apply subseteq_size in Hsub.
      assert (size (ExplicitReachability.reached s1)
              = size (ExplicitReachability.reached s) + length new)%nat
        as Hsize.
      { rewrite Hr1, size_union.
        - by rewrite size_list_to_set.
        - intros m Hm Hm'. apply elem_of_list_to_set in Hm'.
          by destruct (Hnew m Hm') as [? _]. }
      rewrite Hq1, length_app. cbn [length] in Hfuel. lia.
Qed.

(** X16. On a net whose arcs are over its own places, from an initial
    marking that stores every place of the net, [compute_reachability]
    returns as soon as the loop may run [2 ^ n] times, [n] being the number
    of places the marking stores: a marking leaves the queue at most once. *)
Theorem compute_reachability_terminates (fuel : nat)
    (start : option (gmap string bool)) (m0 : gmap string bool)
    (x : ExplicitReachability.t) :
  well_formed (ExplicitReachability.petri_net x) →
  start = Some m0
  ∨ (start = None
     ∧ PetriNet.initial_marking (ExplicitReachability.petri_net x) = Some m0) →
  PetriNet.places (ExplicitReachability.petri_net x) ⊆ dom m0 →
  (2 ^ size (dom m0) ≤ fuel)%nat →
  ∃ S x', ExplicitReachability.compute_reachability fuel start x = Ok (S, x').
Proof.
  intros Hwf Hstart HD Hfuel.
  unfold ExplicitReachability.compute_reachability.
  assert (match start with
          | Some m => Ok m
          | None =>
              match PetriNet.initial_marking (ExplicitReachability.petri_net x)
              with
              | Some m => Ok m
              | None => Raise AttributeError
              end
          end = Ok m0) as ->.
  { destruct Hstart as [->|[-> ->]]; done. }
  cbn [bind].
  destruct (bfs_loop_terminates (ExplicitReachability.petri_net x) m0 (dom m0)
              Hwf HD fuel
              (ExplicitReachability.Search [m0] {[m0]} {[m0 := ∅]}))
    as [s' ->].
  - apply bfs_inv_start.
  - cbn. by intros m ->%elem_of_singleton.
  - cbn. rewrite size_singleton.
    pose proof (size_all_markings (dom m0)).
    assert (1 ≤ 2 ^ size (dom m0))%nat.
    { clear. induction (size (dom m0)); cbn; lia. }
    lia.
  - cbn [bind]. eauto.
Qed.

Lemma compute_reachability_terminates_witness :
  ∃ S x',
    ExplicitReachability.compute_reachability 4
      None (ExplicitReachability.__init__ net_p1_t1_p2) = Ok (S, x').
Proof.
  apply (compute_reachability_terminates 4 None
           {["p1" := true; "p2" := false]}).
  - exact well_formed_net_p1_t1_p2.
  - right. split; reflexivity.
  - apply (bool_decide_unpack _). vm_compute. exact I.
  - vm_compute. lia.
Defined.

(** ** Symbolic reachability *)

Lemma exist_elim (names : list string) (u : gset string → bool)
    (a : gset string) :
  foldr BDD.exist1 u names a = true →
  ∃ s, s ⊆ list_to_set names ∧ u ((a ∖ list_to_set names) ∪ s) = true.
Proof.
  revert a. induction names as [|x names IH]; intros a Hu; cbn [foldr] in Hu.
  - exists ∅. split; [done|]. cbn.
    replace (a ∖ ∅ ∪ ∅) with a; [done|]. set_solver.
  - unfold BDD.exist1 at 1 in Hu. apply orb_true_iff in Hu as [Hu|Hu].
    + destruct (IH _ Hu) as (s & Hs & Hus).
      exists (s ∪ ({[x]} ∖ list_to_set names)). split.
      { cbn [list_to_set]. set_solver. }
      cbn [list_to_set].
      replace (a ∖ ({[x]} ∪ list_to_set names)
               ∪ (s ∪ {[x]} ∖ list_to_set names))
        with (({[x]} ∪ a) ∖ list_to_set names ∪ s); [done|].
      apply set_eq. intros y.
      rewrite !elem_of_union, !elem_of_difference, !elem_of_union,
        !elem_of_singleton.
      destruct (decide (y = x)) as [->|Hne]; tauto.
    + destruct (IH _ Hu) as (s & Hs & Hus).
      exists s. split; [cbn [list_to_set]; set_solver|].
      cbn [list_to_set].
      replace (a ∖ ({[x]} ∪ list_to_set names) ∪ s)
        with ((a ∖ {[x]}) ∖ list_to_set names ∪ s); [done|].
      set_solver.
Qed.

Lemma post_sem_elim (net : PetriNet.t) (e : BDDReachability.t)
    (b : BDD.manager) (T R P : gset string → bool) (a : gset string) :
  initialized net e b T →
  prime_free (PetriNet.places net) →
  BDDReachability.post e R = Ok P →
  P a = true →
  ∃ c, R c = true ∧ T c = true
       ∧ ∀ p, p ∈ PetriNet.places net →
              bool_decide (BDDReachability.primed p ∈ c)
              = bool_decide (p ∈ a).
Proof.
  intros Hi Hpf0. unfold BDDReachability.post.
  rewrite (init_bdd _ _ _ _ Hi), (init_T _ _ _ _ Hi), (init_net _ _ _ _ Hi).
  pose proof (elem_of_sorted (PetriNet.places net)) as Hsorted.
  assert (∀ p, p ∈ BDDReachability.sorted (PetriNet.places net) →
               ∀ q, q ∈ BDDReachability.sorted (PetriNet.places net) →
                    p ≠ BDDReachability.primed q) as Hpf.
  { intros p Hp q Hq ->. apply Hsorted in Hp, Hq. by apply (Hpf0 q). }
  assert (∀ p, p ∈ BDDReachability.sorted (PetriNet.places net) →
               BDDReachability.place_var e !! p = Some (var_fn p)) as Hpv.
  { intros p Hp. apply (init_place_var _ _ _ _ Hi). by apply Hsorted. }
  assert (∀ p, p ∈ PetriNet.places net →
               p ∈ BDDReachability.sorted (PetriNet.places net)) as Hin.
  { intros p Hp. by apply Hsorted. }
  clear Hsorted Hi Hpf0.
  generalize dependent (BDDReachability.sorted (PetriNet.places net)).
  intros l Hpf Hpv Hin.
  rewrite (for_each_foldl l _
             (λ d p, <[BDDReachability.primed p := var_fn p]> d)).
  2: { intros p d Hp. unfold getitem. by rewrite (Hpv p Hp). }
  fold (rename_map_of l).
  destruct l as [|x l'].
  - cbn [bind]. rewrite decide_True by apply dom_empty_L.
    intros [= <-] HP. unfold BDD.__and__ in HP.
    apply andb_true_iff in HP as [HR HT].
    exists a. split; [done|]. split; [done|].
    intros p Hp. apply Hin in Hp. by apply elem_of_nil in Hp.
  - set (l := x :: l') in *.
    unfold BDD.exist. destruct (decide (Forall _ l)); [|done]. cbn [bind].
    assert (BDDReachability.primed x ∈ dom (rename_map_of l)) as Hx.
    { apply rename_map_dom. exists x. split; [left|done]. }
    rewrite decide_False by (intros Heq; rewrite Heq in Hx; set_solver).
    unfold BDD.let_. destruct (decide (Forall _ _)); [|done].
    intros [= <-] HP.
    apply (exist_elim l (BDD.__and__ R T)) in HP as (s & Hs & HP).
    unfold BDD.__and__ in HP. apply andb_true_iff in HP as [HR HT].
    eexists. split; [exact HR|]. split; [exact HT|].
    intros p Hp. apply Hin in Hp.
    apply bool_decide_ext.
    rewrite elem_of_union, elem_of_difference, elem_of_union,
      elem_of_difference, elem_of_list_to_set, rename_map_filter_dom,
      rename_map_dom.
    split.
    + intros [[[[_ Hn]|(q & Hq & Heq & Hqa)] _]|Hps].
      * exfalso. apply Hn. eauto.
      * apply primed_inj in Heq as ->. done.
      * exfalso. apply Hs, elem_of_list_to_set in Hps.
        by apply (Hpf _ Hps p Hp).
    + intros Hpa. left. split.
      * right. eauto.
      * intros Hpl. by apply (Hpf _ Hpl p Hp).
Qed.

Lemma post_sound (net : PetriNet.t) (m0 : gmap string bool)
    (e : BDDReachability.t) (b : BDD.manager) (T R P : gset string → bool) :
  well_formed net → prime_free (PetriNet.places net) →
  initialized net e b T →
  BDDReachability.post e R = Ok P →
  sound_set net m0 R → sound_set net m0 P.
Proof.
  intros Hwf Hpf Hi HP Hsound a Ha.
  destruct (post_sem_elim net e b T R P a Hi Hpf HP Ha)
    as (c & HR & HT & Hnext).
  destruct (Hsound c HR) as (m & Hreach & Hm).
  rewrite (init_T_sem _ _ _ _ Hi) in HT.
  set (m' := marking_of_set (PetriNet.places net) a).
  assert (∀ p, p ∈ PetriNet.places net →
               Marking.has_token m' p = bool_decide (p ∈ a)) as Hm'.
  { intros p Hp. unfold Marking.has_token, m'.
    rewrite marking_of_set_lookup, decide_True by done. done. }
  apply (T_sem_pair net c m m' Hwf) in HT
    as (tr & Htr & Hen & m1 & Hfire & Hm1).
  2:{ intros p Hp. split; [by apply Hm|]. by rewrite Hnext, Hm'. }
  exists m1. split.
  - eapply rtc_r; [exact Hreach|]. by exists tr.
  - intros p Hp. by rewrite <- Hm1, Hm'.
Qed.

Lemma fixpoint_loop_sound (net : PetriNet.t) (m0 : gmap string bool)
    (e : BDDReachability.t) (b : BDD.manager) (T : gset string → bool)
    (fuel : nat) :
  well_formed net → prime_free (PetriNet.places net) →
  initialized net e b T →
  ∀ R Rf, BDDReachability.fixpoint_loop fuel e b R = Ok Rf →
          sound_set net m0 R → sound_set net m0 Rf.
Proof.
  intros Hwf Hpf Hi. induction fuel as [|fuel IH]; intros R Rf Hrun Hsound;
    [done|].
  cbn in Hrun. apply bind_Ok in Hrun as (P & HP & Hrun).
  destruct (BDD.__eq__ b (BDD.__or__ R P) R).
  - by injection Hrun as <-.
  - apply (IH _ _ Hrun). intros c Hc. unfold BDD.__or__ in Hc.
    apply orb_true_iff in Hc as [Hc|Hc]; [by apply Hsound|].
    by apply (post_sound net m0 e b T R P Hwf Hpf Hi HP Hsound).
Qed.

Lemma fixpoint_loop_fixed (e : BDDReachability.t) (b : BDD.manager)
    (fuel : nat) :
  ∀ R Rf, BDDReachability.fixpoint_loop fuel e b R = Ok Rf →
          ∃ P, BDDReachability.post e Rf = Ok P
               ∧ BDD.__eq__ b (BDD.__or__ Rf P) Rf = true.
Proof.
  induction fuel as [|fuel IH]; intros R Rf Hrun; [done|].
  cbn in Hrun. apply bind_Ok in Hrun as (P & HP & Hrun).
  destruct (BDD.__eq__ b (BDD.__or__ R P) R) eqn:Heq.
  - injection Hrun as <-. eauto.
  - by apply (IH _ _ Hrun).
Qed.

Lemma compute_inversion (net : PetriNet.t) (fuel : nat) (m0 : gmap string bool)
    (R : gset string → bool) (e' : BDDReachability.t) :
  well_formed net →
  BDDReachability.compute_symbolic_reachability fuel m0
    (BDDReachability.__init__ net) = Ok (R, e') →
  ∃ e1 b T R0,
    initialized net e1 b T
    ∧ e' = BDDReachability.with_reachable e1 R
    ∧ BDDReachability.encode_marking e1 m0 = Ok R0
    ∧ BDDReachability.fixpoint_loop fuel e1 b R0 = Ok R.
Proof.
  intros Hwf Hrun. unfold BDDReachability.compute_symbolic_reachability in Hrun.
  cbn [BDDReachability.bdd_manager BDDReachability.__init__] in Hrun.
  destruct (initialize_bdd_initialized (BDDReachability.__init__ net) Hwf)
    as (e1 & b & T & He1 & Hi & _).
  cbn [BDDReachability.petri_net BDDReachability.__init__] in Hi.
  rewrite He1 in Hrun. cbn [bind] in Hrun.
  destruct (encode_marking_sem net e1 b T m0 Hi) as (enc0 & Henc0 & Hsem0).
  rewrite Henc0 in Hrun. cbn [bind] in Hrun.
  rewrite (init_bdd _ _ _ _ Hi) in Hrun.
  apply bind_Ok in Hrun as (R' & Hloop & Hret). injection Hret as <- <-.
  exists e1, b, T, enc0. done.
Qed.

Lemma encode_marking_with_reachable (e : BDDReachability.t)
    (R : gset string → bool) (m : gmap string bool) :
  BDDReachability.encode_marking (BDDReachability.with_reachable e R) m
  = BDDReachability.encode_marking e m.
Proof. done. Qed.

Lemma post_with_reachable (e : BDDReachability.t)
    (R R' : gset string → bool) :
  BDDReachability.post (BDDReachability.with_reachable e R) R'
  = BDDReachability.post e R'.
Proof. done. Qed.

Lemma marked_subseteq_vars (net : PetriNet.t) (e : BDDReachability.t)
    (b : BDD.manager) (T : gset string → bool) (m : gmap string bool) :
  initialized net e b T →
  marked (PetriNet.places net) m ⊆ list_to_set (BDD.vars b).
Proof.
  intros Hi x Hx. apply elem_of_marked in Hx as [_ Hx].
  apply elem_of_list_to_set, (init_vars _ _ _ _ Hi). eauto.
Qed.

Lemma marked_encodes (places : gset string) (m : gmap string bool) (p : string) :
  p ∈ places → bool_decide (p ∈ marked places m) = Marking.has_token m p.
Proof.
  intros Hp. destruct (Marking.has_token m p) eqn:Hm.
  - apply bool_decide_eq_true. by apply elem_of_marked.
  - apply bool_decide_eq_false. intros Hin.
    apply elem_of_marked in Hin as [? _]. congruence.
Qed.

(** The reachable set of a completed computation, seen through
    [is_reachable]: a marking is accepted exactly when it holds, on the
    places of the net, the tokens of a marking reachable from the initial
    one. *)
Lemma symbolic_reachability_exact (net : PetriNet.t) (fuel : nat)
    (m0 : gmap string bool) (R : gset string → bool) (e' : BDDReachability.t)
    (m : gmap string bool) :
  well_formed net → prime_free (PetriNet.places net) →
  BDDReachability.compute_symbolic_reachability fuel m0
    (BDDReachability.__init__ net) = Ok (R, e') →
  reachable_in e' m
  ↔ ∃ m1, reachable_from net m0 m1 ∧ agree_on (PetriNet.places net) m m1.
Proof.
  intros Hwf Hpf Hrun.
  destruct (compute_inversion net fuel m0 R e' Hwf Hrun)
    as (e1 & b & T & R0 & Hi & -> & HR0 & Hloop).
  pose proof (initialized_with_reachable net e1 b T R Hi) as Hi'.
  split.
  - intros Hin.
    destruct (reachable_in_elim net _ b T R m Hi' eq_refl Hin)
      as (c & _ & HRc & Hc).
    assert (sound_set net m0 R) as Hsound.
    { apply (fixpoint_loop_sound net m0 e1 b T fuel Hwf Hpf Hi R0 R Hloop).
      intros c0 Hc0.
      destruct (encode_marking_sem net e1 b T m0 Hi) as (enc & Henc & Hsem).
      rewrite HR0 in Henc. injection Henc as <-.
      exists m0. split; [apply rtc_refl|]. by apply Hsem. }
    destruct (Hsound c HRc) as (m1 & Hreach & Hm1).
    exists m1. split; [done|]. intros p Hp. by rewrite <- Hc, Hm1.
  - intros (m1 & Hreach & Hagree).
    destruct (fixpoint_loop_fixed e1 b fuel R0 R Hloop) as (P & HP & Hfix).
    assert (encoding_in (BDDReachability.with_reachable e1 R) m1 R) as Henc1.
    { revert m1 Hreach Hagree. intros m1 Hreach _. revert m1 Hreach.
      apply rtc_ind_r.
      - destruct (encode_marking_sem net e1 b T m0 Hi) as (enc & Henc & Hsem).
        exists b, enc. split; [apply Hi'|]. split; [done|].
        intros a _ Ha. apply (fixpoint_loop_mono _ _ _ _ _ Hloop).
        rewrite HR0 in Henc. by injection Henc as <-.
      - intros m2 m3 _ (tr & Htr & Hfire) IH.
        destruct (enabled_fire net tr m2 Hwf Htr) as [Hen Hf].
        assert (PetriNet.is_enabled net tr m2 = Ok true) as Hen'.
        { rewrite Hen. rewrite Hf in Hfire. by destruct (forallb _ _). }
        destruct (fixpoint_closed net _ b T R P m2 tr Hwf Hpf Hi' HP Hfix IH
                    Htr Hen') as (m3' & Hf3 & Hin3).
        rewrite Hfire in Hf3. by injection Hf3 as <-. }
    destruct Henc1 as (b' & enc1 & Hb' & Henc1 & Hsub).
    rewrite (init_bdd _ _ _ _ Hi') in Hb'. injection Hb' as <-.
    destruct (encode_marking_sem net _ b T m1 Hi') as (enc & Henc & Hsem).
    rewrite Henc1 in Henc. injection Henc as <-.
    apply (reachable_in_intro net _ b T R m
             (marked (PetriNet.places net) m1) Hi' eq_refl).
    + by apply (marked_subseteq_vars net e1 b T).
    + apply Hsub; [by apply (marked_subseteq_vars net e1 b T)|].
      apply Hsem. intros p Hp. by apply marked_encodes.
    + intros p Hp. rewrite marked_encodes by done. symmetry. by apply Hagree.
Qed.

Lemma reachable_from_dom (net : PetriNet.t) (m0 m : gmap string bool) :
  well_formed net → PetriNet.places net ⊆ dom m0 →
  reachable_from net m0 m → dom m = dom m0.
Proof.
  intros Hwf HD. revert m. apply rtc_ind_r; [done|].
  intros m2 m3 _ (tr & _ & Hfire) IH.
  by apply (fire_transition_dom net (dom m0) m2 m3 tr).
Qed.

Lemma is_reachable_computed (net : PetriNet.t) (e : BDDReachability.t)
    (b : BDD.manager) (T R : gset string → bool) (fuel : nat)
    (m : gmap string bool) :
  initialized net e b T →
  BDDReachability.reachable_bdd e = Some R →
  ∃ answer, BDDReachability.is_reachable fuel m e = Ok (answer, e)
            ∧ (answer = true ↔ reachable_in e m).
Proof.
  intros Hi HR. unfold BDDReachability.is_reachable. rewrite HR.
  destruct (encode_marking_sem net e b T m Hi) as (enc & Henc & _).
  rewrite Henc. cbn [bind]. rewrite (init_bdd _ _ _ _ Hi).
  eexists. split; [reflexivity|]. unfold reachable_in. split.
  - intros Hne. exists b, R, enc. split; [apply Hi|]. done.
  - intros (b' & R' & enc' & Hb' & HR' & Henc' & Hne).
    rewrite (init_bdd _ _ _ _ Hi) in Hb'. injection Hb' as <-.
    rewrite HR in HR'. injection HR' as <-.
    rewrite Henc in Henc'. injection Henc' as <-. done.
Qed.

(** X17. On a net whose arcs are over its own places and in which no place
    id is another place id followed by the prime, after
    [compute_symbolic_reachability] has returned, [is_reachable] returns
    without computing anything and leaves the engine as it is; its answer is
    [True] exactly when the marking holds, on the places of the net, the
    tokens of a marking that a finite sequence of firings reaches from the
    initial marking. *)
Theorem is_reachable_after_compute (net : PetriNet.t) (fuel fuel' : nat)
    (m0 : gmap string bool) (R : gset string → bool) (e' : BDDReachability.t)
    (m : gmap string bool) :
  well_formed net → prime_free (PetriNet.places net) →
  BDDReachability.compute_symbolic_reachability fuel m0
    (BDDReachability.__init__ net) = Ok (R, e') →
  ∃ answer,
    BDDReachability.is_reachable fuel' m e' = Ok (answer, e')
    ∧ (answer = true
       ↔ ∃ m1, reachable_from net m0 m1
               ∧ agree_on (PetriNet.places net) m m1).
Proof.
  intros Hwf Hpf Hrun.
  destruct (compute_completed net fuel m0 R e' Hwf Hrun)
    as (b & T & Hi & HR & _).
  destruct (is_reachable_computed net e' b T R fuel' m Hi HR)
    as (answer & Hans & Hiff).
  exists answer. split; [done|]. rewrite Hiff.
  by apply (symbolic_reachability_exact net fuel m0 R e').
Qed.

Lemma symbolic_run_p1_t1_p2 :
  ∃ R e',
    BDDReachability.compute_symbolic_reachability 10
      {["p1" := true; "p2" := false]} (BDDReachability.__init__ net_p1_t1_p2)
    = Ok (R, e').
Proof.
  assert (match BDDReachability.compute_symbolic_reachability 10
                  {["p1" := true; "p2" := false]}
                  (BDDReachability.__init__ net_p1_t1_p2) with
          | Ok _ => true
          | Raise _ => false
          end = true) as Hok by (vm_compute; reflexivity).
  destruct (BDDReachability.compute_symbolic_reachability _ _ _) as [[R e']|];
    [eauto|discriminate Hok].
Qed.

Lemma is_reachable_after_compute_witness :
  ∃ R e' answer,
    BDDReachability.compute_symbolic_reachability 10
      {["p1" := true; "p2" := false]} (BDDReachability.__init__ net_p1_t1_p2)
    = Ok (R, e')
    ∧ BDDReachability.is_reachable 0 {["p2" := true]} e' = Ok (answer, e').
Proof.
  destruct symbolic_run_p1_t1_p2 as (R & e' & Hrun).
  destruct (is_reachable_after_compute net_p1_t1_p2 10 0
              {["p1" := true; "p2" := false]} R e' {["p2" := true]}
              well_formed_net_p1_t1_p2 prime_free_net_p1_t1_p2 Hrun)
    as (answer & Hans & _).
  exists R, e', answer. split; [exact Hrun | exact Hans].
Defined.

(** X18. On a net whose arcs are over its own places and in which no place
    id is another place id followed by the prime, the two engines decide the
    same reachable set. From an initial marking that stores exactly the
    places of the net, a marking over the places of the net is in the set
    returned by the explicit search exactly when [is_reachable] of the
    symbolic engine accepts it. *)
Theorem explicit_and_symbolic_agree (net : PetriNet.t) (fuel1 fuel2 fuel3 : nat)
    (m0 m : gmap string bool) (S : gset (gmap string bool))
    (x' : ExplicitReachability.t) (R : gset string → bool)
    (e' : BDDReachability.t) :
  well_formed net → prime_free (PetriNet.places net) →
  dom m0 = PetriNet.places net → dom m = PetriNet.places net →
  ExplicitReachability.compute_reachability fuel1 (Some m0)
    (ExplicitReachability.__init__ net) = Ok (S, x') →
  BDDReachability.compute_symbolic_reachability fuel2 m0
    (BDDReachability.__init__ net) = Ok (R, e') →
  m ∈ S ↔ BDDReachability.is_reachable fuel3 m e' = Ok (true, e').
Proof.
  intros Hwf Hpf Hd0 Hd Hexp Hsym.
  destruct (compute_reachability_inv fuel1 (Some m0) m0
              (ExplicitReachability.__init__ net) x' S Hwf
              (or_introl eq_refl) Hexp) as (s' & Hinv & Hq & -> & _).
  cbn in Hinv.
  destruct (compute_completed net fuel2 m0 R e' Hwf Hsym)
    as (b & T & Hi & HR & _).
  destruct (is_reachable_computed net e' b T R fuel3 m Hi HR)
    as (answer & Hans & Hiff).
  rewrite Hans.
  pose proof (symbolic_reachability_exact net fuel2 m0 R e' m Hwf Hpf Hsym)
    as Hexact.
  split.
  - intros Hm. apply (bfs_sound _ _ _ Hinv) in Hm.
    assert (answer = true) as ->; [|done].
    apply Hiff, Hexact. exists m. split; [done|]. by intros p _.
  - intros [= ->]. destruct (proj1 Hexact (proj1 Hiff eq_refl))
      as (m1 & Hreach & Hagree).
    assert (dom m1 = dom m0) as Hd1.
    { apply (reachable_from_dom net m0 m1 Hwf); [by rewrite Hd0|done]. }
    assert (m = m1) as ->.
    { apply marking_ext; [by rewrite Hd, Hd1, Hd0|].
      intros p. destruct (decide (p ∈ PetriNet.places net)) as [Hp|Hp].
      - by apply Hagree.
      - rewrite !has_token_notin_dom; [done| |by rewrite Hd].
        by rewrite Hd1, Hd0. }
    clear Hagree Hexact Hiff Hans Hd Hd1.
    revert m1 Hreach. apply rtc_ind_r.
    + apply (bfs_initial _ _ _ Hinv).
    + intros m2 m3 _ Hstep IH.
      apply (bfs_closed _ _ _ Hinv m2 m3); [done| |done].
      rewrite Hq. apply not_elem_of_nil.
Qed.

Lemma explicit_and_symbolic_agree_witness :
  ∃ S x' R e',
    ExplicitReachability.compute_reachability 10
      (Some {["p1" := true; "p2" := false]})
      (ExplicitReachability.__init__ net_p1_t1_p2) = Ok (S, x')
    ∧ BDDReachability.compute_symbolic_reachability 10
        {["p1" := true; "p2" := false]} (BDDReachability.__init__ net_p1_t1_p2)
      = Ok (R, e')
    ∧ (({["p1" := false; "p2" := true]} : gmap string bool) ∈ S
       ↔ BDDReachability.is_reachable 0 {["p1" := false; "p2" := true]} e'
         = Ok (true, e')).
Proof.
  destruct explicit_run_p1_t1_p2 as (S & x' & Hexp).
  destruct symbolic_run_p1_t1_p2 as (R & e' & Hsym).
  exists S, x', R, e'. split; [exact Hexp|]. split; [exact Hsym|].
  apply (explicit_and_symbolic_agree net_p1_t1_p2 10 10 0
           {["p1" := true; "p2" := false]} {["p1" := false; "p2" := true]}
           S x' R e').
  - exact well_formed_net_p1_t1_p2.
  - exact prime_free_net_p1_t1_p2.
  - vm_compute. reflexivity.
  - vm_compute. reflexivity.
  - exact Hexp.
  - exact Hsym.
Defined.

Lemma elem_of_foldl_results {A} (f : A → gmap string bool) (l : list A)
    (acc : gset (gmap string bool)) (m : gmap string bool) :
  m ∈ foldl (λ results x, {[f x]} ∪ results) acc l
  ↔ m ∈ acc ∨ ∃ x, x ∈ l ∧ m = f x.
Proof.
  revert acc. induction l as [|x l IH]; intros acc; cbn [foldl].
  - split; [by left|]. intros [?|(x & Hx & _)]; [done|].
    by apply elem_of_nil in Hx.
  - rewrite IH, elem_of_union, elem_of_singleton. split.
    + intros [[->|?]|(y & Hy & ->)]; [right|by left|right].
      * exists x. split; [left|done].
      * exists y. split; [by right|done].
    + intros [?|(y & [->|Hy]%elem_of_cons & ->)]; [by left; right| |].
      * by left; left.
      * right. eauto.
Qed.

Lemma extract_markings_from_bdd_elem (e : BDDReachability.t) (b : BDD.manager)
    (R : gset string → bool) (l : list string)
    (ms : gset (gmap string bool)) (m : gmap string bool) :
  BDDReachability.bdd_manager e = Some b →
  BDDReachability._extract_markings_from_bdd e R l = Ok ms →
  m ∈ ms →
  ∃ c, c ⊆ list_to_set (BDD.vars b) ∧ R c = true
       ∧ dom m = list_to_set l
       ∧ ∀ p, p ∈ l → bool_decide (p ∈ c) = Marking.has_token m p.
Proof.
  intros Hb. unfold BDDReachability._extract_markings_from_bdd. rewrite Hb.
  destruct l as [|x l'].
  - destruct (BDD.__ne__ b R BDD.false_) eqn:Hne; intros [= <-] Hm.
    + apply elem_of_singleton in Hm as ->.
      apply bdd_ne_false_spec in Hne as (c & Hc & HRc).
      exists c. split; [done|]. split; [done|]. split.
      * unfold Marking.__init__. by rewrite fmap_empty, dom_empty_L.
      * intros p Hp. by apply elem_of_nil in Hp.
    + by apply elem_of_empty in Hm.
  - set (l := x :: l'). intros [= <-] Hm.
    apply elem_of_foldl_results in Hm as [Hm|(assign & Hassign & ->)].
    { by apply elem_of_empty in Hm. }
    destruct (pick_iter_sound b R assign Hassign) as (c & Hc & HRc & Hbits).
    set (f := λ p : string, if default false (assign !! p) then 1 else 0).
    assert (∀ p, Marking.__init__
                   (foldl (λ (m : gmap string Z) p, <[p := f p]> m) ∅ l) !! p
                 = if decide (p ∈ l) then Some (default false (assign !! p))
                   else None) as Hlook.
    { intros p. unfold Marking.__init__.
      rewrite lookup_fmap, foldl_insert_lookup.
      destruct (decide (p ∈ l)); [|by rewrite lookup_empty].
      cbn. unfold f. by rewrite bool_of_token_bit. }
    exists c. split; [done|]. split; [done|]. split.
    + apply set_eq. intros p. rewrite elem_of_dom, Hlook, elem_of_list_to_set.
      destruct (decide (p ∈ l)) as [Hp|Hp]; split; intros H; try done;
        try (by destruct H); eauto.
    + intros p Hp. unfold Marking.has_token. rewrite Hlook.
      rewrite decide_True by done. cbn. by rewrite Hbits.
Qed.

(** X19. On a net whose arcs are over its own places and in which no place
    id is another place id followed by the prime, [extract_markings] invents
    no marking: after [compute_symbolic_reachability] from an initial marking
    that stores exactly the places of the net, it returns without raising
    and every marking it returns is reached from the initial marking by a
    finite sequence of firings. *)
Theorem extract_markings_sound (net : PetriNet.t) (fuel : nat)
    (m0 : gmap string bool) (R : gset string → bool) (e' : BDDReachability.t) :
  well_formed net → prime_free (PetriNet.places net) →
  dom m0 = PetriNet.places net →
  BDDReachability.compute_symbolic_reachability fuel m0
    (BDDReachability.__init__ net) = Ok (R, e') →
  ∃ ms, BDDReachability.extract_markings e' None = Ok ms
        ∧ ∀ m, m ∈ ms → reachable_from net m0 m.
Proof.
  intros Hwf Hpf Hd0 Hrun.
  destruct (compute_completed net fuel m0 R e' Hwf Hrun)
    as (b & T & Hi & HR & _).
  pose proof (λ m, symbolic_reachability_exact net fuel m0 R e' m Hwf Hpf Hrun)
    as Hexact.
  unfold BDDReachability.extract_markings.
  rewrite (init_bdd _ _ _ _ Hi), HR, (init_net _ _ _ _ Hi).
  destruct (BDDReachability._extract_markings_from_bdd e' R
              (BDDReachability.sorted (PetriNet.places net)))
    as [ms|ex] eqn:Hms.
  2:{ unfold BDDReachability._extract_markings_from_bdd in Hms.
      rewrite (init_bdd _ _ _ _ Hi) in Hms.
      destruct (BDDReachability.sorted _); [|done].
      by destruct (BDD.__ne__ b R BDD.false_). }
  exists ms. split; [done|]. intros m Hm.
  destruct (extract_markings_from_bdd_elem e' b R _ ms m
              (init_bdd _ _ _ _ Hi) Hms Hm) as (c & Hc & HRc & Hd & Hbits).
  assert (dom m = PetriNet.places net) as Hdm.
  { rewrite Hd. apply set_eq. intros p.
    by rewrite elem_of_list_to_set, elem_of_sorted. }
  destruct (proj1 (Hexact m)) as (m1 & Hr1 & Hagree).
  { apply (reachable_in_intro net e' b T R m c); [done..|].
    intros p Hp. apply Hbits. by apply elem_of_sorted. }
  assert (dom m1 = dom m0) as Hd1.
  { apply (reachable_from_dom net m0 m1 Hwf); [by rewrite Hd0|done]. }
  assert (m = m1) as ->; [|done].
  apply marking_ext; [by rewrite Hdm, Hd1, Hd0|].
  intros p. destruct (decide (p ∈ PetriNet.places net)) as [Hp|Hp].
  - by apply Hagree.
  - rewrite !has_token_notin_dom; [done| |by rewrite Hdm].
    by rewrite Hd1, Hd0.
Qed.

Lemma extract_markings_sound_witness :
  ∃ R e' ms,
    BDDReachability.compute_symbolic_reachability 10
      {["p1" := true; "p2" := false]} (BDDReachability.__init__ net_p1_t1_p2)
    = Ok (R, e')
    ∧ BDDReachability.extract_markings e' None = Ok ms
    ∧ ∀ m, m ∈ ms
           → reachable_from net_p1_t1_p2 {["p1" := true; "p2" := false]} m.
Proof.
  destruct symbolic_run_p1_t1_p2 as (R & e' & Hrun).
  destruct (extract_markings_sound net_p1_t1_p2 10
              {["p1" := true; "p2" := false]} R e'
              well_formed_net_p1_t1_p2 prime_free_net_p1_t1_p2)
    as (ms & Hms & Hsound).
  - vm_compute. reflexivity.
  - exact Hrun.
  - exists R, e', ms. split; [exact Hrun|]. split; [exact Hms | exact Hsound].
Defined.

Lemma setdefault_loop_lookup (ts : list string) (d : gmap string (list string))
    (tr : string) :
  foldl BDDReachability.setdefault d ts !! tr
  = match d !! tr with
    | Some l => Some l
    | None => if decide (tr ∈ ts) then Some [] else None
    end.
Proof.
  revert d. induction ts as [|t0 ts IH]; intros d; cbn [foldl].
  - by destruct (d !! tr).
  - rewrite IH. unfold BDDReachability.setdefault.
    destruct (d !! t0) as [l0|] eqn:Ht0.
    + destruct (d !! tr) as [l|] eqn:Htr; [done|].
      destruct (decide (tr ∈ ts)) as [Hin|Hnin].
      * rewrite decide_True by by right. done.
      * rewrite decide_False; [done|].
        intros [->|?]%elem_of_cons; [congruence|done].
    + destruct (decide (t0 = tr)) as [->|Hne].
      * rewrite lookup_insert_eq, Ht0. rewrite decide_True by left. done.
      * rewrite lookup_insert_ne by done.
        destruct (d !! tr); [done|].
        destruct (decide (tr ∈ ts)) as [Hin|Hnin].
        -- rewrite decide_True by by right. done.
        -- rewrite decide_False; [done|].
           intros [->|?]%elem_of_cons; done.
Qed.

Lemma fold_arcs_other (ts : gset string)
    (l : list (string * PetriNet.arc_info))
    (acc : gmap string (list string) * gmap string (list string)) (tr : string) :
  tr ∉ ts →
  let r := foldl (λ (acc : gmap string (list string) * gmap string (list string))
                    (item : string * PetriNet.arc_info),
                    if decide (item.1 ∈ ts) then
                      (<[item.1 := PetriNet.input item.2]> acc.1,
                       <[item.1 := PetriNet.output item.2]> acc.2)
                    else acc) acc l in
  r.1 !! tr = acc.1 !! tr ∧ r.2 !! tr = acc.2 !! tr.
Proof.
  intros Htr. revert acc. induction l as [|[t0 a] l IH]; intros acc; cbn.
  - done.
  - destruct (decide (t0 ∈ ts)) as [Ht0|Ht0].
    + destruct (IH (<[t0 := PetriNet.input a]> acc.1,
                    <[t0 := PetriNet.output a]> acc.2)) as [-> ->].
      cbn. rewrite !lookup_insert_ne by (intros ->; done). done.
    + apply IH.
Qed.

Lemma initialize_bdd_maps (e e' : BDDReachability.t) :
  BDDReachability.initialize_bdd e = Ok e' →
  ∃ e1, BDDReachability.petri_net e1 = BDDReachability.petri_net e
        ∧ BDDReachability.trans_in e1 = BDDReachability.trans_in e
        ∧ BDDReachability.trans_out e1 = BDDReachability.trans_out e
        ∧ BDDReachability.petri_net e' = BDDReachability.petri_net e
        ∧ BDDReachability.trans_in e'
          = (BDDReachability._build_transition_maps e1).1
        ∧ BDDReachability.trans_out e'
          = (BDDReachability._build_transition_maps e1).2.
Proof.
  unfold BDDReachability.initialize_bdd. intros Hrun.
  apply bind_Ok in Hrun as (s & Hs & Hrun).
  apply bind_Ok in Hrun as (T & HT & Hrun). injection Hrun as <-.
  eexists. cbn. repeat split; reflexivity.
Qed.

(** X20. After [initialize_bdd] on a new engine, [encode_transition(t)]
    reports for a transition of the net exactly the input and output places
    that [arcs] lists for it; for any other name it reports empty lists
    instead of raising, even when [arcs] has an entry under that name; and
    [encode_all_transitions] has one entry for each transition. *)
Theorem encode_transition_spec (net : PetriNet.t) (e' : BDDReachability.t) :
  well_formed net →
  BDDReachability.initialize_bdd (BDDReachability.__init__ net) = Ok e' →
  (∀ tr a, tr ∈ PetriNet.transitions net → PetriNet.arcs net !! tr = Some a →
           BDDReachability.encode_transition e' tr
           = BDDReachability.TransitionEncoding tr (PetriNet.input a)
               (PetriNet.output a))
  ∧ (∀ tr, tr ∉ PetriNet.transitions net →
           BDDReachability.encode_transition e' tr
           = BDDReachability.TransitionEncoding tr [] [])
  ∧ BDDReachability.enc_name <$> BDDReachability.encode_all_transitions e'
    = elements (PetriNet.transitions net).
Proof.
  intros Hwf Hrun.
  destruct (initialize_bdd_maps _ e' Hrun)
    as (e1 & Hnet1 & Hin1 & Hout1 & Hnet' & Hin' & Hout').
  cbn in Hnet1, Hin1, Hout1, Hnet'.
  split; [|split].
  - intros tr a Htr Ha. unfold BDDReachability.encode_transition.
    rewrite Hin', Hout'.
    destruct (build_transition_maps_lookup e1 tr a) as [-> ->];
      [by rewrite Hnet1..|]. done.
  - intros tr Htr. unfold BDDReachability.encode_transition.
    rewrite Hin', Hout'. unfold BDDReachability._build_transition_maps.
    rewrite Hnet1, Hin1, Hout1.
    destruct (fold_arcs_other (PetriNet.transitions net)
                (map_to_list (PetriNet.arcs net))
                (foldl BDDReachability.setdefault ∅
                   (elements (PetriNet.transitions net)),
                 foldl BDDReachability.setdefault ∅
                   (elements (PetriNet.transitions net))) tr Htr)
      as [-> ->].
    cbn [fst snd]. rewrite !setdefault_loop_lookup, lookup_empty.
    rewrite decide_False by by rewrite elem_of_elements. done.
  - unfold BDDReachability.encode_all_transitions. rewrite Hnet'.
    rewrite <- list_fmap_compose. apply list_fmap_id.
Qed.

Lemma encode_transition_spec_witness :
  ∃ e', BDDReachability.initialize_bdd (BDDReachability.__init__ net_p1_t1_p2)
        = Ok e'
        ∧ BDDReachability.encode_transition e' "t1"
          = BDDReachability.TransitionEncoding "t1" ["p1"] ["p2"].
Proof.
  destruct (initialize_bdd_initialized (BDDReachability.__init__ net_p1_t1_p2)
              well_formed_net_p1_t1_p2) as (e' & b & T & Hrun & _).
  exists e'. split; [exact Hrun|].
  destruct (encode_transition_spec net_p1_t1_p2 e' well_formed_net_p1_t1_p2
              Hrun) as (Hspec & _).
  apply (Hspec "t1" (PetriNet.ArcInfo ["p1"] ["p2"])).
  - vm_compute. reflexivity.
  - vm_compute. reflexivity.
Defined.

(** X21. On an initialised engine, [satisfies(encode_marking(m1), m2)] does
    not raise, and it is [True] exactly when the two markings hold the same
    tokens on every place of the net; places that are not places of the net
    play no role. *)
Theorem satisfies_encode_marking (net : PetriNet.t) (e' : BDDReachability.t)
    (m1 m2 : gmap string bool) :
  well_formed net →
  BDDReachability.initialize_bdd (BDDReachability.__init__ net) = Ok e' →
  ∃ enc answer,
    BDDReachability.encode_marking e' m1 = Ok enc
    ∧ BDDReachability.satisfies e' enc m2 = Ok answer
    ∧ (answer = true ↔ agree_on (PetriNet.places net) m1 m2).
Proof.
  intros Hwf Hrun.
  destruct (initialize_bdd_initialized (BDDReachability.__init__ net) Hwf)
    as (e1 & b & T & Hrun1 & Hi & _).
  rewrite Hrun in Hrun1. injection Hrun1 as <-. cbn in Hi.
  destruct (encode_marking_sem net e' b T m1 Hi) as (enc1 & Henc1 & Hsem1).
  destruct (encode_marking_sem net e' b T m2 Hi) as (enc2 & Henc2 & Hsem2).
  exists enc1. unfold BDDReachability.satisfies.
  rewrite Henc2, (init_bdd _ _ _ _ Hi). cbn [bind].
  eexists. split; [done|]. split; [reflexivity|].
  rewrite bdd_eq_spec. split.
  - intros Heq p Hp.
    assert (enc1 (marked (PetriNet.places net) m1) = true) as H1.
    { apply Hsem1. intros q Hq. by apply marked_encodes. }
    rewrite (Heq _ (marked_subseteq_vars net e' b T m1 Hi)) in H1.
    rewrite <- (proj1 (Hsem2 _) H1 p Hp). symmetry. by apply marked_encodes.
  - intros Hagree a _. apply Bool.eq_iff_eq_true. rewrite Hsem1, Hsem2.
    split; intros H p Hp; rewrite (H p Hp); [|symmetry]; by apply Hagree.
Qed.

Lemma satisfies_encode_marking_witness :
  ∃ e' enc answer,
    BDDReachability.initialize_bdd (BDDReachability.__init__ net_p1_t1_p2)
    = Ok e'
    ∧ BDDReachability.encode_marking e' {["p1" := true]} = Ok enc
    ∧ BDDReachability.satisfies e' enc {["p1" := true; "p2" := false]}
      = Ok answer.
Proof.
  destruct (initialize_bdd_initialized (BDDReachability.__init__ net_p1_t1_p2)
              well_formed_net_p1_t1_p2) as (e' & b & T & Hrun & _).
  destruct (satisfies_encode_marking net_p1_t1_p2 e' {["p1" := true]}
              {["p1" := true; "p2" := false]} well_formed_net_p1_t1_p2 Hrun)
    as (enc & answer & H1 & H2 & _).
  exists e', enc, answer. split; [exact Hrun|]. split; [exact H1 | exact H2].
Defined.

(** ** The PNML parser *)

Lemma parse_places_loop (l : list PNMLParser.place_elem) :
  ∀ (self : PNMLParser.t) (net : PetriNet.t) (m0 : gmap string bool),
    built net → PetriNet.initial_marking net = Some m0 →
    let ok :=
      NoDup (PNMLParser.place_id <$> l)
      ∧ (∀ place, place ∈ l →
                  PNMLParser.place_id place ∉ PetriNet.places net)
      ∧ (∀ place, place ∈ l →
                  ∃ b, PNMLParser.has_token_of (PNMLParser.place_marking place)
                       = Ok b) in
    match PNMLParser.loop l PNMLParser.parse_place (self, net) with
    | (Some e, _) => ¬ ok
    | (None, s') =>
        ok ∧ built s'.2
        ∧ PetriNet.places s'.2
          = PetriNet.places net ∪ list_to_set (PNMLParser.place_id <$> l)
        ∧ PetriNet.transitions s'.2 = PetriNet.transitions net
        ∧ PetriNet.arcs s'.2 = PetriNet.arcs net
        ∧ ∃ m', PetriNet.initial_marking s'.2 = Some m'
                ∧ (∀ q, q ∉ PNMLParser.place_id <$> l → m' !! q = m0 !! q)
                ∧ ∀ place, place ∈ l →
                    PNMLParser.has_token_of (PNMLParser.place_marking place)
                    = Ok (Marking.has_token m' (PNMLParser.place_id place))
    end.
Proof.
  induction l as [|x l IH]; intros self net m0 Hb Hm0; cbn zeta.
  - cbn. split.
    + split; [constructor|]. split; intros place Hp; by apply elem_of_nil in Hp.
    + split; [done|]. split; [set_solver|]. split; [done|]. split; [done|].
      exists m0. split; [done|]. split; [done|].
      intros place Hp. by apply elem_of_nil in Hp.
  - cbn [PNMLParser.loop]. unfold PNMLParser.parse_place at 1. cbn [fst snd].
    destruct (PNMLParser.has_token_of (PNMLParser.place_marking x))
      as [b|e] eqn:Htok; cbn [bind].
    2:{ intros (_ & _ & Hacc). destruct (Hacc x) as [b Hb']; [left|].
        congruence. }
    destruct (PetriNet.add_place net (PNMLParser.place_id x) b)
      as [net1|e] eqn:Hadd; cbn [bind].
    2:{ intros (_ & Hdisj & _). apply (Hdisj x); [left|].
        unfold PetriNet.add_place in Hadd.
        destruct (decide (PNMLParser.place_id x ∈ PetriNet.places net));
          [done|]. by rewrite Hm0 in Hadd. }
    assert (built net1) as Hb1 by (by eapply built_add_place).
    unfold PetriNet.add_place in Hadd.
    destruct (decide (PNMLParser.place_id x ∈ PetriNet.places net))
      as [|Hfresh]; [done|].
    rewrite Hm0 in Hadd. injection Hadd as <-.
    match goal with
    | |- context [PNMLParser.loop l _ (?s, ?n)] =>
        specialize (IH s n (Marking.set_token m0 (PNMLParser.place_id x) b)
                      Hb1 eq_refl)
    end.
    cbn zeta in IH. cbn [PetriNet.places PetriNet.transitions PetriNet.arcs] in IH.
    destruct (PNMLParser.loop l PNMLParser.parse_place _) as [[e|] s'].
    + intros (Hnd & Hdisj & Hacc). apply IH.
      cbn [fmap list_fmap] in Hnd. apply NoDup_cons in Hnd as [Hx Hnd].
      split; [done|]. split.
      * intros place Hp [Hin|Hin]%elem_of_union.
        -- apply elem_of_singleton in Hin. apply Hx. rewrite <- Hin.
           apply list_elem_of_fmap. eauto.
        -- apply (Hdisj place); [by right|done].
      * intros place Hp. apply Hacc. by right.
    + destruct IH as ((Hnd & Hdisj & Hacc) & Hb' & Hpl & Htr & Harcs
                      & m' & Hm' & Hother & Htoks).
      assert (PNMLParser.place_id x ∉ PNMLParser.place_id <$> l) as Hx.
      { intros (place & Heq & Hp)%list_elem_of_fmap.
        apply (Hdisj place Hp). rewrite <- Heq. set_solver. }
      split; [split; [|split]|].
      * cbn [fmap list_fmap]. by apply NoDup_cons.
      * intros place [->|Hp]%elem_of_cons; [done|].
        specialize (Hdisj place Hp). set_solver.
      * intros place [->|Hp]%elem_of_cons; [eauto|by apply Hacc].
      * split; [done|]. split.
        { rewrite Hpl. cbn [fmap list_fmap list_to_set]. set_solver. }
        split; [done|]. split; [done|].
        exists m'. split; [done|]. split.
        -- intros q Hq. cbn [fmap list_fmap] in Hq.
           apply not_elem_of_cons in Hq as [Hne Hq].
           rewrite (Hother q Hq). unfold Marking.set_token.
           by rewrite lookup_insert_ne.
        -- intros place [->|Hp]%elem_of_cons; [|by apply Htoks].
           rewrite Htok. f_equal. unfold Marking.has_token.
           rewrite (Hother _ Hx). unfold Marking.set_token.
           by rewrite lookup_insert_eq.
Qed.

Lemma parse_transitions_loop (l : list PNMLParser.transition_elem) :
  ∀ (self : PNMLParser.t) (net : PetriNet.t),
    built net →
    let ok :=
      NoDup (PNMLParser.transition_id <$> l)
      ∧ ∀ tr, tr ∈ l →
              PNMLParser.transition_id tr ∉ PetriNet.transitions net in
    match PNMLParser.loop l PNMLParser.parse_transition (self, net) with
    | (Some e, _) => ¬ ok
    | (None, s') =>
        ok ∧ built s'.2
        ∧ PetriNet.places s'.2 = PetriNet.places net
        ∧ PetriNet.transitions s'.2
          = PetriNet.transitions net
            ∪ list_to_set (PNMLParser.transition_id <$> l)
        ∧ PetriNet.initial_marking s'.2 = PetriNet.initial_marking net
        ∧ ∀ t, PetriNet.arcs s'.2 !! t
               = if decide (t ∈ PNMLParser.transition_id <$> l)
                 then Some (PetriNet.ArcInfo [] [])
                 else PetriNet.arcs net !! t
    end.
Proof.
  induction l as [|x l IH]; intros self net Hb; cbn zeta.
  - cbn. split.
    + split; [constructor|]. intros tr Hp; by apply elem_of_nil in Hp.
    + split; [done|]. split; [done|]. split; [set_solver|]. split; [done|].
      intros t. rewrite decide_False; [done|]. apply not_elem_of_nil.
  - cbn [PNMLParser.loop]. unfold PNMLParser.parse_transition at 1.
    cbn [fst snd].
    destruct (PetriNet.add_transition net (PNMLParser.transition_id x))
      as [net1|e] eqn:Hadd; cbn [bind].
    2:{ intros (_ & Hdisj). apply (Hdisj x); [left|].
        unfold PetriNet.add_transition in Hadd.
        by destruct (decide (PNMLParser.transition_id x
                             ∈ PetriNet.transitions net)). }
    assert (built net1) as Hb1 by (by eapply built_add_transition).
    unfold PetriNet.add_transition in Hadd.
    destruct (decide (PNMLParser.transition_id x ∈ PetriNet.transitions net))
      as [|Hfresh]; [done|].
    injection Hadd as <-.
    match goal with
    | |- context [PNMLParser.loop l _ (?s, ?n)] => specialize (IH s n Hb1)
    end.
    cbn zeta in IH.
    cbn [PetriNet.places PetriNet.transitions PetriNet.arcs
         PetriNet.initial_marking] in IH.
    destruct (PNMLParser.loop l PNMLParser.parse_transition _) as [[e|] s'].
    + intros (Hnd & Hdisj). apply IH.
      cbn [fmap list_fmap] in Hnd. apply NoDup_cons in Hnd as [Hx Hnd].
      split; [done|].
      intros tr Hp [Hin|Hin]%elem_of_union.
      * apply elem_of_singleton in Hin. apply Hx. rewrite <- Hin.
        apply list_elem_of_fmap. eauto.
      * apply (Hdisj tr); [by right|done].
    + destruct IH as ((Hnd & Hdisj) & Hb' & Hpl & Htr & Hm & Harcs).
      assert (PNMLParser.transition_id x ∉ PNMLParser.transition_id <$> l)
        as Hx.
      { intros (tr & Heq & Hp)%list_elem_of_fmap.
        apply (Hdisj tr Hp). rewrite <- Heq. set_solver. }
      split; [split|].
      * cbn [fmap list_fmap]. by apply NoDup_cons.
      * intros tr [->|Hp]%elem_of_cons; [done|].
        specialize (Hdisj tr Hp). set_solver.
      * split; [done|]. split; [done|]. split.
        { rewrite Htr. cbn [fmap list_fmap list_to_set]. set_solver. }
        split; [done|]. intros t. rewrite Harcs. cbn [fmap list_fmap].
        destruct (decide (t ∈ PNMLParser.transition_id <$> l)) as [Hin|Hnin].
        -- rewrite decide_True by by right. done.
        -- destruct (decide (t = PNMLParser.transition_id x)) as [->|Hne].
           ++ rewrite decide_True by left. apply lookup_insert_eq.
           ++ rewrite decide_False.
              2:{ intros [?|?]%elem_of_cons; done. }
              by apply lookup_insert_ne.
Qed.

Lemma built_arcs_entry (net : PetriNet.t) (t : string) :
  built net → t ∈ PetriNet.transitions net →
  ∃ a, PetriNet.arcs net !! t = Some a.
Proof.
  intros Hb Ht. destruct (built_invariant net Hb) as [[Hts _] _].
  apply Hts in Ht. by apply elem_of_dom in Ht.
Qed.

Lemma parse_arcs_loop (l : list PNMLParser.arc_elem) :
  ∀ (self : PNMLParser.t) (net : PetriNet.t),
    built net →
    let is_in := λ arc, PNMLParser.arc_source arc ∈ PetriNet.places net
                        ∧ PNMLParser.arc_target arc ∈ PetriNet.transitions net in
    let ok :=
      ∀ arc, arc ∈ l →
             PNMLParser.weight_of (PNMLParser.arc_inscription arc) = Ok 1
             ∧ (is_in arc
                ∨ (PNMLParser.arc_source arc ∈ PetriNet.transitions net
                   ∧ PNMLParser.arc_target arc ∈ PetriNet.places net)) in
    match PNMLParser.loop l PNMLParser.parse_arc (self, net) with
    | (Some e, _) => ¬ ok
    | (None, s') =>
        ok ∧ built s'.2
        ∧ PetriNet.places s'.2 = PetriNet.places net
        ∧ PetriNet.transitions s'.2 = PetriNet.transitions net
        ∧ PetriNet.initial_marking s'.2 = PetriNet.initial_marking net
        ∧ ∀ t a0, PetriNet.arcs net !! t = Some a0 →
            PetriNet.arcs s'.2 !! t
            = Some (PetriNet.ArcInfo
                      (PetriNet.input a0
                       ++ (PNMLParser.arc_source
                           <$> filter (λ arc, is_in arc
                                              ∧ PNMLParser.arc_target arc = t)
                                 l))
                      (PetriNet.output a0
                       ++ (PNMLParser.arc_target
                           <$> filter (λ arc, ¬ is_in arc
                                              ∧ PNMLParser.arc_source arc = t)
                                 l)))
    end.
Proof.
  induction l as [|x l IH]; intros self net Hb; cbn zeta.
  - cbn. split; [intros arc Hp; by apply elem_of_nil in Hp|].
    split; [done|]. split; [done|]. split; [done|]. split; [done|].
    intros t [i o] Ha. cbn. by rewrite !app_nil_r.
  - cbn [PNMLParser.loop]. unfold PNMLParser.parse_arc at 1. cbn [fst snd].
    destruct (PNMLParser.weight_of (PNMLParser.arc_inscription x))
      as [w|e] eqn:Hw; cbn [bind].
    2:{ intros Hok. destruct (Hok x) as [? _]; [left|]. congruence. }
    destruct (decide (w ≠ 1)) as [Hw1|Hw1].
    { intros Hok. destruct (Hok x) as [? _]; [left|]. congruence. }
    assert (w = 1) as -> by lia. clear Hw1.
    destruct (PetriNet.add_arc net (PNMLParser.arc_source x)
                (PNMLParser.arc_target x)) as [net1|e] eqn:Hadd; cbn [bind].
    2:{ intros Hok. destruct (Hok x) as [_ Hconn]; [left|].
        unfold PetriNet.add_arc in Hadd.
        destruct (decide (_ ∧ _)); [done|].
        destruct (decide (_ ∧ _)); [done|]. tauto. }
    assert (built net1) as Hb1 by (by eapply built_add_arc).
    assert (PetriNet.places net1 = PetriNet.places net
            ∧ PetriNet.transitions net1 = PetriNet.transitions net
            ∧ PetriNet.initial_marking net1 = PetriNet.initial_marking net
            ∧ ((PNMLParser.arc_source x ∈ PetriNet.places net
                ∧ PNMLParser.arc_target x ∈ PetriNet.transitions net)
               ∨ (PNMLParser.arc_source x ∈ PetriNet.transitions net
                  ∧ PNMLParser.arc_target x ∈ PetriNet.places net))
            ∧ ∀ t a0, PetriNet.arcs net !! t = Some a0 →
                PetriNet.arcs net1 !! t
                = Some (PetriNet.ArcInfo
                          (PetriNet.input a0
                           ++ (if decide ((PNMLParser.arc_source x
                                           ∈ PetriNet.places net
                                           ∧ PNMLParser.arc_target x
                                             ∈ PetriNet.transitions net)
                                          ∧ PNMLParser.arc_target x = t)
                               then [PNMLParser.arc_source x] else []))
                          (PetriNet.output a0
                           ++ (if decide (¬ (PNMLParser.arc_source x
                                             ∈ PetriNet.places net
                                             ∧ PNMLParser.arc_target x
                                               ∈ PetriNet.transitions net)
                                          ∧ PNMLParser.arc_source x = t)
                               then [PNMLParser.arc_target x] else []))))
      as (Hpl1 & Htr1 & Hm1 & Hconn & Harcs1).
    { unfold PetriNet.add_arc in Hadd.
      destruct (decide (PNMLParser.arc_source x ∈ PetriNet.places net
                        ∧ PNMLParser.arc_target x ∈ PetriNet.transitions net))
        as [Hin|Hnin].
      - injection Hadd as <-. cbn. split; [done|]. split; [done|].
        split; [done|]. split; [by left|].
        intros t [i o] Ha. rewrite (decide_False (P := ¬ _ ∧ _)) by tauto.
        destruct (decide (PNMLParser.arc_target x = t)) as [<-|Hne].
        + rewrite lookup_insert_eq, Ha. cbn.
          rewrite decide_True by done. by rewrite app_nil_r.
        + rewrite lookup_insert_ne by done. rewrite decide_False by tauto.
          cbn. by rewrite Ha, !app_nil_r.
      - destruct (decide (PNMLParser.arc_source x ∈ PetriNet.transitions net
                          ∧ PNMLParser.arc_target x ∈ PetriNet.places net))
          as [Hout|]; [|done].
        injection Hadd as <-. cbn. split; [done|]. split; [done|].
        split; [done|]. split; [by right|].
        intros t [i o] Ha. rewrite (decide_False (P := (_ ∧ _) ∧ _)) by tauto.
        destruct (decide (PNMLParser.arc_source x = t)) as [<-|Hne].
        + rewrite lookup_insert_eq, Ha. cbn.
          rewrite decide_True by done. by rewrite app_nil_r.
        + rewrite lookup_insert_ne by done. rewrite decide_False by tauto.
          cbn. by rewrite Ha, !app_nil_r. }
    clear Hadd.
    match goal with
    | |- context [PNMLParser.loop l _ (?s, ?n)] => specialize (IH s n Hb1)
    end.
    cbn zeta in IH. rewrite Hpl1, Htr1 in IH.
    destruct (PNMLParser.loop l PNMLParser.parse_arc _) as [[e|] s'].
    + intros Hok. apply IH. intros arc Hp. apply Hok. by right.
    + destruct IH as (Hok & Hb' & Hpl & Htr & Hm & Harcs).
      split.
      { intros arc [->|Hp]%elem_of_cons; [by split|by apply Hok]. }
      split; [done|]. split; [done|]. split; [done|].
      split; [by rewrite Hm|].
      intros t a0 Ha. rewrite (Harcs t _ (Harcs1 t a0 Ha)). cbn.
      f_equal. f_equal.
      * rewrite <- app_assoc. f_equal. by destruct (decide (_ ∧ _)).
      * rewrite <- app_assoc. f_equal. by destruct (decide (_ ∧ _)).
Qed.

Lemma has_token_of_readable (marking : PNMLParser.text_elem) :
  (∃ b, PNMLParser.has_token_of marking = Ok b) ↔ readable_marking marking.
Proof.
  destruct marking as [| |[z|msg]]; cbn.
  - split; eauto.
  - split; [intros [b Hb]; done|done].
  - destruct (decide (1 < z)); split; try lia; eauto.
    intros [b Hb]. done.
  - destruct (PNMLParser.contains "not 1-safe" msg); split; eauto.
    + intros [b Hb]. done.
    + done.
Qed.

Lemma has_token_of_one (marking : PNMLParser.text_elem) (b : bool) :
  PNMLParser.has_token_of marking = Ok b →
  b = true ↔ marking = PNMLParser.Text (PNMLParser.IntValue 1).
Proof.
  destruct marking as [| |[z|msg]]; cbn.
  - intros [= <-]. done.
  - done.
  - destruct (decide (1 < z)); [done|]. intros [= <-].
    rewrite bool_decide_eq_true. split; [by intros ->|by intros [= ->]].
  - destruct (PNMLParser.contains "not 1-safe" msg); [done|].
    intros [= <-]. done.
Qed.

Lemma weight_of_unit (inscription : PNMLParser.text_elem) :
  PNMLParser.weight_of inscription = Ok 1 ↔ unit_weight inscription.
Proof.
  destruct inscription as [| |[z|msg]]; cbn; try done.
  split; [by intros [= ->]|by intros ->].
Qed.

Lemma parse_file_outcome (root : PNMLParser.document) (self : PNMLParser.t) :
  match (PNMLParser.parse_file (PNMLParser.Wellformed root) self).1 with
  | inr net =>
      valid_document root
      ∧ built net
      ∧ PetriNet.places net = list_to_set (place_ids root)
      ∧ PetriNet.transitions net = list_to_set (transition_ids root)
      ∧ (∃ m0, PetriNet.initial_marking net = Some m0
               ∧ ∀ place, place ∈ PNMLParser.doc_places root →
                   PNMLParser.has_token_of (PNMLParser.place_marking place)
                   = Ok (Marking.has_token m0 (PNMLParser.place_id place)))
      ∧ ∀ t, t ∈ transition_ids root →
             PetriNet.arcs net !! t
             = Some (PetriNet.ArcInfo (inputs_of root t) (outputs_of root t))
  | inl _ => ¬ valid_document root
  end.
Proof.
  unfold PNMLParser.parse_file.
  pose proof (parse_places_loop (PNMLParser.doc_places root) self
                PetriNet.__init__ ∅ built_init eq_refl) as H1.
  cbn zeta in H1.
  destruct (PNMLParser.loop (PNMLParser.doc_places root) _ _)
    as [[e|] [self1 net1]]; cbn [fst snd] in *.
  { intros (Hnd & Hacc & _). apply H1. split; [done|]. split.
    - intros place _. cbn. apply not_elem_of_empty.
    - intros place Hp. apply has_token_of_readable. by apply Hacc. }
  destruct H1 as ((Hnd1 & _ & Hacc) & Hb1 & Hpl1 & Htr1 & Harcs1
                  & m1 & Hm1 & _ & Htoks).
  cbn [PetriNet.places PetriNet.transitions PetriNet.arcs PetriNet.__init__]
    in Hpl1, Htr1, Harcs1.
  rewrite (left_id_L ∅ (∪)) in Hpl1.
  pose proof (parse_transitions_loop (PNMLParser.doc_transitions root)
                self1 net1 Hb1) as H2.
  cbn zeta in H2. rewrite Htr1 in H2.
  destruct (PNMLParser.loop (PNMLParser.doc_transitions root) _ _)
    as [[e|] [self2 net2]]; cbn [fst snd] in *.
  { intros (_ & _ & Hnd & _). apply H2. split; [done|].
    intros tr _. apply not_elem_of_empty. }
  destruct H2 as ((Hnd2 & _) & Hb2 & Hpl2 & Htr2 & Hm2 & Harcs2).
  rewrite (left_id_L ∅ (∪)) in Htr2. rewrite Hpl1 in Hpl2.
  pose proof (parse_arcs_loop (PNMLParser.doc_arcs root) self2 net2 Hb2) as H3.
  cbn zeta in H3. rewrite Hpl2, Htr2 in H3.
  assert (∀ arc, (PNMLParser.arc_source arc
                    ∈ (list_to_set (PNMLParser.place_id
                                    <$> PNMLParser.doc_places root)
                       : gset string)
                  ∧ PNMLParser.arc_target arc
                    ∈ (list_to_set (PNMLParser.transition_id
                                    <$> PNMLParser.doc_transitions root)
                       : gset string))
                 ↔ is_input_arc root arc) as Hin.
  { intros arc. unfold is_input_arc, place_ids, transition_ids.
    by rewrite !elem_of_list_to_set. }
  destruct (PNMLParser.loop (PNMLParser.doc_arcs root) _ _)
    as [[e|] [self3 net3]]; cbn [fst snd] in *.
  { intros (_ & _ & _ & Harcs). apply H3. intros arc Harc.
    destruct (Harcs arc Harc) as [Hw Hconn].
    split; [by apply weight_of_unit|].
    unfold place_ids, transition_ids in Hconn.
    rewrite !elem_of_list_to_set. done. }
  destruct H3 as (Hok3 & Hb3 & Hpl3 & Htr3 & Hm3 & Harcs3).
  destruct (built_invariant net3 Hb3) as [Hc3 (m3 & Hm3' & Hdom3)].
  rewrite (consistent_validates net3 m3 Hc3 Hm3' Hdom3). cbn [fst].
  split.
  { split; [done|]. split.
    { intros place Hp. apply has_token_of_readable. by apply Hacc. }
    split; [done|].
    intros arc Harc. destruct (Hok3 arc Harc) as [Hw Hconn].
    split; [by apply weight_of_unit|]. unfold place_ids, transition_ids.
    rewrite !elem_of_list_to_set in Hconn. done. }
  split; [done|]. split; [by rewrite Hpl3|]. split; [by rewrite Htr3|].
  split.
  { exists m1. split; [by rewrite Hm3, Hm2|]. done. }
  intros t Ht.
  rewrite (Harcs3 t (PetriNet.ArcInfo [] [])).
  2:{ rewrite Harcs2. by rewrite decide_True. }
  cbn [PetriNet.input PetriNet.output app].
  unfold inputs_of, outputs_of. f_equal. f_equal.
  - f_equal. apply list_filter_iff. intros arc. by rewrite Hin.
  - f_equal. apply list_filter_iff. intros arc. by rewrite Hin.
Qed.

(** X22. [parse_file] returns a net exactly for the documents of 1-safe
    nets: the place ids are distinct and every initial marking is absent, an
    integer that is at most 1, or a text that is not an integer (and whose
    error message does not contain the words not 1-safe); the transition ids
    are distinct; every arc has no inscription, the
    inscription 1 or an inscription that is not an integer, and joins a place
    and a transition. For any other document it raises. The check of
    [validate_consistency] at its end never fails, and nothing depends on
    what the parser object held before. *)
Theorem parse_file_accepts_valid_documents (root : PNMLParser.document)
    (self : PNMLParser.t) :
  (∃ net, (PNMLParser.parse_file (PNMLParser.Wellformed root) self).1 = inr net)
  ↔ valid_document root.
Proof.
  pose proof (parse_file_outcome root self) as H.
  destruct (PNMLParser.parse_file (PNMLParser.Wellformed root) self).1
    as [err|net]; split.
  - intros [net Hnet]. discriminate Hnet.
  - intros Hv. done.
  - intros _. apply H.
  - intros _. eauto.
Qed.

(** X23. The net that [parse_file] returns is the net of the document: its
    places and transitions are the ids of the document, its initial marking
    stores exactly the places and a place holds a token exactly when the
    document gives it the initial marking 1, every transition has the input
    and output places that the arcs of the document give it, in their order,
    and the net passes [validate_consistency] unchanged. *)
Theorem parse_file_returns_the_net (root : PNMLParser.document)
    (self : PNMLParser.t) (net : PetriNet.t) :
  (PNMLParser.parse_file (PNMLParser.Wellformed root) self).1 = inr net →
  PetriNet.places net = list_to_set (place_ids root)
  ∧ PetriNet.transitions net = list_to_set (transition_ids root)
  ∧ (∃ m0, PetriNet.initial_marking net = Some m0
           ∧ dom m0 = PetriNet.places net
           ∧ ∀ place, place ∈ PNMLParser.doc_places root →
               Marking.has_token m0 (PNMLParser.place_id place) = true
               ↔ PNMLParser.place_marking place
                 = PNMLParser.Text (PNMLParser.IntValue 1))
  ∧ (∀ t, t ∈ transition_ids root →
          PetriNet.arcs net !! t
          = Some (PetriNet.ArcInfo (inputs_of root t) (outputs_of root t)))
  ∧ PetriNet.validate_consistency net = Ok (true, [], net).
Proof.
  intros Hnet. pose proof (parse_file_outcome root self) as H.
  rewrite Hnet in H.
  destruct H as (_ & Hb & Hpl & Htr & (m0 & Hm0 & Htoks) & Harcs).
  destruct (built_invariant net Hb) as [Hc (m & Hm & Hdom)].
  split; [done|]. split; [done|]. split.
  { exists m0. split; [done|]. split; [congruence|].
    intros place Hp. by apply has_token_of_one, Htoks. }
  split; [done|]. by apply (consistent_validates net m).
Qed.

Lemma parse_file_returns_the_net_witness :
  ∃ net,
    (PNMLParser.parse_file (PNMLParser.Wellformed document_p1_t1)
       PNMLParser.__init__).1 = inr net
    ∧ PetriNet.places net = list_to_set (place_ids document_p1_t1)
    ∧ PetriNet.validate_consistency net = Ok (true, [], net).
Proof.
  destruct (PNMLParser.parse_file (PNMLParser.Wellformed document_p1_t1)
              PNMLParser.__init__).1 as [err|net] eqn:Hrun.
  { vm_compute in Hrun. discriminate Hrun. }
  exists net. split; [reflexivity|].
  destruct (parse_file_returns_the_net document_p1_t1 PNMLParser.__init__ net
              Hrun) as (H1 & _ & _ & _ & H2).
  split; [exact H1 | exact H2].
Defined.

Lemma loop_invariant {A S} (I : S → Prop) (l : list A)
    (body : A → S → result S) (s : S) :
  (∀ x s s', body x s = Ok s' → I s → I s') →
  I s → I (PNMLParser.loop l body s).2.
Proof.
  intros Hbody. revert s. induction l as [|x l IH]; intros s Hs; cbn; [done|].
  destruct (body x s) as [s'|e] eqn:Hx; [|done].
  apply IH. by eapply Hbody.
Qed.

Lemma parse_file_binary (filepath : PNMLParser.file) (self : PNMLParser.t) :
  binary_marking self →
  binary_marking (PNMLParser.parse_file filepath self).2.
Proof.
  intros Hbin. unfold PNMLParser.parse_file.
  destruct filepath as [| |root]; [done..|].
  pose proof (loop_invariant (λ s : PNMLParser.t * PetriNet.t,
                                binary_marking s.1)
                (PNMLParser.doc_places root) PNMLParser.parse_place
                (self, PetriNet.__init__)) as H1.
  destruct (PNMLParser.loop (PNMLParser.doc_places root) _ _) as [o1 s1].
  cbn [snd] in H1.
  assert (binary_marking s1.1) as Hs1.
  { apply H1; [|done]. intros x s s' Hx Hs.
    unfold PNMLParser.parse_place in Hx.
    apply bind_Ok in Hx as (b & _ & Hx). apply bind_Ok in Hx as (n & _ & Hx).
    injection Hx as <-. unfold binary_marking. cbn. intros p v.
    destruct (decide (PNMLParser.place_id x = p)) as [->|Hne].
    - rewrite lookup_insert_eq. intros [= <-]. destruct b; auto.
    - rewrite lookup_insert_ne by done. apply Hs. }
  destruct o1 as [e|]; [done|].
  pose proof (loop_invariant (λ s : PNMLParser.t * PetriNet.t,
                                binary_marking s.1)
                (PNMLParser.doc_transitions root) PNMLParser.parse_transition
                s1) as H2.
  destruct (PNMLParser.loop (PNMLParser.doc_transitions root) _ _) as [o2 s2].
  cbn [snd] in H2.
  assert (binary_marking s2.1) as Hs2.
  { apply H2; [|done]. intros x s s' Hx Hs.
    unfold PNMLParser.parse_transition in Hx.
    apply bind_Ok in Hx as (n & _ & Hx). injection Hx as <-. exact Hs. }
  destruct o2 as [e|]; [done|].
  pose proof (loop_invariant (λ s : PNMLParser.t * PetriNet.t,
                                binary_marking s.1)
                (PNMLParser.doc_arcs root) PNMLParser.parse_arc s2) as H3.
  destruct (PNMLParser.loop (PNMLParser.doc_arcs root) _ _) as [o3 s3].
  cbn [snd] in H3.
  assert (binary_marking s3.1) as Hs3.
  { apply H3; [|done]. intros x s s' Hx Hs.
    unfold PNMLParser.parse_arc in Hx.
    apply bind_Ok in Hx as (w & _ & Hx).
    destruct (decide (w ≠ 1)) as [|_]; [done|].
    apply bind_Ok in Hx as (n & _ & Hx). injection Hx as <-. exact Hs. }
  destruct o3 as [e|]; [done|].
  destruct (PetriNet.validate_consistency s3.2) as [[[v errs] n]|e]; [|done].
  by destruct v.
Qed.

Lemma validate_1safe_loop_true (items : list (string * Z)) :
  (∀ kv, kv ∈ items → kv.2 ≤ 1) →
  PNMLParser.validate_1safe_loop items = true.
Proof.
  induction items as [|[p v] items IH]; intros Hall; cbn; [done|].
  destruct (decide (1 < v)) as [Hv|_].
  - specialize (Hall (p, v)). cbn in Hall.
    assert (v ≤ 1) by (apply Hall; left). lia.
  - apply IH. intros kv Hkv. apply Hall. by right.
Qed.

(** X24. [validate_1safe] can only return [True]: whatever files a parser
    has been given, and whether [parse_file] returned or raised on them, the
    counts it has recorded in [self.initial_marking] are 0 or 1. A document
    with more than one token in a place makes [parse_file] raise before the
    count is recorded. *)
Theorem validate_1safe_always_true (self : PNMLParser.t) :
  parser_used self →
  binary_marking self ∧ PNMLParser.validate_1safe self = true.
Proof.
  intros Hused.
  assert (binary_marking self) as Hbin.
  { induction Hused as [|filepath self _ IH].
    - intros p v Hp. cbn in Hp. by rewrite lookup_empty in Hp.
    - by apply parse_file_binary. }
  split; [done|]. unfold PNMLParser.validate_1safe.
  apply validate_1safe_loop_true. intros [p v] Hkv.
  apply elem_of_map_to_list in Hkv. cbn.
  destruct (Hbin p v Hkv) as [->| ->]; lia.
Qed.

Lemma validate_1safe_always_true_witness :
  PNMLParser.validate_1safe
    (PNMLParser.parse_file (PNMLParser.Wellformed document_p1_t1)
       PNMLParser.__init__).2 = true.
Proof.
  apply validate_1safe_always_true. apply parser_parse. apply parser_new.
Defined.

Lemma parse_places_self (l : list PNMLParser.place_elem) :
  ∀ (self : PNMLParser.t) (net : PetriNet.t) (s' : PNMLParser.t * PetriNet.t),
    PNMLParser.loop l PNMLParser.parse_place (self, net) = (None, s') →
    PNMLParser.places s'.1
    = PNMLParser.places self ++ (PNMLParser.place_id <$> l)
    ∧ PNMLParser.transitions s'.1 = PNMLParser.transitions self
    ∧ PNMLParser.arcs s'.1 = PNMLParser.arcs self
    ∧ (∀ q, q ∉ PNMLParser.place_id <$> l →
            PNMLParser.initial_marking s'.1 !! q
            = PNMLParser.initial_marking self !! q)
    ∧ (NoDup (PNMLParser.place_id <$> l) →
       ∀ place b, place ∈ l →
         PNMLParser.has_token_of (PNMLParser.place_marking place) = Ok b →
         PNMLParser.initial_marking s'.1 !! PNMLParser.place_id place
         = Some (if b then 1 else 0)).
Proof.
  induction l as [|x l IH]; intros self net s' Hrun; cbn in Hrun.
  - injection Hrun as <-. cbn. rewrite app_nil_r.
    repeat split; try done. intros _ place b Hp. by apply elem_of_nil in Hp.
  - destruct (PNMLParser.parse_place x (self, net)) as [[self1 net1]|e] eqn:Hx;
      [|done].
    unfold PNMLParser.parse_place in Hx. cbn [fst snd] in Hx.
    apply bind_Ok in Hx as (b0 & Hb0 & Hx).
    apply bind_Ok in Hx as (n & _ & Hx). injection Hx as <- <-.
    destruct (IH _ _ _ Hrun) as (Hpl & Htr & Harcs & Hother & Htoks).
    cbn in Hpl, Htr, Harcs, Hother, Htoks.
    split; [by rewrite Hpl, <- app_assoc|]. split; [done|]. split; [done|].
    split.
    + intros q Hq. cbn [fmap list_fmap] in Hq.
      apply not_elem_of_cons in Hq as [Hne Hq].
      rewrite (Hother q Hq). by apply lookup_insert_ne.
    + intros Hnd. cbn [fmap list_fmap] in Hnd.
      apply NoDup_cons in Hnd as [Hx Hnd].
      intros place b [->|Hp]%elem_of_cons Hb.
      * rewrite Hb0 in Hb. injection Hb as ->.
        rewrite (Hother _ Hx). apply lookup_insert_eq.
      * by apply Htoks.
Qed.

Lemma parse_transitions_self (l : list PNMLParser.transition_elem) :
  ∀ (self : PNMLParser.t) (net : PetriNet.t) (s' : PNMLParser.t * PetriNet.t),
    PNMLParser.loop l PNMLParser.parse_transition (self, net) = (None, s') →
    PNMLParser.places s'.1 = PNMLParser.places self
    ∧ PNMLParser.transitions s'.1
      = PNMLParser.transitions self ++ (PNMLParser.transition_id <$> l)
    ∧ PNMLParser.arcs s'.1 = PNMLParser.arcs self
    ∧ PNMLParser.initial_marking s'.1 = PNMLParser.initial_marking self.
Proof.
  induction l as [|x l IH]; intros self net s' Hrun; cbn in Hrun.
  - injection Hrun as <-. cbn. by rewrite app_nil_r.
  - destruct (PNMLParser.parse_transition x (self, net))
      as [[self1 net1]|e] eqn:Hx; [|done].
    unfold PNMLParser.parse_transition in Hx. cbn [fst snd] in Hx.
    apply bind_Ok in Hx as (n & _ & Hx). injection Hx as <- <-.
    destruct (IH _ _ _ Hrun) as (Hpl & Htr & Harcs & Hm).
    cbn in Hpl, Htr, Harcs, Hm.
    split; [done|]. split; [by rewrite Htr, <- app_assoc|]. done.
Qed.

Lemma parse_arcs_self (l : list PNMLParser.arc_elem) :
  ∀ (self : PNMLParser.t) (net : PetriNet.t) (s' : PNMLParser.t * PetriNet.t),
    PNMLParser.loop l PNMLParser.parse_arc (self, net) = (None, s') →
    PNMLParser.places s'.1 = PNMLParser.places self
    ∧ PNMLParser.transitions s'.1 = PNMLParser.transitions self
    ∧ PNMLParser.arcs s'.1
      = PNMLParser.arcs self
        ++ ((λ arc, (PNMLParser.arc_source arc, PNMLParser.arc_target arc))
            <$> l)
    ∧ PNMLParser.initial_marking s'.1 = PNMLParser.initial_marking self.
Proof.
  induction l as [|x l IH]; intros self net s' Hrun; cbn in Hrun.
  - injection Hrun as <-. cbn. by rewrite app_nil_r.
  - destruct (PNMLParser.parse_arc x (self, net))
      as [[self1 net1]|e] eqn:Hx; [|done].
    unfold PNMLParser.parse_arc in Hx. cbn [fst snd] in Hx.
    apply bind_Ok in Hx as (w & _ & Hx).
    destruct (decide (w ≠ 1)) as [|_]; [done|].
    apply bind_Ok in Hx as (n & _ & Hx). injection Hx as <- <-.
    destruct (IH _ _ _ Hrun) as (Hpl & Htr & Harcs & Hm).
    cbn in Hpl, Htr, Harcs, Hm.
    split; [done|]. split; [done|]. split; [|done].
    by rewrite Harcs, <- app_assoc.
Qed.

(** X25. A call of [parse_file] that returns appends to what the parser
    already held: [get_parsed_data] then gives the old lists followed by the
    place ids, the transition ids and the (source, target) pairs of the
    document, in its order, and a marking dictionary in which the places of
    the document have the count 1 or 0 of the document and every other entry
    is as before. The lists are never reset, so a parser that is used twice
    reports both documents. *)
Theorem get_parsed_data_accumulates (root : PNMLParser.document)
    (self : PNMLParser.t) (net : PetriNet.t) :
  (PNMLParser.parse_file (PNMLParser.Wellformed root) self).1 = inr net →
  ∃ marking,
    PNMLParser.get_parsed_data
      (PNMLParser.parse_file (PNMLParser.Wellformed root) self).2
    = (PNMLParser.places self ++ place_ids root,
       PNMLParser.transitions self ++ transition_ids root,
       PNMLParser.arcs self
       ++ ((λ arc, (PNMLParser.arc_source arc, PNMLParser.arc_target arc))
           <$> PNMLParser.doc_arcs root),
       marking)
    ∧ (∀ q, q ∉ place_ids root →
            marking !! q = PNMLParser.initial_marking self !! q)
    ∧ ∀ place, place ∈ PNMLParser.doc_places root →
        marking !! PNMLParser.place_id place
        = Some (if Marking.has_token
                     (default ∅ (PetriNet.initial_marking net))
                     (PNMLParser.place_id place)
                then 1 else 0).
Proof.
  intros Hnet. pose proof (parse_file_outcome root self) as Hout.
  rewrite Hnet in Hout.
  destruct Hout as ((Hnd & _) & _ & _ & _ & (m0 & Hm0 & Htoks) & _).
  unfold PNMLParser.parse_file in *.
  destruct (PNMLParser.loop (PNMLParser.doc_places root) _ _)
    as [[e|] s1] eqn:H1; [done|].
  destruct (PNMLParser.loop (PNMLParser.doc_transitions root) _ _)
    as [[e|] s2] eqn:H2; [done|].
  destruct (PNMLParser.loop (PNMLParser.doc_arcs root) _ _)
    as [[e|] s3] eqn:H3; [done|].
  destruct (PetriNet.validate_consistency s3.2) as [[[v errs] n]|e]; [|done].
  destruct v; [|done]. cbn [fst snd] in *.
  destruct s1 as [self1 net1], s2 as [self2 net2], s3 as [self3 net3].
  destruct (parse_places_self _ _ _ _ H1) as (Hp1 & Ht1 & Ha1 & Ho1 & Hk1).
  destruct (parse_transitions_self _ _ _ _ H2) as (Hp2 & Ht2 & Ha2 & Hm2).
  destruct (parse_arcs_self _ _ _ _ H3) as (Hp3 & Ht3 & Ha3 & Hm3).
  cbn [fst snd] in *.
  exists (PNMLParser.initial_marking self3).
  unfold PNMLParser.get_parsed_data. split.
  { rewrite Hp3, Hp2, Hp1, Ht3, Ht2, Ht1, Ha3, Ha2, Ha1. done. }
  rewrite Hm3, Hm2. split; [exact Ho1|].
  intros place Hp. rewrite Hm0. cbn [default from_option]. unfold id.
  apply (Hk1 Hnd place _ Hp). by apply Htoks.
Qed.

Lemma get_parsed_data_accumulates_witness :
  ∃ marking,
    PNMLParser.get_parsed_data
      (PNMLParser.parse_file (PNMLParser.Wellformed document_p1_t1)
         PNMLParser.__init__).2
    = (["p1"], ["t1"], [("p1", "t1")], marking).
Proof.
  destruct (PNMLParser.parse_file (PNMLParser.Wellformed document_p1_t1)
              PNMLParser.__init__).1 as [err|net] eqn:Hrun.
  { vm_compute in Hrun. discriminate Hrun. }
  destruct (get_parsed_data_accumulates document_p1_t1 PNMLParser.__init__ net
              Hrun) as (marking & Hdata & _).
  exists marking. exact Hdata.
Defined.

(** ** The optimizer in greedy mode *)

Lemma conjoin_chosen_ok (b : BDD.manager) (chosen : list string)
    (t : gset string → bool) :
  (∀ q, q ∈ chosen → q ∈ BDD.vars b) →
  ∃ r, MarkingOptimizer.conjoin_chosen b chosen t = Ok r.
Proof.
  revert t. induction chosen as [|q chosen IH]; intros t Hvars; cbn.
  - eauto.
  - unfold BDD.var. rewrite decide_True by (apply Hvars; left). cbn [bind].
    destruct (BDD.__eq__ b _ BDD.false_); [eauto|].
    apply IH. intros q' Hq'. apply Hvars. by right.
Qed.

Lemma greedy_step_ok (b : BDD.manager) (weights : gmap string Z) (p : string)
    (s : (gset string → bool) * list string) :
  p ∈ BDD.vars b → (∀ q, q ∈ s.2 → q ∈ BDD.vars b) →
  ∃ s', MarkingOptimizer.greedy_step b weights p s = Ok s'
        ∧ ∀ q, q ∈ s'.2 → q ∈ BDD.vars b.
Proof.
  intros Hp Hs. unfold MarkingOptimizer.greedy_step.
  destruct (bool_decide _); [eauto|].
  destruct (conjoin_chosen_ok b s.2 s.1 Hs) as [t ->]. cbn [bind].
  destruct (BDD.__eq__ b t BDD.false_); [eauto|].
  unfold BDD.var. rewrite decide_True by done. cbn [bind].
  destruct (BDD.__ne__ b _ BDD.false_); [|eauto].
  eexists. split; [reflexivity|]. cbn. intros q [Hq|Hq]%elem_of_app.
  - by apply Hs.
  - by apply list_elem_of_singleton in Hq as ->.
Qed.

Lemma greedy_loop_ok (b : BDD.manager) (weights : gmap string Z)
    (l : list string) (s : (gset string → bool) * list string) :
  (∀ p, p ∈ l → p ∈ BDD.vars b) → (∀ q, q ∈ s.2 → q ∈ BDD.vars b) →
  ∃ s', for_each l (MarkingOptimizer.greedy_step b weights) s = Ok s'
        ∧ ∀ q, q ∈ s'.2 → q ∈ BDD.vars b.
Proof.
  revert s. induction l as [|p l IH]; intros s Hl Hs; cbn [for_each].
  - eauto.
  - destruct (greedy_step_ok b weights p s) as (s1 & -> & Hs1);
      [apply Hl; left|done|].
    cbn [bind]. apply IH; [|done]. intros q Hq. apply Hl. by right.
Qed.

Lemma optimize_greedy
    (pick_first : BDD.manager → (gset string → bool) → option (gmap string bool))
    (net : PetriNet.t) (task3_solver : BDDReachability.t) (b : BDD.manager)
    (T R : gset string → bool) (place_weights : gmap string Z) :
  picks_from_enumeration pick_first →
  initialized net task3_solver b T →
  BDDReachability.reachable_bdd task3_solver = Some R →
  BDD.__eq__ b R BDD.false_ = false →
  ∃ marking v c,
    MarkingOptimizer.optimize pick_first net task3_solver place_weights
      "greedy" = Ok (Some (marking, v))
    ∧ c ⊆ list_to_set (BDD.vars b) ∧ R c = true
    ∧ (∀ p, p ∈ PetriNet.places net →
            Marking.has_token (Marking.__init__ marking) p
            = bool_decide (p ∈ c))
    ∧ v = gain (λ p, default 0 (place_weights !! p))
               (BDDReachability.sorted (PetriNet.places net)) c.
Proof.
  intros Hpick Hi HR Hne. unfold MarkingOptimizer.optimize.
  rewrite (init_bdd _ _ _ _ Hi), HR, Hne.
  pose proof (elem_of_sorted (PetriNet.places net)) as Hsorted.
  pose proof (NoDup_sorted (PetriNet.places net)) as Hnd.
  set (places := BDDReachability.sorted (PetriNet.places net)) in *.
  assert (∀ p, p ∈ places → p ∈ BDD.vars b) as Hvars.
  { intros p Hp. apply Hsorted in Hp. apply (init_vars _ _ _ _ Hi). eauto. }
  assert (∀ (F : gset string → bool) c0 ga,
            (∀ c, F c = true → R c = true) →
            c0 ⊆ list_to_set (BDD.vars b) → F c0 = true →
            (∀ p, p ∈ places →
                  MarkingOptimizer.marking_of_assign places ga !! p
                  = Some (bit c0 p)) →
            ∀ v, v = MarkingOptimizer.score_of place_weights
                       (MarkingOptimizer.marking_of_assign places ga)
                 ∨ (place_weights = ∅ ∧ v = 0) →
            ∃ marking v' c,
              Ok (Some (MarkingOptimizer.marking_of_assign places ga, v))
              = Ok (Some (marking, v'))
              ∧ c ⊆ list_to_set (BDD.vars b) ∧ R c = true
              ∧ (∀ p, p ∈ PetriNet.places net →
                      Marking.has_token (Marking.__init__ marking) p
                      = bool_decide (p ∈ c))
              ∧ v' = gain (λ p, default 0 (place_weights !! p)) places c)
    as Hfinish.
  { intros F c0 ga HF Hc0 HFc0 Hbits v Hv.
    exists (MarkingOptimizer.marking_of_assign places ga), v, c0.
    split; [done|]. split; [done|]. split; [by apply HF|]. split.
    - intros p Hp. apply Hsorted in Hp.
      by rewrite (has_token_init_lookup _ p _ (Hbits p Hp)),
        bool_of_token_bit_iff.
    - destruct Hv as [->|[-> ->]].
      + apply score_of_bits; [done|apply dom_marking_of_assign|done].
      + symmetry. apply gain_zero. intros p. by rewrite lookup_empty. }
  destruct (decide (place_weights = ∅)) as [Hempty|Hnonempty].
  - destruct (pick_first_marking pick_first b R places Hpick Hne)
      as (ga & c0 & -> & Hc0 & HRc0 & Hbits0).
    apply (Hfinish R c0 ga); auto.
  - rewrite decide_True by done.
    set (weights := (list_to_map ((λ p, (p, default 0 (place_weights !! p)))
                                    <$> places) : gmap string Z)).
    set (sorted_places := MarkingOptimizer.sorted_by
                            (λ x, default 0 (weights !! x)) places).
    destruct (greedy_loop_ok b weights sorted_places (R, [])) as (s & -> & Hs).
    { intros p Hp. apply Hvars. unfold sorted_places in Hp.
      by rewrite sorted_by_perm in Hp. }
    { intros q Hq. by apply elem_of_nil in Hq. }
    cbn [bind].
    destruct (and_loop_sem s.2
                (λ q f, vq ←! BDD.var b q; Ok (BDD.__and__ f vq))
                (λ q c, bool_decide (q ∈ c)) R) as (F & -> & HF).
    { intros q acc Hq. unfold BDD.var.
      rewrite decide_True by by apply Hs. cbn [bind]. eauto. }
    cbn [bind].
    set (F' := if BDD.__eq__ b F BDD.false_ then R else F).
    assert (BDD.__eq__ b F' BDD.false_ = false) as Hne'.
    { unfold F'. by destruct (BDD.__eq__ b F BDD.false_) eqn:HeqF. }
    assert (∀ c, F' c = true → R c = true) as HF'.
    { intros c. unfold F'. destruct (BDD.__eq__ b F BDD.false_); [done|].
      rewrite HF. by intros [? _]%andb_true_iff. }
    destruct (pick_first_marking pick_first b F' places Hpick Hne')
      as (ga & c0 & -> & Hc0 & HFc0 & Hbits0).
    apply (Hfinish F' c0 ga); auto.
Qed.

(** X26. In greedy mode, on the engine returned by
    [compute_symbolic_reachability], [find_max_score_marking] returns a
    marking of the reachable set together with its weighted sum; the value
    never exceeds the value that the exact mode returns for the same
    weights. *)
Theorem find_max_score_marking_greedy_sound
    (pick_first : BDD.manager → (gset string → bool) → option (gmap string bool))
    (net : PetriNet.t) (fuel : nat) (m0 : gmap string bool)
    (R : gset string → bool) (task3_solver : BDDReachability.t)
    (place_weights : gmap string Z) (start_time end_time : Z) :
  picks_from_enumeration pick_first →
  well_formed net →
  BDDReachability.compute_symbolic_reachability fuel m0
    (BDDReachability.__init__ net) = Ok (R, task3_solver) →
  ∃ marking v marking' v',
    MarkingOptimizer.find_max_score_marking pick_first net task3_solver
      place_weights "greedy" start_time end_time
    = (Some marking, Some v, end_time - start_time)
    ∧ reachable_in task3_solver (Marking.__init__ marking)
    ∧ v = weighted_sum place_weights
            (BDDReachability.sorted (PetriNet.places net))
            (Marking.__init__ marking)
    ∧ MarkingOptimizer.find_max_score_marking pick_first net task3_solver
        place_weights "exact" start_time end_time
      = (Some marking', Some v', end_time - start_time)
    ∧ v ≤ v'.
Proof.
  intros Hpick Hwf Hrun.
  destruct (compute_completed net fuel m0 R task3_solver Hwf Hrun)
    as (b & T & Hi & HR & Hne).
  destruct (optimize_greedy pick_first net task3_solver b T R place_weights
              Hpick Hi HR Hne) as (marking & v & c & Hopt & Hc & HRc & Htok & Hv).
  destruct (optimize_exact pick_first net task3_solver b T R place_weights
              "exact" Hpick Hi HR Hne)
    as (marking' & v' & c' & Hopt' & _ & _ & _ & _ & Hmax); [done|].
  exists marking, v, marking', v'.
  unfold MarkingOptimizer.find_max_score_marking. rewrite Hopt, Hopt'.
  split; [done|]. split.
  { apply (reachable_in_intro net task3_solver b T R _ c Hi HR Hc HRc).
    intros p Hp. symmetry. by apply Htok. }
  split.
  { rewrite Hv. symmetry. apply weighted_sum_gain; [|done].
    intros p Hp. apply Htok. by apply elem_of_sorted. }
  split; [done|]. rewrite Hv. by apply Hmax.
Qed.

Lemma find_max_score_marking_greedy_sound_witness :
  ∃ marking v marking' v',
    MarkingOptimizer.find_max_score_marking pick_first_head net_sink engine_sink
      {["b" := 4]} "greedy" 3 10
    = (Some marking, Some v, 10 - 3)
    ∧ MarkingOptimizer.find_max_score_marking pick_first_head net_sink
        engine_sink {["b" := 4]} "exact" 3 10
      = (Some marking', Some v', 10 - 3)
    ∧ v ≤ v'.
Proof.
  assert (∃ R, BDDReachability.compute_symbolic_reachability 10 {["b" := true]}
                 (BDDReachability.__init__ net_sink) = Ok (R, engine_sink))
    as [R Hrun].
  { unfold engine_sink.
    assert (match BDDReachability.compute_symbolic_reachability 10
                    {["b" := true]} (BDDReachability.__init__ net_sink) with
            | Ok _ => true
            | Raise _ => false
            end = true) as Hok by (vm_compute; reflexivity).
    destruct (BDDReachability.compute_symbolic_reachability _ _ _)
      as [[R e']|]; [|discriminate Hok].
    by exists R. }
  destruct (find_max_score_marking_greedy_sound pick_first_head net_sink 10
              {["b" := true]} R engine_sink {["b" := 4]} 3 10
              pick_first_head_picks well_formed_net_sink Hrun)
    as (marking & v & marking' & v' & H1 & _ & _ & H2 & H3).
  exists marking, v, marking', v'. split; [exact H1|]. split; [exact H2 | exact H3].
Defined.

(** ** The deadlock detector: the early return and termination *)

Lemma has_source_transition_true (arcs : gmap string PetriNet.arc_info)
    (ts : list string) (tr : string) (a : PetriNet.arc_info) :
  (∀ t, t ∈ ts → is_Some (arcs !! t)) →
  tr ∈ ts → arcs !! tr = Some a → PetriNet.input a = [] →
  DeadlockDetector.has_source_transition arcs ts = Ok true.
Proof.
  intros Hall Htr Ha Hin. induction ts as [|t ts IH]; cbn.
  - by apply elem_of_nil in Htr.
  - destruct (Hall t) as [a' Ha']; [left|].
    unfold getitem. rewrite Ha'. cbn [bind].
    destruct (PetriNet.input a') as [|p l] eqn:Hin'; [done|].
    apply IH.
    + intros t' Ht'. apply Hall. by right.
    + apply elem_of_cons in Htr as [->|Htr]; [|done]. congruence.
Qed.

(** X27. When some transition of the net has no input place,
    [detect_deadlock] returns [None] without building a problem or calling
    the solver, and [is_deadlock_free] returns [True]; that transition is
    enabled in every marking, so the net has no dead marking at all. *)
Theorem detect_deadlock_source_transition
    (solve : ILP.problem → option (ILP.lpvar → option Z)) (fuel : nat)
    (d : DeadlockDetector.t) (tr : string) (a : PetriNet.arc_info) :
  well_formed (DeadlockDetector.net d) →
  tr ∈ PetriNet.transitions (DeadlockDetector.net d) →
  PetriNet.arcs (DeadlockDetector.net d) !! tr = Some a →
  PetriNet.input a = [] →
  DeadlockDetector.detect_deadlock solve fuel d = Ok (None, d)
  ∧ DeadlockDetector.is_deadlock_free solve fuel d = Ok true
  ∧ ∀ m, PetriNet.is_enabled (DeadlockDetector.net d) tr m = Ok true.
Proof.
  intros Hwf Htr Ha Hin.
  assert (DeadlockDetector.detect_deadlock solve fuel d = Ok (None, d)) as Hd.
  { unfold DeadlockDetector.detect_deadlock.
    rewrite (has_source_transition_true _ _ tr a); [done| |  |done..].
    - intros t Ht. apply elem_of_elements in Ht.
      destruct (Hwf t Ht) as (a' & -> & _). eauto.
    - by apply elem_of_elements. }
  split; [done|]. split.
  - unfold DeadlockDetector.is_deadlock_free. by rewrite Hd.
  - intros m. rewrite (is_enabled_arcs _ tr a m Htr Ha), Hin. done.
Qed.

Lemma detect_deadlock_source_transition_witness :
  DeadlockDetector.detect_deadlock (solve_with solution_p2) 0 detector_source
  = Ok (None, detector_source).
Proof.
  apply (detect_deadlock_source_transition (solve_with solution_p2) 0
           detector_source "t" (PetriNet.ArcInfo [] ["p"])).
  - intros tr Htr. cbn in Htr. apply elem_of_singleton in Htr as ->.
    exists (PetriNet.ArcInfo [] ["p"]). split; [reflexivity|].
    intros p Hp. cbn in Hp. apply list_elem_of_singleton in Hp as ->.
    cbn. by apply elem_of_singleton.
  - cbn. by apply elem_of_singleton.
  - reflexivity.
  - reflexivity.
Defined.

Lemma has_source_transition_ok (arcs : gmap string PetriNet.arc_info)
    (ts : list string) :
  (∀ t, t ∈ ts → is_Some (arcs !! t)) →
  ∃ r, DeadlockDetector.has_source_transition arcs ts = Ok r.
Proof.
  induction ts as [|t ts IH]; intros Hall; cbn; [eauto|].
  destruct (Hall t) as [a Ha]; [left|]. unfold getitem. rewrite Ha. cbn [bind].
  destruct (PetriNet.input a); [eauto|].
  apply IH. intros t' Ht'. apply Hall. by right.
Qed.

Lemma state_equation_terms (row : gmap string Z) (ts : list string)
    (acc : list (Z * ILP.lpvar)) :
  (∀ tr, tr ∈ ts → is_Some (row !! tr)) →
  ∃ r, for_each ts
         (λ tr acc, v ←! getitem row tr; Ok (acc ++ [(v, ILP.N tr)])) acc
       = Ok r.
Proof.
  revert acc. induction ts as [|tr ts IH]; intros acc Hall; cbn [for_each];
    [eauto|].
  destruct (Hall tr) as [v Hv]; [left|]. unfold getitem at 1. rewrite Hv.
  cbn [bind]. apply IH. intros tr' Htr'. apply Hall. by right.
Qed.

Lemma state_equations_ok (d : DeadlockDetector.t)
    (c : gmap string (gmap string Z)) (ps : list string) (prob : ILP.problem) :
  (∀ p, p ∈ ps → is_Some (DeadlockDetector.initial_marking d !! p)) →
  (∀ p, p ∈ ps →
        ∃ row, c !! p = Some row
               ∧ ∀ tr, tr ∈ PetriNet.transitions (DeadlockDetector.net d) →
                       is_Some (row !! tr)) →
  ∃ prob', for_each ps (DeadlockDetector.state_equation d c) prob = Ok prob'.
Proof.
  revert prob. induction ps as [|p ps IH]; intros prob Hm Hc; cbn [for_each];
    [eauto|].
  unfold DeadlockDetector.state_equation at 1.
  destruct (Hm p) as [v Hv]; [left|]. unfold getitem at 1. rewrite Hv.
  cbn [bind]. destruct (Hc p) as (row & Hrow & Hts); [left|].
  unfold getitem at 1. rewrite Hrow. cbn [bind].
  destruct (state_equation_terms row
              (elements (PetriNet.transitions (DeadlockDetector.net d))) [])
    as [ts ->].
  { intros tr Htr. apply Hts. by apply elem_of_elements. }
  cbn [bind]. apply IH.
  - intros q Hq. apply Hm. by right.
  - intros q Hq. apply Hc. by right.
Qed.

Lemma x_vars_ok (places : gset string) (preset : list string)
    (acc : list ILP.lpvar) :
  (∀ p, p ∈ preset → p ∈ places) →
  ∃ xs, for_each preset
          (λ p acc, v ←! DeadlockDetector.x_var places p; Ok (acc ++ [v])) acc
        = Ok xs.
Proof.
  revert acc. induction preset as [|p preset IH]; intros acc Hall;
    cbn [for_each]; [eauto|].
  unfold DeadlockDetector.x_var at 1. rewrite decide_True by (apply Hall; left).
  cbn [bind]. apply IH. intros q Hq. apply Hall. by right.
Qed.

Lemma dead_constraints_ok (d : DeadlockDetector.t) (ts : list string)
    (prob : ILP.problem) :
  (∀ tr, tr ∈ ts →
         ∃ a, PetriNet.arcs (DeadlockDetector.net d) !! tr = Some a
              ∧ ∀ p, p ∈ PetriNet.input a →
                     p ∈ PetriNet.places (DeadlockDetector.net d)) →
  ∃ prob', for_each ts (DeadlockDetector.dead_constraint d) prob = Ok prob'.
Proof.
  revert prob. induction ts as [|tr ts IH]; intros prob Hall; cbn [for_each];
    [eauto|].
  unfold DeadlockDetector.dead_constraint at 1.
  destruct (Hall tr) as (a & Ha & Hp); [left|].
  unfold getitem at 1. rewrite Ha. cbn [bind].
  assert (∀ tr', tr' ∈ ts →
            ∃ a, PetriNet.arcs (DeadlockDetector.net d) !! tr' = Some a
                 ∧ ∀ p, p ∈ PetriNet.input a →
                        p ∈ PetriNet.places (DeadlockDetector.net d)) as Hrest.
  { intros tr' Htr'. apply Hall. by right. }
  destruct (PetriNet.input a) as [|p0 l] eqn:Hin.
  - by apply IH.
  - destruct (x_vars_ok (PetriNet.places (DeadlockDetector.net d)) (p0 :: l) [])
      as [xs ->]; [done|].
    cbn [bind]. by apply IH.
Qed.

Lemma is_reachable_ok (d : DeadlockDetector.t) (marking : gmap string Z) :
  (∀ p, p ∈ dom marking → p ∈ BDD.vars (DeadlockDetector.manager d)) →
  ∃ r, DeadlockDetector._is_reachable d marking = Ok r.
Proof.
  intros Hvars. unfold DeadlockDetector._is_reachable, BDD.let_.
  rewrite decide_True; [cbn [bind]; eauto|].
  apply Forall_forall. intros p Hp. apply elem_of_elements in Hp.
  rewrite dom_fmap in Hp. by apply Hvars.
Qed.

Lemma cut_eval_zero (sol : ILP.lpvar → option Z) (l : list (string * Z)) :
  (∀ pv, pv ∈ l → ILP.value sol (ILP.X pv.1) = pv.2 ∧ (pv.2 = 0 ∨ pv.2 = 1)) →
  ILP.eval sol
    (foldr (λ (pv : string * Z) (acc : ILP.affine),
              if decide (pv.2 = 1)
              then ILP.Affine ((-1, ILP.X pv.1) :: ILP.terms acc)
                              (1 + ILP.constant acc)
              else ILP.Affine ((1, ILP.X pv.1) :: ILP.terms acc)
                              (ILP.constant acc))
           (ILP.Affine [] 0) l) = 0.
Proof.
  induction l as [|[p v] l IH]; intros Hall; [done|].
  cbn [foldr].
  assert (∀ pv, pv ∈ l → ILP.value sol (ILP.X pv.1) = pv.2
                         ∧ (pv.2 = 0 ∨ pv.2 = 1)) as Hrest.
  { intros pv Hpv. apply Hall. by right. }
  specialize (IH Hrest).
  destruct (Hall (p, v)) as [Hval Hbin]; [left|]. cbn [fst snd] in *.
  unfold ILP.eval in *. destruct (decide (v = 1)) as [->|Hv].
  - cbn [ILP.terms ILP.constant foldr fst snd].
    set (acc := foldr _ (ILP.Affine [] 0) l) in *.
    assert (∀ k ts, foldr (λ (cv : Z * ILP.lpvar) acc0,
                             cv.1 * ILP.value sol cv.2 + acc0) (1 + k) ts
                    = 1 + foldr (λ (cv : Z * ILP.lpvar) acc0,
                                   cv.1 * ILP.value sol cv.2 + acc0) k ts)
      as Hshift.
    { intros k ts. induction ts as [|t ts IHts]; cbn; [done|]. rewrite IHts. lia. }
    rewrite Hshift, IH, Hval. lia.
  - cbn [ILP.terms ILP.constant foldr fst snd]. rewrite IH, Hval.
    destruct Hbin as [->|?]; [lia|done].
Qed.

Lemma cut_excludes (sol : ILP.lpvar → option Z) (places : gset string)
    (cand : gmap string Z) :
  binary_over places cand →
  (∀ p v, cand !! p = Some v → ILP.value sol (ILP.X p) = v) →
  ¬ ILP.holds sol (DeadlockDetector.cut cand).
Proof.
  intros [_ Hbin] Hval. unfold ILP.holds, DeadlockDetector.cut.
  cbn [ILP.rel ILP.lhs ILP.rhs]. rewrite cut_eval_zero.
  - unfold ILP.eval. cbn. lia.
  - intros [p v] Hpv. apply elem_of_map_to_list in Hpv. cbn.
    split; [by apply Hval|by eapply Hbin].
Qed.

Lemma binary_maps_bound (places : gset string) (cuts : list (gmap string Z)) :
  NoDup cuts → (∀ c, c ∈ cuts → binary_over places c) →
  (length cuts ≤ 2 ^ size places)%nat.
Proof.
  intros Hnd Hbin.
  assert (NoDup (Marking.__init__ <$> cuts)) as Hnd'.
  { apply NoDup_fmap_2_strong; [|done].
    intros c1 c2 H1 H2 Heq. destruct (Hbin c1 H1) as [Hd1 Hb1].
    destruct (Hbin c2 H2) as [Hd2 Hb2]. apply map_eq. intros p.
    assert (Marking.__init__ c1 !! p = Marking.__init__ c2 !! p) as Hp
      by by rewrite Heq.
    unfold Marking.__init__ in Hp. rewrite !lookup_fmap in Hp.
    destruct (c1 !! p) as [v1|] eqn:E1, (c2 !! p) as [v2|] eqn:E2;
      cbn in Hp; try done.
    injection Hp as Hp. f_equal.
    destruct (Hb1 p v1 E1) as [->| ->], (Hb2 p v2 E2) as [->| ->]; done. }
  rewrite <- (length_fmap Marking.__init__ cuts).
  rewrite <- (size_list_to_set (C := gset (gmap string bool))) by done.
  etrans; [|apply size_all_markings].
  apply subseteq_size. intros m Hm. apply elem_of_list_to_set in Hm.
  apply list_elem_of_fmap in Hm as (c & -> & Hc).
  apply elem_of_all_markings. destruct (Hbin c Hc) as [Hd _].
  unfold Marking.__init__. by rewrite dom_fmap_L.
Qed.

Lemma cutting_loop_terminates
    (solve : ILP.problem → option (ILP.lpvar → option Z))
    (d : DeadlockDetector.t) :
  solver_sound solve →
  (∀ p, p ∈ PetriNet.places (DeadlockDetector.net d) →
        p ∈ BDD.vars (DeadlockDetector.manager d)) →
  ∀ fuel prob (cuts : list (gmap string Z)),
    (∀ p, p ∈ PetriNet.places (DeadlockDetector.net d) →
          p ∈ ILP.binaries prob) →
    NoDup cuts →
    (∀ c, c ∈ cuts →
          binary_over (PetriNet.places (DeadlockDetector.net d)) c
          ∧ DeadlockDetector.cut c ∈ ILP.constraints prob) →
    (2 ^ size (PetriNet.places (DeadlockDetector.net d))
     < fuel + length cuts)%nat →
    ∃ r d', DeadlockDetector.cutting_loop solve fuel d prob = Ok (r, d').
Proof.
  intros Hsound Hvars. set (places := PetriNet.places (DeadlockDetector.net d)).
  induction fuel as [|fuel IH]; intros prob cuts Hbinaries Hnd Hcuts Hfuel.
  - pose proof (binary_maps_bound places cuts Hnd
                  (λ c Hc, proj1 (Hcuts c Hc))). lia.
  - cbn [DeadlockDetector.cutting_loop].
    destruct (solve prob) as [sol|] eqn:Hsolve; [|eauto].
    pose proof (Hsound prob sol Hsolve) as (Hbin & _ & Hholds).
    rewrite Forall_forall in Hbin. rewrite Forall_forall in Hholds.
    fold places.
    set (cand := DeadlockDetector.candidate places sol).
    assert (binary_over places cand) as Hcand.
    { split.
      - apply set_eq. intros p. rewrite elem_of_dom. unfold cand.
        rewrite candidate_lookup.
        destruct (decide (p ∈ places)); split; intros H; try done;
          try (by destruct H); eauto.
      - intros p v. unfold cand. rewrite candidate_lookup.
        destruct (decide (p ∈ places)) as [Hp|]; [|done]. intros [= <-].
        apply Hbin. by apply Hbinaries. }
    destruct (is_reachable_ok d cand) as [r ->].
    { intros p Hp. apply Hvars. by rewrite (proj1 Hcand) in Hp. }
    cbn [bind]. destruct r; [eauto|].
    apply (IH _ (cand :: cuts)).
    + intros p Hp. cbn. by apply Hbinaries.
    + apply NoDup_cons. split; [|done]. intros Hin.
      destruct (Hcuts cand Hin) as [_ Hc].
      apply (cut_excludes sol places cand Hcand).
      * intros p v. unfold cand. rewrite candidate_lookup.
        destruct (decide (p ∈ places)); [|done]. by intros [= <-].
      * by apply Hholds.
    + intros c [->|Hc]%elem_of_cons; cbn.
      * split; [done|]. apply elem_of_app. right. by left.
      * destruct (Hcuts c Hc) as [? ?]. split; [done|].
        apply elem_of_app. by left.
    + cbn [length]. lia.
Qed.

Lemma bump_loop_dom (d : Z) (tr : string) (l : list string)
    (c c' : gmap string (gmap string Z)) :
  for_each l
    (λ p c, row ←! getitem c p;
            v ←! getitem row tr;
            Ok (<[p := <[tr := v + d]> row]> c)) c = Ok c' →
  dom c' = dom c.
Proof.
  revert c. induction l as [|p l IH]; intros c Hrun; cbn [for_each] in Hrun.
  - by injection Hrun as <-.
  - apply bind_Ok in Hrun as (c1 & Hc1 & Hrun).
    apply bind_Ok in Hc1 as (row & Hrow & Hc1).
    apply bind_Ok in Hc1 as (v & _ & Hc1). injection Hc1 as <-.
    rewrite (IH _ Hrun), dom_insert_L.
    unfold getitem in Hrow. destruct (c !! p) eqn:Hp; [|done].
    apply elem_of_dom_2 in Hp. set_solver.
Qed.

Lemma build_incidence_dom (net : PetriNet.t) (c : gmap string (gmap string Z)) :
  PetriNet.build_incidence net = Ok c → dom c = PetriNet.places net.
Proof.
  unfold PetriNet.build_incidence. cbv zeta.
  set (c0 := gset_to_gmap (gset_to_gmap 0 (PetriNet.transitions net))
               (PetriNet.places net)).
  assert (dom c0 = PetriNet.places net) as Hc0 by apply dom_gset_to_gmap.
  revert Hc0. generalize c0. clear c0.
  induction (elements (PetriNet.transitions net)) as [|tr ts IH];
    intros c0 Hc0 Hrun; cbn [for_each] in Hrun.
  - by injection Hrun as <-.
  - apply bind_Ok in Hrun as (c1 & Hc1 & Hrun).
    apply bind_Ok in Hc1 as (a & _ & Hc1).
    apply bind_Ok in Hc1 as (c2 & Hc2 & Hc1).
    apply bump_loop_dom in Hc2. apply bump_loop_dom in Hc1.
    apply (IH c1); [|done]. by rewrite Hc1, Hc2.
Qed.

(** X28. [detect_deadlock] returns. On a detector whose net has its arcs
    over its own places and no cached incidence matrix, whose initial marking
    and whose BDD manager know every place, with a solver that returns
    solutions of the problems it is given, the cutting loop ends within
    [2 ^ n + 1] calls of the solver, [n] being the number of places: every
    candidate that the reachable set rejects is cut off and cannot come
    back. *)
Theorem detect_deadlock_terminates
    (solve : ILP.problem → option (ILP.lpvar → option Z)) (fuel : nat)
    (d : DeadlockDetector.t) :
  solver_sound solve →
  well_formed (DeadlockDetector.net d) →
  PetriNet.incidence (DeadlockDetector.net d) = None →
  (∀ p, p ∈ PetriNet.places (DeadlockDetector.net d) →
        p ∈ dom (DeadlockDetector.initial_marking d)) →
  (∀ p, p ∈ PetriNet.places (DeadlockDetector.net d) →
        p ∈ BDD.vars (DeadlockDetector.manager d)) →
  (2 ^ size (PetriNet.places (DeadlockDetector.net d)) < fuel)%nat →
  ∃ r d', DeadlockDetector.detect_deadlock solve fuel d = Ok (r, d').
Proof.
  intros Hsound Hwf Hnone Hm0 Hvars Hfuel.
  unfold DeadlockDetector.detect_deadlock.
  destruct (has_source_transition_ok
              (PetriNet.arcs (DeadlockDetector.net d))
              (elements (PetriNet.transitions (DeadlockDetector.net d))))
    as [src ->].
  { intros t Ht. apply elem_of_elements in Ht.
    destruct (Hwf t Ht) as (a & -> & _). eauto. }
  cbn [bind]. destruct src; [eauto|].
  destruct (build_incidence_entries _ Hwf) as (c & Hc & Hentries).
  pose proof (build_incidence_dom _ c Hc) as Hdomc.
  unfold PetriNet.get_incidence. rewrite Hnone, Hc. cbn [bind fst snd].
  set (net' := PetriNet.Net _ _ _ _ (Some c)).
  set (d1 := DeadlockDetector.Detector net' _ _ _ _).
  destruct (state_equations_ok d1 c
              (elements (PetriNet.places (DeadlockDetector.net d)))
              (ILP.Problem
                 (elements (PetriNet.places (DeadlockDetector.net d)))
                 (elements (PetriNet.transitions (DeadlockDetector.net d)))
                 (ILP.Affine [] 0) [])) as [prob1 Hprob1].
  { intros p Hp. apply elem_of_elements in Hp. apply elem_of_dom.
    by apply Hm0. }
  { intros p Hp. apply elem_of_elements in Hp.
    assert (p ∈ dom c) as Hpc by by rewrite Hdomc.
    apply elem_of_dom in Hpc as [row Hrow]. exists row. split; [done|].
    intros tr Htr. cbn in Htr.
    specialize (Hentries p tr). rewrite decide_True in Hentries by done.
    unfold entry in Hentries. rewrite Hrow in Hentries. cbn in Hentries.
    by rewrite Hentries. }
  rewrite Hprob1. cbn [bind].
  pose proof (state_equations_loop _ _ _ _ _ Hprob1) as Hbin1.
  cbn [ILP.binaries] in Hbin1.
  destruct (dead_constraints_ok d1
              (elements (PetriNet.transitions (DeadlockDetector.net d)))
              (ILP.Problem (ILP.binaries prob1) (ILP.integers prob1)
                 (ILP.lpSum
                    (ILP.N <$> elements
                                 (PetriNet.transitions (DeadlockDetector.net d))))
                 (ILP.constraints prob1))) as [prob3 Hprob3].
  { intros tr Htr. apply elem_of_elements in Htr.
    destruct (Hwf tr Htr) as (a & Ha & Hp). exists a. split; [done|].
    intros p Hin. cbn. apply Hp. apply elem_of_app. by left. }
  rewrite Hprob3. cbn [bind].
  pose proof (dead_constraints_loop _ _ _ _ Hprob3) as (Hbin3 & _ & _).
  cbn [ILP.binaries] in Hbin3.
  apply (cutting_loop_terminates solve d1 Hsound Hvars fuel prob3 []).
  - intros p Hp. rewrite Hbin3, Hbin1. by apply elem_of_elements.
  - constructor.
  - intros c0 Hc0. by apply elem_of_nil in Hc0.
  - cbn [length]. cbn. lia.
Qed.

Lemma detect_deadlock_terminates_witness :
  match detector_p1_t1_p2 with
  | Ok d =>
      ∃ r d', DeadlockDetector.detect_deadlock (solve_with solution_p2) 5 d
              = Ok (r, d')
  | Raise _ => False
  end.
Proof.
  unfold detector_p1_t1_p2.
  destruct symbolic_run_p1_t1_p2 as (R & e' & Hrun). rewrite Hrun.
  cbn [bind snd].
  destruct (compute_completed net_p1_t1_p2 10 _ R e'
              well_formed_net_p1_t1_p2 Hrun) as (b & T & Hi & HR & _).
  rewrite HR, (init_bdd _ _ _ _ Hi).
  cbn [DeadlockDetector.__init__ net_p1_t1_p2 PetriNet.initial_marking].
  apply detect_deadlock_terminates.
  - exact (solve_with_sound solution_p2).
  - exact well_formed_net_p1_t1_p2.
  - reflexivity.
  - cbn [DeadlockDetector.net DeadlockDetector.initial_marking].
    intros p Hp. unfold Marking.to_dict. rewrite dom_fmap_L.
    rewrite dom_insert_L, dom_singleton_L. exact Hp.
  - cbn [DeadlockDetector.net DeadlockDetector.manager].
    intros p Hp. apply (init_vars _ _ _ _ Hi). eauto.
  - cbn [DeadlockDetector.net]. vm_compute. lia.
Defined.

(** ** The deadlock detector: a net that is reported deadlock-free *)

Lemma firing_sum_zero (c : gmap string (gmap string Z)) (p : string)
    (ts : list string) :
  firing_sum c (λ _, 0) p ts = 0.
Proof.
  unfold firing_sum. induction ts as [|t ts IH]; cbn [foldr]; [done|].
  rewrite IH. lia.
Qed.

Lemma firing_sum_bump (c : gmap string (gmap string Z)) (count : string → Z)
    (p tr : string) (ts : list string) :
  NoDup ts →
  firing_sum c (λ t, if decide (t = tr) then count t + 1 else count t) p ts
  = firing_sum c count p ts
    + (if decide (tr ∈ ts) then default 0 (entry c p tr) else 0).
Proof.
  unfold firing_sum. induction 1 as [|t ts Ht Hnd IH]; cbn [foldr].
  - rewrite decide_False; [lia|]. apply not_elem_of_nil.
  - rewrite IH. destruct (decide (t = tr)) as [->|Hne].
    + rewrite (decide_True (P := tr ∈ tr :: ts)) by left.
      rewrite decide_False by done. lia.
    + destruct (decide (tr ∈ ts)).
      * rewrite (decide_True (P := tr ∈ t :: ts)) by by right. lia.
      * rewrite (decide_False (P := tr ∈ t :: ts)); [lia|].
        intros [->|?]%elem_of_cons; done.
Qed.

Lemma fire_state_equation (net : PetriNet.t) (c : gmap string (gmap string Z))
    (tr : string) (a : PetriNet.arc_info) (m : gmap string bool) :
  well_formed net → PetriNet.build_incidence net = Ok c →
  tr ∈ PetriNet.transitions net → PetriNet.arcs net !! tr = Some a →
  NoDup (PetriNet.input a) → NoDup (PetriNet.output a) →
  PetriNet.is_enabled net tr m = Ok true →
  (∀ q, q ∈ PetriNet.output a → q ∉ PetriNet.input a →
        Marking.has_token m q = false) →
  ∃ m', PetriNet.fire_transition net tr m = Ok m'
        ∧ ∀ p, p ∈ PetriNet.places net →
               Marking.get_tokens m' p
               = Marking.get_tokens m p + default 0 (entry c p tr).
Proof.
  intros Hwf Hinc Htr Ha Hndi Hndo Hen Hfree.
  destruct (build_incidence_entries net Hwf) as (c' & Hc' & He).
  rewrite Hinc in Hc'. injection Hc' as <-.
  rewrite (is_enabled_arcs net tr a m Htr Ha) in Hen. injection Hen as Hen.
  rewrite (fire_transition_arcs net tr a m Htr Ha), Hen.
  eexists. split; [reflexivity|]. intros p Hp.
  rewrite He, decide_True by done. cbn [default from_option]. unfold id.
  unfold pre_of, post_of. rewrite Ha.
  rewrite !occurrences_NoDup by done.
  unfold Marking.get_tokens.
  change (foldl _ (foldl _ m (PetriNet.input a)) (PetriNet.output a))
    with (fired m (PetriNet.input a) (PetriNet.output a)).
  rewrite has_token_fired.
  rewrite forallb_forall in Hen.
  destruct (decide (p ∈ PetriNet.output a)) as [Ho|Ho],
           (decide (p ∈ PetriNet.input a)) as [Hi|Hi].
  - rewrite Hen by by apply list_elem_of_In. done.
  - rewrite (Hfree p Ho Hi). done.
  - rewrite Hen by by apply list_elem_of_In. done.
  - destruct (Marking.has_token m p); done.
Qed.

(** The state equation along a firing sequence of a 1-safe net. *)
Lemma reachable_state_equation (net : PetriNet.t) (m0 m : gmap string bool)
    (c : gmap string (gmap string Z)) :
  well_formed net → ordinary net → one_safe net m0 →
  PetriNet.build_incidence net = Ok c →
  reachable_from net m0 m →
  ∃ count, (∀ tr, 0 ≤ count tr)
           ∧ ∀ p, p ∈ PetriNet.places net →
               Marking.get_tokens m p
               = Marking.get_tokens m0 p
                 + firing_sum c count p (elements (PetriNet.transitions net)).
Proof.
  intros Hwf Hord Hsafe Hc. revert m. apply rtc_ind_r.
  - exists (λ _, 0). split; [done|]. intros p _. rewrite firing_sum_zero. lia.
  - intros m2 m3 Hreach (tr & Htr & Hfire) (count & Hpos & IH).
    destruct (Hwf tr Htr) as (a & Ha & _).
    destruct (Hord tr a Ha) as [Hndi Hndo].
    assert (PetriNet.is_enabled net tr m2 = Ok true) as Hen.
    { destruct (enabled_fire net tr m2 Hwf Htr) as [Hen Hf].
      rewrite Hen. rewrite Hf in Hfire. by destruct (forallb _ _). }
    destruct (fire_state_equation net c tr a m2 Hwf Hc Htr Ha Hndi Hndo Hen
                (Hsafe m2 tr a Hreach Htr Ha Hen)) as (m3' & Hf3 & Heq).
    rewrite Hfire in Hf3. injection Hf3 as <-.
    exists (λ t, if decide (t = tr) then count t + 1 else count t). split.
    + intros t. specialize (Hpos t). destruct (decide (t = tr)); lia.
    + intros p Hp. rewrite firing_sum_bump by apply NoDup_elements.
      rewrite decide_True by by apply elem_of_elements.
      rewrite Heq, IH by done. lia.
Qed.

Lemma state_equation_terms_eq (row : gmap string Z) (ts : list string)
    (acc r : list (Z * ILP.lpvar)) :
  for_each ts (λ tr acc, v ←! getitem row tr; Ok (acc ++ [(v, ILP.N tr)])) acc
  = Ok r →
  r = acc ++ ((λ tr, (default 0 (row !! tr), ILP.N tr)) <$> ts).
Proof.
  revert acc. induction ts as [|t ts IH]; intros acc Hrun; cbn [for_each] in Hrun.
  - injection Hrun as <-. by rewrite app_nil_r.
  - apply bind_Ok in Hrun as (acc' & Hstep & Hrun).
    apply bind_Ok in Hstep as (v & Hv & Hstep). injection Hstep as <-.
    unfold getitem in Hv. destruct (row !! t) as [v'|] eqn:Hrow; [|done].
    injection Hv as ->.
    apply IH in Hrun as ->. rewrite <- app_assoc. cbn. by rewrite Hrow.
Qed.

Lemma eval_state_terms (sol : ILP.lpvar → option Z)
    (c : gmap string (gmap string Z)) (count : string → Z) (p : string)
    (row : gmap string Z) (ts : list string) (k : Z) :
  c !! p = Some row → (∀ tr, ILP.value sol (ILP.N tr) = count tr) →
  ILP.eval sol
    (ILP.Affine ((λ tr, (default 0 (row !! tr), ILP.N tr)) <$> ts) k)
  = k + firing_sum c count p ts.
Proof.
  intros Hrow Hval. unfold ILP.eval, firing_sum. cbn [ILP.terms ILP.constant].
  induction ts as [|t ts IH]; cbn [fmap list_fmap foldr fst snd]; [lia|].
  rewrite IH, Hval. unfold entry. rewrite Hrow. cbn. lia.
Qed.

Lemma state_equations_hold (d : DeadlockDetector.t)
    (c : gmap string (gmap string Z)) (sol : ILP.lpvar → option Z)
    (count : string → Z) (ps : list string) (prob prob' : ILP.problem) :
  (∀ tr, ILP.value sol (ILP.N tr) = count tr) →
  for_each ps (DeadlockDetector.state_equation d c) prob = Ok prob' →
  Forall (ILP.holds sol) (ILP.constraints prob) →
  (∀ p m0p, p ∈ ps → DeadlockDetector.initial_marking d !! p = Some m0p →
     ILP.value sol (ILP.X p)
     = m0p + firing_sum c count p
               (elements (PetriNet.transitions (DeadlockDetector.net d)))) →
  Forall (ILP.holds sol) (ILP.constraints prob')
  ∧ ILP.binaries prob' = ILP.binaries prob
  ∧ ILP.integers prob' = ILP.integers prob.
Proof.
  intros Hval. revert prob.
  induction ps as [|p ps IH]; intros prob Hrun Hholds Heq; cbn [for_each] in Hrun.
  - by injection Hrun as <-.
  - apply bind_Ok in Hrun as (prob1 & Hstep & Hrun).
    unfold DeadlockDetector.state_equation in Hstep.
    apply bind_Ok in Hstep as (m0p & Hm0p & Hstep).
    apply bind_Ok in Hstep as (row & Hrow & Hstep).
    apply bind_Ok in Hstep as (ts & Hts & Hstep). injection Hstep as <-.
    unfold getitem in Hm0p, Hrow.
    destruct (DeadlockDetector.initial_marking d !! p) as [v|] eqn:Hv; [|done].
    injection Hm0p as ->.
    destruct (c !! p) as [row'|] eqn:Hc; [|done]. injection Hrow as ->.
    apply state_equation_terms_eq in Hts as ->. cbn [app] in Hrun.
    apply IH in Hrun as (Hall & Hb & Hi).
    + done.
    + cbn [ILP.add_constraint ILP.constraints]. apply Forall_app. split; [done|].
      apply Forall_singleton. unfold ILP.holds. cbn [ILP.rel ILP.lhs ILP.rhs].
      rewrite (eval_state_terms sol c count p row _ _ Hc Hval).
      rewrite <- (Heq p m0p); [|by left|done].
      unfold ILP.eval, ILP.lpSum. cbn. lia.
    + intros q v Hq. apply Heq. by right.
Qed.

Lemma binary_sum_le_length (v : string → Z) (l : list string) :
  (∀ p, p ∈ l → v p = 0 ∨ v p = 1) →
  foldr (λ p acc, v p + acc) 0 l ≤ Z.of_nat (length l).
Proof.
  induction l as [|p l IH]; intros Hbin; cbn [foldr length]; [lia|].
  assert (foldr (λ p acc, v p + acc) 0 l ≤ Z.of_nat (length l)) as Hl.
  { apply IH. intros q Hq. apply Hbin. by right. }
  destruct (Hbin p) as [-> | ->]; [by left|lia|lia].
Qed.

Lemma binary_sum_below_length (v : string → Z) (l : list string) (p : string) :
  (∀ p, p ∈ l → v p = 0 ∨ v p = 1) →
  p ∈ l → v p = 0 →
  foldr (λ p acc, v p + acc) 0 l ≤ Z.of_nat (length l) - 1.
Proof.
  induction l as [|q l IH]; intros Hbin Hp Hv; [by apply elem_of_nil in Hp|].
  cbn [foldr length].
  assert (∀ p, p ∈ l → v p = 0 ∨ v p = 1) as Hbin'.
  { intros q' Hq'. apply Hbin. by right. }
  apply elem_of_cons in Hp as [->|Hp].
  - pose proof (binary_sum_le_length v l Hbin'). lia.
  - specialize (IH Hbin' Hp Hv). destruct (Hbin q) as [Hq|Hq]; [by left|lia|lia].
Qed.

Lemma dead_constraints_hold (d : DeadlockDetector.t)
    (sol : ILP.lpvar → option Z) (ts : list string)
    (prob prob' : ILP.problem) :
  for_each ts (DeadlockDetector.dead_constraint d) prob = Ok prob' →
  (∀ p, ILP.value sol (ILP.X p) = 0 ∨ ILP.value sol (ILP.X p) = 1) →
  Forall (ILP.holds sol) (ILP.constraints prob) →
  (∀ tr a, tr ∈ ts →
     PetriNet.arcs (DeadlockDetector.net d) !! tr = Some a →
     PetriNet.input a ≠ [] →
     ∃ p, p ∈ PetriNet.input a ∧ ILP.value sol (ILP.X p) = 0) →
  Forall (ILP.holds sol) (ILP.constraints prob')
  ∧ ILP.binaries prob' = ILP.binaries prob
  ∧ ILP.integers prob' = ILP.integers prob.
Proof.
  intros Hrun Hbin. revert prob Hrun.
  induction ts as [|t ts IH]; intros prob Hrun Hholds Hdead;
    cbn [for_each] in Hrun.
  - by injection Hrun as <-.
  - apply bind_Ok in Hrun as (prob1 & Hstep & Hrun).
    assert (Forall (ILP.holds sol) (ILP.constraints prob1)
            ∧ ILP.binaries prob1 = ILP.binaries prob
            ∧ ILP.integers prob1 = ILP.integers prob) as (H1 & Hb1 & Hi1).
    { unfold DeadlockDetector.dead_constraint in Hstep.
      apply bind_Ok in Hstep as (a & Ha & Hstep). unfold getitem in Ha.
      destruct (PetriNet.arcs (DeadlockDetector.net d) !! t) as [a'|] eqn:Harc;
        [|done].
      injection Ha as ->.
      destruct (PetriNet.input a) as [|p0 preset] eqn:Hin.
      - by injection Hstep as <-.
      - apply bind_Ok in Hstep as (xs & Hxs & Hstep). injection Hstep as <-.
        apply x_vars_loop in Hxs as [-> _]. cbn [app].
        split; [|done]. cbn [ILP.add_constraint ILP.constraints].
        apply Forall_app. split; [done|]. apply Forall_singleton.
        unfold ILP.holds. cbn [ILP.rel ILP.lhs ILP.rhs].
        destruct (Hdead t a) as (p & Hp & Hzero); [by left|done|by rewrite Hin|].
        rewrite Hin in Hp.
        pose proof (binary_sum_below_length (λ p, ILP.value sol (ILP.X p))
                      (p0 :: preset) p (λ q _, Hbin q) Hp Hzero) as Hle.
        rewrite eval_lpSum_X. unfold ILP.eval.
        cbn [ILP.terms ILP.constant foldr length] in Hle |- *. lia. }
    apply IH in Hrun as (Hall & Hb & Hi).
    + split; [done|]. split; congruence.
    + done.
    + intros tr a Htr. apply Hdead. by right.
Qed.

Lemma eval_shift (sol : ILP.lpvar → option Z) (ts : list (Z * ILP.lpvar))
    (k : Z) :
  ILP.eval sol (ILP.Affine ts (1 + k)) = 1 + ILP.eval sol (ILP.Affine ts k).
Proof.
  unfold ILP.eval. cbn [ILP.terms ILP.constant].
  induction ts as [|t ts IH]; cbn [foldr]; [done|]. rewrite IH. lia.
Qed.

(** The value of the left-hand side of a cut counts the places on which a
    binary assignment differs from the candidate. *)
Lemma cut_eval_lower (sol : ILP.lpvar → option Z) (l : list (string * Z)) :
  (∀ p, ILP.value sol (ILP.X p) = 0 ∨ ILP.value sol (ILP.X p) = 1) →
  0 ≤ ILP.eval sol
        (foldr (λ (pv : string * Z) (acc : ILP.affine),
                  if decide (pv.2 = 1)
                  then ILP.Affine ((-1, ILP.X pv.1) :: ILP.terms acc)
                                  (1 + ILP.constant acc)
                  else ILP.Affine ((1, ILP.X pv.1) :: ILP.terms acc)
                                  (ILP.constant acc))
               (ILP.Affine [] 0) l)
  ∧ ((∃ pv, pv ∈ l ∧ (pv.2 = 0 ∨ pv.2 = 1)
            ∧ ILP.value sol (ILP.X pv.1) ≠ pv.2) →
     1 ≤ ILP.eval sol
           (foldr (λ (pv : string * Z) (acc : ILP.affine),
                     if decide (pv.2 = 1)
                     then ILP.Affine ((-1, ILP.X pv.1) :: ILP.terms acc)
                                     (1 + ILP.constant acc)
                     else ILP.Affine ((1, ILP.X pv.1) :: ILP.terms acc)
                                     (ILP.constant acc))
                  (ILP.Affine [] 0) l)).
Proof.
  intros Hbin. induction l as [|[p v] l [IH0 IH1]].
  - split; [done|]. intros (pv & Hpv & _). by apply elem_of_nil in Hpv.
  - cbn [foldr fst snd].
    set (acc := foldr _ (ILP.Affine [] 0) l) in *.
    assert (ILP.eval sol
              (if decide (v = 1)
               then ILP.Affine ((-1, ILP.X p) :: ILP.terms acc)
                               (1 + ILP.constant acc)
               else ILP.Affine ((1, ILP.X p) :: ILP.terms acc)
                               (ILP.constant acc))
            = (if decide (v = 1) then 1 - ILP.value sol (ILP.X p)
               else ILP.value sol (ILP.X p))
              + ILP.eval sol acc) as ->.
    { destruct (decide (v = 1)).
      - rewrite eval_shift. unfold ILP.eval. cbn [ILP.terms ILP.constant foldr fst snd].
        destruct acc as [ts k]. cbn [ILP.terms ILP.constant]. lia.
      - unfold ILP.eval. cbn [ILP.terms ILP.constant foldr fst snd].
        destruct acc as [ts k]. cbn [ILP.terms ILP.constant]. lia. }
    pose proof (Hbin p) as Hp. split.
    + destruct (decide (v = 1)); lia.
    + intros (pv & Hpv & Hv & Hne). apply elem_of_cons in Hpv as [->|Hpv].
      * cbn [fst snd] in Hv, Hne. destruct (decide (v = 1)); lia.
      * assert (1 ≤ ILP.eval sol acc) by (apply IH1; eauto).
        destruct (decide (v = 1)); lia.
Qed.

(** A negative answer of [_is_reachable]: the candidate differs, on a place
    it stores, from every marking whose valuations all satisfy the reachable
    set. *)
Lemma is_reachable_false (d : DeadlockDetector.t) (places : gset string)
    (cand : gmap string Z) (m : gmap string bool) :
  dom cand = places →
  DeadlockDetector._is_reachable d cand = Ok false →
  (∀ a, a ⊆ list_to_set (BDD.vars (DeadlockDetector.manager d)) →
        (∀ p, p ∈ places → bool_decide (p ∈ a) = Marking.has_token m p) →
        DeadlockDetector.reachable_bdd d a = true) →
  ∃ p v, cand !! p = Some v
         ∧ Marking.bool_of_token v ≠ Marking.has_token m p.
Proof.
  intros Hdom Hrun HR.
  destruct (decide (map_Forall
                      (λ p v, Marking.bool_of_token v = Marking.has_token m p)
                      cand)) as [Hall|Hnot].
  2:{ apply map_not_Forall in Hnot; [|apply _].
      destruct Hnot as (p & v & Hpv & Hne). eauto. }
  exfalso. unfold DeadlockDetector._is_reachable in Hrun.
  apply bind_Ok in Hrun as (u & Hlet & Heq). injection Heq as Heq.
  unfold BDD.let_ in Hlet.
  destruct (decide (Forall _ _)) as [Hdecl|]; [|done]. injection Hlet as <-.
  rewrite Forall_forall in Hdecl.
  assert (BDD.__eq__ (DeadlockDetector.manager d)
            (λ a, DeadlockDetector.reachable_bdd d
                    ((a ∖ dom ((λ v, if Marking.bool_of_token v
                                     then BDD.true_ else BDD.false_) <$> cand))
                     ∪ dom (filter (λ kv, kv.2 a = true)
                              ((λ v, if Marking.bool_of_token v
                                     then BDD.true_ else BDD.false_) <$> cand))))
            BDD.true_ = true) as Htrue; [|congruence].
  apply bdd_eq_spec. intros a Ha. cbn beta. unfold BDD.true_ at 3.
  apply HR.
  - intros x [[Hx _]%elem_of_difference|Hx]%elem_of_union; [by apply Ha|].
    apply elem_of_list_to_set, Hdecl, elem_of_elements.
    apply elem_of_dom in Hx as [f Hf]. apply map_lookup_filter_Some in Hf as [Hf _].
    by apply elem_of_dom_2 in Hf.
  - intros p Hp. rewrite <- Hdom in Hp. apply elem_of_dom in Hp as [v Hv].
    rewrite <- (Hall p v Hv).
    destruct (Marking.bool_of_token v) eqn:Hb.
    + apply bool_decide_eq_true. apply elem_of_union. right.
      apply elem_of_dom. exists BDD.true_. apply map_lookup_filter_Some.
      split; [|done]. by rewrite lookup_fmap, Hv; cbn; rewrite Hb.
    + apply bool_decide_eq_false.
      intros [[_ Hx]%elem_of_difference|Hx]%elem_of_union.
      * apply Hx. apply elem_of_dom. rewrite lookup_fmap, Hv. cbn. eauto.
      * apply elem_of_dom in Hx as [f Hf].
        apply map_lookup_filter_Some in Hf as [Hf Hfa].
        rewrite lookup_fmap, Hv in Hf. cbn in Hf. rewrite Hb in Hf.
        injection Hf as <-. done.
Qed.

Lemma get_tokens_binary (m : gmap string bool) (p : string) :
  Marking.get_tokens m p = 0 ∨ Marking.get_tokens m p = 1.
Proof. unfold Marking.get_tokens. destruct (Marking.has_token m p); auto. Qed.

(** The cutting loop cannot report that there is no solution while a dead
    marking that the reachable set accepts satisfies the problem: no cut
    removes it. *)
Lemma cutting_loop_complete
    (solve : ILP.problem → option (ILP.lpvar → option Z))
    (d : DeadlockDetector.t) (m : gmap string bool) (count : string → Z) :
  solver_binary solve → solver_complete solve →
  (∀ a, a ⊆ list_to_set (BDD.vars (DeadlockDetector.manager d)) →
        (∀ p, p ∈ PetriNet.places (DeadlockDetector.net d) →
              bool_decide (p ∈ a) = Marking.has_token m p) →
        DeadlockDetector.reachable_bdd d a = true) →
  ∀ fuel prob d',
    (∀ p, p ∈ PetriNet.places (DeadlockDetector.net d) →
          p ∈ ILP.binaries prob) →
    ILP.feasible prob (solution_of m count) →
    DeadlockDetector.cutting_loop solve fuel d prob ≠ Ok (None, d').
Proof.
  intros Hbinary Hcomplete HR.
  set (places := PetriNet.places (DeadlockDetector.net d)) in *.
  induction fuel as [|fuel IH]; intros prob d' Hbinaries Hfeas Hrun; [done|].
  cbn [DeadlockDetector.cutting_loop] in Hrun.
  destruct (solve prob) as [sol|] eqn:Hsolve.
  2:{ by apply (Hcomplete prob Hsolve (solution_of m count)). }
  fold places in Hrun.
  set (cand := DeadlockDetector.candidate places sol) in *.
  apply bind_Ok in Hrun as (reachable & Hreach & Hrun).
  destruct reachable; [done|].
  pose proof (Hbinary prob sol Hsolve) as Hbin. rewrite Forall_forall in Hbin.
  assert (dom cand = places) as Hdom.
  { apply set_eq. intros p. rewrite elem_of_dom. unfold cand.
    rewrite candidate_lookup.
    destruct (decide (p ∈ places)); split; intros H; try done;
      try (by destruct H); eauto. }
  destruct (is_reachable_false d places cand m Hdom Hreach HR)
    as (p & v & Hpv & Hne).
  apply (IH _ d') in Hrun; [done|done|].
  destruct Hfeas as (Hf1 & Hf2 & Hf3). split; [done|]. split; [done|].
  cbn [ILP.add_constraint ILP.constraints]. apply Forall_app. split; [done|].
  apply Forall_singleton. unfold ILP.holds, DeadlockDetector.cut.
  cbn [ILP.rel ILP.lhs ILP.rhs].
  destruct (cut_eval_lower (solution_of m count) (map_to_list cand))
    as [_ Hone].
  { intros q. apply get_tokens_binary. }
  unfold ILP.eval at 1. cbn [ILP.terms ILP.constant foldr].
  apply Hone. exists (p, v). cbn [fst snd].
  split; [by apply elem_of_map_to_list|].
  assert (v = 0 ∨ v = 1) as Hv.
  { unfold cand in Hpv. rewrite candidate_lookup in Hpv.
    destruct (decide (p ∈ places)) as [Hp|]; [|done]. injection Hpv as <-.
    apply Hbin. by apply Hbinaries. }
  split; [done|]. unfold ILP.value, solution_of. cbn [default from_option].
  unfold id, Marking.get_tokens. intros Heq. apply Hne.
  destruct Hv as [-> | ->], (Marking.has_token m p); done.
Qed.

(** Every valuation of the declared variables that gives the places the
    tokens of a reachable marking satisfies the computed reachable set. *)
Lemma reachable_satisfies (net : PetriNet.t) (fuel : nat)
    (m0 m1 : gmap string bool) (R : gset string → bool)
    (e' : BDDReachability.t) (b : BDD.manager) (a : gset string) :
  well_formed net → prime_free (PetriNet.places net) →
  BDDReachability.compute_symbolic_reachability fuel m0
    (BDDReachability.__init__ net) = Ok (R, e') →
  BDDReachability.bdd_manager e' = Some b →
  reachable_from net m0 m1 →
  a ⊆ list_to_set (BDD.vars b) →
  (∀ p, p ∈ PetriNet.places net →
        bool_decide (p ∈ a) = Marking.has_token m1 p) →
  R a = true.
Proof.
  intros Hwf Hpf Hrun Hb Hreach Ha Hagree.
  destruct (compute_inversion net fuel m0 R e' Hwf Hrun)
    as (e1 & b1 & T & R0 & Hi & -> & HR0 & Hloop).
  pose proof (initialized_with_reachable net e1 b1 T R Hi) as Hi'.
  rewrite (init_bdd _ _ _ _ Hi') in Hb. injection Hb as ->.
  destruct (fixpoint_loop_fixed e1 b fuel R0 R Hloop) as (P & HP & Hfix).
  assert (encoding_in (BDDReachability.with_reachable e1 R) m1 R) as Henc1.
  { revert m1 Hreach Hagree. intros m1 Hreach _. revert m1 Hreach.
    apply rtc_ind_r.
    - destruct (encode_marking_sem net e1 b T m0 Hi) as (enc & Henc & Hsem).
      exists b, enc. split; [apply Hi'|]. split; [done|].
      intros a0 _ Ha0. apply (fixpoint_loop_mono _ _ _ _ _ Hloop).
      rewrite HR0 in Henc. by injection Henc as <-.
    - intros m2 m3 _ (tr & Htr & Hfire) IH.
      destruct (enabled_fire net tr m2 Hwf Htr) as [Hen Hf].
      assert (PetriNet.is_enabled net tr m2 = Ok true) as Hen'.
      { rewrite Hen. rewrite Hf in Hfire. by destruct (forallb _ _). }
      destruct (fixpoint_closed net _ b T R P m2 tr Hwf Hpf Hi' HP Hfix IH
                  Htr Hen') as (m3' & Hf3 & Hin3).
      rewrite Hfire in Hf3. by injection Hf3 as <-. }
  destruct Henc1 as (b' & enc1 & Hb' & Henc1 & Hsub).
  rewrite (init_bdd _ _ _ _ Hi') in Hb'. injection Hb' as <-.
  destruct (encode_marking_sem net _ b T m1 Hi') as (enc & Henc & Hsem).
  rewrite Henc1 in Henc. injection Henc as <-.
  apply Hsub; [done|]. by apply Hsem.
Qed.

Lemma has_source_transition_found (arcs : gmap string PetriNet.arc_info)
    (ts : list string) :
  DeadlockDetector.has_source_transition arcs ts = Ok true →
  ∃ tr a, tr ∈ ts ∧ arcs !! tr = Some a ∧ PetriNet.input a = [].
Proof.
  induction ts as [|t ts IH]; intros Hrun; [done|].
  cbn [DeadlockDetector.has_source_transition] in Hrun.
  apply bind_Ok in Hrun as (a & Ha & Hrun).
  unfold getitem in Ha. destruct (arcs !! t) as [a'|] eqn:Harc; [|done].
  injection Ha as ->.
  destruct (PetriNet.input a) as [|p ps] eqn:Hin.
  - exists t, a. split; [left|]. done.
  - destruct (IH Hrun) as (tr & a' & Htr & Ha' & Hin').
    exists tr, a'. split; [by right|done].
Qed.

(** X29. The detector is complete on 1-safe nets in which no place id is
    another place id followed by the prime. When the solver answers with 0
    or 1 for the binary variables and reports no solution only for a problem
    that has none, and the net has its arcs over its own places, each of
    weight 1, no cached incidence matrix, and is 1-safe from its initial
    marking, [is_deadlock_free] returns [True] on the reachable set that
    [compute_symbolic_reachability] computes from the initial marking only
    when the net has no deadlock: every marking that a sequence of firings
    reaches from the initial marking enables a transition. *)
Theorem is_deadlock_free_complete
    (solve : ILP.problem → option (ILP.lpvar → option Z)) (fuel fuel0 : nat)
    (net : PetriNet.t) (m0 : gmap string bool) (R : gset string → bool)
    (e : BDDReachability.t) (d : DeadlockDetector.t) :
  solver_binary solve → solver_complete solve →
  well_formed net → prime_free (PetriNet.places net) →
  ordinary net → one_safe net m0 →
  PetriNet.incidence net = None →
  PetriNet.initial_marking net = Some m0 →
  BDDReachability.compute_symbolic_reachability fuel0 m0
    (BDDReachability.__init__ net) = Ok (R, e) →
  DeadlockDetector.__init__ net (BDDReachability.reachable_bdd e)
    (BDDReachability.bdd_manager e) = Ok d →
  DeadlockDetector.is_deadlock_free solve fuel d = Ok true →
  ∀ m, reachable_from net m0 m →
       ∃ tr, tr ∈ PetriNet.transitions net
             ∧ PetriNet.is_enabled net tr m = Ok true.
Proof.
  intros Hbinary Hcomplete Hwf Hpf Hord Hsafe Hnone Hm0 Hcompute Hinit Hfree
    m Hreach.
  destruct (compute_completed net fuel0 m0 R e Hwf Hcompute)
    as (b & T & Hi & HR & _).
  pose proof (init_bdd _ _ _ _ Hi) as Hb.
  rewrite HR, Hb in Hinit. unfold DeadlockDetector.__init__ in Hinit.
  rewrite Hm0 in Hinit. injection Hinit as <-.
  unfold DeadlockDetector.is_deadlock_free in Hfree.
  apply bind_Ok in Hfree as ([r d'] & Hrun & Hr). cbn [fst] in Hr.
  destruct r as [deadlock|]; [done|]. clear Hr.
  unfold DeadlockDetector.detect_deadlock in Hrun.
  cbn [DeadlockDetector.net DeadlockDetector.reachable_bdd
       DeadlockDetector.manager DeadlockDetector.deadlocks
       DeadlockDetector.initial_marking] in Hrun.
  apply bind_Ok in Hrun as (src & Hsrc & Hrun). destruct src.
  { destruct (has_source_transition_found _ _ Hsrc) as (tr & a & Htr & Ha & Hin).
    apply elem_of_elements in Htr. exists tr. split; [done|].
    rewrite (is_enabled_arcs net tr a m Htr Ha), Hin. done. }
  destruct (decide (Exists (λ tr, PetriNet.is_enabled net tr m = Ok true)
                      (elements (PetriNet.transitions net)))) as [Hex|Hdead].
  { apply Exists_exists in Hex as (tr & Htr & Hen).
    apply elem_of_elements in Htr. eauto. }
  exfalso.
  apply bind_Ok in Hrun as ([c net'] & Hinc & Hrun). cbn [fst snd] in Hrun.
  unfold PetriNet.get_incidence in Hinc. rewrite Hnone in Hinc.
  apply bind_Ok in Hinc as (c' & Hc & Hinc). injection Hinc as -> <-.
  set (net' := PetriNet.Net _ _ _ _ (Some c)) in Hrun.
  set (d1 := DeadlockDetector.Detector net' R b [] (Marking.to_dict m0)) in Hrun.
  destruct (reachable_state_equation net m0 m c Hwf Hord Hsafe Hc Hreach)
    as (count & Hpos & Hstate).
  set (sol := solution_of m count).
  apply bind_Ok in Hrun as (prob1 & Hprob1 & Hrun).
  apply bind_Ok in Hrun as (prob3 & Hprob3 & Hrun).
  destruct (state_equations_hold d1 c sol count _ _ _ (λ tr, eq_refl) Hprob1)
    as (Hholds1 & Hbin1 & Hint1).
  { constructor. }
  { intros p m0p Hp Hm0p. apply elem_of_elements in Hp.
    cbn [d1 DeadlockDetector.initial_marking DeadlockDetector.net
         net' PetriNet.transitions] in Hm0p |- *.
    unfold Marking.to_dict in Hm0p. rewrite lookup_fmap in Hm0p.
    destruct (m0 !! p) as [t0|] eqn:Hp0; [|done]. cbn in Hm0p.
    injection Hm0p as <-.
    unfold sol, ILP.value, solution_of. cbn [default from_option]. unfold id.
    rewrite (Hstate p Hp). f_equal.
    unfold Marking.get_tokens, Marking.has_token. by rewrite Hp0. }
  cbn [ILP.binaries ILP.integers ILP.constraints] in Hbin1, Hint1.
  destruct (dead_constraints_hold d1 sol _ _ _ Hprob3) as (Hholds3 & Hbin3 & Hint3).
  { intros p. apply get_tokens_binary. }
  { done. }
  { intros tr a Htr Ha Hne. apply elem_of_elements in Htr.
    cbn [d1 DeadlockDetector.net net' PetriNet.arcs] in Ha.
    destruct (decide (Exists (λ p, Marking.has_token m p = false)
                        (PetriNet.input a))) as [Hex|Hall].
    - apply Exists_exists in Hex as (p & Hp & Hfalse). exists p.
      split; [done|]. unfold sol, ILP.value, solution_of, Marking.get_tokens.
      by rewrite Hfalse.
    - exfalso. apply Hdead. apply Exists_exists. exists tr.
      split; [by apply elem_of_elements|].
      rewrite (is_enabled_arcs net tr a m Htr Ha). f_equal.
      apply forallb_forall. intros p Hp. apply list_elem_of_In in Hp.
      destruct (Marking.has_token m p) eqn:Htok; [done|].
      exfalso. apply Hall. apply Exists_exists. eauto. }
  cbn [ILP.binaries ILP.integers ILP.constraints] in Hbin3, Hint3.
  apply (cutting_loop_complete solve d1 m count Hbinary Hcomplete) in Hrun;
    [done| | |].
  - intros a Ha Hagree.
    apply (reachable_satisfies net fuel0 m0 m R e b a); done.
  - intros p Hp. rewrite Hbin3, Hbin1. by apply elem_of_elements.
  - split; [|split; [|done]].
    + rewrite Hbin3, Hbin1. apply Forall_forall. intros p _.
      apply get_tokens_binary.
    + rewrite Hint3, Hint1. apply Forall_forall. intros tr _. apply Hpos.
Qed.

Lemma well_formed_net_cycle : well_formed net_cycle.
Proof.
  intros tr Htr. cbn in Htr.
  apply elem_of_union in Htr. rewrite !elem_of_singleton in Htr.
  destruct Htr as [-> | ->].
  - exists (PetriNet.ArcInfo ["p1"] ["p2"]). split; [done|].
    intros p Hp. cbn in Hp. cbn.
    apply elem_of_cons in Hp as [->|Hp]; [set_solver|].
    apply elem_of_cons in Hp as [->|Hp]; [set_solver|].
    by apply elem_of_nil in Hp.
  - exists (PetriNet.ArcInfo ["p2"] ["p1"]). split; [done|].
    intros p Hp. cbn in Hp. cbn.
    apply elem_of_cons in Hp as [->|Hp]; [set_solver|].
    apply elem_of_cons in Hp as [->|Hp]; [set_solver|].
    by apply elem_of_nil in Hp.
Qed.

Lemma prime_free_net_cycle : prime_free (PetriNet.places net_cycle).
Proof.
  intros p Hp. cbn in Hp. cbn.
  apply elem_of_union in Hp. rewrite !elem_of_singleton in Hp.
  intros Hin. apply elem_of_union in Hin. rewrite !elem_of_singleton in Hin.
  destruct Hp as [-> | ->], Hin as [Hin|Hin]; discriminate Hin.
Qed.

Lemma ordinary_net_cycle : ordinary net_cycle.
Proof.
  intros tr a Ha. cbn in Ha.
  apply lookup_insert_Some in Ha as [[_ <-]|[_ Ha]].
  - split; apply NoDup_singleton.
  - apply lookup_singleton_Some in Ha as [_ <-]. split; apply NoDup_singleton.
Qed.

Lemma reachable_net_cycle (m : gmap string bool) :
  reachable_from net_cycle {["p1" := true; "p2" := false]} m →
  m = {["p1" := true; "p2" := false]} ∨ m = {["p1" := false; "p2" := true]}.
Proof.
  revert m. apply rtc_ind_r; [by left|].
  intros m2 m3 _ (tr & Htr & Hfire) Hm2. cbn in Htr.
  apply elem_of_union in Htr. rewrite !elem_of_singleton in Htr.
  destruct Hm2 as [-> | ->], Htr as [-> | ->].
  - assert (PetriNet.fire_transition net_cycle "t1"
              {["p1" := true; "p2" := false]}
            = Ok {["p1" := false; "p2" := true]}) as Hf
      by (vm_compute; reflexivity).
    rewrite Hf in Hfire. injection Hfire as <-. by right.
  - assert (PetriNet.fire_transition net_cycle "t2"
              {["p1" := true; "p2" := false]}
            = Raise ValueError) as Hf by (vm_compute; reflexivity).
    rewrite Hf in Hfire. discriminate Hfire.
  - assert (PetriNet.fire_transition net_cycle "t1"
              {["p1" := false; "p2" := true]}
            = Raise ValueError) as Hf by (vm_compute; reflexivity).
    rewrite Hf in Hfire. discriminate Hfire.
  - assert (PetriNet.fire_transition net_cycle "t2"
              {["p1" := false; "p2" := true]}
            = Ok {["p1" := true; "p2" := false]}) as Hf
      by (vm_compute; reflexivity).
    rewrite Hf in Hfire. injection Hfire as <-. by left.
Qed.

Lemma one_safe_net_cycle :
  one_safe net_cycle {["p1" := true; "p2" := false]}.
Proof.
  intros m tr a Hreach Htr Ha Hen q Hq _. cbn in Htr.
  apply elem_of_union in Htr. rewrite !elem_of_singleton in Htr.
  destruct (reachable_net_cycle m Hreach) as [-> | ->], Htr as [-> | ->].
  - assert (a = PetriNet.ArcInfo ["p1"] ["p2"]) as ->.
    { vm_compute in Ha. by injection Ha as <-. }
    cbn in Hq. apply list_elem_of_singleton in Hq as ->. reflexivity.
  - vm_compute in Hen. discriminate Hen.
  - vm_compute in Hen. discriminate Hen.
  - assert (a = PetriNet.ArcInfo ["p2"] ["p1"]) as ->.
    { vm_compute in Ha. by injection Ha as <-. }
    cbn in Hq. apply list_elem_of_singleton in Hq as ->. reflexivity.
Qed.

Lemma solve_refuting_binary (cs : list ILP.constraint) :
  solver_binary (solve_refuting cs).
Proof.
  intros prob sol Hs. unfold solve_refuting in Hs.
  destruct (decide _); [done|]. injection Hs as <-.
  apply Forall_forall. intros p _. by left.
Qed.

Lemma solve_refuting_complete (cs : list ILP.constraint) :
  (∀ sol, ¬ Forall (ILP.holds sol) cs) → solver_complete (solve_refuting cs).
Proof.
  intros Hcs prob Hs sol (_ & _ & Hholds). unfold solve_refuting in Hs.
  destruct (decide _) as [Hall|]; [|done]. apply (Hcs sol).
  rewrite Forall_forall in Hall, Hholds |- *.
  intros c Hc. apply Hholds. by apply Hall.
Qed.

Lemma cycle_constraints_infeasible (sol : ILP.lpvar → option Z) :
  ¬ Forall (ILP.holds sol) cycle_constraints.
Proof.
  unfold cycle_constraints. intros H.
  apply Forall_cons in H as [H1 H]. apply Forall_cons in H as [H2 H].
  apply Forall_cons in H as [H3 H]. apply Forall_cons in H as [H4 _].
  unfold ILP.holds, ILP.eval, dead_constraint_of, ILP.lpSum in H1, H2, H3, H4.
  cbn in H1, H2, H3, H4. lia.
Qed.

Lemma symbolic_run_cycle :
  ∃ R e',
    BDDReachability.compute_symbolic_reachability 10
      {["p1" := true; "p2" := false]} (BDDReachability.__init__ net_cycle)
    = Ok (R, e').
Proof.
  assert (match BDDReachability.compute_symbolic_reachability 10
                  {["p1" := true; "p2" := false]}
                  (BDDReachability.__init__ net_cycle) with
          | Ok _ => true
          | Raise _ => false
          end = true) as Hok by (vm_compute; reflexivity).
  destruct (BDDReachability.compute_symbolic_reachability _ _ _) as [[R e']|];
    [eauto|discriminate Hok].
Qed.

Lemma is_deadlock_free_complete_witness :
  ∃ tr, tr ∈ PetriNet.transitions net_cycle
        ∧ PetriNet.is_enabled net_cycle tr {["p1" := false; "p2" := true]}
          = Ok true.
Proof.
  destruct symbolic_run_cycle as (R & e & Hrun).
  destruct (compute_completed net_cycle 10 _ R e well_formed_net_cycle Hrun)
    as (b & T & Hi & HR & _).
  pose proof (init_bdd _ _ _ _ Hi) as Hb.
  apply (is_deadlock_free_complete (solve_refuting cycle_constraints) 1 10
           net_cycle {["p1" := true; "p2" := false]} R e
           (DeadlockDetector.Detector net_cycle R b []
              (Marking.to_dict {["p1" := true; "p2" := false]}))).
  - apply solve_refuting_binary.
  - apply solve_refuting_complete, cycle_constraints_infeasible.
  - exact well_formed_net_cycle.
  - exact prime_free_net_cycle.
  - exact ordinary_net_cycle.
  - exact one_safe_net_cycle.
  - reflexivity.
  - reflexivity.
  - exact Hrun.
  - rewrite HR, Hb. reflexivity.
  - vm_compute. reflexivity.
  - apply rtc_once. exists "t1". split; [set_solver|].
    vm_compute. reflexivity.
Defined.
